(** * The multi-asset sensor cursor of [dagster._core.definitions.sensor_definition]

    A shallow embedding of the cursor codec, the tick context, the cursor
    advance accumulator and the wrapper around the user's evaluation function
    of [sensor_definition.py], followed by the properties proved about them.

    Conventions.
    - A Python [int] is a [Z]; a Python [str] is a [string].
    - A Python [dict] whose iteration order can be observed (every dict that
      is serialised with [json.dumps], or walked with [.items()]) is an
      insertion-ordered association list, with the operations [dict_get],
      [dict_set], [dict_pop]; dicts and sets that are only looked up are
      [gmap]s and [gset]s.
    - A raised exception is the [Raise] case of [Result]; the methods of the
      context run in the state-and-exception monad [Tick].
    - [AssetKey] is declared outside this module; the cursor only ever files
      an asset under [str(asset_key)], which determines the key, so an asset
      key is represented by that string. *)

From Stdlib Require Import ZArith String Ascii List Bool Lia DecimalPos DecimalN DecimalFacts.
From Stdlib Require Import SpecFloat.
From stdpp Require Import base option gmap strings list fin_maps sorting.

Set Warnings "-register-all".

Open Scope string_scope.
Open Scope Z_scope.

(** ** Exceptions and results *)

Inductive PyError : Type :=
| DagsterInvalidInvocationError
| DagsterInvariantViolationError
| DagsterInvalidDefinitionError
| CheckError
| JSONDecodeError
| TypeError
| AttributeError
| ValueError
| KeyError
| RecursionError.

Inductive Result (A : Type) : Type :=
| Ok (a : A)
| Raise (e : PyError).

Arguments Ok {A} a.
Arguments Raise {A} e.

#[global] Instance Result_ret : MRet Result := fun _ a => Ok a.
#[global] Instance Result_bind : MBind Result := fun _ _ f r =>
  match r with
  | Ok a => f a
  | Raise e => Raise e
  end.

(** ** Insertion-ordered dictionaries *)

Section Dict.
Context {K V : Type} `{EqDecision K}.

(** [d.get(k)] *)
Fixpoint dict_get (k : K) (d : list (K * V)) : option V :=
  match d with
  | [] => None
  | (k', v) :: d' => if decide (k = k') then Some v else dict_get k d'
  end.

(** [k in d] *)
Definition dict_mem (k : K) (d : list (K * V)) : bool :=
  match dict_get k d with Some _ => true | None => false end.

(** [d[k] = v]: an existing key keeps its place, a new one goes last. *)
Fixpoint dict_set (k : K) (v : V) (d : list (K * V)) : list (K * V) :=
  match d with
  | [] => [(k, v)]
  | (k', v') :: d' =>
      if decide (k = k') then (k, v) :: d' else (k', v') :: dict_set k v d'
  end.

(** [d.pop(k)] for a key that is present (nothing to do otherwise). *)
Fixpoint dict_pop (k : K) (d : list (K * V)) : list (K * V) :=
  match d with
  | [] => []
  | (k', v') :: d' =>
      if decide (k = k') then d' else (k', v') :: dict_pop k d'
  end.

(** [d.values()] *)
Definition dict_values (d : list (K * V)) : list V := map snd d.

(** [len(d)] *)
Definition dict_len (d : list (K * V)) : nat := length d.

(** The dict built by inserting the items one after the other. *)
Definition dict_of_items (items : list (K * V)) : list (K * V) :=
  fold_left (fun d kv => dict_set (fst kv) (snd kv) d) items [].

(** A Python dict never holds a key twice. *)
Definition dict_wf (d : list (K * V)) : Prop := NoDup (map fst d).
End Dict.

(** ** JSON values and the [json] module *)

(** What [json.loads] returns and [json.dumps] accepts. A Python [float] is
    an IEEE 754 double, given by its sign, mantissa and binary exponent, or
    a zero, an infinity or a NaN. A [JObj] lists the items of the dict in
    iteration order. *)
Inductive JSON : Type :=
| JNull
| JBool (b : bool)
| JInt (z : Z)
| JFloat (x : spec_float)
| JStr (s : string)
| JList (l : list JSON)
| JObj (items : list (string * JSON)).

(** The two functions of Python's [json] module the cursor uses;
    [json_loads] raises what [json.loads] raises on the string. *)
Class JsonCodec : Type := {
  json_dumps : JSON -> string;
  json_loads : string -> Result JSON
}.

(** ** The cursor component of one asset *)

Definition AssetKey : Type := string.

(** [str(asset_key)] *)
Definition str_asset_key (asset_key : AssetKey) : string := asset_key.

Definition MAX_NUM_UNCONSUMED_EVENTS : nat := 25.

Record MultiAssetSensorAssetCursorComponent : Type := {
  latest_consumed_event_partition : option string;
  latest_consumed_event_id : option Z;
  trailing_unconsumed_partitioned_event_ids : list (string * Z)
}.

(** Modelled from the spec: the parameter checks of [dagster._check] that
    [__new__] calls, which live outside this module. The spec types the three
    fields as an optional string, an optional int and a map from strings to
    ints; a check returns the value when it is of its type ([None] included
    for the optional ones) and raises [CheckError] otherwise. A Python [bool]
    is an [int]. *)
Definition opt_str_param (obj : JSON) : Result (option string) :=
  match obj with
  | JNull => Ok None
  | JStr s => Ok (Some s)
  | _ => Raise CheckError
  end.

Definition opt_int_param (obj : JSON) : Result (option Z) :=
  match obj with
  | JNull => Ok None
  | JInt z => Ok (Some z)
  | JBool b => Ok (Some (Z.b2z b))
  | _ => Raise CheckError
  end.

Fixpoint check_int_values (items : list (string * JSON)) : Result (list (string * Z)) :=
  match items with
  | [] => Ok []
  | (k, JInt z) :: rest => r ← check_int_values rest; Ok ((k, z) :: r)
  | (k, JBool b) :: rest => r ← check_int_values rest; Ok ((k, Z.b2z b) :: r)
  | _ => Raise CheckError
  end.

(** [check.dict_param(obj, ..., key_type=str, value_type=int)] *)
Definition dict_param_str_int (obj : JSON) : Result (list (string * Z)) :=
  match obj with
  | JObj items => check_int_values items
  | _ => Raise CheckError
  end.

(** [MultiAssetSensorAssetCursorComponent.__new__] on values that come out of
    [json.loads]. *)
Definition new_cursor_component (partition_key event_id trailing : JSON)
  : Result MultiAssetSensorAssetCursorComponent :=
  p ← opt_str_param partition_key;
  e ← opt_int_param event_id;
  t ← dict_param_str_int trailing;
  Ok {| latest_consumed_event_partition := p;
        latest_consumed_event_id := e;
        trailing_unconsumed_partitioned_event_ids := t |}.

(** ** The cursor within a tick: [MultiAssetSensorContextCursor] *)

Record MultiAssetSensorContextCursor : Type := {
  cursor_component_by_asset_key : list (string * MultiAssetSensorAssetCursorComponent);
  initial_latest_consumed_event_ids_by_asset_key : list (string * option Z)
}.

(** [len(obj)] *)
Definition py_len (obj : JSON) : Result nat :=
  match obj with
  | JStr s => Ok (String.length s)
  | JList l => Ok (length l)
  | JObj items => Ok (length items)
  | _ => Raise TypeError
  end.

Definition chars_of (s : string) : list JSON :=
  map (fun c => JStr (String c EmptyString)) (list_ascii_of_string s).

(** [a, b, c = obj]: a list gives its elements, a string its characters, a
    dict its keys. *)
Definition py_unpack3 (obj : JSON) : Result (JSON * JSON * JSON) :=
  match obj with
  | JNull | JBool _ | JInt _ | JFloat _ => Raise TypeError
  | JList l =>
      match l with [a; b; c] => Ok (a, b, c) | _ => Raise ValueError end
  | JStr s =>
      match chars_of s with [a; b; c] => Ok (a, b, c) | _ => Raise ValueError end
  | JObj items =>
      match map (fun kv => JStr (fst kv)) items with
      | [a; b; c] => Ok (a, b, c)
      | _ => Raise ValueError
      end
  end.

(** The loop of [__init__] over [loaded_cursor.items()]; the first entry
    whose length is not 3 ends it ([break]). *)
Fixpoint unpack_cursor_entries (items : list (string * JSON))
    (acc : MultiAssetSensorContextCursor) : Result MultiAssetSensorContextCursor :=
  match items with
  | [] => Ok acc
  | (str_key, cursor_list) :: rest =>
      n ← py_len cursor_list;
      if negb (Nat.eqb n 3) then Ok acc
      else
        '(partition_key, event_id, trailing) ← py_unpack3 cursor_list;
        component ← new_cursor_component partition_key event_id trailing;
        unpack_cursor_entries rest
          {| cursor_component_by_asset_key :=
               dict_set str_key component (cursor_component_by_asset_key acc);
             initial_latest_consumed_event_ids_by_asset_key :=
               dict_set str_key (latest_consumed_event_id component)
                 (initial_latest_consumed_event_ids_by_asset_key acc) |}
  end.

Definition empty_context_cursor : MultiAssetSensorContextCursor :=
  {| cursor_component_by_asset_key := [];
     initial_latest_consumed_event_ids_by_asset_key := [] |}.

(** The part of [__init__] after [json.loads]: only a dict has [.items()]. *)
Definition unpack_loaded_cursor (loaded_cursor : JSON)
  : Result MultiAssetSensorContextCursor :=
  match loaded_cursor with
  | JObj items => unpack_cursor_entries items empty_context_cursor
  | _ => Raise AttributeError
  end.

Definition opt_str_to_json (o : option string) : JSON :=
  match o with Some s => JStr s | None => JNull end.

Definition opt_int_to_json (o : option Z) : JSON :=
  match o with Some z => JInt z | None => JNull end.

(** How [json.dumps] sees a component: a named tuple is a JSON array. *)
Definition component_to_json (c : MultiAssetSensorAssetCursorComponent) : JSON :=
  JList [ opt_str_to_json (latest_consumed_event_partition c);
          opt_int_to_json (latest_consumed_event_id c);
          JObj (map (fun kv => (fst kv, JInt (snd kv)))
                    (trailing_unconsumed_partitioned_event_ids c)) ].

Definition cursor_to_json
    (d : list (string * MultiAssetSensorAssetCursorComponent)) : JSON :=
  JObj (map (fun kc => (fst kc, component_to_json (snd kc))) d).

Section Codec.
Context `{JsonCodec}.

(** [MultiAssetSensorContextCursor.__init__] *)
Definition new_context_cursor (cursor : option string)
  : Result MultiAssetSensorContextCursor :=
  loaded_cursor ←
    match cursor with
    | None => Ok (JObj [])
    | Some s =>
        if decide (s = EmptyString) then Ok (JObj []) else json_loads s
    end;
  unpack_loaded_cursor loaded_cursor.

(** [get_stringified_cursor] *)
Definition get_stringified_cursor (c : MultiAssetSensorContextCursor) : string :=
  json_dumps (cursor_to_json (cursor_component_by_asset_key c)).
End Codec.

(** [get_cursor_for_asset] *)
Definition get_cursor_for_asset (c : MultiAssetSensorContextCursor)
    (asset_key : AssetKey) : MultiAssetSensorAssetCursorComponent :=
  default {| latest_consumed_event_partition := None;
             latest_consumed_event_id := None;
             trailing_unconsumed_partitioned_event_ids := [] |}
          (dict_get (str_asset_key asset_key) (cursor_component_by_asset_key c)).

(** ** Event records and the event store *)

(** An [EventLogRecord] with the [DagsterEvent] of its [event_log_entry], of
    which the cursor reads the asset key and the partition. *)
Record DagsterEvent : Type := {
  event_asset_key : option AssetKey;
  event_partition : option string
}.

Record EventLogRecord : Type := {
  storage_id : Z;
  dagster_event : option DagsterEvent
}.

Definition _get_partition_key_from_event_log_record (event_log_record : EventLogRecord)
  : option string :=
  match dagster_event event_log_record with
  | Some ev => event_partition ev
  | None => None
  end.

Definition record_asset_key (event_log_record : EventLogRecord) : option AssetKey :=
  match dagster_event event_log_record with
  | Some ev => event_asset_key ev
  | None => None
  end.

(** [EventRecordsFilter]; the event type is always [ASSET_MATERIALIZATION],
    so the store below holds the materialization records only. *)
Record EventRecordsFilter : Type := {
  filter_asset_key : option AssetKey;
  filter_asset_partitions : option (list string);
  filter_after_cursor : option Z;
  filter_before_cursor : option Z;
  filter_storage_ids : option (list Z)
}.

Definition opt_test {A} (o : option A) (p : A -> bool) : bool :=
  match o with Some a => p a | None => true end.

Definition record_matches (f : EventRecordsFilter) (r : EventLogRecord) : bool :=
  opt_test (filter_asset_key f)
    (fun k => bool_decide (record_asset_key r = Some k))
  && opt_test (filter_asset_partitions f)
    (fun ps => match _get_partition_key_from_event_log_record r with
               | Some p => bool_decide (p ∈ ps)
               | None => false
               end)
  && opt_test (filter_after_cursor f) (fun c => c <? storage_id r)
  && opt_test (filter_before_cursor f) (fun c => storage_id r <? c)
  && opt_test (filter_storage_ids f) (fun ids => bool_decide (storage_id r ∈ ids)).

Definition opt_take {A} (limit : option nat) (l : list A) : list A :=
  match limit with Some n => take n l | None => l end.

(** Modelled from the spec: the event store client, which lives outside this
    module. The store is the append-only sequence of materialization records,
    in the order they were stored, which is the ascending order of their
    storage ids; a query returns the records that pass the filter, after and
    before being exclusive bounds, in ascending or descending order, cut to
    the limit. The store does not change during a tick. *)
Definition get_event_records (store : list EventLogRecord) (f : EventRecordsFilter)
    (ascending : bool) (limit : option nat) : list EventLogRecord :=
  let found := filter (fun r => record_matches f r = true) store in
  opt_take limit (if ascending then found else reverse found).

(** Modelled from the spec: [materializationCountByPartition] of the event
    store client, for one asset key and one partition. *)
Definition get_materialization_count (store : list EventLogRecord)
    (asset_key : AssetKey) (p : string) : nat :=
  length (filter (fun r => record_asset_key r = Some asset_key
                           ∧ _get_partition_key_from_event_log_record r = Some p) store).

(** ** The advance requests of a tick: [MultiAssetSensorCursorAdvances] *)

Record MultiAssetSensorCursorAdvances : Type := {
  advanced_record_ids_by_key : gmap AssetKey (gset Z);
  partition_key_by_record_id : gmap Z (option string);
  advance_all_cursors_called : bool
}.

(** [MultiAssetSensorCursorAdvances.__init__] *)
Definition new_cursor_advances : MultiAssetSensorCursorAdvances :=
  {| advanced_record_ids_by_key := ∅;
     partition_key_by_record_id := ∅;
     advance_all_cursors_called := false |}.

Definition add_advanced_record (adv : MultiAssetSensorCursorAdvances)
    (item : AssetKey * option EventLogRecord) : MultiAssetSensorCursorAdvances :=
  match snd item with
  | None => adv
  | Some materialization =>
      {| advanced_record_ids_by_key :=
           <[fst item :=
               {[storage_id materialization]}
               ∪ default ∅ (advanced_record_ids_by_key adv !! fst item)]>
             (advanced_record_ids_by_key adv);
         partition_key_by_record_id :=
           <[storage_id materialization :=
               _get_partition_key_from_event_log_record materialization]>
             (partition_key_by_record_id adv);
         advance_all_cursors_called := advance_all_cursors_called adv |}
  end.

(** [add_advanced_records]; the mapping is given by its items. *)
Definition add_advanced_records (adv : MultiAssetSensorCursorAdvances)
    (materialization_records_by_key : list (AssetKey * option EventLogRecord))
  : MultiAssetSensorCursorAdvances :=
  fold_left add_advanced_record materialization_records_by_key adv.

(** [max(s)] of a set of ints; [None] stands for the [ValueError] on the
    empty set. *)
Definition set_max (s : gset Z) : option Z :=
  match elements s with
  | [] => None
  | x :: l => Some (foldr Z.max x l)
  end.

(** ** The tick context: [MultiAssetSensorEvaluationContext] *)

(** A partitions definition is represented by its [get_partition_keys()];
    [_instance] is the event store of the instance the context was given, or
    of the one its reference opens, and [None] for a context that was given
    neither. *)
Record MultiAssetSensorEvaluationContext : Type := {
  asset_keys : list AssetKey;
  partitions_def_by_asset_key : AssetKey -> option (list string);
  _instance : option (list EventLogRecord);
  cursor : option string;
  unpacked_cursor : MultiAssetSensorContextCursor;
  cursor_has_been_updated : bool;
  cursor_advance_state_mutation : MultiAssetSensorCursorAdvances;
  initial_unconsumed_events_by_id : gmap Z EventLogRecord;
  fetched_initial_unconsumed_events : bool
}.

(** A method of the context: it reads and updates the context and either
    returns or raises. *)
Definition Tick (A : Type) : Type :=
  MultiAssetSensorEvaluationContext -> Result (A * MultiAssetSensorEvaluationContext).

Definition tick_ret {A} (a : A) : Tick A := fun ctx => Ok (a, ctx).

Definition tick_bind {A B} (m : Tick A) (f : A -> Tick B) : Tick B :=
  fun ctx =>
    match m ctx with
    | Ok (a, ctx') => f a ctx'
    | Raise e => Raise e
    end.

Definition tick_raise {A} (e : PyError) : Tick A := fun _ => Raise e.

Definition tick_lift {A} (r : Result A) : Tick A := fun ctx =>
  match r with
  | Ok a => Ok (a, ctx)
  | Raise e => Raise e
  end.

Definition tick_get : Tick MultiAssetSensorEvaluationContext := fun ctx => Ok (ctx, ctx).

#[global] Instance Tick_ret : MRet Tick := @tick_ret.
#[global] Instance Tick_bind : MBind Tick := fun _ _ f m => tick_bind m f.

Fixpoint tick_mapM {A B} (f : A -> Tick B) (l : list A) : Tick (list B) :=
  match l with
  | [] => tick_ret []
  | a :: l' =>
      b ← f a; bs ← tick_mapM f l'; mret (b :: bs)
  end.

Definition tick_modify
    (f : MultiAssetSensorEvaluationContext -> MultiAssetSensorEvaluationContext)
  : Tick unit := fun ctx => Ok (tt, f ctx).

(** [for x in l: acc = f(acc, x)] *)
Fixpoint tick_foldM {A B} (f : B -> A -> Tick B) (l : list A) (acc : B) : Tick B :=
  match l with
  | [] => mret acc
  | a :: l' => acc' ← f acc a; tick_foldM f l' acc'
  end.

(** The [instance] property of [SensorEvaluationContext]: a context without
    an instance and without a reference to one raises. *)
Definition read_instance : Tick (list EventLogRecord) := fun ctx =>
  match _instance ctx with
  | Some store => Ok (store, ctx)
  | None => Raise DagsterInvariantViolationError
  end.

(** The event store of a context that has one (there are no records to
    speak of otherwise). *)
Definition instance (ctx : MultiAssetSensorEvaluationContext) : list EventLogRecord :=
  default [] (_instance ctx).

Definition has_instance (ctx : MultiAssetSensorEvaluationContext) : Prop :=
  is_Some (_instance ctx).

Definition set_cache (cache : gmap Z EventLogRecord) (fetched : bool)
    (ctx : MultiAssetSensorEvaluationContext) : MultiAssetSensorEvaluationContext :=
  {| asset_keys := asset_keys ctx;
     partitions_def_by_asset_key := partitions_def_by_asset_key ctx;
     _instance := _instance ctx;
     cursor := cursor ctx;
     unpacked_cursor := unpacked_cursor ctx;
     cursor_has_been_updated := cursor_has_been_updated ctx;
     cursor_advance_state_mutation := cursor_advance_state_mutation ctx;
     initial_unconsumed_events_by_id := cache;
     fetched_initial_unconsumed_events := fetched |}.

Definition set_advances (adv : MultiAssetSensorCursorAdvances) (updated : bool)
    (ctx : MultiAssetSensorEvaluationContext) : MultiAssetSensorEvaluationContext :=
  {| asset_keys := asset_keys ctx;
     partitions_def_by_asset_key := partitions_def_by_asset_key ctx;
     _instance := _instance ctx;
     cursor := cursor ctx;
     unpacked_cursor := unpacked_cursor ctx;
     cursor_has_been_updated := updated;
     cursor_advance_state_mutation := adv;
     initial_unconsumed_events_by_id := initial_unconsumed_events_by_id ctx;
     fetched_initial_unconsumed_events := fetched_initial_unconsumed_events ctx |}.

Definition set_unpacked_cursor (c : MultiAssetSensorContextCursor)
    (ctx : MultiAssetSensorEvaluationContext) : MultiAssetSensorEvaluationContext :=
  {| asset_keys := asset_keys ctx;
     partitions_def_by_asset_key := partitions_def_by_asset_key ctx;
     _instance := _instance ctx;
     cursor := cursor ctx;
     unpacked_cursor := c;
     cursor_has_been_updated := cursor_has_been_updated ctx;
     cursor_advance_state_mutation := cursor_advance_state_mutation ctx;
     initial_unconsumed_events_by_id := initial_unconsumed_events_by_id ctx;
     fetched_initial_unconsumed_events := fetched_initial_unconsumed_events ctx |}.

(** [_get_cursor] *)
Definition _get_cursor (ctx : MultiAssetSensorEvaluationContext) (asset_key : AssetKey)
  : MultiAssetSensorAssetCursorComponent :=
  get_cursor_for_asset (unpacked_cursor ctx) asset_key.

(** [cache.update({r.storage_id: r for r in event_records})] *)
Definition cache_update (cache : gmap Z EventLogRecord) (event_records : list EventLogRecord)
  : gmap Z EventLogRecord :=
  fold_left (fun c r => <[storage_id r := r]> c) event_records cache.

Definition storage_ids_filter (ids : list Z) : EventRecordsFilter :=
  {| filter_asset_key := None; filter_asset_partitions := None;
     filter_after_cursor := None; filter_before_cursor := None;
     filter_storage_ids := Some ids |}.

(** The loop of [_cache_initial_unconsumed_events] over the asset keys;
    every turn reads [self.instance] ([get_event_records] is descending
    unless told otherwise). *)
Fixpoint fill_cache (keys : list AssetKey) : Tick unit :=
  match keys with
  | [] => mret tt
  | asset_key :: keys' =>
      store ← read_instance;
      tick_modify (fun ctx =>
        set_cache
          (cache_update (initial_unconsumed_events_by_id ctx)
             (get_event_records store
                (storage_ids_filter
                   (dict_values
                      (trailing_unconsumed_partitioned_event_ids (_get_cursor ctx asset_key))))
                false None))
          (fetched_initial_unconsumed_events ctx) ctx);;
      fill_cache keys'
  end.

(** [_cache_initial_unconsumed_events] *)
Definition _cache_initial_unconsumed_events : Tick unit :=
  ctx ← tick_get;
  if fetched_initial_unconsumed_events ctx then mret tt
  else
    fill_cache (asset_keys ctx);;
    tick_modify (fun ctx' => set_cache (initial_unconsumed_events_by_id ctx') true ctx').

(** [_get_unconsumed_events_with_ids] *)
Definition _get_unconsumed_events_with_ids (event_ids : list Z) : Tick (list EventLogRecord) :=
  _cache_initial_unconsumed_events;;
  ctx ← tick_get;
  mret (omap (fun event_id => initial_unconsumed_events_by_id ctx !! event_id)
             (merge_sort Z.le event_ids)).

(** [get_trailing_unconsumed_events] *)
Definition get_trailing_unconsumed_events (asset_key : AssetKey) : Tick (list EventLogRecord) :=
  ctx ← tick_get;
  _get_unconsumed_events_with_ids
    (dict_values (trailing_unconsumed_partitioned_event_ids (_get_cursor ctx asset_key))).

Definition asset_filter (asset_key : AssetKey) (asset_partitions : option (list string))
    (after_cursor before_cursor : option Z) : EventRecordsFilter :=
  {| filter_asset_key := Some asset_key;
     filter_asset_partitions := asset_partitions;
     filter_after_cursor := after_cursor;
     filter_before_cursor := before_cursor;
     filter_storage_ids := None |}.

(** [latest_materialization_records_by_key] *)
Definition latest_materialization_records_by_key (keys : option (list AssetKey))
  : Tick (list (AssetKey * option EventLogRecord)) :=
  ctx ← tick_get;
  tick_foldM
    (fun asset_event_records a =>
       store ← read_instance;
       mret (dict_set a
               (head (get_event_records store
                        (asset_filter a None (latest_consumed_event_id (_get_cursor ctx a)) None)
                        false (Some 1%nat)))
               asset_event_records))
    (default (asset_keys ctx) keys) [].

(** [materialization_records_for_key] *)
Definition materialization_records_for_key (asset_key : AssetKey) (limit : nat)
  : Tick (list EventLogRecord) :=
  ctx ← tick_get;
  if bool_decide (asset_key ∈ asset_keys ctx) then
    store ← read_instance;
    mret (get_event_records store
            (asset_filter asset_key None (latest_consumed_event_id (_get_cursor ctx asset_key)) None)
            true (Some limit))
  else tick_raise DagsterInvalidInvocationError.

(** [l.index(x)] *)
Fixpoint py_index (x : string) (l : list string) : option nat :=
  match l with
  | [] => None
  | y :: l' => if decide (x = y) then Some 0%nat else S <$> py_index x l'
  end.

(** [_get_partitions_after_cursor] *)
Definition _get_partitions_after_cursor (asset_key : AssetKey) : Tick (list string) :=
  ctx ← tick_get;
  match partitions_def_by_asset_key ctx asset_key with
  | None => tick_raise DagsterInvalidInvocationError
  | Some partitions_to_fetch =>
      match latest_consumed_event_partition (_get_cursor ctx asset_key) with
      | None => mret partitions_to_fetch
      | Some partition_key =>
          match py_index partition_key partitions_to_fetch with
          | Some i => mret (drop (S i) partitions_to_fetch)
          | None => tick_raise ValueError
          end
      end
  end.

(** Moving a partition to the end of the [OrderedDict]. *)
Definition ordered_put (partition : string) (r : EventLogRecord)
    (d : list (string * EventLogRecord)) : list (string * EventLogRecord) :=
  dict_set partition r (if dict_mem partition d then dict_pop partition d else d).

Definition by_storage_id (a b : EventLogRecord) : Prop := storage_id a <= storage_id b.

#[global] Instance by_storage_id_dec a b : Decision (by_storage_id a b).
Proof. unfold by_storage_id. apply _. Defined.

(** [latest_materialization_records_by_partition] *)
Definition latest_materialization_records_by_partition (asset_key : AssetKey)
    (after_cursor_partition : bool) : Tick (list (string * EventLogRecord)) :=
  ctx ← tick_get;
  if negb (bool_decide (asset_key ∈ asset_keys ctx)) then
    tick_raise DagsterInvalidInvocationError
  else
    match partitions_def_by_asset_key ctx asset_key with
    | None => tick_raise DagsterInvariantViolationError
    | Some partition_keys =>
        partitions_to_fetch ←
          (if after_cursor_partition then _get_partitions_after_cursor asset_key
           else mret partition_keys);
        unconsumed ← _get_unconsumed_events_with_ids
          (dict_values (trailing_unconsumed_partitioned_event_ids (_get_cursor ctx asset_key)));
        let seeded :=
          fold_left
            (fun d unconsumed_event =>
               match _get_partition_key_from_event_log_record unconsumed_event with
               | Some partition =>
                   if bool_decide (partition ∈ partitions_to_fetch)
                   then ordered_put partition unconsumed_event d else d
               | None => d
               end)
            (merge_sort by_storage_id unconsumed) [] in
        store ← read_instance;
        mret (fold_left
                (fun d materialization =>
                   match _get_partition_key_from_event_log_record materialization with
                   | Some partition => ordered_put partition materialization d
                   | None => d
                   end)
                (get_event_records store
                   (asset_filter asset_key (Some partitions_to_fetch)
                      (latest_consumed_event_id (_get_cursor ctx asset_key)) None)
                   true None)
                seeded)
    end.

(** [latest_materialization_records_by_partition_and_asset] *)
Definition latest_materialization_records_by_partition_and_asset
  : Tick (list (string * list (AssetKey * EventLogRecord))) :=
  ctx ← tick_get;
  let partitions_defs := map (partitions_def_by_asset_key ctx) (asset_keys ctx) in
  match partitions_defs with
  | [] => tick_raise DagsterInvalidInvocationError
  | first :: _ =>
      if forallb (fun x => bool_decide (x = first)) partitions_defs then
        by_asset ← tick_mapM
          (fun asset_key =>
             m ← latest_materialization_records_by_partition asset_key false;
             mret (asset_key, m))
          (asset_keys ctx);
        mret (fold_left
                (fun acc am =>
                   fold_left
                     (fun acc' pm =>
                        dict_set (fst pm)
                          (dict_set (fst am) (snd pm) (default [] (dict_get (fst pm) acc')))
                          acc')
                     (snd am) acc)
                by_asset [])
      else tick_raise DagsterInvalidInvocationError
  end.

(** [get_cursor_partition]; [None] is never one of the asset keys. *)
Definition get_cursor_partition (asset_key : option AssetKey) : Tick (option string) :=
  ctx ← tick_get;
  if negb (match asset_key with
           | Some k => bool_decide (k ∈ asset_keys ctx)
           | None => false
           end)
  then tick_raise DagsterInvalidInvocationError
  else
    match asset_key with
    | Some k => mret (latest_consumed_event_partition (_get_cursor ctx k))
    | None =>
        match asset_keys ctx with
        | [k] => mret (latest_consumed_event_partition (_get_cursor ctx k))
        | _ => tick_raise DagsterInvalidInvocationError
        end
    end.

(** [all_partitions_materialized] *)
Definition all_partitions_materialized (asset_key : AssetKey)
    (partitions : option (list string)) : Tick bool :=
  ctx ← tick_get;
  match partitions with
  | Some [] => tick_raise DagsterInvalidInvocationError
  | _ =>
      store ← read_instance;
      let all_materialized (ps : list string) :=
        forallb (fun p => negb (Nat.eqb (get_materialization_count store asset_key p) 0)) ps in
      match partitions with
      | Some ps => mret (all_materialized ps)
      | None =>
          if negb (bool_decide (asset_key ∈ asset_keys ctx)) then
            tick_raise DagsterInvariantViolationError
          else
            match partitions_def_by_asset_key ctx asset_key with
            | None => tick_raise DagsterInvariantViolationError
            | Some ps => mret (all_materialized ps)
            end
      end
  end.

(** [advance_cursor] *)
Definition advance_cursor
    (materialization_records_by_key : list (AssetKey * option EventLogRecord)) : Tick unit :=
  tick_modify (fun ctx =>
    set_advances
      (add_advanced_records (cursor_advance_state_mutation ctx) materialization_records_by_key)
      true ctx).

Definition set_advance_all_cursors_called (adv : MultiAssetSensorCursorAdvances)
  : MultiAssetSensorCursorAdvances :=
  {| advanced_record_ids_by_key := advanced_record_ids_by_key adv;
     partition_key_by_record_id := partition_key_by_record_id adv;
     advance_all_cursors_called := true |}.

(** [advance_all_cursors] *)
Definition advance_all_cursors : Tick unit :=
  materializations_by_key ← latest_materialization_records_by_key None;
  tick_modify (fun ctx =>
    set_advances
      (set_advance_all_cursors_called
         (add_advanced_records (cursor_advance_state_mutation ctx) materializations_by_key))
      true ctx).

(** ** Folding the advance requests into the next cursor *)

(** [x or 0] for an optional int. *)
Definition or_zero (o : option Z) : Z := default 0 o.

(** The body of the loop over [unconsumed_events]. *)
Definition record_unconsumed (advanced_records : gset Z) (d : list (string * Z))
    (event : EventLogRecord) : list (string * Z) :=
  match _get_partition_key_from_event_log_record event with
  | Some partition =>
      if negb (bool_decide (storage_id event ∈ advanced_records)) then
        dict_set partition (storage_id event) d
      else if dict_mem partition d then dict_pop partition d
      else d
  | None => d
  end.

(** [if p is not None and p in d: d.pop(p)] *)
Definition pop_consumed_partition (p : option string) (d : list (string * Z))
  : list (string * Z) :=
  match p with
  | Some partition => if dict_mem partition d then dict_pop partition d else d
  | None => d
  end.

Definition with_trailing (c : MultiAssetSensorAssetCursorComponent) (d : list (string * Z))
  : MultiAssetSensorAssetCursorComponent :=
  {| latest_consumed_event_partition := latest_consumed_event_partition c;
     latest_consumed_event_id := latest_consumed_event_id c;
     trailing_unconsumed_partitioned_event_ids := d |}.

(** [latest_unconsumed_record_by_partition] is the very dict of the tick-start
    component, so what the loop writes shows in the context's cursor when the
    asset has an entry there (the component of an asset without one is made
    afresh by [get_cursor_for_asset]). *)
Definition write_trailing (asset_key : AssetKey) (d : list (string * Z))
    (c : MultiAssetSensorContextCursor) : MultiAssetSensorContextCursor :=
  match dict_get (str_asset_key asset_key) (cursor_component_by_asset_key c) with
  | Some component =>
      {| cursor_component_by_asset_key :=
           dict_set (str_asset_key asset_key) (with_trailing component d)
                    (cursor_component_by_asset_key c);
         initial_latest_consumed_event_ids_by_asset_key :=
           initial_latest_consumed_event_ids_by_asset_key c |}
  | None => c
  end.

(** [get_asset_cursor_with_advances]; its [initial_cursor] argument is the
    context's own [_unpacked_cursor]. *)
Definition get_asset_cursor_with_advances (adv : MultiAssetSensorCursorAdvances)
    (asset_key : AssetKey) : Tick MultiAssetSensorAssetCursorComponent :=
  ctx ← tick_get;
  let advanced_records := default ∅ (advanced_record_ids_by_key adv !! asset_key) in
  if Nat.eqb (size advanced_records) 0 then mret (_get_cursor ctx asset_key)
  else
    let initial_asset_cursor := _get_cursor ctx asset_key in
    let latest_consumed_event_id_at_tick_start :=
      latest_consumed_event_id initial_asset_cursor in
    match set_max advanced_records with
    | None => tick_raise ValueError
    | Some greatest_consumed_event_id_in_tick =>
        match partition_key_by_record_id adv !! greatest_consumed_event_id_in_tick with
        | None => tick_raise KeyError
        | Some latest_consumed_partition_in_tick =>
            let moved := or_zero latest_consumed_event_id_at_tick_start
                         <? greatest_consumed_event_id_in_tick in
            let result (d : list (string * Z)) :=
              {| latest_consumed_event_partition :=
                   if moved then latest_consumed_partition_in_tick
                   else latest_consumed_event_partition initial_asset_cursor;
                 latest_consumed_event_id :=
                   if moved then Some greatest_consumed_event_id_in_tick
                   else latest_consumed_event_id_at_tick_start;
                 trailing_unconsumed_partitioned_event_ids := d |} in
            if advance_all_cursors_called adv then mret (result [])
            else
              trailing ← get_trailing_unconsumed_events asset_key;
              fresh ←
                (if moved then
                   store ← read_instance;
                   mret (get_event_records store
                           (asset_filter asset_key None latest_consumed_event_id_at_tick_start
                              (Some greatest_consumed_event_id_in_tick))
                           true None)
                 else mret []);
              let unconsumed_events := app trailing fresh in
              let latest_unconsumed_record_by_partition :=
                pop_consumed_partition latest_consumed_partition_in_tick
                  (fold_left (record_unconsumed advanced_records) unconsumed_events
                     (trailing_unconsumed_partitioned_event_ids initial_asset_cursor)) in
              tick_modify (fun c =>
                set_unpacked_cursor
                  (write_trailing asset_key latest_unconsumed_record_by_partition
                     (unpacked_cursor c)) c);;
              if (MAX_NUM_UNCONSUMED_EVENTS <=? dict_len latest_unconsumed_record_by_partition)%nat
              then tick_raise DagsterInvariantViolationError
              else mret (result latest_unconsumed_record_by_partition)
        end
    end.

(** The dict comprehension of [get_cursor_with_advances]. *)
Definition asset_cursors_with_advances (adv : MultiAssetSensorCursorAdvances)
  : Tick (list (string * MultiAssetSensorAssetCursorComponent)) :=
  ctx ← tick_get;
  items ← tick_mapM
    (fun asset_key =>
       component ← get_asset_cursor_with_advances adv asset_key;
       mret (str_asset_key asset_key, component))
    (asset_keys ctx);
  mret (dict_of_items items).

Section Finalization.
Context `{JsonCodec}.

(** [get_cursor_with_advances] *)
Definition get_cursor_with_advances (adv : MultiAssetSensorCursorAdvances)
  : Tick (option string) :=
  if Nat.eqb (size (advanced_record_ids_by_key adv)) 0 then mret None
  else
    components ← asset_cursors_with_advances adv;
    mret (Some (json_dumps (cursor_to_json components))).

(** [update_cursor_after_evaluation] *)
Definition update_cursor_after_evaluation : Tick unit :=
  ctx ← tick_get;
  new_cursor ← get_cursor_with_advances (cursor_advance_state_mutation ctx);
  match new_cursor with
  | None => mret tt
  | Some s =>
      unpacked ← tick_lift (new_context_cursor (Some s));
      tick_modify (fun ctx' =>
        {| asset_keys := asset_keys ctx';
           partitions_def_by_asset_key := partitions_def_by_asset_key ctx';
           _instance := _instance ctx';
           cursor := Some s;
           unpacked_cursor := unpacked;
           cursor_has_been_updated := cursor_has_been_updated ctx';
           cursor_advance_state_mutation := new_cursor_advances;
           initial_unconsumed_events_by_id := initial_unconsumed_events_by_id ctx';
           fetched_initial_unconsumed_events := fetched_initial_unconsumed_events ctx' |})
  end.
End Finalization.

(** ** One evaluation of the user's function *)

(** What the user's function may hand back. *)
Inductive SensorItem : Type :=
| RunRequest (run_key job_name : option string)
| SkipReason (skip_message : option string)
| OtherObject.

(** The value of [materialization_fn(context)]: [None], a generator or list
    (given by the items it yields), or a single object. *)
Inductive ReturnValue : Type :=
| ReturnsNone
| ReturnsItems (items : list SensorItem)
| ReturnsObject (item : SensorItem).

(** The methods of the context a user's function can call. Of the public
    methods only [get_downstream_partition_keys], which reads the asset
    definitions and nothing of the context's cursor state, and the inherited
    [update_cursor], which overwrites the cursor string itself, are left
    out. *)
Inductive ContextCall : Type :=
| call_get_trailing_unconsumed_events (asset_key : AssetKey)
| call_latest_materialization_records_by_key (keys : option (list AssetKey))
| call_materialization_records_for_key (asset_key : AssetKey) (limit : nat)
| call_latest_materialization_records_by_partition (asset_key : AssetKey)
    (after_cursor_partition : bool)
| call_latest_materialization_records_by_partition_and_asset
| call_get_cursor_partition (asset_key : option AssetKey)
| call_all_partitions_materialized (asset_key : AssetKey) (partitions : option (list string))
| call_advance_cursor (materialization_records_by_key : list (AssetKey * option EventLogRecord))
| call_advance_all_cursors.

Definition is_advance_call (c : ContextCall) : bool :=
  match c with
  | call_advance_cursor _ | call_advance_all_cursors => true
  | _ => false
  end.

Definition run_call (c : ContextCall) : Tick unit :=
  match c with
  | call_get_trailing_unconsumed_events k =>
      get_trailing_unconsumed_events k;; mret tt
  | call_latest_materialization_records_by_key ks =>
      latest_materialization_records_by_key ks;; mret tt
  | call_materialization_records_for_key k limit =>
      materialization_records_for_key k limit;; mret tt
  | call_latest_materialization_records_by_partition k after =>
      latest_materialization_records_by_partition k after;; mret tt
  | call_latest_materialization_records_by_partition_and_asset =>
      latest_materialization_records_by_partition_and_asset;; mret tt
  | call_get_cursor_partition k =>
      get_cursor_partition k;; mret tt
  | call_all_partitions_materialized k ps =>
      all_partitions_materialized k ps;; mret tt
  | call_advance_cursor m => advance_cursor m
  | call_advance_all_cursors => advance_all_cursors
  end.

Fixpoint run_calls (cs : list ContextCall) : Tick unit :=
  match cs with
  | [] => mret tt
  | c :: cs' => run_call c;; run_calls cs'
  end.

(** One run of the user's function on the context: the methods it calls, in
    order, and the value it returns. A call that raises ends the run. *)
Record Evaluation : Type := {
  context_calls : list ContextCall;
  return_value : ReturnValue
}.

Definition materialization_fn (ev : Evaluation) : Tick ReturnValue :=
  run_calls (context_calls ev);; mret (return_value ev).

Section Sensor.
Context `{JsonCodec}.

(** [MultiAssetSensorEvaluationContext.__init__], from the resolved asset
    keys, their partitions definitions, the event store and the cursor. *)
Definition new_context (keys : list AssetKey)
    (partitions_defs : AssetKey -> option (list string))
    (instance : option (list EventLogRecord)) (cursor_str : option string)
  : Result MultiAssetSensorEvaluationContext :=
  unpacked ← new_context_cursor cursor_str;
  Ok {| asset_keys := keys;
        partitions_def_by_asset_key := partitions_defs;
        _instance := instance;
        cursor := cursor_str;
        unpacked_cursor := unpacked;
        cursor_has_been_updated := false;
        cursor_advance_state_mutation := new_cursor_advances;
        initial_unconsumed_events_by_id := ∅;
        fetched_initial_unconsumed_events := false |}.

(** [_fn] of [MultiAssetSensorDefinition.__init__._wrap_asset_fn], drained
    to the end as [evaluate_tick] does: the items it yields. *)
Definition _fn (ev : Evaluation) : Tick (list SensorItem) :=
  result ← materialization_fn ev;
  match result with
  | ReturnsNone => mret []
  | _ =>
      let '(yielded, runs_yielded) :=
        match result with
        | ReturnsNone => ([], false)
        | ReturnsItems items => (items, negb (Nat.eqb (length items) 0))
        | ReturnsObject (RunRequest k j) => ([RunRequest k j], true)
        | ReturnsObject (SkipReason m) => ([SkipReason m], false)
        | ReturnsObject OtherObject => ([], false)
        end in
      ctx ← tick_get;
      if runs_yielded && negb (cursor_has_been_updated ctx) then
        tick_raise DagsterInvalidDefinitionError
      else
        update_cursor_after_evaluation;; mret yielded
  end.
End Sensor.

(** ** Python's [json] module on the values above

    [json.dumps] with its defaults (separators [", "] and [": "],
    [ensure_ascii], [allow_nan]) and [json.loads] with its defaults (strict
    strings, white space between tokens, a repeated key keeps its first place
    and its last value, [NaN] and the infinities are read). A character is a
    code point below 256; an escape for a larger one is outside the model and
    read as an error. An int is read and written whatever the number of its
    digits: the limit an interpreter may put on the conversion
    ([sys.set_int_max_str_digits]) is taken to be off. The depth to which
    [json.loads] follows nested lists and dicts before it raises
    [RecursionError] is what the interpreter's recursion limit leaves at the
    call; it is a parameter of [loads_within], and [loads] takes the limit
    itself. *)
Module PyJson.

#[local] Open Scope list_scope.

Definition is_ws (c : ascii) : bool :=
  match c with
  | " " | "009" | "010" | "013" => true
  | _ => false
  end%char.

Fixpoint skip_ws (s : list ascii) : list ascii :=
  match s with
  | c :: s' => if is_ws c then skip_ws s' else s
  | [] => []
  end.

Definition hex_digit (n : nat) : ascii :=
  nth n (list_ascii_of_string "0123456789abcdef") "0"%char.

(** The value of a hexadecimal digit, in either case. *)
Definition hex_value (c : ascii) : option nat :=
  let n := nat_of_ascii c in
  if ((48 <=? n) && (n <=? 57))%nat then Some (n - 48)%nat
  else if ((97 <=? n) && (n <=? 102))%nat then Some (n - 87)%nat
  else if ((65 <=? n) && (n <=? 70))%nat then Some (n - 55)%nat
  else None.

(** One character of a string, as [ensure_ascii] writes it. *)
Definition escape_char (c : ascii) : list ascii :=
  match c with
  | "034" => ["092"; "034"]
  | "092" => ["092"; "092"]
  | "010" => ["092"; "n"]
  | "013" => ["092"; "r"]
  | "009" => ["092"; "t"]
  | "008" => ["092"; "b"]
  | "012" => ["092"; "f"]
  | _ =>
      let n := nat_of_ascii c in
      if ((32 <=? n) && (n <=? 126))%nat then [c]
      else ["092"; "u"; "0"; "0"; hex_digit (n / 16); hex_digit (n mod 16)]
  end%char.

Definition print_string (s : string) : list ascii :=
  ("034"%char :: flat_map escape_char (list_ascii_of_string s)) ++ ["034"%char].

Fixpoint print_uint (u : Decimal.uint) : list ascii :=
  match u with
  | Decimal.Nil => []
  | Decimal.D0 u' => "0" :: print_uint u'
  | Decimal.D1 u' => "1" :: print_uint u'
  | Decimal.D2 u' => "2" :: print_uint u'
  | Decimal.D3 u' => "3" :: print_uint u'
  | Decimal.D4 u' => "4" :: print_uint u'
  | Decimal.D5 u' => "5" :: print_uint u'
  | Decimal.D6 u' => "6" :: print_uint u'
  | Decimal.D7 u' => "7" :: print_uint u'
  | Decimal.D8 u' => "8" :: print_uint u'
  | Decimal.D9 u' => "9" :: print_uint u'
  end%char.

Definition print_int (z : Z) : list ascii :=
  match z with
  | Z0 => ["0"%char]
  | Zpos p => print_uint (Pos.to_uint p)
  | Zneg p => "-"%char :: print_uint (Pos.to_uint p)
  end.

(** The double nearest to [digits * 10 ^ exponent], as [float] reads a
    decimal literal: a tie goes to the even mantissa, a value too large is
    an infinity and one too small a zero. *)
Definition float_of_decimal (negative : bool) (digits : N) (exponent : Z) : spec_float :=
  match digits with
  | N0 => S754_zero negative
  | Npos m =>
      if 0 <=? exponent then
        binary_round 53 1024 negative (m * Z.to_pos (10 ^ exponent)) 0
      else
        SFdiv 53 1024 (S754_finite negative m 0)
          (S754_finite false (Z.to_pos (10 ^ (- exponent))) 0)
  end.

Definition float_eqb (a b : spec_float) : bool :=
  match a, b with
  | S754_zero s, S754_zero s' => Bool.eqb s s'
  | S754_infinity s, S754_infinity s' => Bool.eqb s s'
  | S754_nan, S754_nan => true
  | S754_finite s m e, S754_finite s' m' e' =>
      Bool.eqb s s' && Pos.eqb m m' && Z.eqb e e'
  | _, _ => false
  end.

(** [num / den >= 10 ^ k] *)
Definition at_least_pow10 (num den : positive) (k : Z) : bool :=
  if 0 <=? k then Z.pos den * 10 ^ k <=? Z.pos num
  else Z.pos den <=? Z.pos num * 10 ^ (- k).

(** The [k] with [10 ^ k <= num / den < 10 ^ (k + 1)], from the numbers of
    decimal digits of [num] and [den]. *)
Definition floor_log10 (num den : positive) : Z :=
  let k := Z.of_nat (Decimal.nb_digits (Pos.to_uint num))
           - Z.of_nat (Decimal.nb_digits (Pos.to_uint den)) in
  if at_least_pow10 num den k then k else k - 1.

(** [num / den * 10 ^ s] as a fraction. *)
Definition scale10 (num den : positive) (s : Z) : Z * Z :=
  if 0 <=? s then (Z.pos num * 10 ^ s, Z.pos den)
  else (Z.pos num, Z.pos den * 10 ^ (- s)).

(** The shortest decimal [c * 10 ^ x], from [n] digits on, that [float]
    reads back as the double [f = num / den], and the nearer one when two
    of that length do: the digits of [repr]. With 17 digits the nearest
    decimal always does. *)
Fixpoint shortest_decimal (fuel : nat) (n : Z) (f : spec_float) (num den : positive) (k : Z)
  : Z * Z :=
  let s := n - 1 - k in
  let '(a, b) := scale10 num den s in
  let lo := a / b in
  let twice := 2 * (a mod b) in
  let lo_first := (twice <? b) || ((twice =? b) && Z.even lo) in
  let first := if lo_first then lo else lo + 1 in
  let second := if lo_first then lo + 1 else lo in
  let reads c := float_eqb (float_of_decimal false (Z.to_N c) (- s)) f in
  match fuel with
  | O => (first, - s)
  | S fuel' =>
      if reads first then (first, - s)
      else if reads second then (second, - s)
      else shortest_decimal fuel' (n + 1) f num den k
  end.

Fixpoint strip_zeros (fuel : nat) (c : positive) (x : Z) : positive * Z :=
  match fuel with
  | O => (c, x)
  | S fuel' =>
      if Z.pos c mod 10 =? 0 then strip_zeros fuel' (Z.to_pos (Z.pos c / 10)) (x + 1)
      else (c, x)
  end.

(** An exponent of [repr] has two digits at least. *)
Definition two_digits (n : Z) : list ascii :=
  match print_uint (N.to_uint (Z.to_N n)) with
  | [d] => ["0"%char; d]
  | ds => ds
  end.

(** [float.__repr__] of a positive double from its shortest digits [ds] and
    the place [decpt] of its decimal point (the value is
    [0.ds * 10 ^ decpt]): an exponent is written from [1e16] on and below
    [1e-4]. *)
Definition format_repr (ds : list ascii) (decpt : Z) : list ascii :=
  match ds with
  | [] => []
  | d :: r =>
      if (decpt <=? -4) || (16 <? decpt) then
        d :: (match r with [] => [] | _ => "."%char :: r end)
          ++ "e"%char :: (if 0 <? decpt then "+"%char else "-"%char)
          :: two_digits (Z.abs (decpt - 1))
      else if decpt <=? 0 then
        "0"%char :: "."%char :: repeat "0"%char (Z.to_nat (- decpt)) ++ ds
      else
        let n := Z.to_nat (decpt - 1) in
        if (length r <=? n)%nat then
          d :: r ++ repeat "0"%char (n - length r) ++ ["."; "0"]%char
        else d :: firstn n r ++ "."%char :: skipn n r
  end.

Definition sign_prefix (negative : bool) (l : list ascii) : list ascii :=
  if negative then "-"%char :: l else l.

(** [repr] of a positive double [m * 2 ^ e]. *)
Definition repr_finite (m : positive) (e : Z) : list ascii :=
  let num := if 0 <=? e then (m * Z.to_pos (2 ^ e))%positive else m in
  let den := if 0 <=? e then 1%positive else Z.to_pos (2 ^ (- e)) in
  let '(c, x) := shortest_decimal 17 1 (S754_finite false m e) num den
                   (floor_log10 num den) in
  let '(c', x') := strip_zeros 17 (Z.to_pos c) x in
  let ds := print_uint (Pos.to_uint c') in
  format_repr ds (Z.of_nat (length ds) + x').

(** How [json.dumps] writes a float: [float.__repr__], and the names of the
    values that are no numbers of JSON. *)
Definition print_float (x : spec_float) : list ascii :=
  match x with
  | S754_nan => list_ascii_of_string "NaN"
  | S754_infinity s => sign_prefix s (list_ascii_of_string "Infinity")
  | S754_zero s => sign_prefix s (list_ascii_of_string "0.0")
  | S754_finite s m e => sign_prefix s (repr_finite m e)
  end.

Definition sep : list ascii := [","; " "]%char.

Fixpoint print (v : JSON) : list ascii :=
  match v with
  | JNull => list_ascii_of_string "null"
  | JBool true => list_ascii_of_string "true"
  | JBool false => list_ascii_of_string "false"
  | JInt z => print_int z
  | JFloat x => print_float x
  | JStr s => print_string s
  | JList l =>
      "["%char ::
      (fix items (l : list JSON) : list ascii :=
         match l with
         | [] => []
         | x :: l' =>
             print x ++ match l' with [] => [] | _ => sep ++ items l' end
         end) l ++ ["]"%char]
  | JObj ms =>
      "{"%char ::
      (fix members (ms : list (string * JSON)) : list ascii :=
         match ms with
         | [] => []
         | (k, x) :: ms' =>
             print_string k ++ [":"; " "]%char ++ print x
             ++ match ms' with [] => [] | _ => sep ++ members ms' end
         end) ms ++ ["}"%char]
  end.

Definition dumps (v : JSON) : string := string_of_list_ascii (print v).

Definition unescape (c : ascii) : option ascii :=
  match c with
  | "034" => Some "034"
  | "092" => Some "092"
  | "/" => Some "/"
  | "b" => Some "008"
  | "f" => Some "012"
  | "n" => Some "010"
  | "r" => Some "013"
  | "t" => Some "009"
  | _ => None
  end%char.

(** The body of a string up to its closing quote. *)
Fixpoint scan_string (s : list ascii) : option (list ascii * list ascii) :=
  match s with
  | [] => None
  | c :: rest =>
      if Ascii.eqb c "034" then Some ([], rest)
      else if Ascii.eqb c "092" then
        match rest with
        | [] => None
        | e :: rest1 =>
            if Ascii.eqb e "u" then
              match rest1 with
              | a :: b :: c' :: d :: rest2 =>
                  match hex_value a, hex_value b, hex_value c', hex_value d with
                  | Some x3, Some x2, Some x1, Some x0 =>
                      let code := (((x3 * 16 + x2) * 16 + x1) * 16 + x0)%nat in
                      if (code <? 256)%nat then
                        match scan_string rest2 with
                        | Some (cs, r) => Some (ascii_of_nat code :: cs, r)
                        | None => None
                        end
                      else None
                  | _, _, _, _ => None
                  end
              | _ => None
              end
            else
              match unescape e, scan_string rest1 with
              | Some ch, Some (cs, r) => Some (ch :: cs, r)
              | _, _ => None
              end
        end
      else if (nat_of_ascii c <? 32)%nat then None
      else
        match scan_string rest with
        | Some (cs, r) => Some (c :: cs, r)
        | None => None
        end
  end.

Definition digit_of (c : ascii) : option (Decimal.uint -> Decimal.uint) :=
  match c with
  | "0" => Some Decimal.D0 | "1" => Some Decimal.D1 | "2" => Some Decimal.D2
  | "3" => Some Decimal.D3 | "4" => Some Decimal.D4 | "5" => Some Decimal.D5
  | "6" => Some Decimal.D6 | "7" => Some Decimal.D7 | "8" => Some Decimal.D8
  | "9" => Some Decimal.D9
  | _ => None
  end%char.

Fixpoint scan_uint (s : list ascii) : Decimal.uint * list ascii :=
  match s with
  | [] => (Decimal.Nil, [])
  | c :: rest =>
      match digit_of c with
      | Some d => let '(u, r) := scan_uint rest in (d u, r)
      | None => (Decimal.Nil, s)
      end
  end.

Definition starts_fraction (s : list ascii) : bool :=
  match s with
  | c :: _ => Ascii.eqb c "." || Ascii.eqb c "e" || Ascii.eqb c "E"
  | [] => false
  end.

(** The integer part of a number: a single [0], or digits that start with
    another one. *)
Definition scan_integer (s : list ascii) : Decimal.uint * list ascii :=
  match s with
  | c :: rest => if Ascii.eqb c "0" then (Decimal.D0 Decimal.Nil, rest) else scan_uint s
  | [] => (Decimal.Nil, [])
  end.

(** A fraction: a point and one digit at least. *)
Definition scan_fraction (s : list ascii) : option (Decimal.uint * list ascii) :=
  match s with
  | c :: rest =>
      if Ascii.eqb c "." then
        match scan_uint rest with
        | (Decimal.Nil, _) => None
        | (u, rest') => Some (u, rest')
        end
      else None
  | [] => None
  end.

(** An exponent: [e] or [E], a sign or none, and one digit at least. *)
Definition scan_exponent (s : list ascii) : option (Z * list ascii) :=
  match s with
  | c :: rest =>
      if Ascii.eqb c "e" || Ascii.eqb c "E" then
        let '(negative, rest1) :=
          match rest with
          | c' :: rest' =>
              if Ascii.eqb c' "-" then (true, rest')
              else if Ascii.eqb c' "+" then (false, rest')
              else (false, rest)
          | [] => (false, rest)
          end in
        match scan_uint rest1 with
        | (Decimal.Nil, _) => None
        | (u, rest2) =>
            let n := Z.of_N (N.of_uint u) in
            Some (if negative then - n else n, rest2)
        end
      else None
  | [] => None
  end.

(** A number is an [int] unless it has a fraction or an exponent. *)
Definition parse_number (s : list ascii) : option (JSON * list ascii) :=
  let '(negative, s1) :=
    match s with
    | c :: r => if Ascii.eqb c "-" then (true, r) else (false, s)
    | [] => (false, s)
    end in
  let '(u, rest) := scan_integer s1 in
  match u with
  | Decimal.Nil => None
  | _ =>
      let fraction := scan_fraction rest in
      let rest1 := match fraction with Some (_, r) => r | None => rest end in
      let exponent := scan_exponent rest1 in
      let rest2 := match exponent with Some (_, r) => r | None => rest1 end in
      match fraction, exponent with
      | None, None =>
          let n := Z.of_N (N.of_uint u) in
          Some (JInt (if negative then - n else n), rest)
      | _, _ =>
          let decimals := match fraction with Some (d, _) => d | None => Decimal.Nil end in
          let power := match exponent with Some (x, _) => x | None => 0 end in
          Some (JFloat (float_of_decimal negative (N.of_uint (Decimal.app u decimals))
                          (power - Z.of_nat (Decimal.nb_digits decimals))),
                rest2)
      end
  end.

Definition Parser (A : Type) : Type := list ascii -> Result (A * list ascii).

(** The elements of an array after the first token is known not to close
    it. *)
Fixpoint parse_items (value : Parser JSON) (n : nat) (s : list ascii)
  : Result (list JSON * list ascii) :=
  match n with
  | O => Raise JSONDecodeError
  | S n' =>
      match value s with
      | Raise e => Raise e
      | Ok (v, s1) =>
          match skip_ws s1 with
          | c :: s2 =>
              if Ascii.eqb c "]" then Ok ([v], s2)
              else if Ascii.eqb c "," then
                match parse_items value n' (skip_ws s2) with
                | Ok (vs, s3) => Ok (v :: vs, s3)
                | Raise e => Raise e
                end
              else Raise JSONDecodeError
          | [] => Raise JSONDecodeError
          end
      end
  end.

Fixpoint parse_members (value : Parser JSON) (n : nat) (s : list ascii)
  : Result (list (string * JSON) * list ascii) :=
  match n with
  | O => Raise JSONDecodeError
  | S n' =>
      match s with
      | q :: s0 =>
          if Ascii.eqb q "034" then
            match scan_string s0 with
            | None => Raise JSONDecodeError
            | Some (k, s1) =>
                match skip_ws s1 with
                | c :: s2 =>
                    if Ascii.eqb c ":" then
                      match value (skip_ws s2) with
                      | Raise e => Raise e
                      | Ok (v, s3) =>
                          match skip_ws s3 with
                          | c' :: s4 =>
                              if Ascii.eqb c' "}" then
                                Ok ([(string_of_list_ascii k, v)], s4)
                              else if Ascii.eqb c' "," then
                                match parse_members value n' (skip_ws s4) with
                                | Ok (ms, s5) =>
                                    Ok ((string_of_list_ascii k, v) :: ms, s5)
                                | Raise e => Raise e
                                end
                              else Raise JSONDecodeError
                          | [] => Raise JSONDecodeError
                          end
                      end
                    else Raise JSONDecodeError
                | [] => Raise JSONDecodeError
                end
            end
          else Raise JSONDecodeError
      | [] => Raise JSONDecodeError
      end
  end.

Definition literal (word : string) (v : JSON) (s : list ascii) : Result (JSON * list ascii) :=
  let w := list_ascii_of_string word in
  if bool_decide (take (length w) s = w) then Ok (v, drop (length w) s)
  else Raise JSONDecodeError.

Definition or_decode_error {A} (o : option A) : Result A :=
  match o with
  | Some a => Ok a
  | None => Raise JSONDecodeError
  end.

(** One value; [depth] is how many lists and dicts may still be entered. *)
Fixpoint parse_value (depth : nat) (s : list ascii) : Result (JSON * list ascii) :=
  match s with
  | [] => Raise JSONDecodeError
  | c :: rest =>
      if Ascii.eqb c "n" then literal "null" JNull s
      else if Ascii.eqb c "t" then literal "true" (JBool true) s
      else if Ascii.eqb c "f" then literal "false" (JBool false) s
      else if Ascii.eqb c "N" then literal "NaN" (JFloat S754_nan) s
      else if Ascii.eqb c "I" then literal "Infinity" (JFloat (S754_infinity false)) s
      else if Ascii.eqb c "034" then
        match scan_string rest with
        | Some (cs, r) => Ok (JStr (string_of_list_ascii cs), r)
        | None => Raise JSONDecodeError
        end
      else if Ascii.eqb c "[" then
        match depth with
        | O => Raise RecursionError
        | S depth' =>
            match skip_ws rest with
            | c' :: r =>
                if Ascii.eqb c' "]" then Ok (JList [], r)
                else
                  match parse_items (parse_value depth') (length rest) (c' :: r) with
                  | Ok (l, r') => Ok (JList l, r')
                  | Raise e => Raise e
                  end
            | [] => Raise JSONDecodeError
            end
        end
      else if Ascii.eqb c "{" then
        match depth with
        | O => Raise RecursionError
        | S depth' =>
            match skip_ws rest with
            | c' :: r =>
                if Ascii.eqb c' "}" then Ok (JObj [], r)
                else
                  match parse_members (parse_value depth') (length rest) (c' :: r) with
                  | Ok (ms, r') => Ok (JObj (dict_of_items ms), r')
                  | Raise e => Raise e
                  end
            | [] => Raise JSONDecodeError
            end
        end
      else
        match parse_number s with
        | Some r => Ok r
        | None =>
            if Ascii.eqb c "-" then literal "Infinity" (JFloat (S754_infinity true)) rest
            else Raise JSONDecodeError
        end
  end.

(** [json.loads] with room for [depth] nested lists and dicts. *)
Definition loads_within (depth : nat) (s : string) : Result JSON :=
  '(v, rest) ← parse_value depth (skip_ws (list_ascii_of_string s));
  match skip_ws rest with
  | [] => Ok v
  | _ => Raise JSONDecodeError
  end.

(** [sys.getrecursionlimit()] as the interpreter starts with; the frames in
    use at the call are not counted. *)
Definition recursion_limit : nat := 1000.

Definition loads : string -> Result JSON := loads_within recursion_limit.

(** What may follow a number: no digit, no fraction, no exponent. *)
Definition ends_number (rest : list ascii) : Prop :=
  match rest with
  | [] => True
  | c :: _ => digit_of c = None ∧ starts_fraction rest = false
  end.

Fixpoint print_items (l : list JSON) : list ascii :=
  match l with
  | [] => []
  | x :: l' => print x ++ match l' with [] => [] | _ => sep ++ print_items l' end
  end.

Fixpoint print_members (ms : list (string * JSON)) : list ascii :=
  match ms with
  | [] => []
  | (k, x) :: ms' =>
      print_string k ++ [":"; " "]%char ++ print x
      ++ match ms' with [] => [] | _ => sep ++ print_members ms' end
  end.

(** A printed value starts with a character that is no white space and
    closes neither an array nor an object. *)
Definition opens (c : ascii) : Prop :=
  is_ws c = false ∧ Ascii.eqb c "]" = false ∧ Ascii.eqb c "}" = false.

Definition reads (value : Parser JSON) (x : JSON) : Prop :=
  forall tail, ends_number tail -> value (print x ++ tail) = Ok (x, tail).

End PyJson.

(** The [json] module with room for [depth] nested lists and dicts at the
    call of [json.loads]. *)
Definition python_json_within (depth : nat) : JsonCodec :=
  {| json_dumps := PyJson.dumps; json_loads := PyJson.loads_within depth |}.

#[global] Instance python_json : JsonCodec := python_json_within PyJson.recursion_limit.

(** ** The accumulator's algorithm in the words of the specification *)

(** The record the store holds under a storage id. *)
Definition stored_event (store : list EventLogRecord) (id : Z) : option EventLogRecord :=
  find (fun r => storage_id r =? id) store.

(** The records of an asset with an id strictly between two bounds, in the
    order of the store. *)
Definition events_strictly_between (store : list EventLogRecord) (asset_key : AssetKey)
    (lo hi : Z) : list EventLogRecord :=
  filter (fun r => record_asset_key r = Some asset_key ∧ lo < storage_id r < hi) store.

(** The stored records the tick-start trailing map points to, by ascending id. *)
Definition trailing_events_at_tick_start (store : list EventLogRecord)
    (trailing : list (string * Z)) : list EventLogRecord :=
  omap (stored_event store) (merge_sort Z.le (dict_values trailing)).

(** One event of the overlay: a partitioned event that was not advanced
    becomes the entry of its partition, one that was advanced removes the
    entry of its partition, an unpartitioned one is ignored. *)
Definition overlay_event (advanced : gset Z) (trailing : list (string * Z))
    (event : EventLogRecord) : list (string * Z) :=
  match dagster_event event with
  | None => trailing
  | Some ev =>
      match event_partition ev with
      | None => trailing
      | Some p =>
          if decide (storage_id event ∈ advanced)
          then dict_pop p trailing
          else dict_set p (storage_id event) trailing
      end
  end.

Definition remove_partition (p : option string) (trailing : list (string * Z))
  : list (string * Z) :=
  match p with
  | Some partition => dict_pop partition trailing
  | None => trailing
  end.

Definition advanced_ids (adv : MultiAssetSensorCursorAdvances) (asset_key : AssetKey)
  : gset Z :=
  default ∅ (advanced_record_ids_by_key adv !! asset_key).

(** The largest advanced id of an asset (0 when there is none). *)
Definition max_advanced_id (adv : MultiAssetSensorCursorAdvances) (asset_key : AssetKey) : Z :=
  default 0 (set_max (advanced_ids adv asset_key)).

(** The partition recorded for the largest advanced id. *)
Definition max_advanced_partition (adv : MultiAssetSensorCursorAdvances)
    (asset_key : AssetKey) : option string :=
  default None (partition_key_by_record_id adv !! max_advanced_id adv asset_key).

(** Steps 4 and 5 as the specification words them: the tick-start trailing
    map overlaid with the fresh events strictly between the tick-start
    consumed id and the largest advanced id, less the partition advanced to. *)
Definition trailing_as_specified (store : list EventLogRecord)
    (adv : MultiAssetSensorCursorAdvances) (asset_key : AssetKey)
    (start : MultiAssetSensorAssetCursorComponent) : list (string * Z) :=
  remove_partition (max_advanced_partition adv asset_key)
    (fold_left (overlay_event (advanced_ids adv asset_key))
       (events_strictly_between store asset_key
          (or_zero (latest_consumed_event_id start)) (max_advanced_id adv asset_key))
       (trailing_unconsumed_partitioned_event_ids start)).

(** The same with the events of the tick-start trailing map going through
    the overlay first. *)
Definition trailing_with_backlog (store : list EventLogRecord)
    (adv : MultiAssetSensorCursorAdvances) (asset_key : AssetKey)
    (start : MultiAssetSensorAssetCursorComponent) : list (string * Z) :=
  remove_partition (max_advanced_partition adv asset_key)
    (fold_left (overlay_event (advanced_ids adv asset_key))
       (trailing_events_at_tick_start store
          (trailing_unconsumed_partitioned_event_ids start)
        ++ events_strictly_between store asset_key
             (or_zero (latest_consumed_event_id start)) (max_advanced_id adv asset_key))%list
       (trailing_unconsumed_partitioned_event_ids start)).

(** Step 7: the consumed pointer moves only forward. *)
Definition consumed_pointer (adv : MultiAssetSensorCursorAdvances) (asset_key : AssetKey)
    (start : MultiAssetSensorAssetCursorComponent) : option string * option Z :=
  if or_zero (latest_consumed_event_id start) <? max_advanced_id adv asset_key
  then (max_advanced_partition adv asset_key, Some (max_advanced_id adv asset_key))
  else (latest_consumed_event_partition start, latest_consumed_event_id start).

(** The next component of an asset with advance requests. *)
Definition next_component (store : list EventLogRecord)
    (adv : MultiAssetSensorCursorAdvances) (asset_key : AssetKey)
    (start : MultiAssetSensorAssetCursorComponent)
  : Result MultiAssetSensorAssetCursorComponent :=
  let trailing :=
    if advance_all_cursors_called adv then []
    else trailing_with_backlog store adv asset_key start in
  if (MAX_NUM_UNCONSUMED_EVENTS <=? length trailing)%nat then
    Raise DagsterInvariantViolationError
  else
    Ok {| latest_consumed_event_partition := fst (consumed_pointer adv asset_key start);
          latest_consumed_event_id := snd (consumed_pointer adv asset_key start);
          trailing_unconsumed_partitioned_event_ids := trailing |}.

(** The cache after the loop of [_cache_initial_unconsumed_events] over
    some asset keys, on a context that has an instance. *)
Definition filled_cache (ctx : MultiAssetSensorEvaluationContext) (keys : list AssetKey)
    (cache : gmap Z EventLogRecord) : gmap Z EventLogRecord :=
  fold_left
    (fun c asset_key =>
       cache_update c
         (get_event_records (instance ctx)
            (storage_ids_filter
               (dict_values
                  (trailing_unconsumed_partitioned_event_ids (_get_cursor ctx asset_key))))
            false None))
    keys cache.

(** ** Well-formedness *)

(** Storage ids are positive and grow along the store. *)
Definition store_wf (store : list EventLogRecord) : Prop :=
  StronglySorted Z.lt (map storage_id store) ∧ Forall (fun r => 0 < storage_id r) store.

(** Every advanced id has its partition on record. *)
Definition advances_wf (adv : MultiAssetSensorCursorAdvances) : Prop :=
  forall asset_key ids id,
    advanced_record_ids_by_key adv !! asset_key = Some ids ->
    id ∈ ids -> is_Some (partition_key_by_record_id adv !! id).

(** What the cache holds are records of the store, and once it has been
    filled it holds the records the trailing map of the asset points to. *)
Definition cache_ready (ctx : MultiAssetSensorEvaluationContext) (asset_key : AssetKey) : Prop :=
  (forall id r, initial_unconsumed_events_by_id ctx !! id = Some r ->
                stored_event (instance ctx) id = Some r)
  ∧ (fetched_initial_unconsumed_events ctx = true ->
     forall id,
       id ∈ dict_values (trailing_unconsumed_partitioned_event_ids (_get_cursor ctx asset_key)) ->
       initial_unconsumed_events_by_id ctx !! id = stored_event (instance ctx) id).

(** A JSON value without a float whose dicts hold no key twice. *)
Fixpoint json_wf (v : JSON) : Prop :=
  match v with
  | JFloat _ => False
  | JList l =>
      (fix all (l : list JSON) : Prop :=
         match l with
         | [] => True
         | x :: l' => json_wf x ∧ all l'
         end) l
  | JObj ms =>
      NoDup (map fst ms)
      ∧ (fix all (ms : list (string * JSON)) : Prop :=
           match ms with
           | [] => True
           | kx :: ms' => json_wf (snd kx) ∧ all ms'
           end) ms
  | _ => True
  end.

(** How deep the lists and dicts of a value are nested. *)
Fixpoint json_depth (v : JSON) : nat :=
  match v with
  | JList l => S (foldr (fun x d => Nat.max (json_depth x) d) 0%nat l)
  | JObj ms => S (foldr (fun kx d => Nat.max (json_depth (snd kx)) d) 0%nat ms)
  | _ => 0
  end.

(** What the cursor relies on from the [json] module: a value without
    floats and repeated keys that is nested no deeper than a cursor map is
    (a dict of lists that hold a dict) is read back as it was written, and
    nothing is written as the empty string. *)
Class JsonCodecLaws `{JsonCodec} : Prop := {
  json_loads_dumps :
    forall v, json_wf v -> (json_depth v <= 3)%nat -> json_loads (json_dumps v) = Ok v;
  json_dumps_nonempty : forall v, json_dumps v <> EmptyString
}.

(** A well-formed cursor map: no asset key and no partition is held twice. *)
Definition cursor_map_wf (m : list (string * MultiAssetSensorAssetCursorComponent)) : Prop :=
  dict_wf m
  ∧ Forall (fun kc => dict_wf (trailing_unconsumed_partitioned_event_ids (snd kc))) m.

(** The context cursor that holds a cursor map. *)
Definition context_cursor_of (m : list (string * MultiAssetSensorAssetCursorComponent))
  : MultiAssetSensorContextCursor :=
  {| cursor_component_by_asset_key := m;
     initial_latest_consumed_event_ids_by_asset_key :=
       map (fun kc => (fst kc, latest_consumed_event_id (snd kc))) m |}.

(** ** Sample data *)

Definition materialization (id : Z) (asset_key : AssetKey) (p : option string)
  : EventLogRecord :=
  {| storage_id := id;
     dagster_event := Some {| event_asset_key := Some asset_key; event_partition := p |} |}.

Definition component (p : option string) (id : option Z) (trailing : list (string * Z))
  : MultiAssetSensorAssetCursorComponent :=
  {| latest_consumed_event_partition := p;
     latest_consumed_event_id := id;
     trailing_unconsumed_partitioned_event_ids := trailing |}.

Definition unpartitioned : AssetKey -> option (list string) := fun _ => None.

(** A context at the start of a tick, from a cursor map rather than from its
    string. *)
Definition context_at_tick_start `{JsonCodec} (keys : list AssetKey)
    (store : list EventLogRecord)
    (m : list (string * MultiAssetSensorAssetCursorComponent))
  : MultiAssetSensorEvaluationContext :=
  {| asset_keys := keys;
     partitions_def_by_asset_key := unpartitioned;
     _instance := Some store;
     cursor := Some (json_dumps (cursor_to_json m));
     unpacked_cursor := context_cursor_of m;
     cursor_has_been_updated := false;
     cursor_advance_state_mutation := new_cursor_advances;
     initial_unconsumed_events_by_id := ∅;
     fetched_initial_unconsumed_events := false |}.

(** ** The finalization of all the assets, and what a method leaves alone *)

Definition next_asset_cursor (store : list EventLogRecord)
    (adv : MultiAssetSensorCursorAdvances)
    (start : AssetKey -> MultiAssetSensorAssetCursorComponent) (asset_key : AssetKey)
  : Result MultiAssetSensorAssetCursorComponent :=
  if decide (advanced_ids adv asset_key = ∅) then Ok (start asset_key)
  else next_component store adv asset_key (start asset_key).

Fixpoint next_asset_cursors (store : list EventLogRecord)
    (adv : MultiAssetSensorCursorAdvances)
    (start : AssetKey -> MultiAssetSensorAssetCursorComponent) (keys : list AssetKey)
  : Result (list (string * MultiAssetSensorAssetCursorComponent)) :=
  match keys with
  | [] => Ok []
  | k :: keys' =>
      c ← next_asset_cursor store adv start k;
      rest ← next_asset_cursors store adv start keys';
      Ok ((str_asset_key k, c) :: rest)
  end.

Definition cache_sound (store : list EventLogRecord) (c : gmap Z EventLogRecord) : Prop :=
  forall id r, c !! id = Some r -> stored_event store id = Some r.

Definition after_asset (ctx ctx' : MultiAssetSensorEvaluationContext) (k : AssetKey) : Prop :=
  asset_keys ctx' = asset_keys ctx
  ∧ _instance ctx' = _instance ctx
  ∧ cursor ctx' = cursor ctx
  ∧ (forall k', k' ≠ k -> _get_cursor ctx' k' = _get_cursor ctx k')
  ∧ (forall k', k' ≠ k -> k' ∈ asset_keys ctx -> cache_ready ctx k' -> cache_ready ctx' k').

(** Nothing but the cache, the advance requests and the updated flag differ. *)
Definition tick_frame (ctx ctx' : MultiAssetSensorEvaluationContext) : Prop :=
  asset_keys ctx' = asset_keys ctx
  ∧ _instance ctx' = _instance ctx
  ∧ cursor ctx' = cursor ctx
  ∧ unpacked_cursor ctx' = unpacked_cursor ctx.

(** Nothing but the cache differs. *)
Definition query_frame (ctx ctx' : MultiAssetSensorEvaluationContext) : Prop :=
  tick_frame ctx ctx'
  ∧ cursor_has_been_updated ctx' = cursor_has_been_updated ctx
  ∧ cursor_advance_state_mutation ctx' = cursor_advance_state_mutation ctx.

(** [m] relates every context to the one it leaves behind. *)
Definition preserves (R : relation MultiAssetSensorEvaluationContext) {A} (m : Tick A)
  : Prop :=
  forall ctx a ctx', m ctx = Ok (a, ctx') -> R ctx ctx'.


(** A component within the cap on its backlog. *)
Definition capped (c : MultiAssetSensorAssetCursorComponent) : Prop :=
  (length (trailing_unconsumed_partitioned_event_ids c) < MAX_NUM_UNCONSUMED_EVENTS)%nat.

(** ** Sample ticks *)

(** The scenario of the specification: events 10 (p1), 12 (p2) and 15 (p1),
    consumed up to 9, and event 15 advanced. *)
Definition scenario_store : list EventLogRecord :=
  [ materialization 10 "A" (Some "p1");
    materialization 12 "A" (Some "p2");
    materialization 15 "A" (Some "p1") ].

Definition scenario_context : MultiAssetSensorEvaluationContext :=
  context_at_tick_start ["A"] scenario_store [("A", component None (Some 9) [])].

Definition scenario_advances : MultiAssetSensorCursorAdvances :=
  add_advanced_records new_cursor_advances
    [("A", Some (materialization 15 "A" (Some "p1")))].

Definition scenario_evaluation : Evaluation :=
  {| context_calls :=
       [call_advance_cursor [("A", Some (materialization 15 "A" (Some "p1")))]];
     return_value := ReturnsItems [RunRequest None None] |}.

(** A backlog of two events, both advanced in the tick, behind a consumed
    pointer that stays where it is. *)
Definition backlog_store : list EventLogRecord :=
  [ materialization 5 "A" (Some "p3");
    materialization 7 "A" (Some "p4");
    materialization 9 "A" (Some "p1") ].

Definition backlog_context : MultiAssetSensorEvaluationContext :=
  context_at_tick_start ["A"] backlog_store
    [("A", component (Some "p1") (Some 9) [("p3", 5); ("p4", 7)])].

Definition backlog_advances : MultiAssetSensorCursorAdvances :=
  add_advanced_records
    (add_advanced_records new_cursor_advances
       [("A", Some (materialization 5 "A" (Some "p3")))])
    [("A", Some (materialization 7 "A" (Some "p4")))].

(** A backlog of 24 partitions and an advance that leaves a 25th behind. *)
Definition full_backlog : list (string * Z) :=
  [ ("a", 1); ("b", 2); ("c", 3); ("d", 4); ("e", 5); ("f", 6); ("g", 7); ("h", 8);
    ("i", 9); ("j", 10); ("k", 11); ("l", 12); ("m", 13); ("n", 14); ("o", 15);
    ("p", 16); ("q", 17); ("r", 18); ("s", 19); ("t", 20); ("u", 21); ("v", 22);
    ("w", 23); ("x", 24) ].

Definition full_backlog_store : list EventLogRecord :=
  (map (fun pz => materialization (snd pz) "A" (Some (fst pz))) full_backlog
   ++ [ materialization 30 "A" (Some "z");
        materialization 31 "A" (Some "y");
        materialization 32 "A" (Some "z") ])%list.

Definition full_backlog_context : MultiAssetSensorEvaluationContext :=
  context_at_tick_start ["A"] full_backlog_store
    [("A", component (Some "z") (Some 30) full_backlog)].

Definition full_backlog_advances : MultiAssetSensorCursorAdvances :=
  add_advanced_records new_cursor_advances
    [("A", Some (materialization 32 "A" (Some "z")))].

(** Two assets, the first with a backlog and nothing new, the second with a
    new event, and [advance_all_cursors]. *)
Definition two_assets_store : list EventLogRecord :=
  [ materialization 5 "A" (Some "p2");
    materialization 9 "A" (Some "p1");
    materialization 20 "B" (Some "q1") ].

Definition two_assets_context : MultiAssetSensorEvaluationContext :=
  context_at_tick_start ["A"; "B"] two_assets_store
    [("A", component (Some "p1") (Some 9) [("p2", 5)])].

Definition advance_all_evaluation : Evaluation :=
  {| context_calls := [call_advance_all_cursors];
     return_value := ReturnsItems [RunRequest None None] |}.

(** A single skip reason returned as it is, after a query. *)
Definition skip_evaluation : Evaluation :=
  {| context_calls := [call_latest_materialization_records_by_key None];
     return_value := ReturnsObject (SkipReason None) |}.




(** A cursor map of three assets. *)
Definition sample_cursor_map : list (string * MultiAssetSensorAssetCursorComponent) :=
  [ ("A", component (Some "p1") (Some 15) [("p2", 12); ("p3", 7)]);
    ("B", component None None []);
    ("C", component None (Some (-3)) [("q", 0)]) ].

(** A query and a run request, without an advance. *)
Definition run_evaluation : Evaluation :=
  {| context_calls := [call_latest_materialization_records_by_key None];
     return_value := ReturnsItems [RunRequest None None] |}.

(** A string between double quotes. *)
Definition quoted (s : string) : string :=
  String "034" (s ++ String "034" EmptyString).

(** [{"a": 5}] *)
Definition cursor_of_ints : string := "{" ++ quoted "a" ++ ": 5}".

(** [{"a": [null, 1, {}], "b": [1]}] *)
Definition cursor_of_mixed_entries : string :=
  "{" ++ quoted "a" ++ ": [null, 1, {}], " ++ quoted "b" ++ ": [1]}".

(** [{"b": [1], "a": [null, 1, {}]}] *)
Definition cursor_of_legacy_entries : string :=
  "{" ++ quoted "b" ++ ": [1], " ++ quoted "a" ++ ": [null, 1, {}]}".

(** [{"a": [1e2]}] *)
Definition cursor_of_float_entry : string := "{" ++ quoted "a" ++ ": [1e2]}".

(** [{"a": [null, 1.5, {}]}] *)
Definition cursor_of_float_component : string :=
  "{" ++ quoted "a" ++ ": [null, 1.5, {}]}".

(** A list nested one deeper than the recursion limit allows. *)
Definition cursor_of_deep_nesting : string :=
  string_of_list_ascii (repeat "["%char (S PyJson.recursion_limit)).

(** What the claim of the missing-advancement guard counts as a yielded
    result. *)
Definition yields_result (r : ReturnValue) : Prop :=
  match r with
  | ReturnsNone => False
  | ReturnsItems items => exists item, item ∈ items ∧ item ≠ OtherObject
  | ReturnsObject item => item ≠ OtherObject
  end.

(** What the guard itself counts. *)
Definition yields_runs (r : ReturnValue) : Prop :=
  match r with
  | ReturnsItems (_ :: _) => True
  | ReturnsObject (RunRequest _ _) => True
  | _ => False
  end.

(** ** What the queries of the context answer *)

(** A record of the asset that lies after the consumed id of a component. *)
Definition unconsumed_after (after_cursor : option Z) (asset_key : AssetKey)
    (r : EventLogRecord) : Prop :=
  record_asset_key r = Some asset_key
  ∧ match after_cursor with
    | Some c => c < storage_id r
    | None => True
    end.

(** What a method returns, without the context it leaves behind. *)
Definition returned {A} (r : Result (A * MultiAssetSensorEvaluationContext)) : Result A :=
  match r with
  | Ok (a, _) => Ok a
  | Raise e => Raise e
  end.

(** Nothing of the cursor differs, and a cache that has been filled is kept. *)
Definition cache_frame (ctx ctx' : MultiAssetSensorEvaluationContext) : Prop :=
  tick_frame ctx ctx'
  ∧ (fetched_initial_unconsumed_events ctx = true ->
     fetched_initial_unconsumed_events ctx' = true
     ∧ initial_unconsumed_events_by_id ctx' = initial_unconsumed_events_by_id ctx).

(** Nothing of the cursor differs, and a cache in step with the cursor of
    every monitored asset stays so. *)
Definition cache_kept (ctx ctx' : MultiAssetSensorEvaluationContext) : Prop :=
  tick_frame ctx ctx'
  ∧ (NoDup (map storage_id (instance ctx)) ->
     (forall k, k ∈ asset_keys ctx -> cache_ready ctx k) ->
     forall k, k ∈ asset_keys ctx -> cache_ready ctx' k).

(** [m] neither reads nor writes the advance requests and the updated flag. *)
Definition advance_blind {A} (m : Tick A) : Prop :=
  forall ctx adv updated,
    m (set_advances adv updated ctx)
    = match m ctx with
      | Ok (a, ctx') => Ok (a, set_advances adv updated ctx')
      | Raise e => Raise e
      end.

(** The context with an instance whose store is empty. *)
Definition with_empty_store (ctx : MultiAssetSensorEvaluationContext)
  : MultiAssetSensorEvaluationContext :=
  {| asset_keys := asset_keys ctx;
     partitions_def_by_asset_key := partitions_def_by_asset_key ctx;
     _instance := Some [];
     cursor := cursor ctx;
     unpacked_cursor := unpacked_cursor ctx;
     cursor_has_been_updated := cursor_has_been_updated ctx;
     cursor_advance_state_mutation := cursor_advance_state_mutation ctx;
     initial_unconsumed_events_by_id := initial_unconsumed_events_by_id ctx;
     fetched_initial_unconsumed_events := fetched_initial_unconsumed_events ctx |}.

(** What [m] returns on a context without an instance, where it cannot have
    read the store, it returns on the same context with an empty store. *)
Definition instance_blind {A} (m : Tick A) : Prop :=
  forall ctx a ctx',
    _instance ctx = None -> m ctx = Ok (a, ctx') ->
    _instance ctx' = None ∧ m (with_empty_store ctx) = Ok (a, with_empty_store ctx').

(** The invariant of a component: no partition is held twice, and every
    trailing id lies before the consumed id. *)
Definition component_wf (c : MultiAssetSensorAssetCursorComponent) : Prop :=
  dict_wf (trailing_unconsumed_partitioned_event_ids c)
  ∧ Forall (fun pid => snd pid < or_zero (latest_consumed_event_id c))
      (trailing_unconsumed_partitioned_event_ids c).

(** A record of the store the cursor of the asset has not consumed: one a
    value of its trailing map points to, or one of the asset after its
    consumed id. *)
Definition unconsumed_record (ctx : MultiAssetSensorEvaluationContext) (asset_key : AssetKey)
    (r : EventLogRecord) : Prop :=
  r ∈ instance ctx
  ∧ (storage_id r
     ∈ dict_values (trailing_unconsumed_partitioned_event_ids (_get_cursor ctx asset_key))
     ∨ unconsumed_after (latest_consumed_event_id (_get_cursor ctx asset_key)) asset_key r).

(** The body of the loops of [latest_materialization_records_by_partition]:
    a record of a partition that is fetched becomes, at the end of the dict,
    the record of its partition. *)
Definition keep_latest (partitions_to_fetch : list string) (d : list (string * EventLogRecord))
    (r : EventLogRecord) : list (string * EventLogRecord) :=
  match _get_partition_key_from_event_log_record r with
  | Some partition =>
      if bool_decide (partition ∈ partitions_to_fetch) then ordered_put partition r d else d
  | None => d
  end.

(** A context whose assets all have the partitions definition with the given
    keys. *)
Definition with_partitions (keys : list string) (ctx : MultiAssetSensorEvaluationContext)
  : MultiAssetSensorEvaluationContext :=
  {| asset_keys := asset_keys ctx;
     partitions_def_by_asset_key := fun _ => Some keys;
     _instance := _instance ctx;
     cursor := cursor ctx;
     unpacked_cursor := unpacked_cursor ctx;
     cursor_has_been_updated := cursor_has_been_updated ctx;
     cursor_advance_state_mutation := cursor_advance_state_mutation ctx;
     initial_unconsumed_events_by_id := initial_unconsumed_events_by_id ctx;
     fetched_initial_unconsumed_events := fetched_initial_unconsumed_events ctx |}.

(** A partitioned asset with a backlog of two partitions behind its consumed
    id and two records after it. *)
Definition partitioned_store : list EventLogRecord :=
  [ materialization 5 "A" (Some "p3");
    materialization 7 "A" (Some "p4");
    materialization 9 "A" (Some "p1");
    materialization 11 "A" (Some "p3");
    materialization 12 "A" (Some "p2") ].

Definition partitioned_context : MultiAssetSensorEvaluationContext :=
  with_partitions ["p1"; "p2"; "p3"; "p4"]
    (context_at_tick_start ["A"] partitioned_store
       [("A", component (Some "p1") (Some 9) [("p3", 5); ("p4", 7)])]).

(** Two assets with the same partitions: the one above, and one with a
    record behind its consumed id and one after it. *)
Definition shared_partitions_store : list EventLogRecord :=
  [ materialization 3 "B" (Some "p1");
    materialization 5 "A" (Some "p3");
    materialization 7 "A" (Some "p4");
    materialization 9 "A" (Some "p1");
    materialization 10 "B" (Some "p2");
    materialization 11 "A" (Some "p3");
    materialization 12 "A" (Some "p2") ].

Definition shared_partitions_context : MultiAssetSensorEvaluationContext :=
  with_partitions ["p1"; "p2"; "p3"; "p4"]
    (context_at_tick_start ["A"; "B"] shared_partitions_store
       [("A", component (Some "p1") (Some 9) [("p3", 5); ("p4", 7)]);
        ("B", component (Some "p1") (Some 3) [])]).

(** ** A cursor from the latest materializations *)

(** The loop of [get_cursor_from_latest_materializations]: the query has a
    limit of 1 and the store's default order, which is descending. *)
Definition cursor_dict_from_latest_materializations (asset_keys : list AssetKey)
    (instance : list EventLogRecord)
  : list (string * MultiAssetSensorAssetCursorComponent) :=
  fold_left
    (fun cursor_dict asset_key =>
       let materializations :=
         get_event_records instance (asset_filter asset_key None None None)
           false (Some 1%nat) in
       match last materializations with
       | Some last_materialization =>
           dict_set (str_asset_key asset_key)
             {| latest_consumed_event_partition :=
                  _get_partition_key_from_event_log_record last_materialization;
                latest_consumed_event_id := Some (storage_id last_materialization);
                trailing_unconsumed_partitioned_event_ids := [] |}
             cursor_dict
       | None => cursor_dict
       end)
    asset_keys [].

(** [get_cursor_from_latest_materializations] *)
Definition get_cursor_from_latest_materializations `{JsonCodec} (asset_keys : list AssetKey)
    (instance : list EventLogRecord) : string :=
  json_dumps
    (cursor_to_json (cursor_dict_from_latest_materializations asset_keys instance)).

(** ** The tick driver: [SensorDefinition]

    A sensor is given by the [pipeline_name]s of its targets. What the
    evaluation function yields is a [RunRequest], of which the driver reads
    the [job_name], a [SkipReason] with its [skip_message], a
    [PipelineRunReaction], [None], or some other object. A failed check of
    [dagster._check] raises [CheckError]; the driver also raises plain
    [Exception]s. *)
Module SensorDefinition.

Inductive Outcome (A : Type) : Type :=
| Returns (a : A)
| Raises (e : PyError)
| RaisesException.

Arguments Returns {A} a.
Arguments Raises {A} e.
Arguments RaisesException {A}.

#[global] Instance Outcome_ret : MRet Outcome := fun _ a => Returns a.
#[global] Instance Outcome_bind : MBind Outcome := fun _ _ f r =>
  match r with
  | Returns a => f a
  | Raises e => Raises e
  | RaisesException => RaisesException
  end.

Record RunRequest : Type := {
  run_key : option string;
  job_name : option string
}.

Inductive Yielded : Type :=
| yielded_run_request (run_request : RunRequest)
| yielded_skip_reason (skip_message : option string)
| yielded_pipeline_run_reaction
| yielded_none
| yielded_object.

(** What [fn] returns: a generator or a list, given by its items, or a
    single object, [None] included. *)
Inductive RawReturn : Type :=
| returns_items (items : list Yielded)
| returns_object (item : Yielded).

(** The truth value of an optional string. *)
Definition truthy (s : option string) : bool :=
  match s with
  | Some s => negb (String.eqb s EmptyString)
  | None => false
  end.

(** [_wrapped_fn] of [wrap_sensor_evaluation], drained to the end. *)
Definition _wrapped_fn (result : RawReturn) : Outcome (list Yielded) :=
  match result with
  | returns_items items => Returns items
  | returns_object (yielded_skip_reason m) => Returns [yielded_skip_reason m]
  | returns_object (yielded_run_request r) => Returns [yielded_run_request r]
  | returns_object yielded_none => Returns []
  | returns_object _ => RaisesException
  end.

(** The loop of [check_valid_run_requests] over the run requests. *)
Fixpoint check_job_names (has_multiple_targets : bool) (target_names : list string)
    (run_requests : list RunRequest) : Outcome unit :=
  match run_requests with
  | [] => Returns tt
  | run_request :: rest =>
      match job_name run_request with
      | None =>
          if has_multiple_targets then RaisesException
          else check_job_names has_multiple_targets target_names rest
      | Some name =>
          if truthy (Some name) && negb (bool_decide (name ∈ target_names))
          then RaisesException
          else check_job_names has_multiple_targets target_names rest
      end
  end.

(** [check_valid_run_requests] *)
Definition check_valid_run_requests (targets : list string) (run_requests : list RunRequest)
  : Outcome unit :=
  let has_multiple_targets := (1 <? length targets)%nat in
  let target_names := targets in
  if negb (Nat.eqb (length run_requests) 0) && Nat.eqb (length targets) 0
  then RaisesException
  else check_job_names has_multiple_targets target_names run_requests.

Record SensorExecutionData : Type := {
  run_requests : list RunRequest;
  skip_message : option string;
  cursor : option string;
  pipeline_run_reactions : list Yielded
}.

(** [SensorExecutionData.__new__] *)
Definition new_sensor_execution_data (run_requests : list RunRequest)
    (skip_message cursor : option string) (pipeline_run_reactions : list Yielded)
  : Outcome SensorExecutionData :=
  if negb (Nat.eqb (length run_requests) 0) && truthy skip_message
  then Raises CheckError
  else Returns {| run_requests := run_requests;
                  skip_message := skip_message;
                  cursor := cursor;
                  pipeline_run_reactions := pipeline_run_reactions |}.

Definition as_run_request (item : Yielded) : option RunRequest :=
  match item with
  | yielded_run_request r => Some r
  | _ => None
  end.

Definition is_skip_reason (item : Yielded) : bool :=
  match item with
  | yielded_skip_reason _ => true
  | _ => false
  end.

Definition is_pipeline_run_reaction (item : Yielded) : bool :=
  match item with
  | yielded_pipeline_run_reaction => true
  | _ => false
  end.

(** [isinstance(item, (SkipReason, RunRequest, PipelineRunReaction))] *)
Definition is_result_item (item : Yielded) : bool :=
  match item with
  | yielded_run_request _ | yielded_skip_reason _ | yielded_pipeline_run_reaction => true
  | _ => false
  end.

Definition is_none (item : Yielded) : bool :=
  match item with
  | yielded_none => true
  | _ => false
  end.

(** The part of [evaluate_tick] that reads the drained result: the run
    requests, the skip message and the run reactions. The three calls of
    [check.failed] for a skip reason among several items differ in their
    message only. *)
Definition read_result (result : list Yielded)
  : Outcome (list RunRequest * option string * list Yielded) :=
  let empty_result :=
    Returns ([], Some "Sensor function returned an empty result", []) in
  match result with
  | [] => empty_result
  | [item] =>
      if is_none item then empty_result
      else if negb (is_result_item item) then Raises CheckError
      else Returns (match as_run_request item with Some r => [r] | None => [] end,
                    match item with yielded_skip_reason m => m | _ => None end,
                    if is_pipeline_run_reaction item then [item] else [])
  | _ =>
      if negb (forallb is_result_item result) then Raises CheckError
      else
        let has_skip := existsb is_skip_reason result in
        let run_requests := omap as_run_request result in
        let pipeline_run_reactions :=
          filter (fun item => is_pipeline_run_reaction item = true) result in
        if has_skip then Raises CheckError
        else Returns (run_requests, None, pipeline_run_reactions)
  end.

(** [evaluate_tick], from the drained run of the evaluation function and
    the cursor of the context after it. *)
Definition evaluate_tick (targets : list string) (evaluated : Outcome (list Yielded))
    (context_cursor : option string) : Outcome SensorExecutionData :=
  result ← evaluated;
  '(run_requests, skip_message, pipeline_run_reactions) ← read_result result;
  check_valid_run_requests targets run_requests;;
  new_sensor_execution_data run_requests skip_message context_cursor pipeline_run_reactions.

(** A target of a sensor: a job of the repository given by its name, or a
    job given as an object, which is represented by its name. *)
Inductive Target : Type :=
| RepoRelativeTarget (pipeline_name : string)
| DirectTarget (target : string).

Definition pipeline_name (t : Target) : string :=
  match t with
  | RepoRelativeTarget name => name
  | DirectTarget job => job
  end.

(** The truth value of an optional list. *)
Definition truthy_list {A} (l : option (list A)) : bool :=
  match l with
  | Some (_ :: _) => true
  | _ => false
  end.

Inductive DefaultSensorStatus : Type := RUNNING | STOPPED.

Definition DEFAULT_SENSOR_DAEMON_INTERVAL : Z := 30.

(** An evaluation function, by its [__name__]; a callable that is no
    function (a [functools.partial], say) has none. *)
Record RawSensorEvaluationFunction : Type := {
  __name__ : option string
}.

(** What [__init__] sets of a sensor definition. *)
Record SensorDefinition : Type := {
  _name : string;
  _raw_fn : RawSensorEvaluationFunction;
  _min_interval : Z;
  _description : option string;
  _targets : list Target;
  _default_status : DefaultSensorStatus
}.

Section Init.

(** [check_valid_name] of [dagster._core.definitions.utils], which the
    module imports: what it returns or raises on a name. *)
Variable check_valid_name : string -> Result string.

(** [SensorDefinition.__init__], on arguments of their declared types (the
    checks of [dagster._check] on them then return them, [None] giving the
    default). *)
Definition new_sensor_definition (name : option string)
    (evaluation_fn : option RawSensorEvaluationFunction)
    (job_name : option string) (minimum_interval_seconds : option Z)
    (description job : option string) (jobs : option (list string))
    (default_status : DefaultSensorStatus) : Result SensorDefinition :=
  match evaluation_fn with
  | None => Raise DagsterInvalidDefinitionError
  | Some evaluation_fn =>
      if bool_decide (is_Some job) && truthy_list jobs then Raise DagsterInvalidDefinitionError
      else
        let jobs :=
          if truthy_list jobs then jobs
          else match job with Some j => Some [j] | None => None end in
        if truthy job_name && truthy_list jobs then Raise DagsterInvalidDefinitionError
        else
          let targets :=
            if truthy job_name then Some [RepoRelativeTarget (default EmptyString job_name)]
            else match job with
                 | Some j => Some [DirectTarget j]
                 | None =>
                     if truthy_list jobs then Some (map DirectTarget (default [] jobs))
                     else None
                 end in
          sensor_name ←
            (if truthy name then check_valid_name (default EmptyString name)
             else match __name__ evaluation_fn with
                  | Some function_name => Ok function_name
                  | None => Raise AttributeError
                  end);
          Ok {| _name := sensor_name;
                _raw_fn := evaluation_fn;
                _min_interval := default DEFAULT_SENSOR_DAEMON_INTERVAL minimum_interval_seconds;
                _description := description;
                _targets := default [] targets;
                _default_status := default_status |}
  end.

End Init.

(** The [job] property *)
Definition job_of (targets : list Target) : Result string :=
  match targets with
  | [DirectTarget job] => Ok job
  | _ => Raise DagsterInvalidDefinitionError
  end.

(** A run request the sensor can launch: without a job name when there is
    at most one target, or with the name of a target (an empty name is not
    looked up). *)
Definition valid_run_request (targets : list string) (r : RunRequest) : Prop :=
  match job_name r with
  | None => (length targets <= 1)%nat
  | Some name => name = EmptyString ∨ name ∈ targets
  end.

(** The results a tick accepts: nothing, a single [None], a single skip
    reason, or run requests and run reactions only, the run requests being
    valid for the targets of the sensor, of which there is one at least when
    a run is requested. *)
Definition accepted (targets : list string) (result : list Yielded) : Prop :=
  (result = [] ∨ result = [yielded_none]
   ∨ (exists m, result = [yielded_skip_reason m])
   ∨ Forall (fun item => is_result_item item = true ∧ is_skip_reason item = false) result)
  ∧ (omap as_run_request result ≠ [] -> targets ≠ [])
  ∧ Forall (valid_run_request targets) (omap as_run_request result).

End SensorDefinition.

(** ** The asset sensor: [AssetSensorDefinition]

    [int] and [str] are Python's: [py_str] writes an int in decimal, [py_int]
    reads a string as an int and is [None] where [int] raises
    [ValueError]. *)
Class IntText : Type := {
  py_str : Z -> string;
  py_int : string -> option Z
}.

(** What the asset sensor relies on: [int] reads back what [str] writes,
    and [str] writes no empty string. *)
Class IntTextLaws `{IntText} : Prop := {
  py_int_str : forall z, py_int (py_str z) = Some z;
  py_str_nonempty : forall z, py_str z <> EmptyString
}.

(** [str] of an int and [int] of a string, on characters below 256: [int]
    reads white space around the number, a sign or none, and decimal digits
    with single underscores between them, leading zeros included. As for
    [json], no limit is put on the number of digits. *)
Module PyInt.

#[local] Open Scope list_scope.

(** The white space [int] strips, among the characters below 256. *)
Definition is_space (c : ascii) : bool :=
  let n := nat_of_ascii c in
  ((9 <=? n) && (n <=? 13) || (n =? 32) || (n =? 133) || (n =? 160))%nat.

Fixpoint strip_left (s : list ascii) : list ascii :=
  match s with
  | c :: s' => if is_space c then strip_left s' else s
  | [] => []
  end.

Fixpoint strip_right (s : list ascii) : list ascii :=
  match s with
  | [] => []
  | c :: s' =>
      match strip_right s' with
      | [] => if is_space c then [] else [c]
      | r => c :: r
      end
  end.

(** The digits of a number; an underscore stands between two digits only. *)
Fixpoint scan_digits (after_digit : bool) (s : list ascii) : option Decimal.uint :=
  match s with
  | [] => if after_digit then Some Decimal.Nil else None
  | c :: s' =>
      match PyJson.digit_of c with
      | Some d => option_map d (scan_digits true s')
      | None =>
          if Ascii.eqb c "_" && after_digit then scan_digits false s' else None
      end
  end.

Definition int (s : string) : option Z :=
  let text := strip_right (strip_left (list_ascii_of_string s)) in
  let '(negative, digits) :=
    match text with
    | c :: rest =>
        if Ascii.eqb c "-" then (true, rest)
        else if Ascii.eqb c "+" then (false, rest)
        else (false, text)
    | [] => (false, text)
    end in
  match scan_digits false digits with
  | Some u => let n := Z.of_N (N.of_uint u) in Some (if negative then - n else n)
  | None => None
  end.

Definition str (z : Z) : string := string_of_list_ascii (PyJson.print_int z).

End PyInt.

#[global] Instance decimal_text : IntText := {| py_str := PyInt.str; py_int := PyInt.int |}.

Module AssetSensorDefinition.

(** [SensorEvaluationContext]: the event store of its instance, [None] when
    it was given neither an instance nor a reference to one, and its
    cursor. *)
Record SensorEvaluationContext : Type := {
  instance : option (list EventLogRecord);
  cursor : option string
}.

(** [update_cursor] *)
Definition update_cursor (new_cursor : option string) (context : SensorEvaluationContext)
  : SensorEvaluationContext :=
  {| instance := instance context; cursor := new_cursor |}.

(** The [instance] property *)
Definition get_instance (context : SensorEvaluationContext) : Result (list EventLogRecord) :=
  match instance context with
  | Some store => Ok store
  | None => Raise DagsterInvariantViolationError
  end.

Section Sensor.
Context `{IntText}.

(** The user's function, given the cursor of the context and the event of
    the record: what it returns and the cursor it leaves. *)
Variable materialization_fn :
  option string -> option DagsterEvent -> Result (ReturnValue * option string).

(** [after_cursor] of [_fn]: the cursor read as an int, if it can be. *)
Definition after_cursor_of (context : SensorEvaluationContext) : option Z :=
  match cursor context with
  | Some s => if String.eqb s EmptyString then None else py_int s
  | None => None
  end.

(** [_fn] of [AssetSensorDefinition.__init__._wrap_asset_fn], drained to the
    end: the items it yields and the context it leaves. *)
Definition _fn (asset_key : AssetKey) (context : SensorEvaluationContext)
  : Result (list SensorItem * SensorEvaluationContext) :=
  let after_cursor := after_cursor_of context in
  store ← get_instance context;
  let event_records :=
    get_event_records store (asset_filter asset_key None after_cursor None)
      false (Some 1%nat) in
  match event_records with
  | [] => Ok ([], context)
  | event_record :: _ =>
      '(result, new_cursor) ←
        materialization_fn (cursor context) (dagster_event event_record);
      let yielded :=
        match result with
        | ReturnsItems items => items
        | ReturnsObject (RunRequest k j) => [RunRequest k j]
        | ReturnsObject (SkipReason m) => [SkipReason m]
        | _ => []
        end in
      Ok (yielded, update_cursor (Some (py_str (storage_id event_record)))
                     (update_cursor new_cursor context))
  end.
End Sensor.

End AssetSensorDefinition.

(** An asset sensor context on the store of the scenario, consumed up to
    id 9, and a user's function that requests a run for every record. *)
Definition asset_sensor_context : AssetSensorDefinition.SensorEvaluationContext :=
  {| AssetSensorDefinition.instance := Some scenario_store;
     AssetSensorDefinition.cursor := Some "9" |}.

Definition requests_a_run (cursor : option string) (event : option DagsterEvent)
  : Result (ReturnValue * option string) :=
  Ok (ReturnsObject (RunRequest None None), cursor).

(** The records of a mapping handed to [advance_cursor] are records of the
    store. *)
Definition records_of_store (store : list EventLogRecord)
    (materialization_records_by_key : list (AssetKey * option EventLogRecord)) : Prop :=
  forall k r, (k, Some r) ∈ materialization_records_by_key -> r ∈ store.

(** ** Partition keys downstream: [get_downstream_partition_keys] *)

(** A partitions definition: its partition keys, and whether it is a
    [TimeWindowPartitionsDefinition]. *)
Record PartitionsDefinition : Type := {
  get_partition_keys : list string;
  is_time_window : bool
}.

(** What [get_downstream_partition_keys] reads of the assets, all of it
    declared outside this module: the partitions definition of an asset the
    sensor monitors and of an asset of the repository ([Some None] for an
    asset without one), the range of downstream partition keys the partition
    mapping from one asset to another gives for a partition key, and the
    keys of a time window partitions definition within a range. *)
Record AssetsView : Type := {
  assets_by_key : AssetKey -> option (option PartitionsDefinition);
  repository_assets : AssetKey -> option (option PartitionsDefinition);
  get_downstream_partitions_for_partition_range :
    AssetKey -> AssetKey -> string -> string * string;
  get_partition_keys_in_range : PartitionsDefinition -> string * string -> list string
}.

(** [_get_asset], by the partitions definition of the asset. *)
Definition _get_asset (view : AssetsView) (asset_key : AssetKey)
  : Result (option PartitionsDefinition) :=
  match assets_by_key view asset_key with
  | Some asset => Ok asset
  | None =>
      match repository_assets view asset_key with
      | Some asset => Ok asset
      | None => Raise DagsterInvalidInvocationError
      end
  end.

(** [l[i:j]] for indices within the list. *)
Definition py_slice {A} (l : list A) (i j : nat) : list A := take (j - i) (drop i l).

(** [get_downstream_partition_keys]: whether it warned, and what it
    returns. *)
Definition get_downstream_partition_keys (view : AssetsView) (partition_key : string)
    (from_asset_key to_asset_key : AssetKey) : Result (bool * list string) :=
  to_asset ← _get_asset view to_asset_key;
  from_asset ← _get_asset view from_asset_key;
  match to_asset with
  | None => Raise DagsterInvalidInvocationError
  | Some to_partitions_def =>
      match from_asset with
      | None => Raise DagsterInvalidInvocationError
      | Some _ =>
          let downstream_partition_key_range :=
            get_downstream_partitions_for_partition_range view to_asset_key from_asset_key
              partition_key in
          let range_start := fst downstream_partition_key_range in
          let range_end := snd downstream_partition_key_range in
          let partition_keys := get_partition_keys to_partitions_def in
          let outside :=
            negb (bool_decide (range_start ∈ partition_keys))
            || negb (bool_decide (range_end ∈ partition_keys)) in
          if outside && negb (is_time_window to_partitions_def) then
            Raise DagsterInvalidInvocationError
          else if is_time_window to_partitions_def then
            Ok (outside,
                get_partition_keys_in_range view to_partitions_def
                  downstream_partition_key_range)
          else
            match py_index range_start partition_keys, py_index range_end partition_keys with
            | Some i, Some j => Ok (outside, py_slice partition_keys i (j + 1))
            | _, _ => Raise ValueError
            end
      end
  end.

(** Two assets of the repository with the same four static partitions,
    mapped one to one, of which the sensor monitors the first. *)
Definition letters : PartitionsDefinition :=
  {| get_partition_keys := ["a"; "b"; "c"; "d"]; is_time_window := false |}.

Definition identity_view : AssetsView :=
  {| assets_by_key := fun k => if decide (k = "A") then Some (Some letters) else None;
     repository_assets :=
       fun k => if decide (k = "B") then Some (Some letters) else None;
     get_downstream_partitions_for_partition_range := fun _ _ p => (p, p);
     get_partition_keys_in_range := fun _ _ => [] |}.

(** A trailing map that agrees with the store: every entry files, under the
    partition of the record, the id of a record of the store. *)
Definition trailing_of_store (store : list EventLogRecord) (trailing : list (string * Z))
  : Prop :=
  forall p id,
    (p, id) ∈ trailing ->
    exists e, stored_event store id = Some e
              ∧ _get_partition_key_from_event_log_record e = Some p.

(** The latest unconsumed record of every fetched partition of an asset, in
    the order of the records: the records the trailing map points to, then
    the records after the consumed id. *)
Definition records_by_partition (store : list EventLogRecord)
    (c : MultiAssetSensorAssetCursorComponent) (asset_key : AssetKey)
    (partitions_to_fetch : list string) : list (string * EventLogRecord) :=
  fold_left (keep_latest partitions_to_fetch)
    (merge_sort by_storage_id
       (trailing_events_at_tick_start store (trailing_unconsumed_partitioned_event_ids c))
     ++ get_event_records store
          (asset_filter asset_key (Some partitions_to_fetch) (latest_consumed_event_id c) None)
          true None)%list
    [].

(** [d.get(p, {}).get(a)] *)
Definition lookup_record (d : list (string * list (AssetKey * EventLogRecord)))
    (partition : string) (asset_key : AssetKey) : option EventLogRecord :=
  match dict_get partition d with
  | Some by_asset => dict_get asset_key by_asset
  | None => None
  end.

(** * Properties *)

Ltac tick_unfold :=
  unfold mbind, mret, Tick_bind, Tick_ret, tick_bind, tick_ret, tick_get,
    tick_modify, tick_raise, tick_lift in *.

(** ** Dictionaries *)

Section DictFacts.
Context {K V : Type} `{EqDecision K}.
Implicit Types (d : list (K * V)) (k : K) (v : V).

Lemma dict_mem_false_pop k d : dict_mem k d = false -> dict_pop k d = d.
Proof.
  unfold dict_mem. induction d as [|[k' v'] d IH]; simpl; [done|].
  destruct (decide (k = k')); [done|]. intros Hm. by rewrite IH.
Qed.

Lemma dict_set_fresh k v d : k ∉ map fst d -> dict_set k v d = (d ++ [(k, v)])%list.
Proof.
  induction d as [|[k' v'] d IH]; simpl; [done|].
  rewrite not_elem_of_cons. intros [Hne Hn].
  destruct (decide (k = k')); [done|]. by rewrite IH.
Qed.

Lemma dict_of_items_wf_aux (l acc : list (K * V)) :
  NoDup (map fst (acc ++ l)%list) ->
  fold_left (fun d kv => dict_set (fst kv) (snd kv) d) l acc = (acc ++ l)%list.
Proof.
  revert acc. induction l as [|[k v] l IH]; intros acc Hnd; simpl.
  - by rewrite app_nil_r.
  - rewrite dict_set_fresh.
    + rewrite IH; rewrite <- app_assoc; done.
    + rewrite map_app in Hnd. apply NoDup_app in Hnd as (_ & Hd & _).
      intros Hin. apply (Hd k Hin). simpl. left.
Qed.

Lemma dict_of_items_wf (l : list (K * V)) : dict_wf l -> dict_of_items l = l.
Proof. intros Hnd. unfold dict_of_items. by rewrite dict_of_items_wf_aux. Qed.

Lemma dict_get_set_eq k v d : dict_get k (dict_set k v d) = Some v.
Proof.
  induction d as [|[k' v'] d IH]; simpl.
  - by rewrite decide_True.
  - destruct (decide (k = k')) as [->|Hne]; simpl.
    + by rewrite decide_True.
    + by rewrite decide_False.
Qed.

Lemma dict_get_set_ne k k' v d : k ≠ k' -> dict_get k' (dict_set k v d) = dict_get k' d.
Proof.
  intros Hne. induction d as [|[k0 v0] d IH]; simpl.
  - by rewrite decide_False.
  - destruct (decide (k = k0)) as [->|Hne0]; simpl.
    + by rewrite !decide_False.
    + destruct (decide (k' = k0)); [done|]. apply IH.
Qed.
End DictFacts.

(** ** The overlay *)

Lemma record_unconsumed_overlay advanced d e :
  record_unconsumed advanced d e = overlay_event advanced d e.
Proof.
  unfold record_unconsumed, overlay_event, _get_partition_key_from_event_log_record.
  destruct (dagster_event e) as [ev|]; [|done].
  destruct (event_partition ev) as [p|]; [|done].
  destruct (decide (storage_id e ∈ advanced)) as [Hin|Hn].
  - rewrite bool_decide_true by done. simpl.
    destruct (dict_mem p d) eqn:Hm; [done|]. by rewrite dict_mem_false_pop.
  - by rewrite bool_decide_false.
Qed.

Lemma fold_record_unconsumed advanced es d :
  fold_left (record_unconsumed advanced) es d = fold_left (overlay_event advanced) es d.
Proof.
  revert d. induction es as [|e es IH]; intros d; simpl; [done|].
  by rewrite record_unconsumed_overlay, IH.
Qed.

Lemma pop_consumed_partition_remove p d :
  pop_consumed_partition p d = remove_partition p d.
Proof.
  destruct p as [p|]; simpl; [|done].
  destruct (dict_mem p d) eqn:Hm; [done|]. by rewrite dict_mem_false_pop.
Qed.

(** ** The event store *)

Lemma stored_event_Some store id r :
  stored_event store id = Some r -> r ∈ store ∧ storage_id r = id.
Proof.
  unfold stored_event. intros Hf. apply find_some in Hf as [Hin Heq].
  split; [by apply list_elem_of_In | lia].
Qed.

Lemma stored_event_unique store r :
  NoDup (map storage_id store) -> r ∈ store ->
  stored_event store (storage_id r) = Some r.
Proof.
  unfold stored_event. induction store as [|x store IH]; simpl; intros Hnd Hin.
  - by apply elem_of_nil in Hin.
  - apply NoDup_cons in Hnd as [Hx Hnd].
    apply elem_of_cons in Hin as [->|Hin].
    + by rewrite Z.eqb_refl.
    + destruct (storage_id x =? storage_id r) eqn:He; [|by apply IH].
      exfalso. apply Hx. apply Z.eqb_eq in He. rewrite He.
      apply list_elem_of_fmap. by exists r.
  Qed.

Lemma store_wf_NoDup store : store_wf store -> NoDup (map storage_id store).
Proof.
  intros [Hs _]. induction Hs as [|x l Hs IH Hall]; [constructor|].
  apply NoDup_cons. split; [|done].
  intros Hin. rewrite Forall_forall in Hall. specialize (Hall _ Hin). lia.
Qed.
(** ** The cache of initial unconsumed events *)

Lemma cache_update_lookup c rs id :
  cache_update c rs !! id = c !! id
  ∨ exists r, r ∈ rs ∧ storage_id r = id ∧ cache_update c rs !! id = Some r.
Proof.
  unfold cache_update. revert c. induction rs as [|x rs IH]; intros c; simpl; [by left|].
  destruct (IH (<[storage_id x := x]> c)) as [Heq | (r & Hin & Hid & Hl)].
  - destruct (decide (storage_id x = id)) as [He|Hne].
    + right. exists x. split; [left|]. split; [done|].
      rewrite Heq, <- He. apply lookup_insert_eq.
    + left. rewrite Heq. by apply lookup_insert_ne.
  - right. exists r. split; [by right | done].
Qed.

Lemma cache_update_elem c rs r :
  r ∈ rs ->
  exists r', r' ∈ rs ∧ storage_id r' = storage_id r
             ∧ cache_update c rs !! storage_id r = Some r'.
Proof.
  unfold cache_update. revert c. induction rs as [|x rs IH]; intros c Hin; simpl.
  - by apply elem_of_nil in Hin.
  - destruct (cache_update_lookup (<[storage_id x := x]> c) rs (storage_id r))
      as [Heq | (r' & Hin' & Hid & Hl)].
    + apply elem_of_cons in Hin as [->|Hin].
      * exists x. split; [left|]. split; [done|].
        unfold cache_update in Heq. rewrite Heq. apply lookup_insert_eq.
      * destruct (IH (<[storage_id x := x]> c) Hin) as (r' & Hin' & Hid & Hl).
        exists r'. split; [by right | done].
    + exists r'. split; [by right | done].
Qed.

Lemma elem_of_storage_ids_query store ids r :
  r ∈ get_event_records store (storage_ids_filter ids) false None
  <-> r ∈ store ∧ storage_id r ∈ ids.
Proof.
  unfold get_event_records, opt_take. rewrite elem_of_reverse.
  rewrite list_elem_of_filter. unfold record_matches, storage_ids_filter. simpl.
  rewrite bool_decide_eq_true. tauto.
Qed.

Section Cache.
Context (store : list EventLogRecord) (Hnd : NoDup (map storage_id store)).

Lemma stored_event_elem r id :
  r ∈ store -> storage_id r = id -> stored_event store id = Some r.
Proof. intros Hin <-. by apply stored_event_unique. Qed.

Lemma cache_update_keeps c ids id :
  c !! id = stored_event store id ->
  cache_update c (get_event_records store (storage_ids_filter ids) false None) !! id
  = stored_event store id.
Proof.
  intros Hc.
  destruct (cache_update_lookup c
              (get_event_records store (storage_ids_filter ids) false None) id)
    as [Heq | (r & Hin & Hid & Hl)].
  - by rewrite Heq.
  - rewrite Hl. symmetry. apply elem_of_storage_ids_query in Hin as [Hin _].
    by apply stored_event_elem.
Qed.

Lemma cache_update_sound c ids :
  cache_sound store c ->
  cache_sound store
    (cache_update c (get_event_records store (storage_ids_filter ids) false None)).
Proof.
  intros Hs id r Hl.
  destruct (cache_update_lookup c
              (get_event_records store (storage_ids_filter ids) false None) id)
    as [Heq | (r' & Hin & Hid & Hl')].
  - rewrite Heq in Hl. by apply Hs.
  - rewrite Hl' in Hl. injection Hl as <-.
    apply elem_of_storage_ids_query in Hin as [Hin _]. by apply stored_event_elem.
Qed.

Lemma cache_update_covers c ids id :
  cache_sound store c -> id ∈ ids ->
  cache_update c (get_event_records store (storage_ids_filter ids) false None) !! id
  = stored_event store id.
Proof.
  intros Hs Hin.
  destruct (stored_event store id) as [r|] eqn:Hst.
  - apply stored_event_Some in Hst as Hr. destruct Hr as [Hr Hid].
    assert (Hq : r ∈ get_event_records store (storage_ids_filter ids) false None).
    { apply elem_of_storage_ids_query. by rewrite Hid. }
    destruct (cache_update_elem c _ r Hq) as (r' & Hin' & Hid' & Hl).
    rewrite Hid in Hl, Hid'. rewrite Hl. f_equal.
    apply elem_of_storage_ids_query in Hin' as [Hin' _].
    apply (stored_event_elem _ _ Hin') in Hid'. congruence.
  - pose proof (cache_update_sound c ids Hs id) as Hsound.
    destruct (cache_update c _ !! id) as [r|] eqn:Hl; [|done].
    specialize (Hsound r eq_refl). congruence.
Qed.
End Cache.

Lemma read_instance_run ctx :
  has_instance ctx -> read_instance ctx = Ok (instance ctx, ctx).
Proof. unfold has_instance, read_instance, instance. by intros [store ->]. Qed.

Lemma read_instance_raise ctx :
  _instance ctx = None -> read_instance ctx = Raise DagsterInvariantViolationError.
Proof. unfold read_instance. by intros ->. Qed.

Lemma instance_set_cache c f ctx : instance (set_cache c f ctx) = instance ctx.
Proof. reflexivity. Qed.

Lemma instance_set_advances adv u ctx : instance (set_advances adv u ctx) = instance ctx.
Proof. reflexivity. Qed.

Lemma read_instance_if_run {A} (b : bool) (f : list EventLogRecord -> A) (d : A) ctx :
  has_instance ctx ->
  (if b then
     fun c => match read_instance c with
              | Ok (a, c') => Ok (f a, c')
              | Raise e => Raise e
              end
   else fun c => Ok (d, c)) ctx
  = Ok (if b then f (instance ctx) else d, ctx).
Proof. intros Hinst. destruct b; [|done]. by rewrite read_instance_run. Qed.

Lemma instance_eq ctx ctx' : _instance ctx' = _instance ctx -> instance ctx' = instance ctx.
Proof. unfold instance. by intros ->. Qed.

Lemma has_instance_eq ctx ctx' :
  _instance ctx' = _instance ctx -> has_instance ctx -> has_instance ctx'.
Proof. unfold has_instance. by intros ->. Qed.

Lemma read_instance_inv ctx store ctx' :
  read_instance ctx = Ok (store, ctx') ->
  ctx' = ctx ∧ _instance ctx = Some store ∧ instance ctx = store.
Proof.
  unfold read_instance, instance. destruct (_instance ctx); [|discriminate].
  by intros [= <- <-].
Qed.

Lemma read_instance_if_inv {A} (b : bool) (f : list EventLogRecord -> A) (d : A)
    ctx a ctx' :
  (if b then
     fun c => match read_instance c with
              | Ok (a, c') => Ok (f a, c')
              | Raise e => Raise e
              end
   else fun c => Ok (d, c)) ctx
  = Ok (a, ctx') ->
  ctx' = ctx ∧ a = (if b then f (instance ctx) else d).
Proof.
  destruct b; [|by intros [= <- <-]].
  destruct (read_instance ctx) as [[store ctx1]|] eqn:Hread; [|discriminate].
  apply read_instance_inv in Hread as (-> & _ & <-). by intros [= <- <-].
Qed.

Lemma has_instance_dec ctx : has_instance ctx ∨ _instance ctx = None.
Proof. unfold has_instance. destruct (_instance ctx); [left; by eexists|by right]. Qed.

Lemma fill_cache_run keys :
  forall ctx,
    has_instance ctx ->
    fill_cache keys ctx
    = Ok (tt, set_cache (filled_cache ctx keys (initial_unconsumed_events_by_id ctx))
                (fetched_initial_unconsumed_events ctx) ctx).
Proof.
  induction keys as [|k keys IH]; intros ctx Hinst; cbn [fill_cache].
  - by destruct ctx.
  - tick_unfold. rewrite read_instance_run by done.
    rewrite IH by exact Hinst. reflexivity.
Qed.

Lemma _cache_initial_unconsumed_events_run ctx :
  has_instance ctx ->
  _cache_initial_unconsumed_events ctx
  = if fetched_initial_unconsumed_events ctx then Ok (tt, ctx)
    else Ok (tt, set_cache
                   (filled_cache ctx (asset_keys ctx) (initial_unconsumed_events_by_id ctx))
                   true ctx).
Proof.
  intros Hinst. unfold _cache_initial_unconsumed_events. tick_unfold.
  destruct (fetched_initial_unconsumed_events ctx); [done|].
  by rewrite fill_cache_run.
Qed.

Lemma fill_cache_inv keys :
  forall ctx a ctx',
    fill_cache keys ctx = Ok (a, ctx') ->
    ctx' = set_cache (filled_cache ctx keys (initial_unconsumed_events_by_id ctx))
             (fetched_initial_unconsumed_events ctx) ctx.
Proof.
  induction keys as [|k keys IH]; intros ctx a ctx'; cbn [fill_cache].
  - intros [= _ <-]. by destruct ctx.
  - tick_unfold. destruct (read_instance ctx) as [[store ctx0]|] eqn:Hread; [|discriminate].
    apply read_instance_inv in Hread as (-> & _ & <-).
    intros Hrest. by apply IH in Hrest.
Qed.

Lemma _cache_initial_unconsumed_events_inv ctx a ctx' :
  _cache_initial_unconsumed_events ctx = Ok (a, ctx') ->
  ctx' = if fetched_initial_unconsumed_events ctx then ctx
         else set_cache
                (filled_cache ctx (asset_keys ctx) (initial_unconsumed_events_by_id ctx))
                true ctx.
Proof.
  unfold _cache_initial_unconsumed_events. tick_unfold.
  destruct (fetched_initial_unconsumed_events ctx) eqn:Hf; [by intros [= _ <-]|].
  destruct (fill_cache (asset_keys ctx) ctx) as [[[] ctx0]|] eqn:Hfill; [|discriminate].
  apply fill_cache_inv in Hfill as ->. by intros [= _ <-].
Qed.

Lemma _cache_initial_unconsumed_events_fetched ctx :
  fetched_initial_unconsumed_events ctx = true ->
  _cache_initial_unconsumed_events ctx = Ok (tt, ctx).
Proof. intros Hf. unfold _cache_initial_unconsumed_events. tick_unfold. by rewrite Hf. Qed.

Lemma tick_foldM_read_run {A B} (g : list EventLogRecord -> B -> A -> B) l :
  forall acc ctx,
    has_instance ctx ->
    tick_foldM (fun acc a => store ← read_instance; mret (g store acc a)) l acc ctx
    = Ok (fold_left (g (instance ctx)) l acc, ctx).
Proof.
  induction l as [|a l IH]; intros acc ctx Hinst; cbn [tick_foldM fold_left]; [done|].
  tick_unfold. rewrite read_instance_run by done. by apply IH.
Qed.

Lemma tick_foldM_read_raise {A B} (g : list EventLogRecord -> B -> A -> B) l acc ctx :
  _instance ctx = None -> l ≠ [] ->
  tick_foldM (fun acc a => store ← read_instance; mret (g store acc a)) l acc ctx
  = Raise DagsterInvariantViolationError.
Proof.
  intros Hnone Hl. destruct l as [|a l]; [done|]. cbn [tick_foldM]. tick_unfold.
  by rewrite read_instance_raise.
Qed.

Lemma latest_materialization_records_by_key_without_instance ctx keys :
  _instance ctx = None ->
  latest_materialization_records_by_key keys ctx
  = if decide (default (asset_keys ctx) keys = []) then Ok ([], ctx)
    else Raise DagsterInvariantViolationError.
Proof.
  intros Hnone. unfold latest_materialization_records_by_key.
  unfold mbind at 1, Tick_bind, tick_bind, tick_get.
  destruct (decide (default (asset_keys ctx) keys = [])) as [->|Hne]; [reflexivity|].
  by apply (tick_foldM_read_raise
              (fun store recs a =>
                 dict_set a
                   (head (get_event_records store
                            (asset_filter a None
                               (latest_consumed_event_id (_get_cursor ctx a)) None)
                            false (Some 1%nat))) recs)).
Qed.

Lemma latest_materialization_records_by_key_run ctx keys :
  has_instance ctx ->
  latest_materialization_records_by_key keys ctx
  = Ok (fold_left
          (fun asset_event_records a =>
             dict_set a
               (head (get_event_records (instance ctx)
                        (asset_filter a None (latest_consumed_event_id (_get_cursor ctx a)) None)
                        false (Some 1%nat)))
               asset_event_records)
          (default (asset_keys ctx) keys) [], ctx).
Proof.
  intros Hinst. unfold latest_materialization_records_by_key.
  unfold mbind at 1, Tick_bind, tick_bind, tick_get.
  by rewrite (tick_foldM_read_run
                (fun store recs a =>
                   dict_set a
                     (head (get_event_records store
                              (asset_filter a None
                                 (latest_consumed_event_id (_get_cursor ctx a)) None)
                              false (Some 1%nat))) recs)).
Qed.

Lemma fill_cache_spec ctx keys c :
  NoDup (map storage_id (instance ctx)) ->
  cache_sound (instance ctx) c ->
  cache_sound (instance ctx) (filled_cache ctx keys c)
  ∧ (forall id, c !! id = stored_event (instance ctx) id ->
                filled_cache ctx keys c !! id = stored_event (instance ctx) id)
  ∧ (forall k id,
       k ∈ keys ->
       id ∈ dict_values (trailing_unconsumed_partitioned_event_ids (_get_cursor ctx k)) ->
       filled_cache ctx keys c !! id = stored_event (instance ctx) id).
Proof.
  intros Hnd. unfold filled_cache. revert c.
  induction keys as [|k0 keys IH]; intros c Hs; simpl.
  - split; [done|]. split; [done|]. intros k id Hin. by apply elem_of_nil in Hin.
  - set (c' := cache_update c _).
    assert (Hs' : cache_sound (instance ctx) c') by by apply cache_update_sound.
    destruct (IH c' Hs') as (H1 & H2 & H3).
    split; [done|]. split.
    + intros id Hc. apply H2. by apply cache_update_keeps.
    + intros k id Hk Hid. apply elem_of_cons in Hk as [->|Hk].
      * apply H2. by apply cache_update_covers.
      * by apply (H3 k).
Qed.

Lemma omap_ext_elem {A B} (f g : A -> option B) (l : list A) :
  (forall x, x ∈ l -> f x = g x) -> omap f l = omap g l.
Proof.
  induction l as [|x l IH]; intros Hfg; simpl; [done|].
  rewrite (Hfg x) by left.
  assert (Hl : omap f l = omap g l) by (apply IH; intros y Hy; apply Hfg; by right).
  destruct (g x); [f_equal|]; exact Hl.
Qed.

(** [get_trailing_unconsumed_events] returns the stored events the trailing
    map points to, and touches the cache only. *)
Lemma get_trailing_unconsumed_events_spec ctx k :
  has_instance ctx ->
  NoDup (map storage_id (instance ctx)) -> k ∈ asset_keys ctx -> cache_ready ctx k ->
  exists cache',
    get_trailing_unconsumed_events k ctx
    = Ok (trailing_events_at_tick_start (instance ctx)
            (trailing_unconsumed_partitioned_event_ids (_get_cursor ctx k)),
          set_cache cache' true ctx)
    ∧ (forall k', k' ∈ asset_keys ctx -> cache_ready ctx k' ->
                  cache_ready (set_cache cache' true ctx) k').
Proof.
  intros Hinst Hnd Hk [Hsound Hcov].
  unfold get_trailing_unconsumed_events, _get_unconsumed_events_with_ids,
    trailing_events_at_tick_start.
  tick_unfold. rewrite _cache_initial_unconsumed_events_run by done.
  destruct (fetched_initial_unconsumed_events ctx) eqn:Hf.
  - exists (initial_unconsumed_events_by_id ctx). split.
    + f_equal. f_equal.
      * apply omap_ext_elem. intros id Hid. apply Hcov; [done|].
        by rewrite merge_sort_Permutation in Hid.
      * destruct ctx; simpl in *; by subst.
    + intros k' _ [Hs' Hc']. split; [done|]. intros _. by apply Hc'.
  - destruct (fill_cache_spec ctx (asset_keys ctx) (initial_unconsumed_events_by_id ctx)
                Hnd Hsound) as (H1 & H2 & H3).
    eexists. split.
    + simpl. f_equal. f_equal. apply omap_ext_elem. intros id Hid.
      apply (H3 k); [done|]. by rewrite merge_sort_Permutation in Hid.
    + intros k' Hk' _. split; [done|]. intros _ id Hid. by apply (H3 k').
Qed.

(** ** One asset of the finalization *)

Lemma set_max_elem (s : gset Z) :
  s ≠ ∅ -> exists g, set_max s = Some g ∧ g ∈ s.
Proof.
  intros Hne. unfold set_max.
  destruct (elements s) as [|x l] eqn:He.
  - apply elements_empty_inv in He. apply leibniz_equiv in He. done.
  - exists (foldr Z.max x l). split; [done|].
    apply elem_of_elements. rewrite He.
    clear He. induction l as [|y l IH]; simpl; [left|].
    destruct (Z.max_spec y (foldr Z.max x l)) as [[_ ->]|[_ ->]].
    + apply elem_of_cons in IH as [IH|IH]; [rewrite IH; left | right; by right].
    + right; left.
Qed.

Lemma size_eqb_0_false (s : gset Z) : s ≠ ∅ -> Nat.eqb (size s) 0 = false.
Proof.
  intros Hne. apply Nat.eqb_neq. intros Hs. apply Hne.
  apply size_empty_inv in Hs. apply leibniz_equiv. exact Hs.
Qed.

Lemma filter_ext_Forall {A} (P Q : A -> Prop) `{!forall x, Decision (P x)}
    `{!forall x, Decision (Q x)} (l : list A) :
  Forall (fun x => P x <-> Q x) l -> filter P l = filter Q l.
Proof.
  induction 1 as [|x l Hx _ IH]; [done|].
  rewrite !filter_cons. rewrite IH.
  destruct (decide (P x)), (decide (Q x)); tauto.
Qed.

Lemma fresh_events_between store k prior g :
  Forall (fun r => 0 < storage_id r) store ->
  (if or_zero prior <? g
   then get_event_records store (asset_filter k None prior (Some g)) true None
   else [])
  = events_strictly_between store k (or_zero prior) g.
Proof.
  intros Hpos. unfold events_strictly_between, get_event_records, opt_take.
  destruct (or_zero prior <? g) eqn:Hlt.
  - apply filter_ext_Forall. eapply Forall_impl; [exact Hpos|].
    intros r Hr. unfold record_matches, asset_filter. simpl.
    rewrite !andb_true_r, !andb_true_iff, bool_decide_eq_true, Z.ltb_lt.
    destruct prior as [p|]; simpl; [rewrite Z.ltb_lt|]; intuition lia.
  - apply Z.ltb_ge in Hlt. symmetry.
    induction store as [|r store IH]; [done|].
    apply Forall_cons in Hpos as [_ Hpos].
    rewrite filter_cons. rewrite decide_False by lia. by apply IH.
Qed.

#[local] Arguments get_event_records : simpl never.
#[local] Arguments Nat.leb : simpl never.
#[local] Arguments trailing_with_backlog : simpl never.

Lemma after_asset_refl ctx k : after_asset ctx ctx k.
Proof. unfold after_asset. repeat (split; [done|]). auto. Qed.

Lemma get_cursor_write_trailing k k' d c :
  k' ≠ k ->
  get_cursor_for_asset (write_trailing k d c) k' = get_cursor_for_asset c k'.
Proof.
  intros Hne. unfold get_cursor_for_asset, write_trailing, str_asset_key.
  destruct (dict_get _ (cursor_component_by_asset_key c)); [|reflexivity].
  simpl. rewrite dict_get_set_ne; [reflexivity|]. congruence.
Qed.

Lemma get_asset_cursor_without_advances ctx adv k :
  advanced_ids adv k = ∅ ->
  get_asset_cursor_with_advances adv k ctx = Ok (_get_cursor ctx k, ctx).
Proof.
  unfold advanced_ids, get_asset_cursor_with_advances. tick_unfold.
  intros ->. by rewrite size_empty.
Qed.

Lemma get_asset_cursor_with_advances_spec ctx adv k :
  has_instance ctx ->
  store_wf (instance ctx) -> k ∈ asset_keys ctx -> cache_ready ctx k ->
  advances_wf adv -> advanced_ids adv k ≠ ∅ ->
  match next_component (instance ctx) adv k (_get_cursor ctx k) with
  | Ok c =>
      exists ctx', get_asset_cursor_with_advances adv k ctx = Ok (c, ctx')
                   ∧ after_asset ctx ctx' k
  | Raise e => get_asset_cursor_with_advances adv k ctx = Raise e
  end.
Proof.
  intros Hinst Hwf Hk Hready Hadv Hne.
  pose proof (store_wf_NoDup _ Hwf) as Hnd. destruct Hwf as [_ Hpos].
  destruct (set_max_elem _ Hne) as (g & Hmax & Hg).
  assert (Hp : exists p, partition_key_by_record_id adv !! g = Some p).
  { unfold advanced_ids in Hg, Hne.
    destruct (advanced_record_ids_by_key adv !! k) as [ids|] eqn:Hids; [|done].
    destruct (Hadv k ids g Hids Hg) as [p Hp]. by exists p. }
  destruct Hp as [p Hp].
  unfold next_component, get_asset_cursor_with_advances, consumed_pointer,
    max_advanced_partition, max_advanced_id.
  fold (advanced_ids adv k). rewrite Hmax. simpl. rewrite Hp. simpl.
  tick_unfold. rewrite (size_eqb_0_false _ Hne).
  destruct (advance_all_cursors_called adv) eqn:Hall.
  - simpl. exists ctx. split; [|apply after_asset_refl].
    by destruct (or_zero _ <? g).
  - destruct (get_trailing_unconsumed_events_spec ctx k Hinst Hnd Hk Hready)
      as (cache' & Hget & Hcache).
    rewrite Hget. simpl.
    rewrite (read_instance_if_run _ (fun a => get_event_records a _ true None)) by done.
    rewrite instance_set_cache. simpl.
    rewrite fresh_events_between by done.
    rewrite fold_record_unconsumed, pop_consumed_partition_remove.
    unfold trailing_with_backlog, max_advanced_partition, max_advanced_id, dict_len.
    rewrite Hmax. simpl. rewrite Hp. simpl.
    match goal with |- context [(MAX_NUM_UNCONSUMED_EVENTS <=? ?n)%nat] =>
      destruct (MAX_NUM_UNCONSUMED_EVENTS <=? n)%nat eqn:Hcap end; [done|].
    eexists. split.
    + destruct (or_zero _ <? g); reflexivity.
    + unfold after_asset. repeat (split; [done|]). split.
      * intros k' Hk'. unfold _get_cursor. simpl. by apply get_cursor_write_trailing.
      * intros k' Hk' Hin Hr. destruct (Hcache k' Hin Hr) as [Hs Hc].
        split; [exact Hs|]. intros _ id. unfold _get_cursor. simpl.
        rewrite get_cursor_write_trailing by done. by apply Hc.
Qed.

(** ** The [json] module reads back what it writes *)

Module PyJsonFacts.
Import PyJson.
#[local] Open Scope list_scope.

Lemma scan_string_escape_char c tail :
  scan_string (escape_char c ++ tail)
  = match scan_string tail with
    | Some (cs, r) => Some (c :: cs, r)
    | None => None
    end.
Proof. destruct c as [[] [] [] [] [] [] [] []]; reflexivity. Qed.

Lemma scan_string_escaped cs rest :
  scan_string (flat_map escape_char cs ++ "034"%char :: rest) = Some (cs, rest).
Proof.
  induction cs as [|c cs IH]; [reflexivity|].
  cbn [flat_map]. rewrite <- app_assoc, scan_string_escape_char. by rewrite IH.
Qed.

Lemma print_string_cons s :
  print_string s
  = "034"%char :: flat_map escape_char (list_ascii_of_string s) ++ ["034"%char].
Proof. reflexivity. Qed.

Lemma scan_uint_print u rest :
  ends_number rest -> scan_uint (print_uint u ++ rest) = (u, rest).
Proof.
  intros Hrest. induction u; cbn [print_uint app scan_uint digit_of]; try by rewrite IHu.
  destruct rest as [|c rest]; [reflexivity|]. destruct Hrest as [Hd _].
  cbn [scan_uint]. by rewrite Hd.
Qed.

Lemma to_uint_head p : forall u, Pos.to_uint p ≠ Decimal.D0 u.
Proof.
  intros u Hu.
  pose proof (DecimalPos.Unsigned.to_of (Pos.to_uint p)) as Hto.
  rewrite DecimalPos.Unsigned.of_to in Hto. simpl in Hto.
  unfold Decimal.unorm in Hto.
  destruct (Decimal.nzhead (Pos.to_uint p)) eqn:Hnz;
    try (rewrite Hu in Hto; discriminate).
  - apply (Unsigned.to_uint_nonzero p). by rewrite Hto.
  - by apply nzhead_nonzero in Hnz.
Qed.

Lemma print_uint_head u rest :
  u ≠ Decimal.Nil ->
  exists c r, print_uint u ++ rest = c :: r ∧ Ascii.eqb c "-" = false
              ∧ is_ws c = false ∧ digit_of c ≠ None.
Proof.
  intros Hu. destruct u; [done|..]; cbn [print_uint app]; eexists _, _;
    (split; [reflexivity|]); repeat split; done.
Qed.

Lemma scan_fraction_none rest : starts_fraction rest = false -> scan_fraction rest = None.
Proof.
  destruct rest as [|c rest]; [done|]. cbn [starts_fraction scan_fraction].
  by destruct (Ascii.eqb c ".").
Qed.

Lemma scan_exponent_none rest : starts_fraction rest = false -> scan_exponent rest = None.
Proof.
  destruct rest as [|c rest]; [done|]. cbn [starts_fraction scan_exponent].
  destruct (Ascii.eqb c "."); [done|]. cbn [orb]. by intros ->.
Qed.

Lemma ends_number_fraction rest : ends_number rest -> starts_fraction rest = false.
Proof. destruct rest; [reflexivity|]. by intros [_ ?]. Qed.

Lemma scan_integer_print p rest :
  ends_number rest ->
  scan_integer (print_uint (Pos.to_uint p) ++ rest) = (Pos.to_uint p, rest).
Proof.
  intros Hrest. rewrite <- (scan_uint_print (Pos.to_uint p) rest Hrest).
  pose proof (Unsigned.to_uint_nonnil p) as Hnil.
  pose proof (to_uint_head p) as Hhead.
  destruct (Pos.to_uint p) as [|u|u|u|u|u|u|u|u|u|u]; try done.
  by exfalso; eapply Hhead.
Qed.

Lemma parse_number_pos p (negative : bool) rest :
  ends_number rest ->
  (let '(u, rest0) := scan_integer (print_uint (Pos.to_uint p) ++ rest) in
   match u with
   | Decimal.Nil => @None (JSON * list ascii)
   | _ =>
       let fraction := scan_fraction rest0 in
       let rest1 := match fraction with Some (_, r) => r | None => rest0 end in
       let exponent := scan_exponent rest1 in
       let rest2 := match exponent with Some (_, r) => r | None => rest1 end in
       match fraction, exponent with
       | None, None =>
           let n := Z.of_N (N.of_uint u) in
           Some (JInt (if negative then - n else n), rest0)
       | _, _ =>
           let decimals := match fraction with Some (d, _) => d | None => Decimal.Nil end in
           let power := match exponent with Some (x, _) => x | None => 0 end in
           Some (JFloat (float_of_decimal negative (N.of_uint (Decimal.app u decimals))
                           (power - Z.of_nat (Decimal.nb_digits decimals))),
                 rest2)
       end
   end)
  = Some (JInt (if negative then Z.neg p else Z.pos p), rest).
Proof.
  intros Hrest. rewrite scan_integer_print by done.
  pose proof (ends_number_fraction rest Hrest) as Hfrac.
  cbv zeta. rewrite (scan_fraction_none rest Hfrac), (scan_exponent_none rest Hfrac).
  pose proof (Unsigned.to_uint_nonnil p) as Hnil.
  pose proof (DecimalPos.Unsigned.of_to p) as Hof.
  destruct (Pos.to_uint p) as [|u|u|u|u|u|u|u|u|u|u] eqn:Hu; try done;
    unfold N.of_uint; rewrite Hof; by destruct negative.
Qed.

Lemma parse_number_print z rest :
  ends_number rest -> parse_number (print_int z ++ rest) = Some (JInt z, rest).
Proof.
  intros Hrest.
  destruct z as [|p|p]; unfold parse_number, print_int.
  - pose proof (ends_number_fraction rest Hrest) as Hfrac.
    cbn [app Ascii.eqb Bool.eqb scan_integer]. cbv zeta.
    by rewrite (scan_fraction_none rest Hfrac), (scan_exponent_none rest Hfrac).
  - destruct (print_uint_head (Pos.to_uint p) rest (Unsigned.to_uint_nonnil p))
      as (c & r & Heq & Hc & _).
    rewrite Heq, Hc, <- Heq. by apply (parse_number_pos p false).
  - cbn [app Ascii.eqb Bool.eqb]. by apply (parse_number_pos p true).
Qed.

Lemma print_JList l : print (JList l) = "["%char :: print_items l ++ ["]"%char].
Proof. reflexivity. Qed.

Lemma print_JObj ms : print (JObj ms) = "{"%char :: print_members ms ++ ["}"%char].
Proof. reflexivity. Qed.

Lemma json_depth_elem l x :
  x ∈ l -> (json_depth x <= foldr (fun x d => Nat.max (json_depth x) d) 0 l)%nat.
Proof. induction 1 as [x l|x y l _ IH]; simpl; lia. Qed.

Lemma json_depth_member (ms : list (string * JSON)) kx :
  kx ∈ ms ->
  (json_depth (snd kx) <= foldr (fun kx d => Nat.max (json_depth (snd kx)) d) 0 ms)%nat.
Proof. induction 1 as [x l|x y l _ IH]; simpl; lia. Qed.

Lemma json_wf_JList l x : json_wf (JList l) -> x ∈ l -> json_wf x.
Proof.
  intros Hwf Hin. induction Hin as [x l|x y l _ IH]; simpl in Hwf.
  - tauto.
  - apply IH. tauto.
Qed.

Lemma json_wf_JObj ms kx : json_wf (JObj ms) -> kx ∈ ms -> json_wf (snd kx).
Proof.
  intros [_ Hwf] Hin. induction Hin as [x l|x y l _ IH]; simpl in Hwf.
  - tauto.
  - apply IH. tauto.
Qed.

Lemma digit_opens c : digit_of c ≠ None -> opens c.
Proof. destruct c as [[] [] [] [] [] [] [] []]; intros Hd; try done. Qed.

Lemma format_repr_head ds decpt :
  (exists c r, ds = c :: r ∧ digit_of c ≠ None) ->
  exists c r, format_repr ds decpt = c :: r ∧ digit_of c ≠ None.
Proof.
  intros (c & r & -> & Hc). unfold format_repr.
  destruct ((decpt <=? -4) || (16 <? decpt));
    [eexists _, _; split; [reflexivity|done]|].
  destruct (decpt <=? 0); [eexists _, _; split; [reflexivity|done]|].
  destruct (_ <=? _)%nat; eexists _, _; split; done.
Qed.

Lemma repr_finite_head m e :
  exists c r, repr_finite m e = c :: r ∧ digit_of c ≠ None.
Proof.
  unfold repr_finite.
  destruct (shortest_decimal _ _ _ _ _ _) as [c x].
  destruct (strip_zeros _ _ _) as [c' x'].
  apply format_repr_head.
  destruct (print_uint_head (Pos.to_uint c') [] (Unsigned.to_uint_nonnil c'))
    as (c0 & r0 & Heq & _ & _ & Hd).
  rewrite app_nil_r in Heq. by exists c0, r0.
Qed.

Lemma print_float_head x rest : exists c r, print_float x ++ rest = c :: r ∧ opens c.
Proof.
  destruct x as [[]|[]| |s m e]; try by (eexists _, _; split; [reflexivity|done]).
  destruct (repr_finite_head m e) as (c & r & Heq & Hc).
  unfold print_float. rewrite Heq.
  destruct s; eexists _, _; (split; [reflexivity|]); [done|by apply digit_opens].
Qed.

Lemma print_head v rest : exists c r, print v ++ rest = c :: r ∧ opens c.
Proof.
  destruct v as [|[]|z|x|s|l|ms]; try by (eexists _, _; split; [reflexivity|done]).
  - destruct z as [|p|p]; try by (eexists _, _; split; [reflexivity|done]).
    destruct (print_uint_head (Pos.to_uint p) rest (Unsigned.to_uint_nonnil p))
      as (c & r & Heq & _ & _ & Hd).
    exists c, r. split; [done|]. by apply digit_opens.
  - apply print_float_head.
Qed.

Lemma skip_ws_opens c r : opens c -> skip_ws (c :: r) = c :: r.
Proof. intros [Hws _]. simpl. by rewrite Hws. Qed.

Lemma skip_ws_print v rest : skip_ws (print v ++ rest) = print v ++ rest.
Proof.
  destruct (print_head v rest) as (c & r & -> & Hc). by apply skip_ws_opens.
Qed.

Lemma parse_value_number depth c r v rest :
  digit_of c ≠ None ∨ c = "-"%char ->
  parse_number (c :: r) = Some (v, rest) ->
  parse_value depth (c :: r) = Ok (v, rest).
Proof.
  intros Hc Hnum.
  assert (Hval : parse_value depth (c :: r)
                 = match parse_number (c :: r) with
                   | Some res => Ok res
                   | None =>
                       if Ascii.eqb c "-"
                       then literal "Infinity" (JFloat (S754_infinity true)) r
                       else Raise JSONDecodeError
                   end).
  { destruct depth; destruct c as [[] [] [] [] [] [] [] []];
      destruct Hc as [Hd|Hm]; try done. }
  by rewrite Hval, Hnum.
Qed.

Lemma print_int_head z rest :
  exists c r, print_int z ++ rest = c :: r ∧ (digit_of c ≠ None ∨ c = "-"%char).
Proof.
  destruct z as [|p|p].
  - eexists _, _. split; [reflexivity|]. by left.
  - destruct (print_uint_head (Pos.to_uint p) rest (Unsigned.to_uint_nonnil p))
      as (c & r & Heq & _ & _ & Hd).
    exists c, r. split; [done|]. by left.
  - eexists _, _. split; [reflexivity|]. by right.
Qed.

Lemma print_items_head x l rest :
  exists c r, print_items (x :: l) ++ rest = c :: r ∧ opens c.
Proof.
  cbn [print_items]. rewrite <- app_assoc. apply print_head.
Qed.

Lemma parse_items_print value n l rest :
  l ≠ [] -> (length l <= n)%nat -> (forall x, x ∈ l -> reads value x) ->
  parse_items value n (print_items l ++ "]"%char :: rest) = Ok (l, rest).
Proof.
  revert n. induction l as [|x l IH]; intros n Hne Hn Hread; [done|].
  destruct n as [|n]; [simpl in Hn; lia|].
  cbn [print_items parse_items]. rewrite <- app_assoc.
  rewrite (Hread x) by (try left; destruct l; done).
  destruct l as [|y l].
  - reflexivity.
  - unfold sep. cbn [app skip_ws is_ws Ascii.eqb Bool.eqb].
    destruct (print_items_head y l ("]"%char :: rest)) as (c & r & Heq & Hc).
    rewrite Heq, (skip_ws_opens c r Hc), <- Heq.
    rewrite IH; [reflexivity|done|simpl in Hn |- *; lia|].
    intros z Hz. apply Hread. by right.
Qed.

Lemma parse_members_print value n ms rest :
  ms ≠ [] -> (length ms <= n)%nat -> (forall kx, kx ∈ ms -> reads value (snd kx)) ->
  parse_members value n (print_members ms ++ "}"%char :: rest) = Ok (ms, rest).
Proof.
  revert n. induction ms as [|[k x] ms IH]; intros n Hne Hn Hread; [done|].
  destruct n as [|n]; [simpl in Hn; lia|].
  cbn [print_members parse_members]. rewrite print_string_cons.
  rewrite <- !app_assoc. cbn [app Ascii.eqb Bool.eqb].
  rewrite <- !app_assoc. cbn [app]. rewrite scan_string_escaped.
  cbn [app skip_ws is_ws Ascii.eqb Bool.eqb].
  rewrite skip_ws_print.
  rewrite (Hread (k, x)) by (try left; destruct ms; done).
  rewrite string_of_list_ascii_of_string.
  destruct ms as [|[k' y] ms].
  - reflexivity.
  - unfold sep. cbn [app skip_ws is_ws Ascii.eqb Bool.eqb].
    change (skip_ws (print_members ((k', y) :: ms) ++ "}"%char :: rest))
      with (print_members ((k', y) :: ms) ++ "}"%char :: rest).
    rewrite IH; [reflexivity|done|simpl in Hn |- *; lia|].
    intros z Hz. apply Hread. by right.
Qed.

Lemma print_length v : (1 <= length (print v))%nat.
Proof.
  destruct (print_head v []) as (c & r & Heq & _).
  rewrite app_nil_r in Heq. rewrite Heq. simpl. lia.
Qed.

Lemma print_items_length l : (length l <= length (print_items l))%nat.
Proof.
  induction l as [|x l IH]; [done|].
  cbn [print_items]. rewrite length_app. pose proof (print_length x).
  destruct l; [simpl; lia|]. rewrite length_app. simpl in *. lia.
Qed.

Lemma print_members_length ms : (length ms <= length (print_members ms))%nat.
Proof.
  induction ms as [|[k x] ms IH]; [done|].
  cbn [print_members]. rewrite !length_app. pose proof (print_length x).
  destruct ms; [simpl; lia|]. rewrite length_app. simpl in *. lia.
Qed.

Lemma parse_value_print depth v rest :
  json_wf v -> (json_depth v <= depth)%nat -> ends_number rest ->
  parse_value depth (print v ++ rest) = Ok (v, rest).
Proof.
  revert v rest. induction depth as [|depth IH]; intros v rest Hwf Hdepth Hrest;
    destruct v as [|[]|z|x|s|l|ms]; try reflexivity; try done;
    try (simpl in Hdepth; lia).
  1,3: destruct (print_int_head z rest) as (c & r & Heq & Hc);
    change (print (JInt z)) with (print_int z);
    rewrite Heq; apply parse_value_number; [done|];
    rewrite <- Heq; by apply parse_number_print.
  1,2: change (print (JStr s)) with (print_string s);
    rewrite print_string_cons; cbn [app parse_value Ascii.eqb Bool.eqb];
    rewrite <- app_assoc; cbn [app]; rewrite scan_string_escaped;
    by rewrite string_of_list_ascii_of_string.
  - rewrite print_JList. cbn [app parse_value Ascii.eqb Bool.eqb].
    rewrite <- app_assoc. cbn [app].
    destruct l as [|x l]; [reflexivity|].
    destruct (print_items_head x l ("]"%char :: rest)) as (c & r & Heq & Hc).
    rewrite Heq, (skip_ws_opens c r Hc). destruct Hc as (_ & -> & _). rewrite <- Heq.
    rewrite parse_items_print; [reflexivity|done|..].
    + rewrite length_app. pose proof (print_items_length (x :: l)). lia.
    + intros y Hy tail Htail. apply IH; [by eapply json_wf_JList| |done].
      pose proof (json_depth_elem (x :: l) y Hy) as Hle.
      cbn [json_depth] in Hdepth. lia.
  - rewrite print_JObj. cbn [app parse_value Ascii.eqb Bool.eqb].
    rewrite <- app_assoc. cbn [app].
    destruct ms as [|[k x] ms]; [reflexivity|].
    change (skip_ws (print_members ((k, x) :: ms) ++ "}"%char :: rest))
      with (print_members ((k, x) :: ms) ++ "}"%char :: rest).
    assert (Hq : exists r, print_members ((k, x) :: ms) ++ "}"%char :: rest
                           = "034"%char :: r) by (eexists; reflexivity).
    destruct Hq as [r Heq]. rewrite Heq. cbn [Ascii.eqb Bool.eqb]. rewrite <- Heq.
    rewrite parse_members_print; [|done|..].
    + rewrite dict_of_items_wf; [reflexivity|]. by destruct Hwf.
    + rewrite length_app. pose proof (print_members_length ((k, x) :: ms)). lia.
    + intros ky Hy tail Htail. apply IH; [by eapply json_wf_JObj| |done].
      pose proof (json_depth_member ((k, x) :: ms) ky Hy) as Hle.
      cbn [json_depth] in Hdepth. lia.
Qed.

Lemma loads_within_dumps depth v :
  json_wf v -> (json_depth v <= depth)%nat -> loads_within depth (dumps v) = Ok v.
Proof.
  intros Hwf Hdepth. unfold loads_within, dumps.
  rewrite list_ascii_of_string_of_list_ascii.
  pose proof (skip_ws_print v []) as Hskip.
  pose proof (parse_value_print depth v [] Hwf Hdepth) as Hparse.
  rewrite app_nil_r in Hskip, Hparse. by rewrite Hskip, Hparse.
Qed.

Lemma recursion_limit_cursor : (3 <= recursion_limit)%nat.
Proof. unfold recursion_limit. repeat apply le_n_S. apply Nat.le_0_l. Qed.

Lemma loads_dumps v : json_wf v -> (json_depth v <= 3)%nat -> loads (dumps v) = Ok v.
Proof.
  intros Hwf Hdepth. apply loads_within_dumps; [done|].
  pose proof recursion_limit_cursor. lia.
Qed.

Lemma dumps_nonempty v : dumps v ≠ EmptyString.
Proof.
  unfold dumps. destruct (print_head v []) as (c & r & Heq & _).
  rewrite app_nil_r in Heq. by rewrite Heq.
Qed.
End PyJsonFacts.

(** The laws hold wherever [json.loads] is called with room for the three
    levels of a cursor map. *)
Lemma python_json_within_laws depth :
  (3 <= depth)%nat -> @JsonCodecLaws (python_json_within depth).
Proof.
  intros Hdepth. split.
  - intros v Hwf Hv. apply PyJsonFacts.loads_within_dumps; [done|]. cbn in Hv |- *. lia.
  - apply PyJsonFacts.dumps_nonempty.
Qed.

#[global] Instance python_json_laws : JsonCodecLaws.
Proof. apply python_json_within_laws, PyJsonFacts.recursion_limit_cursor. Qed.

(** ** The cursor codec *)

Lemma check_int_values_encoded (t : list (string * Z)) :
  check_int_values (map (fun kv => (fst kv, JInt (snd kv))) t) = Ok t.
Proof.
  induction t as [|[k z] t IH]; [reflexivity|].
  simpl. rewrite IH. reflexivity.
Qed.

Lemma new_cursor_component_encoded c :
  new_cursor_component
    (opt_str_to_json (latest_consumed_event_partition c))
    (opt_int_to_json (latest_consumed_event_id c))
    (JObj (map (fun kv => (fst kv, JInt (snd kv)))
               (trailing_unconsumed_partitioned_event_ids c)))
  = Ok c.
Proof.
  destruct c as [[p|] [e|] t]; unfold new_cursor_component; simpl;
    rewrite check_int_values_encoded; reflexivity.
Qed.

Lemma unpack_cursor_entries_encoded m acc :
  NoDup (map fst (acc ++ m)%list) ->
  unpack_cursor_entries (map (fun kc => (fst kc, component_to_json (snd kc))) m)
    (context_cursor_of acc)
  = Ok (context_cursor_of (acc ++ m)%list).
Proof.
  revert acc. induction m as [|[k c] m IH]; intros acc Hnd.
  - by rewrite app_nil_r.
  - cbn [map unpack_cursor_entries fst snd].
    change (py_len (component_to_json c)) with (@Ok nat 3%nat).
    cbn [mbind Result_bind Nat.eqb negb].
    change (py_unpack3 (component_to_json c))
      with (@Ok (JSON * JSON * JSON)
              (opt_str_to_json (latest_consumed_event_partition c),
               opt_int_to_json (latest_consumed_event_id c),
               JObj (map (fun kv => (fst kv, JInt (snd kv)))
                         (trailing_unconsumed_partitioned_event_ids c)))).
    cbn [mbind Result_bind]. rewrite new_cursor_component_encoded.
    cbn [mbind Result_bind].
    assert (Hk : k ∉ map fst acc).
    { rewrite map_app in Hnd. apply NoDup_app in Hnd as (_ & Hd & _).
      intros Hin. apply (Hd k Hin). left. }
    unfold context_cursor_of at 1 2. cbn [cursor_component_by_asset_key
      initial_latest_consumed_event_ids_by_asset_key].
    rewrite !dict_set_fresh; [|by rewrite map_map|done].
    specialize (IH (acc ++ [(k, c)])%list).
    rewrite <- app_assoc in IH. cbn [app] in IH. rewrite <- IH by done.
    f_equal. unfold context_cursor_of. f_equal. by rewrite map_app.
Qed.

Lemma json_wf_JObj_intro ms :
  NoDup (map fst ms) -> Forall (fun kx => json_wf (snd kx)) ms -> json_wf (JObj ms).
Proof.
  intros Hnd Hall. split; [done|].
  induction Hall as [|kx ms Hx _ IH]; [done|]. split; [done|].
  apply IH. by apply NoDup_cons in Hnd as [_ Hnd].
Qed.

Lemma json_wf_component c :
  dict_wf (trailing_unconsumed_partitioned_event_ids c) -> json_wf (component_to_json c).
Proof.
  intros Hwf. unfold component_to_json.
  split; [by destruct (latest_consumed_event_partition c)|].
  split; [by destruct (latest_consumed_event_id c)|]. split; [|done].
  apply json_wf_JObj_intro.
  - by rewrite map_map.
  - apply Forall_forall. intros kx Hin. apply list_elem_of_fmap in Hin as (kv & -> & _). done.
Qed.

Lemma json_wf_cursor m : cursor_map_wf m -> json_wf (cursor_to_json m).
Proof.
  intros [Hnd Hall]. apply json_wf_JObj_intro.
  - by rewrite map_map.
  - apply Forall_forall. intros kx Hin. apply list_elem_of_fmap in Hin as (kc & -> & Hin).
    simpl. apply json_wf_component. rewrite Forall_forall in Hall. by apply Hall.
Qed.

Lemma json_depth_int_items (t : list (string * Z)) :
  foldr (fun kx d => Nat.max (json_depth (snd kx)) d) 0%nat
    (map (fun kv => (fst kv, JInt (snd kv))) t) = 0%nat.
Proof. induction t as [|kv t IH]; [done|]. simpl. by rewrite IH. Qed.

Lemma json_depth_component c : json_depth (component_to_json c) = 2%nat.
Proof.
  unfold component_to_json. cbn [json_depth foldr]. rewrite json_depth_int_items.
  by destruct (latest_consumed_event_partition c), (latest_consumed_event_id c).
Qed.

Lemma json_depth_cursor m : (json_depth (cursor_to_json m) <= 3)%nat.
Proof.
  unfold cursor_to_json. cbn [json_depth]. apply le_n_S.
  induction m as [|kc m IH]; [simpl; lia|].
  cbn [map foldr snd]. rewrite json_depth_component. lia.
Qed.

Lemma unpack_loaded_cursor_encoded m :
  dict_wf m -> unpack_loaded_cursor (cursor_to_json m) = Ok (context_cursor_of m).
Proof.
  intros Hwf. unfold unpack_loaded_cursor, cursor_to_json.
  by apply (unpack_cursor_entries_encoded m []).
Qed.

Lemma new_context_cursor_encoded `{JsonCodecLaws} m :
  cursor_map_wf m ->
  new_context_cursor (Some (json_dumps (cursor_to_json m))) = Ok (context_cursor_of m).
Proof.
  intros Hwf. unfold new_context_cursor.
  rewrite decide_False by apply json_dumps_nonempty.
  rewrite json_loads_dumps by (by apply json_wf_cursor || apply json_depth_cursor).
  cbn [mbind Result_bind]. apply unpack_loaded_cursor_encoded. by destruct Hwf.
Qed.

(** A context built from the string of a well-formed cursor map is the
    context at the start of a tick on that map. *)
Lemma new_context_at_tick_start `{JsonCodecLaws} keys store m :
  cursor_map_wf m ->
  new_context keys unpartitioned (Some store) (Some (json_dumps (cursor_to_json m)))
  = Ok (context_at_tick_start keys store m).
Proof.
  intros Hwf. unfold new_context. rewrite (new_context_cursor_encoded m Hwf). reflexivity.
Qed.

Lemma unpack_cursor_entries_break items key v rest n acc :
  py_len v = Ok n -> n ≠ 3%nat ->
  unpack_cursor_entries (items ++ (key, v) :: rest) acc = unpack_cursor_entries items acc.
Proof.
  intros Hlen Hn. revert acc. induction items as [|[k x] items IH]; intros acc.
  - cbn [app unpack_cursor_entries]. rewrite Hlen. cbn [mbind Result_bind].
    apply Nat.eqb_neq in Hn. by rewrite Hn.
  - cbn [app unpack_cursor_entries].
    destruct (py_len x) as [m|e]; [|reflexivity]. cbn [mbind Result_bind].
    destruct (negb (m =? 3)%nat); [reflexivity|].
    destruct (py_unpack3 x) as [[[a b] c]|e]; [|reflexivity]. cbn [mbind Result_bind].
    destruct (new_cursor_component a b c) as [comp|e]; [|reflexivity].
    cbn [mbind Result_bind]. apply IH.
Qed.

(** ** What the methods of the context leave alone *)

#[global] Instance tick_frame_preorder : PreOrder tick_frame.
Proof.
  split.
  - intros ctx. by repeat split.
  - intros a b c (H1 & H2 & H3 & H4) (H1' & H2' & H3' & H4').
    repeat split; congruence.
Qed.

#[global] Instance query_frame_preorder : PreOrder query_frame.
Proof.
  split.
  - intros ctx. by repeat split.
  - intros a b c (H1 & H2 & H3) (H1' & H2' & H3').
    split; [by etransitivity|]. split; congruence.
Qed.

Section Preserves.
Context (R : relation MultiAssetSensorEvaluationContext) `{!PreOrder R}.

Lemma preserves_ret {A} (a : A) : preserves R (mret a).
Proof. intros ctx a' ctx' Heq. injection Heq as _ <-. reflexivity. Qed.

Lemma preserves_raise {A} e : preserves R (@tick_raise A e).
Proof. intros ctx a ctx' Heq. discriminate. Qed.

Lemma preserves_get : preserves R tick_get.
Proof. intros ctx a ctx' Heq. injection Heq as _ <-. reflexivity. Qed.

Lemma preserves_bind {A B} (m : Tick A) (f : A -> Tick B) :
  preserves R m -> (forall a, preserves R (f a)) -> preserves R (m ≫= f).
Proof.
  intros Hm Hf ctx b ctx' Heq. unfold mbind, Tick_bind, tick_bind in Heq.
  destruct (m ctx) as [[a ctx1]|e] eqn:Hmc; [|discriminate].
  transitivity ctx1; [by eapply Hm | by eapply Hf].
Qed.

Lemma preserves_modify f : (forall ctx, R ctx (f ctx)) -> preserves R (tick_modify f).
Proof. intros Hf ctx a ctx' Heq. injection Heq as _ <-. apply Hf. Qed.

Lemma preserves_mapM {A B} (f : A -> Tick B) l :
  (forall a, preserves R (f a)) -> preserves R (tick_mapM f l).
Proof.
  intros Hf. induction l as [|a l IH]; cbn [tick_mapM].
  - apply preserves_ret.
  - apply preserves_bind; [apply Hf|]. intros b.
    apply preserves_bind; [apply IH|]. intros bs. apply preserves_ret.
Qed.

Lemma preserves_foldM {A B} (f : B -> A -> Tick B) l :
  (forall b a, preserves R (f b a)) -> forall acc, preserves R (tick_foldM f l acc).
Proof.
  intros Hf. induction l as [|a l IH]; intros acc; cbn [tick_foldM].
  - apply preserves_ret.
  - apply preserves_bind; [apply Hf|]. intros b. apply IH.
Qed.

Lemma preserves_read_instance : preserves R read_instance.
Proof.
  intros ctx a ctx' Heq. unfold read_instance in Heq.
  destruct (_instance ctx); [|discriminate]. injection Heq as _ <-. reflexivity.
Qed.
End Preserves.

Ltac preserves_step :=
  first
    [ apply (preserves_ret query_frame)
    | apply (preserves_raise query_frame)
    | apply (preserves_get query_frame)
    | apply (preserves_read_instance query_frame)
    | apply (preserves_bind query_frame); [|intros ?]
    | apply (preserves_mapM query_frame); intros ?
    | apply (preserves_foldM query_frame); intros ? ?
    | match goal with
      | |- preserves _ (if ?b then _ else _) => destruct b
      | |- preserves _ (match ?x with _ => _ end) => destruct x
      end ].

Lemma set_cache_query_frame cache fetched ctx : query_frame ctx (set_cache cache fetched ctx).
Proof. by repeat split. Qed.

Lemma preserves_fill_cache keys : preserves query_frame (fill_cache keys).
Proof.
  induction keys as [|k keys IH]; cbn [fill_cache]; [apply (preserves_ret query_frame)|].
  apply (preserves_bind query_frame); [apply (preserves_read_instance query_frame)|].
  intros store. apply (preserves_bind query_frame); [|intros _; apply IH].
  apply (preserves_modify query_frame). intros ctx. apply set_cache_query_frame.
Qed.

Lemma preserves_cache_initial : preserves query_frame _cache_initial_unconsumed_events.
Proof.
  unfold _cache_initial_unconsumed_events.
  apply (preserves_bind query_frame); [apply (preserves_get query_frame)|]. intros ctx.
  destruct (fetched_initial_unconsumed_events ctx); [apply (preserves_ret query_frame)|].
  apply (preserves_bind query_frame); [apply preserves_fill_cache|]. intros _.
  apply (preserves_modify query_frame). intros ctx'. apply set_cache_query_frame.
Qed.

Lemma preserves_unconsumed_events_with_ids ids :
  preserves query_frame (_get_unconsumed_events_with_ids ids).
Proof.
  unfold _get_unconsumed_events_with_ids.
  apply (preserves_bind query_frame); [apply preserves_cache_initial|]. intros _.
  repeat preserves_step.
Qed.

Lemma preserves_get_trailing k : preserves query_frame (get_trailing_unconsumed_events k).
Proof.
  unfold get_trailing_unconsumed_events.
  apply (preserves_bind query_frame); [apply (preserves_get query_frame)|]. intros ctx.
  apply preserves_unconsumed_events_with_ids.
Qed.

Lemma preserves_latest_by_key ks :
  preserves query_frame (latest_materialization_records_by_key ks).
Proof. unfold latest_materialization_records_by_key. repeat preserves_step. Qed.

Lemma preserves_records_for_key k limit :
  preserves query_frame (materialization_records_for_key k limit).
Proof. unfold materialization_records_for_key. repeat preserves_step. Qed.

Lemma preserves_partitions_after_cursor k :
  preserves query_frame (_get_partitions_after_cursor k).
Proof. unfold _get_partitions_after_cursor. repeat preserves_step. Qed.

Lemma preserves_latest_by_partition k after :
  preserves query_frame (latest_materialization_records_by_partition k after).
Proof.
  unfold latest_materialization_records_by_partition.
  apply (preserves_bind query_frame); [apply (preserves_get query_frame)|]. intros ctx.
  destruct (negb _); [apply (preserves_raise query_frame)|].
  destruct (partitions_def_by_asset_key ctx k); [|apply (preserves_raise query_frame)].
  apply (preserves_bind query_frame).
  { destruct after; [apply preserves_partitions_after_cursor | apply (preserves_ret query_frame)]. }
  intros ps. apply (preserves_bind query_frame); [apply preserves_unconsumed_events_with_ids|].
  intros es. repeat preserves_step.
Qed.

Lemma preserves_latest_by_partition_and_asset :
  preserves query_frame latest_materialization_records_by_partition_and_asset.
Proof.
  unfold latest_materialization_records_by_partition_and_asset.
  apply (preserves_bind query_frame); [apply (preserves_get query_frame)|]. intros ctx.
  destruct (map _ _); [apply (preserves_raise query_frame)|].
  destruct (forallb _ _); [|apply (preserves_raise query_frame)].
  apply (preserves_bind query_frame); [|intros ?; apply (preserves_ret query_frame)].
  apply (preserves_mapM query_frame). intros k.
  apply (preserves_bind query_frame); [apply preserves_latest_by_partition|].
  intros ?. apply (preserves_ret query_frame).
Qed.

Lemma preserves_cursor_partition k : preserves query_frame (get_cursor_partition k).
Proof. unfold get_cursor_partition. repeat preserves_step. Qed.

Lemma preserves_all_partitions k ps :
  preserves query_frame (all_partitions_materialized k ps).
Proof. unfold all_partitions_materialized. repeat preserves_step. Qed.






Lemma preserves_query_call c :
  is_advance_call c = false -> preserves query_frame (run_call c).
Proof.
  intros Hc. destruct c; try discriminate; cbn [run_call];
    (apply (preserves_bind query_frame); [|intros ?; apply (preserves_ret query_frame)]).
  - apply preserves_get_trailing.
  - apply preserves_latest_by_key.
  - apply preserves_records_for_key.
  - apply preserves_latest_by_partition.
  - apply preserves_latest_by_partition_and_asset.
  - apply preserves_cursor_partition.
  - apply preserves_all_partitions.
Qed.



Lemma preserves_query_calls cs :
  forallb (fun c => negb (is_advance_call c)) cs = true ->
  preserves query_frame (run_calls cs).
Proof.
  induction cs as [|c cs IH]; cbn [run_calls forallb]; intros Hcs.
  - apply (preserves_ret query_frame).
  - apply andb_true_iff in Hcs as [Hc Hcs]. apply negb_true_iff in Hc.
    apply (preserves_bind query_frame); [by apply preserves_query_call|].
    intros _. by apply IH.
Qed.

(** ** All the assets of the finalization *)

Lemma next_asset_cursors_ext store adv start start' keys :
  (forall k, k ∈ keys -> start k = start' k) ->
  next_asset_cursors store adv start keys = next_asset_cursors store adv start' keys.
Proof.
  induction keys as [|k keys IH]; intros Hext; [reflexivity|].
  cbn [next_asset_cursors]. unfold next_asset_cursor.
  rewrite (Hext k) by left. rewrite IH; [reflexivity|].
  intros k' Hk'. apply Hext. by right.
Qed.

Lemma next_component_error store adv k start e :
  next_component store adv k start = Raise e -> e = DagsterInvariantViolationError.
Proof.
  unfold next_component. destruct (_ <=? _)%nat; [|discriminate]. congruence.
Qed.

Lemma next_asset_cursors_error store adv start keys e :
  next_asset_cursors store adv start keys = Raise e -> e = DagsterInvariantViolationError.
Proof.
  induction keys as [|k keys IH]; [discriminate|].
  cbn [next_asset_cursors]. unfold next_asset_cursor.
  destruct (decide _) as [|Hne]; cbn [mbind Result_bind].
  - destruct (next_asset_cursors store adv start keys); [discriminate|].
    cbn [mbind Result_bind]. intros [= <-]. by apply IH.
  - destruct (next_component store adv k (start k)) eqn:Hc; cbn [mbind Result_bind].
    + destruct (next_asset_cursors store adv start keys); [discriminate|].
      cbn [mbind Result_bind]. intros [= <-]. by apply IH.
    + intros [= <-]. by eapply next_component_error.
Qed.

Lemma next_asset_cursors_raise store adv start keys k e :
  k ∈ keys -> next_asset_cursor store adv start k = Raise e ->
  next_asset_cursors store adv start keys = Raise DagsterInvariantViolationError.
Proof.
  intros Hk Hr.
  destruct (next_asset_cursors store adv start keys) as [items|e'] eqn:Hn.
  - exfalso. revert items Hn. induction Hk as [k keys|k k' keys _ IH]; intros items.
    + cbn [next_asset_cursors]. rewrite Hr. discriminate.
    + cbn [next_asset_cursors].
      destruct (next_asset_cursor store adv start k'); [|discriminate].
      cbn [mbind Result_bind].
      destruct (next_asset_cursors store adv start keys) as [items'|]; [|discriminate].
      intros _. by eapply IH.
  - f_equal. by eapply next_asset_cursors_error.
Qed.

Lemma tick_bind_run {A B} (m : Tick A) (f : A -> Tick B) ctx :
  (m ≫= f) ctx
  = match m ctx with
    | Ok (a, ctx') => f a ctx'
    | Raise e => Raise e
    end.
Proof. reflexivity. Qed.

Lemma tick_mapM_cons {A B} (f : A -> Tick B) a l ctx :
  tick_mapM f (a :: l) ctx
  = match f a ctx with
    | Ok (b, ctx1) =>
        match tick_mapM f l ctx1 with
        | Ok (bs, ctx2) => Ok (b :: bs, ctx2)
        | Raise e => Raise e
        end
    | Raise e => Raise e
    end.
Proof.
  cbn [tick_mapM]. rewrite tick_bind_run. destruct (f a ctx) as [[b ctx1]|e]; [|done].
  rewrite tick_bind_run. by destruct (tick_mapM f l ctx1) as [[bs ctx2]|e].
Qed.

Lemma tick_mapM_asset_cursors adv keys :
  forall ctx,
    has_instance ctx ->
    store_wf (instance ctx) -> NoDup keys -> advances_wf adv ->
    (forall k, k ∈ keys -> k ∈ asset_keys ctx ∧ cache_ready ctx k) ->
    match next_asset_cursors (instance ctx) adv (_get_cursor ctx) keys with
    | Ok items =>
        exists ctx',
          tick_mapM (fun asset_key =>
                       component ← get_asset_cursor_with_advances adv asset_key;
                       mret (str_asset_key asset_key, component)) keys ctx
          = Ok (items, ctx')
          ∧ cursor ctx' = cursor ctx ∧ asset_keys ctx' = asset_keys ctx
    | Raise e =>
        tick_mapM (fun asset_key =>
                     component ← get_asset_cursor_with_advances adv asset_key;
                     mret (str_asset_key asset_key, component)) keys ctx
        = Raise e
    end.
Proof.
  induction keys as [|k keys IH]; intros ctx Hinst Hwf Hnd Hadv Hkeys.
  - cbn. by exists ctx.
  - apply NoDup_cons in Hnd as [Hk Hnd].
    destruct (Hkeys k ltac:(left)) as [Hin Hready].
    cbn [next_asset_cursors]. unfold next_asset_cursor.
    rewrite tick_mapM_cons, tick_bind_run.
    destruct (decide (advanced_ids adv k = ∅)) as [He|Hne].
    + rewrite get_asset_cursor_without_advances by done.
      cbn [mbind Result_bind mret Tick_ret tick_ret].
      specialize (IH ctx Hinst Hwf Hnd Hadv (fun k' Hk' => Hkeys k' ltac:(by right))).
      destruct (next_asset_cursors (instance ctx) adv (_get_cursor ctx) keys) as [items|e].
      * destruct IH as (ctx' & -> & Hc & Hk'). cbn. by exists ctx'.
      * by rewrite IH.
    + pose proof (get_asset_cursor_with_advances_spec ctx adv k Hinst Hwf Hin Hready Hadv Hne)
        as Hspec.
      destruct (next_component (instance ctx) adv k (_get_cursor ctx k)) as [c|e].
      * destruct Hspec as (ctx1 & -> & Hk1 & Hi1 & Hc1 & Hg1 & Hr1).
        cbn [mbind Result_bind mret Tick_ret tick_ret].
        assert (Hkeys1 : forall k', k' ∈ keys -> k' ∈ asset_keys ctx1 ∧ cache_ready ctx1 k').
        { intros k' Hk'. destruct (Hkeys k' ltac:(by right)) as [Hin' Hready'].
          assert (k' ≠ k) by (intros ->; done).
          split; [by rewrite Hk1 | by apply Hr1]. }
        apply (has_instance_eq _ _ Hi1) in Hinst. apply instance_eq in Hi1.
        rewrite <- Hi1 in Hwf |- *.
        specialize (IH ctx1 Hinst Hwf Hnd Hadv Hkeys1).
        rewrite (next_asset_cursors_ext _ adv (_get_cursor ctx) (_get_cursor ctx1) keys).
        2:{ intros k' Hk'. symmetry. apply Hg1. intros ->. done. }
        destruct (next_asset_cursors (instance ctx1) adv (_get_cursor ctx1) keys)
          as [items|e].
        -- destruct IH as (ctx' & -> & Hc & Hk'). cbn. exists ctx'.
           split; [done|]. split; congruence.
        -- by rewrite IH.
      * by rewrite Hspec.
Qed.

(** When no event was advanced the finalization is a no-op. *)
Lemma update_cursor_without_advances `{JsonCodec} ctx :
  advanced_record_ids_by_key (cursor_advance_state_mutation ctx) = ∅ ->
  update_cursor_after_evaluation ctx = Ok (tt, ctx).
Proof.
  intros He. unfold update_cursor_after_evaluation, get_cursor_with_advances.
  unfold mbind, Tick_bind, tick_bind, tick_get. rewrite He. reflexivity.
Qed.

Lemma add_advanced_records_none adv m :
  Forall (fun kr => snd kr = None) m -> add_advanced_records adv m = adv.
Proof.
  unfold add_advanced_records. induction 1 as [|[k r] m Hr _ IH]; [reflexivity|].
  simpl in Hr. subst r. cbn [fold_left]. exact IH.
Qed.

(** The cap holds for every component a successful step returns. *)
Lemma get_asset_cursor_with_advances_cap adv k ctx c ctx' :
  get_asset_cursor_with_advances adv k ctx = Ok (c, ctx') ->
  advanced_ids adv k ≠ ∅ ->
  (length (trailing_unconsumed_partitioned_event_ids c) < MAX_NUM_UNCONSUMED_EVENTS)%nat
  ∧ (forall k', k' ≠ k -> _get_cursor ctx' k' = _get_cursor ctx k')
  ∧ (trailing_unconsumed_partitioned_event_ids (_get_cursor ctx' k)
     = trailing_unconsumed_partitioned_event_ids (_get_cursor ctx k)
     ∨ trailing_unconsumed_partitioned_event_ids (_get_cursor ctx' k)
       = trailing_unconsumed_partitioned_event_ids c).
Proof.
  intros Hrun Hne. unfold get_asset_cursor_with_advances in Hrun.
  fold (advanced_ids adv k) in Hrun.
  unfold mbind, Tick_bind, tick_bind, tick_get in Hrun.
  rewrite (size_eqb_0_false _ Hne) in Hrun.
  destruct (set_max (advanced_ids adv k)) as [g|]; [|discriminate].
  destruct (partition_key_by_record_id adv !! g) as [p|]; [|discriminate].
  destruct (advance_all_cursors_called adv).
  - injection Hrun as <- <-. cbn. split; [unfold MAX_NUM_UNCONSUMED_EVENTS; lia|].
    split; [done|]. by left.
  - destruct (get_trailing_unconsumed_events k ctx) as [[es ctx1]|] eqn:Hget; [|discriminate].
    apply preserves_get_trailing in Hget as ((_ & _ & _ & Hu) & _).
    unfold tick_modify, tick_raise, mret, Tick_ret, tick_ret in Hrun.
    match type of Hrun with context [match ?m ctx1 with _ => _ end] =>
      destruct (m ctx1) as [[fresh ctx2]|] eqn:Hfresh; [|discriminate] end.
    apply read_instance_if_inv in Hfresh as [-> ->].
    match type of Hrun with context [(MAX_NUM_UNCONSUMED_EVENTS <=? ?n)%nat] =>
      destruct (MAX_NUM_UNCONSUMED_EVENTS <=? n)%nat eqn:Hcap end; [discriminate|].
    injection Hrun as <- <-. apply Nat.leb_gt in Hcap.
    cbn [trailing_unconsumed_partitioned_event_ids].
    split; [exact Hcap|]. split.
    + intros k' Hk'. unfold _get_cursor. cbn [unpacked_cursor set_unpacked_cursor].
      rewrite get_cursor_write_trailing by done. by rewrite Hu.
    + unfold _get_cursor. cbn [unpacked_cursor set_unpacked_cursor]. rewrite Hu.
      unfold get_cursor_for_asset, write_trailing.
      destruct (dict_get (str_asset_key k) (cursor_component_by_asset_key (unpacked_cursor ctx)))
        as [comp|] eqn:Hd.
      * right. cbn [cursor_component_by_asset_key]. rewrite dict_get_set_eq. reflexivity.
      * left. by rewrite Hd.
Qed.

(** ** Helpers for the claims *)

Ltac by_compute :=
  match goal with
  | |- ?P =>
      let d := constr:(_ : Decision P) in
      apply (@bool_decide_unpack P d); vm_compute; exact I
  end.

Lemma cache_ready_at_tick_start `{JsonCodec} keys store m k :
  cache_ready (context_at_tick_start keys store m) k.
Proof.
  split.
  - intros id r Hl. cbn in Hl. by rewrite lookup_empty in Hl.
  - intros Hf. discriminate.
Qed.

Lemma advances_wf_new : advances_wf new_cursor_advances.
Proof. intros k ids id Hl. cbn in Hl. by rewrite lookup_empty in Hl. Qed.

Lemma add_advanced_record_wf adv item :
  advances_wf adv -> advances_wf (add_advanced_record adv item).
Proof.
  intros Hwf. destruct item as [k [r|]]; [|done].
  intros k' ids id. unfold add_advanced_record.
  cbn [snd fst advanced_record_ids_by_key partition_key_by_record_id].
  intros Hl Hin.
  destruct (decide (id = storage_id r)) as [->|Hne].
  { rewrite lookup_insert_eq. by eexists. }
  rewrite lookup_insert_ne by done.
  destruct (decide (k = k')) as [->|Hk].
  - rewrite lookup_insert_eq in Hl. injection Hl as <-.
    apply elem_of_union in Hin as [Hin|Hin].
    + apply elem_of_singleton in Hin. done.
    + destruct (advanced_record_ids_by_key adv !! k') as [ids'|] eqn:Hids.
      * by apply (Hwf k' ids' id).
      * cbn in Hin. by apply not_elem_of_empty in Hin.
  - rewrite lookup_insert_ne in Hl by done. by apply (Hwf k' ids id).
Qed.

Lemma add_advanced_records_wf adv m :
  advances_wf adv -> advances_wf (add_advanced_records adv m).
Proof.
  unfold add_advanced_records. revert adv.
  induction m as [|item m IH]; intros adv Hwf; [done|].
  cbn [fold_left]. apply IH. by apply add_advanced_record_wf.
Qed.

Lemma set_max_upper (s : gset Z) g :
  set_max s = Some g -> g ∈ s ∧ forall id, id ∈ s -> id <= g.
Proof.
  unfold set_max. intros Hmax.
  destruct (elements s) as [|x l] eqn:He; [discriminate|]. injection Hmax as <-.
  assert (Hall : foldr Z.max x l ∈ x :: l ∧ forall id, id ∈ x :: l -> id <= foldr Z.max x l).
  { clear He. induction l as [|y l IH]; simpl.
    - split; [left|]. intros id Hid. apply list_elem_of_singleton in Hid. lia.
    - destruct IH as [IH1 IH2]. split.
      + destruct (Z.max_spec y (foldr Z.max x l)) as [[_ ->]|[_ ->]].
        * apply elem_of_cons in IH1 as [->|IH1]; [left | right; by right].
        * right; left.
      + intros id Hid.
        assert (id = y ∨ id ∈ x :: l) as [->|Hin].
        { apply elem_of_cons in Hid as [->|Hid]; [right; left|].
          apply elem_of_cons in Hid as [->|Hid]; [by left | right; by right]. }
        * lia.
        * specialize (IH2 id Hin). lia. }
  rewrite <- He in Hall. destruct Hall as [H1 H2]. split.
  - by apply elem_of_elements.
  - intros id Hid. apply H2. by apply elem_of_elements.
Qed.

Lemma max_advanced_id_upper adv k :
  advanced_ids adv k ≠ ∅ ->
  max_advanced_id adv k ∈ advanced_ids adv k
  ∧ forall id, id ∈ advanced_ids adv k -> id <= max_advanced_id adv k.
Proof.
  intros Hne. destruct (set_max_elem _ Hne) as (g & Hmax & _).
  unfold max_advanced_id. rewrite Hmax. by apply set_max_upper.
Qed.

Lemma advanced_ids_nonempty_size adv k :
  advanced_ids adv k ≠ ∅ -> Nat.eqb (size (advanced_record_ids_by_key adv)) 0 = false.
Proof.
  unfold advanced_ids. intros Hne. apply Nat.eqb_neq. intros Hs.
  apply map_size_empty_inv in Hs. rewrite Hs, lookup_empty in Hne. by apply Hne.
Qed.

Lemma dict_set_Forall {K V} `{EqDecision K} (P : K * V -> Prop) k v (d : list (K * V)) :
  P (k, v) -> Forall P d -> Forall P (dict_set k v d).
Proof.
  intros Hkv. induction 1 as [|[k' v'] d Hx Hd IH]; cbn [dict_set].
  - by repeat constructor.
  - destruct (decide (k = k')); constructor; done.
Qed.

Lemma dict_of_items_Forall {K V} `{EqDecision K} (P : K * V -> Prop) (items : list (K * V)) :
  Forall P items -> Forall P (dict_of_items items).
Proof.
  unfold dict_of_items. intros Hall.
  assert (Hacc : Forall P (@nil (K * V))) by constructor.
  revert Hacc. generalize (@nil (K * V)).
  induction Hall as [|[k v] items Hx _ IH]; intros acc Hacc; cbn [fold_left]; [done|].
  apply IH. by apply dict_set_Forall.
Qed.

Lemma tick_mapM_capped adv keys :
  forall ctx items ctx',
    (forall k, capped (_get_cursor ctx k)) ->
    tick_mapM (fun asset_key =>
                 component ← get_asset_cursor_with_advances adv asset_key;
                 mret (str_asset_key asset_key, component)) keys ctx
    = Ok (items, ctx') ->
    Forall (fun kc => capped (snd kc)) items.
Proof.
  induction keys as [|k keys IH]; intros ctx items ctx' Hcap Hrun.
  - injection Hrun as <- _. constructor.
  - rewrite tick_mapM_cons, tick_bind_run in Hrun.
    destruct (get_asset_cursor_with_advances adv k ctx) as [[c ctx1]|] eqn:Hk; [|discriminate].
    cbn [mret Tick_ret tick_ret] in Hrun.
    destruct (tick_mapM _ keys ctx1) as [[bs ctx2]|] eqn:Hrest; [|discriminate].
    injection Hrun as <- _.
    destruct (decide (advanced_ids adv k = ∅)) as [He|Hne].
    + rewrite get_asset_cursor_without_advances in Hk by done. injection Hk as <- <-.
      constructor; [apply Hcap | by eapply IH].
    + destruct (get_asset_cursor_with_advances_cap adv k ctx c ctx1 Hk Hne)
        as (Hc & Hother & Hsame).
      constructor; [exact Hc|]. eapply IH; [|exact Hrest].
      intros k'. destruct (decide (k' = k)) as [->|Hk'].
      * unfold capped. destruct Hsame as [-> | ->]; [apply Hcap | exact Hc].
      * rewrite Hother by done. apply Hcap.
Qed.

Lemma asset_cursors_with_advances_capped adv ctx m ctx' :
  (forall k, capped (_get_cursor ctx k)) ->
  asset_cursors_with_advances adv ctx = Ok (m, ctx') ->
  Forall (fun kc => capped (snd kc)) m.
Proof.
  intros Hcap Hrun. unfold asset_cursors_with_advances in Hrun.
  rewrite tick_bind_run in Hrun. cbn [tick_get] in Hrun. rewrite tick_bind_run in Hrun.
  destruct (tick_mapM _ (asset_keys ctx) ctx) as [[items ctx1]|] eqn:Hm; [|discriminate].
  injection Hrun as <- _. apply dict_of_items_Forall. by eapply tick_mapM_capped.
Qed.

Lemma asset_cursors_with_advances_spec ctx adv :
  has_instance ctx ->
  store_wf (instance ctx) -> NoDup (asset_keys ctx) -> advances_wf adv ->
  (forall k, k ∈ asset_keys ctx -> cache_ready ctx k) ->
  match next_asset_cursors (instance ctx) adv (_get_cursor ctx) (asset_keys ctx) with
  | Ok items =>
      exists ctx', asset_cursors_with_advances adv ctx = Ok (dict_of_items items, ctx')
                   ∧ cursor ctx' = cursor ctx
  | Raise e => asset_cursors_with_advances adv ctx = Raise e
  end.
Proof.
  intros Hinst Hwf Hnd Hadv Hready.
  pose proof (tick_mapM_asset_cursors adv (asset_keys ctx) ctx Hinst Hwf Hnd Hadv
                (fun k Hk => conj Hk (Hready k Hk))) as Hm.
  unfold asset_cursors_with_advances. rewrite tick_bind_run. cbn [tick_get].
  rewrite tick_bind_run.
  destruct (next_asset_cursors _ _ _ _) as [items|e].
  - destruct Hm as (ctx' & -> & Hc & _). by exists ctx'.
  - by rewrite Hm.
Qed.

(** ** The sample ticks and the backlog *)

Lemma store_wf_scenario : store_wf scenario_store.
Proof.
  split.
  - repeat (constructor; [|repeat constructor; reflexivity]). constructor.
  - repeat constructor.
Qed.

Lemma store_wf_full_backlog : store_wf full_backlog_store.
Proof.
  split.
  - vm_compute. repeat (constructor; [|repeat constructor]). constructor.
  - vm_compute. repeat constructor.
Qed.

Lemma store_wf_backlog : store_wf backlog_store.
Proof.
  split.
  - repeat (constructor; [|repeat constructor; reflexivity]). constructor.
  - repeat constructor.
Qed.

Lemma dict_set_same {K V} `{EqDecision K} (k : K) (v : V) (d : list (K * V)) :
  dict_get k d = Some v -> dict_set k v d = d.
Proof.
  induction d as [|[k' v'] d IH]; cbn [dict_get dict_set]; [discriminate|].
  destruct (decide (k = k')) as [->|Hne].
  - by intros [= ->].
  - intros Hget. by rewrite IH.
Qed.

Lemma dict_get_elem {K V} `{EqDecision K} (k : K) (v : V) (d : list (K * V)) :
  dict_wf d -> (k, v) ∈ d -> dict_get k d = Some v.
Proof.
  unfold dict_wf. induction d as [|[k' v'] d IH]; cbn [dict_get map fst]; intros Hnd Hin.
  - by apply elem_of_nil in Hin.
  - apply NoDup_cons in Hnd as [Hk Hnd].
    apply elem_of_cons in Hin as [[= <- <-]|Hin]; [by rewrite decide_True|].
    destruct (decide (k = k')) as [<-|Hne]; [|by apply IH].
    exfalso. apply Hk. apply list_elem_of_fmap. by exists (k, v).
Qed.

(** Events that are on record in the trailing map, and were not advanced,
    leave the map as it is. *)
Lemma fold_overlay_backlog advanced (t0 : list (string * Z)) es :
  (forall e, e ∈ es ->
             exists p, _get_partition_key_from_event_log_record e = Some p
                       ∧ dict_get p t0 = Some (storage_id e)
                       ∧ (storage_id e ∉ advanced)) ->
  fold_left (overlay_event advanced) es t0 = t0.
Proof.
  induction es as [|e es IH]; intros Hes; [reflexivity|].
  cbn [fold_left]. destruct (Hes e ltac:(left)) as (p & Hp & Hget & Hn).
  assert (Hstep : overlay_event advanced t0 e = t0).
  { unfold overlay_event. unfold _get_partition_key_from_event_log_record in Hp.
    destruct (dagster_event e) as [ev|]; [|discriminate]. rewrite Hp.
    rewrite decide_False by done. by apply dict_set_same. }
  rewrite Hstep. apply IH. intros e' He'. apply Hes. by right.
Qed.

Lemma trailing_with_backlog_as_specified store adv k start :
  dict_wf (trailing_unconsumed_partitioned_event_ids start) ->
  (forall p id,
     (p, id) ∈ trailing_unconsumed_partitioned_event_ids start ->
     (id ∉ advanced_ids adv k)
     ∧ forall e, stored_event store id = Some e ->
                 _get_partition_key_from_event_log_record e = Some p) ->
  trailing_with_backlog store adv k start = trailing_as_specified store adv k start.
Proof.
  intros Hwf Hback. unfold trailing_with_backlog, trailing_as_specified.
  rewrite fold_left_app.
  rewrite (fold_overlay_backlog _ _ (trailing_events_at_tick_start store _));
    [reflexivity|].
  intros e He. unfold trailing_events_at_tick_start in He.
  apply list_elem_of_omap in He as (id & Hid & Hst).
  rewrite merge_sort_Permutation in Hid. unfold dict_values in Hid.
  apply list_elem_of_fmap in Hid as ([p id'] & -> & Hin). cbn [snd] in Hst.
  destruct (Hback p id' Hin) as [Hn Hp].
  apply stored_event_Some in Hst as Hse. destruct Hse as [_ Heq].
  exists p. split; [by apply Hp|]. rewrite Heq. split; [by apply dict_get_elem | done].
Qed.

(** * The claims *)

(** ** Contexts without an instance *)

Lemma instance_blind_ret {A} (a : A) : instance_blind (mret a).
Proof. intros ctx a' ctx' Hnone [= <- <-]. by split. Qed.

Lemma instance_blind_raise {A} e : instance_blind (@tick_raise A e).
Proof. intros ctx a ctx' _ Heq. discriminate. Qed.

Lemma instance_blind_read_instance : instance_blind read_instance.
Proof. intros ctx a ctx' Hnone. by rewrite read_instance_raise. Qed.

Lemma instance_blind_bind {A B} (m : Tick A) (f : A -> Tick B) :
  instance_blind m -> (forall a, instance_blind (f a)) -> instance_blind (m ≫= f).
Proof.
  intros Hm Hf ctx b ctx' Hnone. rewrite !tick_bind_run.
  destruct (m ctx) as [[a ctx1]|] eqn:Hrun; [|discriminate].
  destruct (Hm _ _ _ Hnone Hrun) as [Hnone1 ->]. by apply Hf.
Qed.

Lemma instance_blind_get {A} (f : MultiAssetSensorEvaluationContext -> Tick A) :
  (forall ctx, f (with_empty_store ctx) = f ctx) ->
  (forall ctx, instance_blind (f ctx)) ->
  instance_blind (tick_get ≫= f).
Proof.
  intros Hsame Hf ctx a ctx' Hnone. rewrite !tick_bind_run. cbn [tick_get].
  rewrite Hsame. by apply Hf.
Qed.

Lemma instance_blind_modify f :
  (forall ctx, _instance (f ctx) = _instance ctx
               ∧ f (with_empty_store ctx) = with_empty_store (f ctx)) ->
  instance_blind (tick_modify f).
Proof.
  intros Hf ctx a ctx' Hnone [= <- <-]. destruct (Hf ctx) as [Hi Hc].
  split; [congruence|]. unfold tick_modify. by rewrite Hc.
Qed.

Lemma instance_blind_mapM {A B} (f : A -> Tick B) l :
  (forall a, instance_blind (f a)) -> instance_blind (tick_mapM f l).
Proof.
  intros Hf. induction l as [|a l IH]; cbn [tick_mapM].
  - apply (instance_blind_ret []).
  - apply instance_blind_bind; [apply Hf|]. intros b.
    apply instance_blind_bind; [apply IH|]. intros bs. apply instance_blind_ret.
Qed.

Lemma instance_blind_foldM {A B} (f : B -> A -> Tick B) l :
  (forall b a, instance_blind (f b a)) -> forall acc, instance_blind (tick_foldM f l acc).
Proof.
  intros Hf. induction l as [|a l IH]; intros acc; cbn [tick_foldM].
  - apply instance_blind_ret.
  - apply instance_blind_bind; [apply Hf|]. intros b. apply IH.
Qed.

Ltac instance_blind_step :=
  first
    [ apply instance_blind_ret
    | apply instance_blind_raise
    | apply instance_blind_read_instance
    | apply instance_blind_bind; [|intros ?]
    | apply instance_blind_foldM; intros ? ?
    | apply instance_blind_modify; intros ?; by split
    | case_match ].

Lemma instance_blind_fill_cache keys : instance_blind (fill_cache keys).
Proof.
  induction keys as [|k keys IH]; cbn [fill_cache]; [apply instance_blind_ret|].
  apply instance_blind_bind; [apply instance_blind_read_instance|]. intros store.
  apply instance_blind_bind; [|intros _; apply IH].
  apply instance_blind_modify. intros ctx. by split.
Qed.

Lemma instance_blind_cache_initial : instance_blind _cache_initial_unconsumed_events.
Proof.
  apply instance_blind_get; [done|]. intros ctx. cbv beta zeta.
  destruct (fetched_initial_unconsumed_events ctx); [apply instance_blind_ret|].
  apply instance_blind_bind; [apply instance_blind_fill_cache|]. intros _.
  apply instance_blind_modify. intros ctx'. by split.
Qed.

Lemma instance_blind_unconsumed_events_with_ids ids :
  instance_blind (_get_unconsumed_events_with_ids ids).
Proof.
  unfold _get_unconsumed_events_with_ids.
  apply instance_blind_bind; [apply instance_blind_cache_initial|]. intros _.
  apply instance_blind_get; [done|]. intros ctx. apply instance_blind_ret.
Qed.

Lemma instance_blind_get_trailing k : instance_blind (get_trailing_unconsumed_events k).
Proof.
  apply instance_blind_get; [done|]. intros ctx. cbv beta zeta.
  apply instance_blind_unconsumed_events_with_ids.
Qed.

Lemma instance_blind_asset_cursor adv k :
  instance_blind (get_asset_cursor_with_advances adv k).
Proof.
  apply instance_blind_get; [done|]. intros ctx. cbv beta zeta.
  destruct (Nat.eqb _ 0); [apply instance_blind_ret|].
  destruct (set_max _) as [g|]; [|apply instance_blind_raise].
  destruct (partition_key_by_record_id adv !! g) as [p|]; [|apply instance_blind_raise].
  destruct (advance_all_cursors_called adv); [apply instance_blind_ret|].
  apply instance_blind_bind; [apply instance_blind_get_trailing|]. intros trailing.
  apply instance_blind_bind.
  { destruct (_ <? _); repeat instance_blind_step. }
  intros fresh. apply instance_blind_bind.
  { apply instance_blind_modify. intros ctx'. by split. }
  intros _. destruct (_ <=? _)%nat; [apply instance_blind_raise|apply instance_blind_ret].
Qed.

Lemma has_instance_with_empty_store ctx : has_instance (with_empty_store ctx).
Proof. by eexists. Qed.

Lemma instance_with_empty_store ctx :
  _instance ctx = None -> instance (with_empty_store ctx) = instance ctx.
Proof. unfold instance. by intros ->. Qed.

Lemma cache_ready_with_empty_store ctx k :
  _instance ctx = None -> cache_ready ctx k -> cache_ready (with_empty_store ctx) k.
Proof.
  intros Hnone. unfold cache_ready.
  by rewrite (instance_with_empty_store ctx Hnone).
Qed.

(** ** The errors of the finalization *)

Lemma read_instance_error ctx e :
  read_instance ctx = Raise e -> e = DagsterInvariantViolationError ∧ _instance ctx = None.
Proof. unfold read_instance. destruct (_instance ctx); [discriminate|]. by intros [= <-]. Qed.

Lemma fill_cache_error keys :
  forall ctx e,
    fill_cache keys ctx = Raise e ->
    e = DagsterInvariantViolationError ∧ _instance ctx = None.
Proof.
  induction keys as [|k keys IH]; intros ctx e; cbn [fill_cache]; [discriminate|].
  tick_unfold. destruct (read_instance ctx) as [[store ctx0]|] eqn:Hread.
  - apply read_instance_inv in Hread as (-> & _ & _). intros Hrest.
    by apply IH in Hrest.
  - intros [= <-]. by apply read_instance_error in Hread.
Qed.

Lemma _get_unconsumed_events_with_ids_error ids ctx e :
  _get_unconsumed_events_with_ids ids ctx = Raise e ->
  e = DagsterInvariantViolationError ∧ _instance ctx = None.
Proof.
  unfold _get_unconsumed_events_with_ids, _cache_initial_unconsumed_events. tick_unfold.
  destruct (fetched_initial_unconsumed_events ctx); [discriminate|].
  destruct (fill_cache (asset_keys ctx) ctx) as [[[] ctx0]|] eqn:Hfill; [discriminate|].
  intros [= <-]. by apply fill_cache_error in Hfill.
Qed.

Lemma get_trailing_unconsumed_events_error k ctx e :
  get_trailing_unconsumed_events k ctx = Raise e ->
  e = DagsterInvariantViolationError ∧ _instance ctx = None.
Proof. apply _get_unconsumed_events_with_ids_error. Qed.

Lemma get_trailing_unconsumed_events_returns k ctx :
  has_instance ctx ->
  exists events ctx', get_trailing_unconsumed_events k ctx = Ok (events, ctx').
Proof.
  intros Hinst.
  unfold get_trailing_unconsumed_events, _get_unconsumed_events_with_ids. tick_unfold.
  rewrite _cache_initial_unconsumed_events_run by done.
  destruct (fetched_initial_unconsumed_events ctx); by eexists _, _.
Qed.

Lemma get_asset_cursor_with_advances_error adv k ctx e :
  advances_wf adv ->
  get_asset_cursor_with_advances adv k ctx = Raise e -> e = DagsterInvariantViolationError.
Proof.
  intros Hwf. unfold get_asset_cursor_with_advances. tick_unfold. cbv zeta.
  destruct (advanced_record_ids_by_key adv !! k) as [ids|] eqn:Hids;
    cbn [default from_option id].
  2: { rewrite size_empty. cbn [Nat.eqb]. discriminate. }
  destruct (Nat.eqb (size ids) 0) eqn:Hsize; [discriminate|].
  assert (Hne : ids ≠ ∅).
  { intros ->. by rewrite size_empty in Hsize. }
  destruct (set_max_elem ids Hne) as (g & -> & Hg).
  destruct (Hwf k ids g Hids Hg) as [p ->].
  destruct (advance_all_cursors_called adv); [discriminate|].
  destruct (get_trailing_unconsumed_events k ctx) as [[events ctx']|e'] eqn:Hget.
  2: { intros [= <-]. by apply get_trailing_unconsumed_events_error in Hget as [? _]. }
  match goal with |- context [match ?m ctx' with _ => _ end] =>
    destruct (m ctx') as [[fresh ctx2]|e'] eqn:Hfresh end.
  2: { intros [= <-]. destruct (_ <? _); [|discriminate].
       destruct (read_instance ctx') as [[store ctx3]|e''] eqn:Hread; [discriminate|].
       injection Hfresh as <-. by apply read_instance_error in Hread as [? _]. }
  destruct (_ <=? _)%nat; [|discriminate]. by intros [= <-].
Qed.

Lemma tick_mapM_asset_cursors_error adv keys :
  advances_wf adv ->
  forall ctx e,
    tick_mapM (fun asset_key =>
                 component ← get_asset_cursor_with_advances adv asset_key;
                 mret (str_asset_key asset_key, component)) keys ctx
    = Raise e ->
    e = DagsterInvariantViolationError.
Proof.
  intros Hwf. induction keys as [|k keys IH]; intros ctx e; [discriminate|].
  rewrite tick_mapM_cons, tick_bind_run.
  destruct (get_asset_cursor_with_advances adv k ctx) as [[c ctx1]|e1] eqn:Hstep.
  - cbn [mret Tick_ret tick_ret].
    destruct (tick_mapM _ keys ctx1) as [[bs ctx2]|e2] eqn:Hrest; [discriminate|].
    intros [= <-]. by eapply IH.
  - intros [= <-]. by eapply get_asset_cursor_with_advances_error.
Qed.

Lemma instance_blind_asset_cursors adv : instance_blind (asset_cursors_with_advances adv).
Proof.
  apply instance_blind_get; [done|]. intros ctx.
  apply instance_blind_bind; [|intros items; apply instance_blind_ret].
  apply instance_blind_mapM. intros k.
  apply instance_blind_bind; [apply instance_blind_asset_cursor|].
  intros c. apply instance_blind_ret.
Qed.

Lemma instance_blind_cursor_with_advances `{JsonCodec} adv :
  instance_blind (get_cursor_with_advances adv).
Proof.
  unfold get_cursor_with_advances. destruct (Nat.eqb _ 0); [apply instance_blind_ret|].
  apply instance_blind_bind; [apply instance_blind_asset_cursors|].
  intros m. apply instance_blind_ret.
Qed.

Lemma get_cursor_with_advances_error `{JsonCodec} adv ctx e :
  advances_wf adv -> get_cursor_with_advances adv ctx = Raise e ->
  e = DagsterInvariantViolationError.
Proof.
  intros Hwf. unfold get_cursor_with_advances.
  destruct (Nat.eqb _ 0); [discriminate|].
  rewrite tick_bind_run. unfold asset_cursors_with_advances.
  rewrite tick_bind_run. cbn [tick_get]. rewrite tick_bind_run.
  destruct (tick_mapM _ _ ctx) as [[items ctx2]|e1] eqn:Hmap; [discriminate|].
  intros [= <-]. by eapply tick_mapM_asset_cursors_error.
Qed.

(** The step of an asset with advance requests returns nothing but what
    [next_component] computes from the store, which is the empty one for a
    context without an instance. *)
Lemma get_asset_cursor_with_advances_returned ctx adv k c ctx' :
  store_wf (instance ctx) -> k ∈ asset_keys ctx -> cache_ready ctx k ->
  advances_wf adv -> advanced_ids adv k ≠ ∅ ->
  get_asset_cursor_with_advances adv k ctx = Ok (c, ctx') ->
  next_component (instance ctx) adv k (_get_cursor ctx k) = Ok c.
Proof.
  assert (Hwith : forall ctx c ctx',
            has_instance ctx ->
            store_wf (instance ctx) -> k ∈ asset_keys ctx -> cache_ready ctx k ->
            advances_wf adv -> advanced_ids adv k ≠ ∅ ->
            get_asset_cursor_with_advances adv k ctx = Ok (c, ctx') ->
            next_component (instance ctx) adv k (_get_cursor ctx k) = Ok c).
  { clear. intros ctx c ctx' Hinst Hwf Hk Hready Hadv Hne Hrun.
    pose proof (get_asset_cursor_with_advances_spec ctx adv k Hinst Hwf Hk Hready Hadv Hne)
      as Hspec.
    destruct (next_component _ adv k _) as [c'|e].
    - destruct Hspec as (ctx'' & Hrun' & _). rewrite Hrun' in Hrun. by injection Hrun as <- _.
    - rewrite Hspec in Hrun. discriminate. }
  intros Hwf Hk Hready Hadv Hne Hrun.
  destruct (has_instance_dec ctx) as [Hinst|Hnone]; [by eapply Hwith|].
  destruct (instance_blind_asset_cursor adv k _ _ _ Hnone Hrun) as [_ Hrun'].
  rewrite <- (instance_with_empty_store ctx Hnone).
  apply (Hwith (with_empty_store ctx) c (with_empty_store ctx'));
    [apply has_instance_with_empty_store| |done|by apply cache_ready_with_empty_store
    |done|done|done].
  by rewrite (instance_with_empty_store ctx Hnone).
Qed.

(** ** C1: the trailing map after an advance *)

(** C1, as stated, at a backlog whose two events are both advanced: the
    asset is tracked, has advance requests, [advance_all_cursors] was not
    called, and the finalized trailing map is empty, while the map the claim
    describes (the tick-start map overlaid with the fresh events only, less
    the partition advanced to) still holds p3. *)
Lemma trailing_as_specified_keeps_advanced_backlog :
  "A" ∈ asset_keys backlog_context
  ∧ advanced_ids backlog_advances "A" = {[5; 7]}
  ∧ advance_all_cursors_called backlog_advances = false
  ∧ (exists c ctx',
       get_asset_cursor_with_advances backlog_advances "A" backlog_context = Ok (c, ctx')
       ∧ trailing_unconsumed_partitioned_event_ids c = [])
  ∧ trailing_as_specified (instance backlog_context) backlog_advances "A"
      (_get_cursor backlog_context "A") = [("p3", 5)].
Proof.
  split; [by_compute|]. split; [by_compute|]. split; [reflexivity|].
  split; [|vm_compute; reflexivity].
  eexists _, _. split; vm_compute; reflexivity.
Qed.

(** C1, amended: for a tracked asset with at least one advance request, when
    [advance_all_cursors] was not called, the finalized trailing map is the
    tick-start trailing map overlaid first with the stored events that map
    points to, by ascending id, and then with the fresh events strictly
    between the tick-start consumed id and the largest advanced id, by
    ascending id (an event that was not advanced becomes the entry of its
    partition, an advanced one removes it, an unpartitioned one is ignored),
    less the partition of the largest advanced event. In the scenario of
    events 10 (p1), 12 (p2), 15 (p1) with 9 consumed, advancing 15 gives
    consumed id 15, consumed partition p1 and the trailing map p2 -> 12.
    When no event of the tick-start trailing map was advanced, and each is
    stored under the partition the map files it under, the events of that
    map change nothing and the fresh events alone decide the outcome. The
    step of the asset returns on a context that has an instance (without
    one the [instance] property raises), and whatever context it returns
    on, it returns this map. *)
Theorem trailing_map_after_advances :
  (forall ctx adv k,
     store_wf (instance ctx) -> k ∈ asset_keys ctx -> cache_ready ctx k ->
     advances_wf adv -> advanced_ids adv k ≠ ∅ ->
     advance_all_cursors_called adv = false ->
     (length (trailing_with_backlog (instance ctx) adv k (_get_cursor ctx k))
      < MAX_NUM_UNCONSUMED_EVENTS)%nat ->
     (has_instance ctx ->
      exists c ctx',
        get_asset_cursor_with_advances adv k ctx = Ok (c, ctx')
        ∧ trailing_unconsumed_partitioned_event_ids c
          = trailing_with_backlog (instance ctx) adv k (_get_cursor ctx k))
     ∧ (forall c ctx',
          get_asset_cursor_with_advances adv k ctx = Ok (c, ctx') ->
          trailing_unconsumed_partitioned_event_ids c
          = trailing_with_backlog (instance ctx) adv k (_get_cursor ctx k)))
  ∧ (exists ctx',
       _fn scenario_evaluation scenario_context = Ok ([RunRequest None None], ctx')
       ∧ unpacked_cursor ctx'
         = context_cursor_of [("A", component (Some "p1") (Some 15) [("p2", 12)])]
       ∧ cursor ctx'
         = Some (json_dumps
                   (cursor_to_json [("A", component (Some "p1") (Some 15) [("p2", 12)])])))
  ∧ (forall store adv k start,
       dict_wf (trailing_unconsumed_partitioned_event_ids start) ->
       (forall p id,
          (p, id) ∈ trailing_unconsumed_partitioned_event_ids start ->
          (id ∉ advanced_ids adv k)
          ∧ forall e, stored_event store id = Some e ->
                      _get_partition_key_from_event_log_record e = Some p) ->
       trailing_with_backlog store adv k start = trailing_as_specified store adv k start).
Proof.
  split; [|split; [|apply trailing_with_backlog_as_specified]].
  - intros ctx adv k Hwf Hk Hready Hadv Hne Hall Hcap.
    apply Nat.leb_gt in Hcap. split.
    + intros Hinst.
      pose proof (get_asset_cursor_with_advances_spec ctx adv k Hinst Hwf Hk Hready Hadv Hne)
        as Hspec.
      unfold next_component in Hspec. rewrite Hall, Hcap in Hspec.
      destruct Hspec as (ctx' & Hrun & _). eexists _, ctx'. split; [exact Hrun|reflexivity].
    + intros c ctx' Hrun.
      pose proof (get_asset_cursor_with_advances_returned ctx adv k c ctx' Hwf Hk Hready
                    Hadv Hne Hrun) as Hnext.
      unfold next_component in Hnext. rewrite Hall, Hcap in Hnext.
      by injection Hnext as <-.
  - eexists. split; [vm_compute; reflexivity|]. split; vm_compute; reflexivity.
Qed.

Lemma trailing_map_after_advances_witness :
  has_instance scenario_context
  ∧ store_wf (instance scenario_context)
  ∧ "A" ∈ asset_keys scenario_context
  ∧ cache_ready scenario_context "A"
  ∧ advances_wf scenario_advances
  ∧ advanced_ids scenario_advances "A" ≠ ∅
  ∧ advance_all_cursors_called scenario_advances = false
  ∧ (length (trailing_with_backlog (instance scenario_context) scenario_advances "A"
               (_get_cursor scenario_context "A"))
     < MAX_NUM_UNCONSUMED_EVENTS)%nat
  ∧ exists c ctx',
      get_asset_cursor_with_advances scenario_advances "A" scenario_context = Ok (c, ctx')
      ∧ trailing_unconsumed_partitioned_event_ids c
        = trailing_with_backlog (instance scenario_context) scenario_advances "A"
            (_get_cursor scenario_context "A").
Proof.
  assert (H0 : has_instance scenario_context) by by eexists.
  assert (H1 : store_wf (instance scenario_context)) by apply store_wf_scenario.
  assert (H2 : "A" ∈ asset_keys scenario_context) by by_compute.
  assert (H3 : cache_ready scenario_context "A") by apply cache_ready_at_tick_start.
  assert (H4 : advances_wf scenario_advances)
    by apply add_advanced_records_wf, advances_wf_new.
  assert (H5 : advanced_ids scenario_advances "A" ≠ ∅) by by_compute.
  assert (H6 : advance_all_cursors_called scenario_advances = false) by reflexivity.
  assert (H7 : (length (trailing_with_backlog (instance scenario_context)
                          scenario_advances "A" (_get_cursor scenario_context "A"))
                < MAX_NUM_UNCONSUMED_EVENTS)%nat) by (vm_compute; lia).
  repeat (split; [assumption|]).
  exact (proj1 (proj1 trailing_map_after_advances scenario_context scenario_advances "A"
                  H1 H2 H3 H4 H5 H6 H7) H0).
Defined.

(** ** C2: the consumed pointer only moves forward *)

(** C2: for a tracked asset with at least one advance request whose
    finalization succeeds, the consumed id and partition become the largest
    advanced id and its recorded partition when that id is strictly greater
    than the tick-start consumed id (0 when unset), and keep their tick-start
    values otherwise; the trailing map is the recomputed one either way.
    Within the cap on the backlog the finalization of the asset succeeds on
    a context that has an instance (without one the [instance] property
    raises). *)
Theorem consumed_pointer_after_advances ctx adv k :
  store_wf (instance ctx) -> k ∈ asset_keys ctx -> cache_ready ctx k ->
  advances_wf adv -> advanced_ids adv k ≠ ∅ ->
  let start := _get_cursor ctx k in
  let trailing :=
    if advance_all_cursors_called adv then []
    else trailing_with_backlog (instance ctx) adv k start in
  let finalized c :=
    trailing_unconsumed_partitioned_event_ids c = trailing
    ∧ (or_zero (latest_consumed_event_id start) < max_advanced_id adv k ->
       latest_consumed_event_id c = Some (max_advanced_id adv k)
       ∧ latest_consumed_event_partition c = max_advanced_partition adv k)
    ∧ (max_advanced_id adv k <= or_zero (latest_consumed_event_id start) ->
       latest_consumed_event_id c = latest_consumed_event_id start
       ∧ latest_consumed_event_partition c = latest_consumed_event_partition start) in
  (length trailing < MAX_NUM_UNCONSUMED_EVENTS)%nat ->
  (max_advanced_id adv k ∈ advanced_ids adv k
   ∧ forall id, id ∈ advanced_ids adv k -> id <= max_advanced_id adv k)
  ∧ (has_instance ctx ->
     exists c ctx', get_asset_cursor_with_advances adv k ctx = Ok (c, ctx') ∧ finalized c)
  ∧ (forall c ctx', get_asset_cursor_with_advances adv k ctx = Ok (c, ctx') -> finalized c).
Proof.
  intros Hwf Hk Hready Hadv Hne start trailing finalized Hcap.
  split; [by apply max_advanced_id_upper|].
  apply Nat.leb_gt in Hcap.
  assert (Hfinal : forall c,
            next_component (instance ctx) adv k start = Ok c -> finalized c).
  { intros c. unfold next_component. fold start. fold trailing. rewrite Hcap.
    intros [= <-]. unfold finalized.
    cbn [trailing_unconsumed_partitioned_event_ids latest_consumed_event_id
           latest_consumed_event_partition].
    split; [reflexivity|]. unfold consumed_pointer. split.
    - intros Hlt. apply Z.ltb_lt in Hlt. by rewrite Hlt.
    - intros Hle. apply Z.ltb_ge in Hle. by rewrite Hle. }
  split.
  - intros Hinst.
    pose proof (get_asset_cursor_with_advances_spec ctx adv k Hinst Hwf Hk Hready Hadv Hne)
      as Hspec.
    fold start in Hspec.
    destruct (next_component (instance ctx) adv k start) as [c|e] eqn:Hnext.
    + destruct Hspec as (ctx' & Hrun & _). exists c, ctx'. split; [exact Hrun|by apply Hfinal].
    + unfold next_component in Hnext. fold start in Hnext. fold trailing in Hnext.
      by rewrite Hcap in Hnext.
  - intros c ctx' Hrun. apply Hfinal.
    by apply (get_asset_cursor_with_advances_returned ctx adv k c ctx').
Qed.

Lemma consumed_pointer_after_advances_witness :
  has_instance backlog_context
  ∧ store_wf (instance backlog_context)
  ∧ "A" ∈ asset_keys backlog_context
  ∧ cache_ready backlog_context "A"
  ∧ advances_wf backlog_advances
  ∧ advanced_ids backlog_advances "A" ≠ ∅
  ∧ (length (if advance_all_cursors_called backlog_advances then []
             else trailing_with_backlog (instance backlog_context) backlog_advances "A"
                    (_get_cursor backlog_context "A"))
     < MAX_NUM_UNCONSUMED_EVENTS)%nat
  ∧ max_advanced_id backlog_advances "A" = 7
  ∧ exists c ctx',
      get_asset_cursor_with_advances backlog_advances "A" backlog_context = Ok (c, ctx')
      ∧ latest_consumed_event_id c = Some 9
      ∧ latest_consumed_event_partition c = Some "p1"
      ∧ trailing_unconsumed_partitioned_event_ids c = [].
Proof.
  assert (H0 : has_instance backlog_context) by by eexists.
  assert (H1 : store_wf (instance backlog_context)) by apply store_wf_backlog.
  assert (H2 : "A" ∈ asset_keys backlog_context) by by_compute.
  assert (H3 : cache_ready backlog_context "A") by apply cache_ready_at_tick_start.
  assert (H4 : advances_wf backlog_advances)
    by apply add_advanced_records_wf, add_advanced_records_wf, advances_wf_new.
  assert (H5 : advanced_ids backlog_advances "A" ≠ ∅) by by_compute.
  assert (H6 : (length (if advance_all_cursors_called backlog_advances then []
                        else trailing_with_backlog (instance backlog_context)
                               backlog_advances "A" (_get_cursor backlog_context "A"))
                < MAX_NUM_UNCONSUMED_EVENTS)%nat) by (vm_compute; lia).
  assert (H7 : max_advanced_id backlog_advances "A" = 7) by (vm_compute; reflexivity).
  repeat (split; [assumption|]).
  destruct (consumed_pointer_after_advances backlog_context backlog_advances "A"
              H1 H2 H3 H4 H5 H6) as (_ & Hreturns & _).
  destruct (Hreturns H0) as (c & ctx' & Hrun & Htrail & _ & Hkeep).
  exists c, ctx'. split; [exact Hrun|].
  destruct Hkeep as [Hid Hp]; [rewrite H7; vm_compute; discriminate|].
  rewrite Hid, Hp, Htrail. repeat split; vm_compute; reflexivity.
Defined.

(** ** C3: a tick without advances keeps the cursor string *)




(** ** C4: the cap on the backlog *)

(** C4: when [advance_all_cursors] was not called and the recomputed trailing
    map of a tracked asset with advance requests has 25 entries or more, its
    step, the new cursor and the finalization of the tick all fail with
    [DagsterInvariantViolationError]; so it is when a backlog of 24
    partitions gets a 25th. Every component a successful step computes from
    advance requests holds at most 24 trailing entries; a finalization that
    starts from components within the cap yields components within the cap,
    and the components of the empty cursor are within it. *)
Theorem backlog_cap :
  (forall (codec : JsonCodec) ctx adv k,
     store_wf (instance ctx) -> NoDup (asset_keys ctx) -> advances_wf adv ->
     (forall k', k' ∈ asset_keys ctx -> cache_ready ctx k') ->
     k ∈ asset_keys ctx -> advanced_ids adv k ≠ ∅ ->
     advance_all_cursors_called adv = false ->
     (MAX_NUM_UNCONSUMED_EVENTS
      <= length (trailing_with_backlog (instance ctx) adv k (_get_cursor ctx k)))%nat ->
     get_asset_cursor_with_advances adv k ctx = Raise DagsterInvariantViolationError
     ∧ get_cursor_with_advances adv ctx = Raise DagsterInvariantViolationError
     ∧ (cursor_advance_state_mutation ctx = adv ->
        update_cursor_after_evaluation ctx = Raise DagsterInvariantViolationError))
  ∧ (length (trailing_unconsumed_partitioned_event_ids
               (_get_cursor full_backlog_context "A")) = 24%nat
     ∧ length (trailing_with_backlog (instance full_backlog_context)
                 full_backlog_advances "A" (_get_cursor full_backlog_context "A")) = 25%nat
     ∧ get_cursor_with_advances full_backlog_advances full_backlog_context
       = Raise DagsterInvariantViolationError)
  ∧ (forall adv k ctx c ctx',
       get_asset_cursor_with_advances adv k ctx = Ok (c, ctx') ->
       advanced_ids adv k ≠ ∅ ->
       (length (trailing_unconsumed_partitioned_event_ids c) <= 24)%nat)
  ∧ (forall adv ctx m ctx',
       (forall k, (length (trailing_unconsumed_partitioned_event_ids (_get_cursor ctx k))
                   <= 24)%nat) ->
       asset_cursors_with_advances adv ctx = Ok (m, ctx') ->
       Forall (fun kc => (length (trailing_unconsumed_partitioned_event_ids (snd kc))
                          <= 24)%nat) m)
  ∧ (forall k, (length (trailing_unconsumed_partitioned_event_ids
                          (get_cursor_for_asset empty_context_cursor k)) <= 24)%nat).
Proof.
  split; [|split; [|split; [|split]]]; [| | | |intros k; cbn; lia].
  - intros codec ctx adv k Hwf Hnd Hadv Hready Hk Hne Hall Hcap.
    assert (Hnext : next_component (instance ctx) adv k (_get_cursor ctx k)
                    = Raise DagsterInvariantViolationError).
    { unfold next_component. rewrite Hall. apply Nat.leb_le in Hcap. by rewrite Hcap. }
    assert (Hstep : get_asset_cursor_with_advances adv k ctx
                    = Raise DagsterInvariantViolationError).
    { destruct (get_asset_cursor_with_advances adv k ctx) as [[c ctx']|e] eqn:Hrun.
      - pose proof (get_asset_cursor_with_advances_returned ctx adv k c ctx' Hwf Hk
                      (Hready k Hk) Hadv Hne Hrun) as Hok.
        rewrite Hnext in Hok. discriminate.
      - f_equal. by eapply get_asset_cursor_with_advances_error. }
    assert (Hwith : forall ctx0,
              has_instance ctx0 -> store_wf (instance ctx0) -> NoDup (asset_keys ctx0) ->
              (forall k', k' ∈ asset_keys ctx0 -> cache_ready ctx0 k') ->
              k ∈ asset_keys ctx0 ->
              next_component (instance ctx0) adv k (_get_cursor ctx0 k)
              = Raise DagsterInvariantViolationError ->
              get_cursor_with_advances adv ctx0 = Raise DagsterInvariantViolationError).
    { clear ctx Hwf Hnd Hready Hk Hcap Hnext Hstep.
      intros ctx Hinst Hwf Hnd Hready Hk Hnext.
      unfold get_cursor_with_advances. rewrite (advanced_ids_nonempty_size adv k Hne).
      rewrite tick_bind_run.
      pose proof (asset_cursors_with_advances_spec ctx adv Hinst Hwf Hnd Hadv Hready)
        as Hspec.
      rewrite (next_asset_cursors_raise _ adv _ _ k DagsterInvariantViolationError Hk)
        in Hspec.
      - by rewrite Hspec.
      - unfold next_asset_cursor. by rewrite decide_False. }
    assert (Hcursor : get_cursor_with_advances adv ctx
                      = Raise DagsterInvariantViolationError).
    { destruct (has_instance_dec ctx) as [Hinst|Hnone]; [by apply Hwith|].
      destruct (get_cursor_with_advances adv ctx) as [[s ctx']|e] eqn:Hrun.
      - destruct (instance_blind_cursor_with_advances adv _ _ _ Hnone Hrun) as [_ Hrun'].
        rewrite Hwith in Hrun'; [discriminate|apply has_instance_with_empty_store|..].
        + by rewrite (instance_with_empty_store ctx Hnone).
        + exact Hnd.
        + intros k' Hk'. apply cache_ready_with_empty_store; [done|by apply Hready].
        + exact Hk.
        + by rewrite (instance_with_empty_store ctx Hnone).
      - f_equal. by eapply get_cursor_with_advances_error. }
    split; [exact Hstep|]. split; [exact Hcursor|].
    intros <-. unfold update_cursor_after_evaluation.
    rewrite tick_bind_run. cbn [tick_get]. rewrite tick_bind_run. by rewrite Hcursor.
  - split; [reflexivity|]. split; vm_compute; reflexivity.
  - intros adv k ctx c ctx' Hrun Hne.
    destruct (get_asset_cursor_with_advances_cap adv k ctx c ctx' Hrun Hne) as [Hc _].
    unfold MAX_NUM_UNCONSUMED_EVENTS in Hc. lia.
  - intros adv ctx m ctx' Hcap Hrun.
    assert (Hcapped : forall k, capped (_get_cursor ctx k)).
    { intros k. unfold capped, MAX_NUM_UNCONSUMED_EVENTS. specialize (Hcap k). lia. }
    pose proof (asset_cursors_with_advances_capped adv ctx m ctx' Hcapped Hrun) as Hall.
    eapply Forall_impl; [exact Hall|]. intros kc Hc.
    unfold capped, MAX_NUM_UNCONSUMED_EVENTS in Hc. lia.
Qed.

Lemma backlog_cap_witness :
  store_wf (instance full_backlog_context)
  ∧ NoDup (asset_keys full_backlog_context)
  ∧ advances_wf full_backlog_advances
  ∧ (forall k', k' ∈ asset_keys full_backlog_context -> cache_ready full_backlog_context k')
  ∧ "A" ∈ asset_keys full_backlog_context
  ∧ advanced_ids full_backlog_advances "A" ≠ ∅
  ∧ advance_all_cursors_called full_backlog_advances = false
  ∧ (MAX_NUM_UNCONSUMED_EVENTS
     <= length (trailing_with_backlog (instance full_backlog_context)
                  full_backlog_advances "A" (_get_cursor full_backlog_context "A")))%nat
  ∧ get_asset_cursor_with_advances full_backlog_advances "A" full_backlog_context
    = Raise DagsterInvariantViolationError
  ∧ get_cursor_with_advances full_backlog_advances full_backlog_context
    = Raise DagsterInvariantViolationError.
Proof.
  assert (H1 : store_wf (instance full_backlog_context)) by apply store_wf_full_backlog.
  assert (H2 : NoDup (asset_keys full_backlog_context)) by by_compute.
  assert (H3 : advances_wf full_backlog_advances)
    by apply add_advanced_records_wf, advances_wf_new.
  assert (H4 : forall k', k' ∈ asset_keys full_backlog_context ->
                          cache_ready full_backlog_context k')
    by (intros k' _; apply cache_ready_at_tick_start).
  assert (H5 : "A" ∈ asset_keys full_backlog_context) by by_compute.
  assert (H6 : advanced_ids full_backlog_advances "A" ≠ ∅) by by_compute.
  assert (H7 : advance_all_cursors_called full_backlog_advances = false) by reflexivity.
  assert (H8 : (MAX_NUM_UNCONSUMED_EVENTS
                <= length (trailing_with_backlog (instance full_backlog_context)
                             full_backlog_advances "A"
                             (_get_cursor full_backlog_context "A")))%nat)
    by (vm_compute; lia).
  repeat (split; [assumption|]).
  destruct (proj1 backlog_cap python_json full_backlog_context full_backlog_advances "A"
              H1 H2 H3 H4 H5 H6 H7 H8) as (Ha & Hb & _).
  split; [exact Ha | exact Hb].
Defined.

(** ** C5: [advance_all_cursors] *)

(** Where [advance_all_cursors] recorded an event for an asset, the trailing
    map of that asset comes out empty. *)
Lemma advance_all_cursors_clears_advanced_asset adv k ctx c ctx' :
  advance_all_cursors_called adv = true -> advanced_ids adv k ≠ ∅ ->
  get_asset_cursor_with_advances adv k ctx = Ok (c, ctx') ->
  trailing_unconsumed_partitioned_event_ids c = [].
Proof.
  intros Hall Hne Hrun.
  unfold get_asset_cursor_with_advances in Hrun. fold (advanced_ids adv k) in Hrun.
  rewrite tick_bind_run in Hrun. cbn [tick_get] in Hrun.
  rewrite (size_eqb_0_false _ Hne), Hall in Hrun.
  destruct (set_max (advanced_ids adv k)); [|discriminate].
  destruct (partition_key_by_record_id adv !! _); [|discriminate].
  by injection Hrun as <- _.
Qed.

(** C5 fails on the code: with two tracked assets, a backlog on the first and
    a new event on the second only, a tick that calls [advance_all_cursors]
    records an event for the second asset alone and ends with a cursor in
    which the first asset still has its backlog. *)
Theorem advance_all_cursors_keeps_backlog_without_new_event :
  exists ctx1 ctx',
    run_calls (context_calls advance_all_evaluation) two_assets_context = Ok (tt, ctx1)
    ∧ advance_all_cursors_called (cursor_advance_state_mutation ctx1) = true
    ∧ advanced_ids (cursor_advance_state_mutation ctx1) "A" = ∅
    ∧ advanced_ids (cursor_advance_state_mutation ctx1) "B" = {[20]}
    ∧ _fn advance_all_evaluation two_assets_context = Ok ([RunRequest None None], ctx')
    ∧ asset_keys ctx' = ["A"; "B"]
    ∧ unpacked_cursor ctx'
      = context_cursor_of
          [ ("A", component (Some "p1") (Some 9) [("p2", 5)]);
            ("B", component (Some "q1") (Some 20) []) ]
    ∧ trailing_unconsumed_partitioned_event_ids (_get_cursor ctx' "A") = [("p2", 5)].
Proof.
  pose (ctx1 := match run_calls (context_calls advance_all_evaluation) two_assets_context
                with
                | Ok (_, c) => c
                | Raise _ => two_assets_context
                end).
  exists ctx1. eexists.
  split; [vm_compute; reflexivity|]. split; [reflexivity|].
  split; [by_compute|]. split; [by_compute|].
  split; [vm_compute; reflexivity|]. split; [reflexivity|].
  split; vm_compute; reflexivity.
Qed.

(** ** C6: decoding an encoded cursor map *)

(** C6: with a [json] module that reads back what it writes, decoding the
    string that encodes a well-formed cursor map gives that cursor map. *)
Theorem decode_encode_roundtrip `{codec : JsonCodec} `{laws : !JsonCodecLaws}
    (m : list (string * MultiAssetSensorAssetCursorComponent)) :
  cursor_map_wf m ->
  new_context_cursor (Some (get_stringified_cursor (context_cursor_of m)))
  = Ok (context_cursor_of m)
  ∧ forall c, new_context_cursor (Some (get_stringified_cursor (context_cursor_of m))) = Ok c ->
              cursor_component_by_asset_key c = m.
Proof.
  intros Hwf. unfold get_stringified_cursor. cbn [cursor_component_by_asset_key context_cursor_of].
  rewrite (new_context_cursor_encoded m Hwf). split; [reflexivity|].
  by intros c [= <-].
Qed.

Lemma decode_encode_roundtrip_witness :
  cursor_map_wf sample_cursor_map
  ∧ new_context_cursor (Some (get_stringified_cursor (context_cursor_of sample_cursor_map)))
    = Ok (context_cursor_of sample_cursor_map).
Proof.
  assert (Hwf : cursor_map_wf sample_cursor_map).
  { split; [by_compute|]. repeat constructor; by_compute. }
  split; [exact Hwf|].
  exact (proj1 (decode_encode_roundtrip (codec := python_json) (laws := python_json_laws)
                  sample_cursor_map Hwf)).
Defined.

(** ** C7: cursors of another shape *)

(** C7, as stated, at two cursor strings of another shape: decoding
    [{"a": 5}] raises, and decoding [{"a": [null, 1, {}], "b": [1]}] yields
    a state that is not empty. *)
Lemma decode_foreign_cursor_raises_or_keeps_entries :
  new_context_cursor (Some cursor_of_ints) = Raise TypeError
  ∧ new_context_cursor (Some cursor_of_mixed_entries)
    = Ok (context_cursor_of [("a", component None (Some 1) [])])
  ∧ context_cursor_of [("a", component None (Some 1) [])] ≠ empty_context_cursor.
Proof.
  split; [vm_compute; reflexivity|]. split; [vm_compute; reflexivity|]. discriminate.
Qed.

(** C7, amended: when a cursor string reads as a JSON object whose first
    entry has a length other than 3, decoding raises no error and yields the
    empty state; in general decoding stops at the first entry of a length
    other than 3 and has the outcome of decoding the entries before it. The
    values of the entries are any that [json.loads] returns, floats
    included: [{"a": [1e2]}] decodes to the empty state. *)
Theorem decode_stops_at_foreign_entry `{codec : JsonCodec} s items key v rest n :
  s ≠ EmptyString ->
  json_loads s = Ok (JObj (items ++ (key, v) :: rest)%list) ->
  py_len v = Ok n -> n ≠ 3%nat ->
  new_context_cursor (Some s) = unpack_cursor_entries items empty_context_cursor
  ∧ (items = [] -> new_context_cursor (Some s) = Ok empty_context_cursor).
Proof.
  intros Hs Hloads Hlen Hn.
  assert (Heq : new_context_cursor (Some s)
                = unpack_cursor_entries items empty_context_cursor).
  { unfold new_context_cursor. rewrite decide_False by done. rewrite Hloads.
    cbn [mbind Result_bind unpack_loaded_cursor].
    by apply (unpack_cursor_entries_break items key v rest n). }
  split; [exact Heq|]. intros ->. by rewrite Heq.
Qed.

Lemma decode_stops_at_foreign_entry_witness :
  (cursor_of_legacy_entries ≠ EmptyString
   ∧ json_loads cursor_of_legacy_entries
     = Ok (JObj ([] ++ ("b", JList [JInt 1])
                 :: [("a", JList [JNull; JInt 1; JObj []])])%list)
   ∧ py_len (JList [JInt 1]) = Ok 1%nat
   ∧ 1%nat ≠ 3%nat
   ∧ new_context_cursor (Some cursor_of_legacy_entries) = Ok empty_context_cursor)
  ∧ (cursor_of_float_entry ≠ EmptyString
     ∧ json_loads cursor_of_float_entry
       = Ok (JObj ([] ++ [("a", JList [JFloat (PyJson.float_of_decimal false 1 2)])])%list)
     ∧ new_context_cursor (Some cursor_of_float_entry) = Ok empty_context_cursor).
Proof.
  assert (H1 : cursor_of_legacy_entries ≠ EmptyString) by discriminate.
  assert (H2 : json_loads cursor_of_legacy_entries
               = Ok (JObj ([] ++ ("b", JList [JInt 1])
                           :: [("a", JList [JNull; JInt 1; JObj []])])%list))
    by (vm_compute; reflexivity).
  assert (H3 : py_len (JList [JInt 1]) = Ok 1%nat) by reflexivity.
  assert (H4 : 1%nat ≠ 3%nat) by discriminate.
  assert (F1 : cursor_of_float_entry ≠ EmptyString) by discriminate.
  assert (F2 : json_loads cursor_of_float_entry
               = Ok (JObj ([] ++ [("a", JList [JFloat (PyJson.float_of_decimal false 1 2)])])%list))
    by (vm_compute; reflexivity).
  split.
  - repeat (split; [assumption|]).
    exact (proj2 (decode_stops_at_foreign_entry (codec := python_json) cursor_of_legacy_entries
                    [] "b" (JList [JInt 1]) [("a", JList [JNull; JInt 1; JObj []])] 1%nat
                    H1 H2 H3 H4) eq_refl).
  - repeat (split; [assumption|]).
    exact (proj2 (decode_stops_at_foreign_entry (codec := python_json) cursor_of_float_entry
                    [] "a" (JList [JFloat (PyJson.float_of_decimal false 1 2)]) [] 1%nat
                    F1 F2 eq_refl H4) eq_refl).
Defined.

(** ** C8: [get_cursor_partition] *)

(** C8 fails on the code: without an asset key [get_cursor_partition] raises
    [DagsterInvalidInvocationError] whatever the tracked assets are, a single
    one included; with an asset key it returns the consumed partition of a
    tracked asset and raises for any other. *)
Theorem get_cursor_partition_without_key_raises :
  (forall ctx, get_cursor_partition None ctx = Raise DagsterInvalidInvocationError)
  ∧ asset_keys scenario_context = ["A"]
  ∧ get_cursor_partition None scenario_context = Raise DagsterInvalidInvocationError
  ∧ (forall ctx k,
       get_cursor_partition (Some k) ctx
       = if bool_decide (k ∈ asset_keys ctx)
         then Ok (latest_consumed_event_partition (_get_cursor ctx k), ctx)
         else Raise DagsterInvalidInvocationError).
Proof.
  split; [reflexivity|]. split; [reflexivity|]. split; [reflexivity|].
  intros ctx k. unfold get_cursor_partition. rewrite tick_bind_run. cbn [tick_get].
  by destruct (bool_decide (k ∈ asset_keys ctx)).
Qed.

(** ** C9: the guard against a missing advancement *)

(** C9, as stated, at a user's function that returns a single [SkipReason]
    and calls no advance method: a result was yielded, the cursor was never
    updated, and the tick completes. *)
Lemma returned_skip_reason_passes_guard :
  yields_result (return_value skip_evaluation)
  ∧ forallb (fun c => negb (is_advance_call c)) (context_calls skip_evaluation) = true
  ∧ cursor_has_been_updated scenario_context = false
  ∧ exists ctx',
      _fn skip_evaluation scenario_context = Ok ([SkipReason None], ctx')
      ∧ cursor_has_been_updated ctx' = false.
Proof.
  split; [discriminate|]. split; [reflexivity|]. split; [reflexivity|].
  eexists. split; vm_compute; reflexivity.
Qed.

(** C9, amended: when the user's function returned a generator or list that
    yielded at least one item, or a single [RunRequest], and called no
    advance method, the tick fails; it fails with the guard's
    [DagsterInvalidDefinitionError] when the calls themselves succeed. A
    single [SkipReason] returned as it is does not set off the guard. *)
Theorem cursor_not_updated_guard `{codec : JsonCodec} ev ctx :
  cursor_has_been_updated ctx = false ->
  advanced_record_ids_by_key (cursor_advance_state_mutation ctx) = ∅ ->
  forallb (fun c => negb (is_advance_call c)) (context_calls ev) = true ->
  (yields_runs (return_value ev) ->
   (exists e, _fn ev ctx = Raise e)
   ∧ forall ctx1, run_calls (context_calls ev) ctx = Ok (tt, ctx1) ->
                  _fn ev ctx = Raise DagsterInvalidDefinitionError)
  ∧ (forall m ctx1,
       return_value ev = ReturnsObject (SkipReason m) ->
       run_calls (context_calls ev) ctx = Ok (tt, ctx1) ->
       _fn ev ctx = Ok ([SkipReason m], ctx1)).
Proof.
  intros Hupd Hnone Hcalls.
  assert (Hframe : forall ctx1, run_calls (context_calls ev) ctx = Ok (tt, ctx1) ->
                                cursor_has_been_updated ctx1 = false
                                ∧ advanced_record_ids_by_key
                                    (cursor_advance_state_mutation ctx1) = ∅).
  { intros ctx1 Hrun.
    destruct (preserves_query_calls _ Hcalls _ _ _ Hrun) as (_ & Hu & Ha).
    split; congruence. }
  assert (Hguard : forall ctx1, yields_runs (return_value ev) ->
                                run_calls (context_calls ev) ctx = Ok (tt, ctx1) ->
                                _fn ev ctx = Raise DagsterInvalidDefinitionError).
  { intros ctx1 Hy Hrun. destruct (Hframe ctx1 Hrun) as [Hu _].
    unfold _fn, materialization_fn. rewrite !tick_bind_run, Hrun.
    cbn [mret Tick_ret tick_ret].
    destruct (return_value ev) as [|[|item items]|[| |]]; try done;
      rewrite tick_bind_run; cbn [tick_get]; by rewrite Hu. }
  split.
  - intros Hy. split; [|intros ctx1; by apply Hguard].
    destruct (run_calls (context_calls ev) ctx) as [[[] ctx1]|e] eqn:Hrun.
    + exists DagsterInvalidDefinitionError. by apply (Hguard ctx1).
    + exists e. unfold _fn, materialization_fn. by rewrite !tick_bind_run, Hrun.
  - intros m ctx1 Hret Hrun. destruct (Hframe ctx1 Hrun) as [Hu Ha].
    unfold _fn, materialization_fn. rewrite !tick_bind_run, Hrun.
    cbn [mret Tick_ret tick_ret]. rewrite Hret.
    rewrite tick_bind_run. cbn [tick_get]. cbn [andb]. rewrite tick_bind_run.
    by rewrite (update_cursor_without_advances ctx1 Ha).
Qed.

Lemma cursor_not_updated_guard_witness :
  cursor_has_been_updated scenario_context = false
  ∧ advanced_record_ids_by_key (cursor_advance_state_mutation scenario_context) = ∅
  ∧ forallb (fun c => negb (is_advance_call c)) (context_calls run_evaluation) = true
  ∧ yields_runs (return_value run_evaluation)
  ∧ exists e, _fn run_evaluation scenario_context = Raise e.
Proof.
  assert (H1 : cursor_has_been_updated scenario_context = false) by reflexivity.
  assert (H2 : advanced_record_ids_by_key (cursor_advance_state_mutation scenario_context)
               = ∅) by reflexivity.
  assert (H3 : forallb (fun c => negb (is_advance_call c)) (context_calls run_evaluation)
               = true) by reflexivity.
  assert (H4 : yields_runs (return_value run_evaluation)) by exact I.
  repeat (split; [assumption|]).
  exact (proj1 (proj1 (cursor_not_updated_guard (codec := python_json) run_evaluation
                         scenario_context H1 H2 H3) H4)).
Defined.

(** ** C10: an advance that names no record *)

(** C10: [advance_cursor] with a mapping whose values are all [None] records
    no advanced id and marks the cursor as updated; a tick that then yields
    results passes the guard, and its finalization returns no new cursor and
    leaves the cursor string and the unpacked cursor as they were at the
    start of the tick, so that the latest materializations are the same
    after the tick as before it: the query has the same outcome, and on a
    context that has an instance it returns. *)
Theorem advance_cursor_with_no_record_passes_guard `{codec : JsonCodec} ctx m items :
  advanced_record_ids_by_key (cursor_advance_state_mutation ctx) = ∅ ->
  Forall (fun kr => snd kr = None) m ->
  items ≠ [] ->
  exists ctx1,
    advance_cursor m ctx = Ok (tt, ctx1)
    ∧ advanced_record_ids_by_key (cursor_advance_state_mutation ctx1) = ∅
    ∧ cursor_has_been_updated ctx1 = true
    ∧ get_cursor_with_advances (cursor_advance_state_mutation ctx1) ctx1 = Ok (None, ctx1)
    ∧ _fn {| context_calls := [call_advance_cursor m];
             return_value := ReturnsItems items |} ctx
      = Ok (items, ctx1)
    ∧ cursor ctx1 = cursor ctx
    ∧ unpacked_cursor ctx1 = unpacked_cursor ctx
    ∧ (forall keys,
         returned (latest_materialization_records_by_key keys ctx1)
         = returned (latest_materialization_records_by_key keys ctx))
    ∧ (has_instance ctx ->
       forall keys, exists records,
         latest_materialization_records_by_key keys ctx = Ok (records, ctx)
         ∧ latest_materialization_records_by_key keys ctx1 = Ok (records, ctx1)).
Proof.
  intros Hnone Hm Hitems.
  exists (set_advances (cursor_advance_state_mutation ctx) true ctx).
  assert (Hadv : advance_cursor m ctx
                 = Ok (tt, set_advances (cursor_advance_state_mutation ctx) true ctx)).
  { unfold advance_cursor, tick_modify. by rewrite add_advanced_records_none. }
  split; [exact Hadv|]. split; [exact Hnone|]. split; [reflexivity|].
  split.
  { unfold get_cursor_with_advances. cbn [cursor_advance_state_mutation set_advances].
    by rewrite Hnone. }
  split; [|split; [reflexivity|split; [reflexivity|split]]].
  2:{ intros keys. destruct (has_instance_dec ctx) as [Hinst|Hmissing].
      - by rewrite !latest_materialization_records_by_key_run.
      - rewrite !latest_materialization_records_by_key_without_instance by done.
        cbn [asset_keys set_advances]. by destruct (decide _). }
  2:{ intros Hinst keys. eexists.
      split; [by apply latest_materialization_records_by_key_run|].
      by rewrite latest_materialization_records_by_key_run. }
  unfold _fn, materialization_fn. cbn [context_calls return_value run_calls run_call].
  rewrite !tick_bind_run, Hadv. cbn [mret Tick_ret tick_ret].
  rewrite tick_bind_run. cbn [tick_get cursor_has_been_updated set_advances negb].
  rewrite andb_false_r. rewrite tick_bind_run.
  by rewrite update_cursor_without_advances.
Qed.

Lemma advance_cursor_with_no_record_passes_guard_witness :
  advanced_record_ids_by_key (cursor_advance_state_mutation scenario_context) = ∅
  ∧ Forall (fun kr : AssetKey * option EventLogRecord => snd kr = None) [("A", None)]
  ∧ [RunRequest None None] ≠ []
  ∧ exists ctx1,
      _fn {| context_calls := [call_advance_cursor [("A", None)]];
             return_value := ReturnsItems [RunRequest None None] |} scenario_context
      = Ok ([RunRequest None None], ctx1)
      ∧ cursor ctx1 = cursor scenario_context.
Proof.
  assert (H1 : advanced_record_ids_by_key (cursor_advance_state_mutation scenario_context)
               = ∅) by reflexivity.
  assert (H2 : Forall (fun kr : AssetKey * option EventLogRecord => snd kr = None)
                      [("A", None)]) by (repeat constructor).
  assert (H3 : [RunRequest None None] ≠ []) by discriminate.
  repeat (split; [assumption|]).
  destruct (advance_cursor_with_no_record_passes_guard (codec := python_json)
              scenario_context [("A", None)] [RunRequest None None] H1 H2 H3)
    as (ctx1 & _ & _ & _ & _ & Hfn & Hc & _).
  exists ctx1. split; [exact Hfn | exact Hc].
Defined.

(** * Further properties of the module *)

(** ** Queries of the event store *)

Lemma record_matches_asset k after r :
  record_matches (asset_filter k None after None) r = true <-> unconsumed_after after k r.
Proof.
  unfold record_matches, asset_filter, unconsumed_after, opt_test; simpl.
  rewrite !andb_true_r, andb_true_iff, bool_decide_eq_true.
  destruct after as [c|]; [rewrite Z.ltb_lt|]; intuition.
Qed.

Lemma elem_of_asset_query store k after ascending r :
  r ∈ get_event_records store (asset_filter k None after None) ascending None
  <-> r ∈ store ∧ unconsumed_after after k r.
Proof.
  unfold get_event_records, opt_take.
  destruct ascending; [|rewrite elem_of_reverse];
    rewrite list_elem_of_filter, record_matches_asset; tauto.
Qed.

Lemma StronglySorted_filter_map {A B} (R : relation B) (f : A -> B) (P : A -> Prop)
    `{!forall x, Decision (P x)} (l : list A) :
  StronglySorted R (map f l) -> StronglySorted R (map f (filter P l)).
Proof.
  induction l as [|a l IH]; simpl; [done|].
  inversion_clear 1 as [|? ? Hs Hall].
  rewrite filter_cons. destruct (decide (P a)); [|by apply IH].
  simpl. constructor; [by apply IH|].
  rewrite Forall_forall in Hall |- *. intros y Hy. apply Hall.
  apply (list_elem_of_fmap f) in Hy as (x & -> & Hx). apply (list_elem_of_fmap_2 f).
  by apply list_elem_of_filter in Hx as [_ ?].
Qed.

Lemma last_StronglySorted (l : list EventLogRecord) r :
  StronglySorted Z.lt (map storage_id l) -> last l = Some r ->
  r ∈ l ∧ forall r', r' ∈ l -> storage_id r' <= storage_id r.
Proof.
  intros Hs Hlast. apply last_Some in Hlast as [l' ->].
  split; [set_solver|]. intros r' Hr'.
  rewrite map_app in Hs. apply elem_of_app in Hr' as [Hr'|Hr'].
  - apply Z.lt_le_incl.
    apply (StronglySorted_app_1_elem_of _ _ _ _ _ Hs);
      [by apply (list_elem_of_fmap_2 storage_id)|simpl; set_solver].
  - apply list_elem_of_singleton in Hr' as ->. lia.
Qed.

Lemma latest_asset_record store k after :
  StronglySorted Z.lt (map storage_id store) ->
  match head (get_event_records store (asset_filter k None after None) false (Some 1%nat)) with
  | Some r =>
      r ∈ store ∧ unconsumed_after after k r
      ∧ forall r', r' ∈ store -> unconsumed_after after k r' -> storage_id r' <= storage_id r
  | None => forall r', r' ∈ store -> ~ unconsumed_after after k r'
  end.
Proof.
  intros Hs. unfold get_event_records, opt_take.
  set (found := filter _ store).
  assert (Hfound : forall r, r ∈ found <-> r ∈ store ∧ unconsumed_after after k r).
  { intros r. unfold found. rewrite list_elem_of_filter, record_matches_asset. tauto. }
  assert (Hhead : head (take 1 (reverse found)) = last found).
  { rewrite <- head_reverse. by destruct (reverse found). }
  rewrite Hhead. destruct (last found) as [r|] eqn:Hlast.
  - apply last_StronglySorted in Hlast as [Hr Hmax];
      [|by apply StronglySorted_filter_map].
    apply Hfound in Hr as [? ?]. split; [done|]. split; [done|].
    intros r' ? ?. apply Hmax, Hfound. done.
  - apply last_None in Hlast. intros r' ? ?.
    assert (r' ∈ found) as Hin by by apply Hfound.
    rewrite Hlast in Hin. by apply elem_of_nil in Hin.
Qed.

Lemma dict_get_fold_set {K V} `{EqDecision K} (f : K -> V) (keys : list K) :
  forall (d : list (K * V)) k,
    dict_get k (fold_left (fun acc a => dict_set a (f a) acc) keys d)
    = if decide (k ∈ keys) then Some (f k) else dict_get k d.
Proof.
  induction keys as [|a keys IH]; intros d k; cbn [fold_left].
  - rewrite decide_False; [done|]. apply not_elem_of_nil.
  - rewrite IH. destruct (decide (k ∈ keys)) as [Hin|Hnin].
    + rewrite decide_True; [done|]. by right.
    + destruct (decide (k = a)) as [->|Hne].
      * rewrite decide_True by by left. apply dict_get_set_eq.
      * rewrite decide_False by (rewrite elem_of_cons; tauto).
        by apply dict_get_set_ne.
Qed.

Lemma instance_Some ctx store : _instance ctx = Some store -> instance ctx = store.
Proof. unfold instance. by intros ->. Qed.

(** X1: [latest_materialization_records_by_key] reads the instance once for
    every requested key (the monitored keys when none are given). With no
    key to look up it returns the empty mapping; otherwise a context built
    without an instance raises [DagsterInvariantViolationError], and a
    context with one returns, leaving the context as it is, a mapping that
    files exactly the requested keys. When the storage ids grow along the
    store, a key is filed with the record of that asset that has the
    greatest storage id among those after the consumed id of its cursor, or
    with [None] when no record of the asset lies after it. *)
Theorem latest_materialization_records_by_key_latest ctx keys :
  let requested := default (asset_keys ctx) keys in
  match _instance ctx with
  | None =>
      latest_materialization_records_by_key keys ctx
      = if decide (requested = []) then Ok ([], ctx)
        else Raise DagsterInvariantViolationError
  | Some store =>
      exists result,
        latest_materialization_records_by_key keys ctx = Ok (result, ctx)
        ∧ (forall k, is_Some (dict_get k result) <-> k ∈ requested)
        ∧ (StronglySorted Z.lt (map storage_id store) ->
           forall k,
             let after := latest_consumed_event_id (_get_cursor ctx k) in
             match dict_get k result with
             | Some (Some r) =>
                 r ∈ store ∧ unconsumed_after after k r
                 ∧ forall r', r' ∈ store -> unconsumed_after after k r' ->
                              storage_id r' <= storage_id r
             | Some None => forall r', r' ∈ store -> ~ unconsumed_after after k r'
             | None => k ∉ requested
             end)
  end.
Proof.
  intros requested. destruct (_instance ctx) as [store|] eqn:Hstore.
  - assert (Hinst : has_instance ctx) by by eexists.
    eexists. split; [by apply latest_materialization_records_by_key_run|].
    rewrite (instance_Some _ _ Hstore). fold requested.
    assert (Hget : forall k,
               dict_get k
                 (fold_left
                    (fun recs a =>
                       dict_set a
                         (head (get_event_records store
                                  (asset_filter a None
                                     (latest_consumed_event_id (_get_cursor ctx a)) None)
                                  false (Some 1%nat))) recs)
                    requested [])
               = if decide (k ∈ requested)
                 then Some (head (get_event_records store
                                    (asset_filter k None
                                       (latest_consumed_event_id (_get_cursor ctx k)) None)
                                    false (Some 1%nat)))
                 else None).
    { intros k.
      apply (dict_get_fold_set
               (fun a => head (get_event_records store
                  (asset_filter a None (latest_consumed_event_id (_get_cursor ctx a)) None)
                  false (Some 1%nat)))). }
    split.
    + intros k. rewrite Hget. destruct (decide (k ∈ requested)); [|split; [by intros []|done]].
      split; [done|]. intros _. by eexists.
    + intros Hs k after. rewrite Hget.
      destruct (decide (k ∈ requested)) as [Hk|Hk]; [|done].
      pose proof (latest_asset_record store k after Hs) as Hlatest.
      fold after. destruct (head _); [destruct Hlatest as (? & ? & ?)|]; done.
  - unfold latest_materialization_records_by_key.
    unfold mbind at 1, Tick_bind, tick_bind, tick_get. fold requested.
    destruct (decide (requested = [])) as [->|Hne]; [reflexivity|].
    by apply (tick_foldM_read_raise
                (fun store recs a =>
                   dict_set a
                     (head (get_event_records store
                              (asset_filter a None
                                 (latest_consumed_event_id (_get_cursor ctx a)) None)
                              false (Some 1%nat))) recs)).
Qed.

(** X2: [materialization_records_for_key] raises
    [DagsterInvalidInvocationError] for an asset key the sensor does not
    monitor, and for a monitored one [DagsterInvariantViolationError] on a
    context built without an instance. On a context with an instance it
    returns for a monitored key, leaving the context as it is, at most
    [limit] records, each a record of the asset after the consumed id of its
    cursor. When the storage ids grow along the store they come by ascending
    storage id and are the earliest such records (none with a smaller id is
    passed over), and when fewer than [limit] are returned no such record is
    missing. *)
Theorem materialization_records_for_key_earliest ctx k limit :
  let after := latest_consumed_event_id (_get_cursor ctx k) in
  if decide (k ∈ asset_keys ctx) then
    match _instance ctx with
    | None =>
        materialization_records_for_key k limit ctx = Raise DagsterInvariantViolationError
    | Some store =>
        exists events,
          materialization_records_for_key k limit ctx = Ok (events, ctx)
          ∧ (length events <= limit)%nat
          ∧ (forall r, r ∈ events -> r ∈ store ∧ unconsumed_after after k r)
          ∧ (StronglySorted Z.lt (map storage_id store) ->
             StronglySorted Z.lt (map storage_id events)
             ∧ (forall r r', r ∈ events -> r' ∈ store -> unconsumed_after after k r' ->
                             storage_id r' < storage_id r -> r' ∈ events)
             ∧ ((length events < limit)%nat ->
                forall r', r' ∈ store -> unconsumed_after after k r' -> r' ∈ events))
    end
  else materialization_records_for_key k limit ctx = Raise DagsterInvalidInvocationError.
Proof.
  intros after. unfold materialization_records_for_key. tick_unfold.
  destruct (decide (k ∈ asset_keys ctx)) as [Hk|Hk].
  2: { by rewrite bool_decide_eq_false_2. }
  rewrite bool_decide_eq_true_2 by done. unfold read_instance.
  destruct (_instance ctx) as [store|]; [|reflexivity].
  eexists. split; [reflexivity|].
  fold after. unfold get_event_records, opt_take.
  set (found := filter _ store).
  assert (Hfound : forall r, r ∈ found <-> r ∈ store ∧ unconsumed_after after k r).
  { intros r. unfold found. rewrite list_elem_of_filter, record_matches_asset. tauto. }
  split; [rewrite length_take; lia|].
  split; [intros r Hr; apply Hfound; by apply (subseteq_take limit)|].
  intros Hs.
  assert (Hsorted : StronglySorted Z.lt (map storage_id found))
    by by apply StronglySorted_filter_map.
  rewrite <- (take_drop limit found), map_app in Hsorted.
  split; [by apply StronglySorted_app_1_l in Hsorted|].
  split.
  - intros r r' Hr Hr' Hnew Hlt.
    assert (r' ∈ found) as Hin by by apply Hfound.
    rewrite <- (take_drop limit found) in Hin. apply elem_of_app in Hin as [Hin|Hin]; [done|].
    pose proof (StronglySorted_app_1_elem_of _ _ _ (storage_id r) (storage_id r') Hsorted
                  (list_elem_of_fmap_2 storage_id _ _ Hr)
                  (list_elem_of_fmap_2 storage_id _ _ Hin)). lia.
  - rewrite length_take. intros Hlen r' Hr' Hnew.
    rewrite take_ge by lia. by apply Hfound.
Qed.

(** ** The trailing events *)

Lemma omap_stored_event_sorted store (ids : list Z) :
  StronglySorted Z.le ids ->
  StronglySorted Z.le (map storage_id (omap (stored_event store) ids)).
Proof.
  induction 1 as [|id ids Hs IH Hall]; simpl; [constructor|].
  destruct (stored_event store id) as [r|] eqn:Hr; [|exact IH].
  apply stored_event_Some in Hr as [_ Hid]. simpl. constructor; [exact IH|].
  rewrite Forall_forall in Hall |- *. intros y Hy.
  apply (list_elem_of_fmap storage_id) in Hy as (e & -> & He).
  apply list_elem_of_omap in He as (id' & Hid' & He).
  apply stored_event_Some in He as [_ <-]. rewrite Hid. by apply Hall.
Qed.

(** X3: on a context that has an instance, whose store holds no id twice
    and whose cache of fetched records is in step with the cursor of the
    asset (the cache holds records of the store only, and once it has been
    filled it holds the records the trailing map of the asset points to, as
    it does from the start of a tick up to a finalization),
    [get_trailing_unconsumed_events] returns for a monitored asset, changing
    nothing of the context but its cache of fetched records; what it returns
    is ascending by storage id and holds exactly the records of the store
    whose storage id is a value of the asset's trailing map. *)
Theorem get_trailing_unconsumed_events_ascending ctx k :
  has_instance ctx ->
  NoDup (map storage_id (instance ctx)) -> k ∈ asset_keys ctx -> cache_ready ctx k ->
  exists events ctx',
    get_trailing_unconsumed_events k ctx = Ok (events, ctx')
    ∧ query_frame ctx ctx'
    ∧ StronglySorted Z.le (map storage_id events)
    ∧ forall e,
        e ∈ events
        <-> e ∈ instance ctx
            ∧ storage_id e
              ∈ dict_values (trailing_unconsumed_partitioned_event_ids (_get_cursor ctx k)).
Proof.
  intros Hinst Hnd Hk Hready.
  destruct (get_trailing_unconsumed_events_spec ctx k Hinst Hnd Hk Hready)
    as (cache' & Hrun & _).
  eexists _, _. split; [exact Hrun|].
  split; [apply set_cache_query_frame|].
  unfold trailing_events_at_tick_start. split.
  - apply omap_stored_event_sorted, StronglySorted_merge_sort; apply _.
  - intros e. rewrite list_elem_of_omap. split.
    + intros (id & Hid & He). rewrite merge_sort_Permutation in Hid.
      apply stored_event_Some in He as [? <-]. done.
    + intros [He Hid]. exists (storage_id e).
      rewrite merge_sort_Permutation. split; [done|]. by apply stored_event_unique.
Qed.

Lemma get_trailing_unconsumed_events_ascending_witness :
  has_instance backlog_context
  ∧ NoDup (map storage_id (instance backlog_context))
  ∧ "A" ∈ asset_keys backlog_context
  ∧ cache_ready backlog_context "A"
  ∧ exists ctx',
      get_trailing_unconsumed_events "A" backlog_context
      = Ok ([materialization 5 "A" (Some "p3"); materialization 7 "A" (Some "p4")], ctx').
Proof.
  assert (H1 : NoDup (map storage_id (instance backlog_context)))
    by exact (store_wf_NoDup _ store_wf_backlog).
  assert (H2 : "A" ∈ asset_keys backlog_context) by by_compute.
  assert (H3 : cache_ready backlog_context "A") by apply cache_ready_at_tick_start.
  assert (H0 : has_instance backlog_context) by by eexists.
  split; [exact H0|]. split; [exact H1|]. split; [exact H2|]. split; [exact H3|].
  destruct (get_trailing_unconsumed_events_ascending backlog_context "A" H0 H1 H2 H3)
    as (events & ctx' & Hrun & _).
  exists ctx'. rewrite Hrun. vm_compute in Hrun. by injection Hrun as <- _.
Defined.

#[global] Instance cache_frame_preorder : PreOrder cache_frame.
Proof.
  split.
  - intros ctx. split; [reflexivity|done].
  - intros a b c [H1 H2] [H1' H2']. split; [by etransitivity|].
    intros Ha. destruct (H2 Ha) as [Hb Hab]. destruct (H2' Hb) as [Hc Hbc].
    split; congruence.
Qed.

Lemma cache_frame_cache_initial : preserves cache_frame _cache_initial_unconsumed_events.
Proof.
  intros ctx a ctx' Heq. apply _cache_initial_unconsumed_events_inv in Heq as ->.
  destruct (fetched_initial_unconsumed_events ctx) eqn:Hf.
  - reflexivity.
  - split; [by repeat split|]. rewrite Hf. discriminate.
Qed.

Lemma cache_frame_set_advances adv updated ctx : cache_frame ctx (set_advances adv updated ctx).
Proof. split; [by repeat split|done]. Qed.

Ltac cache_frame_step :=
  first
    [ apply cache_frame_cache_initial
    | apply (preserves_modify cache_frame); intros ?; apply cache_frame_set_advances
    | apply (preserves_ret cache_frame)
    | apply (preserves_raise cache_frame)
    | apply (preserves_get cache_frame)
    | apply (preserves_read_instance cache_frame)
    | apply (preserves_bind cache_frame); [|intros ?]
    | apply (preserves_mapM cache_frame); intros ?
    | apply (preserves_foldM cache_frame); intros ? ?
    | match goal with
      | |- preserves _ (if ?b then _ else _) => destruct b
      | |- preserves _ (match ?x with _ => _ end) => destruct x
      end ].

Lemma cache_frame_call c : preserves cache_frame (run_call c).
Proof.
  destruct c; cbn [run_call];
    unfold get_trailing_unconsumed_events, latest_materialization_records_by_key,
      materialization_records_for_key, latest_materialization_records_by_partition_and_asset,
      latest_materialization_records_by_partition, _get_partitions_after_cursor,
      _get_unconsumed_events_with_ids, get_cursor_partition, all_partitions_materialized,
      advance_cursor, advance_all_cursors, latest_materialization_records_by_key;
    repeat cache_frame_step.
Qed.

Lemma cache_frame_calls cs : preserves cache_frame (run_calls cs).
Proof.
  induction cs as [|c cs IH]; cbn [run_calls].
  - apply (preserves_ret cache_frame).
  - apply (preserves_bind cache_frame); [apply cache_frame_call|]. intros _. apply IH.
Qed.

#[global] Instance cache_kept_preorder : PreOrder cache_kept.
Proof.
  split.
  - intros ctx. split; [reflexivity|done].
  - intros a b c [Hab Hb] [Hbc Hc]. split; [by etransitivity|].
    intros Hnd Hready.
    destruct Hab as (Hkeys & Hinst & _).
    rewrite <- Hkeys. apply Hc.
    + unfold instance. by rewrite Hinst.
    + rewrite Hkeys. by apply Hb.
Qed.

Lemma cache_kept_cache_initial : preserves cache_kept _cache_initial_unconsumed_events.
Proof.
  intros ctx a ctx' Heq. apply _cache_initial_unconsumed_events_inv in Heq as ->.
  destruct (fetched_initial_unconsumed_events ctx) eqn:Hf; [reflexivity|].
  split; [by repeat split|]. intros Hnd Hready k Hk.
  destruct (Hready k Hk) as [Hsound _].
  destruct (fill_cache_spec ctx (asset_keys ctx) (initial_unconsumed_events_by_id ctx)
              Hnd Hsound) as (Hs & _ & Hcov).
  split; [exact Hs|]. intros _ id Hid. by apply (Hcov k).
Qed.

Lemma cache_kept_set_advances adv updated ctx : cache_kept ctx (set_advances adv updated ctx).
Proof. split; [by repeat split|]. intros _ Hready k Hk. exact (Hready k Hk). Qed.

Ltac cache_kept_step :=
  first
    [ apply cache_kept_cache_initial
    | apply (preserves_modify cache_kept); intros ?; apply cache_kept_set_advances
    | apply (preserves_ret cache_kept)
    | apply (preserves_raise cache_kept)
    | apply (preserves_get cache_kept)
    | apply (preserves_read_instance cache_kept)
    | apply (preserves_bind cache_kept); [|intros ?]
    | apply (preserves_mapM cache_kept); intros ?
    | apply (preserves_foldM cache_kept); intros ? ?
    | match goal with
      | |- preserves _ (if ?b then _ else _) => destruct b
      | |- preserves _ (match ?x with _ => _ end) => destruct x
      end ].

Lemma cache_kept_call c : preserves cache_kept (run_call c).
Proof.
  destruct c; cbn [run_call];
    unfold get_trailing_unconsumed_events, latest_materialization_records_by_key,
      materialization_records_for_key, latest_materialization_records_by_partition_and_asset,
      latest_materialization_records_by_partition, _get_partitions_after_cursor,
      _get_unconsumed_events_with_ids, get_cursor_partition, all_partitions_materialized,
      advance_cursor, advance_all_cursors, latest_materialization_records_by_key;
    repeat cache_kept_step.
Qed.

(** From the start of a tick on, the calls of the user's function keep the
    cache in step with the cursor of every monitored asset. *)
Lemma cache_ready_calls cs ctx ctx1 :
  NoDup (map storage_id (instance ctx)) ->
  (forall k, k ∈ asset_keys ctx -> cache_ready ctx k) ->
  run_calls cs ctx = Ok (tt, ctx1) ->
  forall k, k ∈ asset_keys ctx1 -> cache_ready ctx1 k.
Proof.
  intros Hnd Hready Hrun.
  assert (Hkept : preserves cache_kept (run_calls cs)).
  { clear. induction cs as [|c cs IH]; cbn [run_calls].
    - apply (preserves_ret cache_kept).
    - apply (preserves_bind cache_kept); [apply cache_kept_call|]. intros _. apply IH. }
  destruct (Hkept _ _ _ Hrun) as [(Hkeys & _) Hcache].
  rewrite Hkeys. by apply Hcache.
Qed.

Lemma get_trailing_unconsumed_events_fetched k ctx events ctx1 :
  get_trailing_unconsumed_events k ctx = Ok (events, ctx1) ->
  tick_frame ctx ctx1
  ∧ fetched_initial_unconsumed_events ctx1 = true
  ∧ events
    = omap (fun event_id => initial_unconsumed_events_by_id ctx1 !! event_id)
        (merge_sort Z.le
           (dict_values (trailing_unconsumed_partitioned_event_ids (_get_cursor ctx k)))).
Proof.
  unfold get_trailing_unconsumed_events, _get_unconsumed_events_with_ids. tick_unfold.
  destruct (_cache_initial_unconsumed_events ctx) as [[[] ctx0]|] eqn:Hc; [|discriminate].
  apply _cache_initial_unconsumed_events_inv in Hc as ->.
  destruct (fetched_initial_unconsumed_events ctx) eqn:Hf; intros Heq;
    injection Heq as <- <-; (split; [by repeat split|done]).
Qed.

Lemma get_trailing_unconsumed_events_cached k ctx :
  fetched_initial_unconsumed_events ctx = true ->
  get_trailing_unconsumed_events k ctx
  = Ok (omap (fun event_id => initial_unconsumed_events_by_id ctx !! event_id)
          (merge_sort Z.le
             (dict_values (trailing_unconsumed_partitioned_event_ids (_get_cursor ctx k)))),
        ctx).
Proof.
  intros Hf.
  unfold get_trailing_unconsumed_events, _get_unconsumed_events_with_ids. tick_unfold.
  by rewrite _cache_initial_unconsumed_events_fetched.
Qed.

(** X4: what [get_trailing_unconsumed_events] returned for an asset it
    returns again, and without touching the context, after any further calls
    of the context's methods in the same tick, the advances of the cursor
    among them. *)
Theorem get_trailing_unconsumed_events_stable k ctx events ctx1 cs ctx2 :
  get_trailing_unconsumed_events k ctx = Ok (events, ctx1) ->
  run_calls cs ctx1 = Ok (tt, ctx2) ->
  get_trailing_unconsumed_events k ctx2 = Ok (events, ctx2).
Proof.
  intros Hfirst Hcalls.
  apply get_trailing_unconsumed_events_fetched in Hfirst as ((_ & _ & _ & Hu) & Hf & ->).
  destruct (cache_frame_calls cs _ _ _ Hcalls) as [(_ & _ & _ & Hu') Hcache].
  destruct (Hcache Hf) as [Hf' Hsame].
  rewrite (get_trailing_unconsumed_events_cached k ctx2 Hf'), Hsame.
  unfold _get_cursor. by rewrite Hu', Hu.
Qed.

Lemma get_trailing_unconsumed_events_stable_witness :
  exists ctx1 ctx2,
    get_trailing_unconsumed_events "A" backlog_context
    = Ok ([materialization 5 "A" (Some "p3"); materialization 7 "A" (Some "p4")], ctx1)
    ∧ run_calls
        [ call_advance_cursor [("A", Some (materialization 5 "A" (Some "p3")))];
          call_latest_materialization_records_by_key None ] ctx1
      = Ok (tt, ctx2)
    ∧ get_trailing_unconsumed_events "A" ctx2
      = Ok ([materialization 5 "A" (Some "p3"); materialization 7 "A" (Some "p4")], ctx2).
Proof.
  pose (ctx1 := match get_trailing_unconsumed_events "A" backlog_context with
                 | Ok (_, c) => c
                 | Raise _ => backlog_context
                 end).
  pose (ctx2 := match run_calls
                        [ call_advance_cursor [("A", Some (materialization 5 "A" (Some "p3")))];
                          call_latest_materialization_records_by_key None ] ctx1 with
                 | Ok (_, c) => c
                 | Raise _ => ctx1
                 end).
  exists ctx1, ctx2.
  assert (H1 : get_trailing_unconsumed_events "A" backlog_context
               = Ok ([materialization 5 "A" (Some "p3"); materialization 7 "A" (Some "p4")],
                     ctx1))
    by (vm_compute; reflexivity).
  assert (H2 : run_calls
                 [ call_advance_cursor [("A", Some (materialization 5 "A" (Some "p3")))];
                   call_latest_materialization_records_by_key None ] ctx1
               = Ok (tt, ctx2))
    by (vm_compute; reflexivity).
  split; [exact H1|]. split; [exact H2|].
  exact (get_trailing_unconsumed_events_stable _ _ _ _ _ _ H1 H2).
Defined.

(** ** Queries and advances *)

Lemma advance_blind_ret {A} (a : A) : advance_blind (mret a).
Proof. by intros ctx adv updated. Qed.

Lemma advance_blind_raise {A} e : advance_blind (@tick_raise A e).
Proof. by intros ctx adv updated. Qed.

Lemma advance_blind_bind {A B} (m : Tick A) (f : A -> Tick B) :
  advance_blind m -> (forall a, advance_blind (f a)) -> advance_blind (m ≫= f).
Proof.
  intros Hm Hf ctx adv updated. rewrite !tick_bind_run, Hm.
  destruct (m ctx) as [[a ctx1]|e]; [apply Hf|done].
Qed.

Lemma advance_blind_mapM {A B} (f : A -> Tick B) l :
  (forall a, advance_blind (f a)) -> advance_blind (tick_mapM f l).
Proof.
  intros Hf. induction l as [|a l IH]; cbn [tick_mapM].
  - apply (advance_blind_ret []).
  - apply advance_blind_bind; [apply Hf|]. intros b.
    apply advance_blind_bind; [apply IH|]. intros bs. apply advance_blind_ret.
Qed.

(** A method that starts by reading the context, of which it uses nothing
    that an advance changes. *)
Lemma advance_blind_get {A} (f : MultiAssetSensorEvaluationContext -> Tick A) :
  (forall ctx adv updated, f (set_advances adv updated ctx) = f ctx) ->
  (forall ctx, advance_blind (f ctx)) ->
  advance_blind (tick_get ≫= f).
Proof.
  intros Hsame Hf ctx adv updated. rewrite !tick_bind_run. cbn [tick_get].
  rewrite Hsame. apply Hf.
Qed.

Lemma advance_blind_foldM {A B} (f : B -> A -> Tick B) l :
  (forall b a, advance_blind (f b a)) -> forall acc, advance_blind (tick_foldM f l acc).
Proof.
  intros Hf. induction l as [|a l IH]; intros acc; cbn [tick_foldM].
  - apply advance_blind_ret.
  - apply advance_blind_bind; [apply Hf|]. intros b. apply IH.
Qed.

Lemma advance_blind_read_instance : advance_blind read_instance.
Proof.
  intros ctx adv updated. unfold read_instance.
  cbn [_instance set_advances]. by destruct (_instance ctx).
Qed.

Lemma advance_blind_modify f :
  (forall ctx adv updated, f (set_advances adv updated ctx) = set_advances adv updated (f ctx)) ->
  advance_blind (tick_modify f).
Proof. intros Hf ctx adv updated. unfold tick_modify. by rewrite Hf. Qed.

Ltac advance_blind_step :=
  first
    [ apply advance_blind_ret
    | apply advance_blind_raise
    | apply advance_blind_read_instance
    | apply advance_blind_bind; [|intros ?]
    | apply advance_blind_foldM; intros ? ?
    | case_match ].

Lemma advance_blind_fill_cache keys : advance_blind (fill_cache keys).
Proof.
  induction keys as [|k keys IH]; cbn [fill_cache]; [apply advance_blind_ret|].
  apply advance_blind_bind; [apply advance_blind_read_instance|]. intros store.
  apply advance_blind_bind; [|intros _; apply IH].
  by apply advance_blind_modify.
Qed.

Lemma advance_blind_cache_initial : advance_blind _cache_initial_unconsumed_events.
Proof.
  apply advance_blind_get; [done|]. intros ctx. cbv beta zeta.
  destruct (fetched_initial_unconsumed_events ctx); [apply advance_blind_ret|].
  apply advance_blind_bind; [apply advance_blind_fill_cache|]. intros _.
  by apply advance_blind_modify.
Qed.

Lemma advance_blind_unconsumed_events_with_ids ids :
  advance_blind (_get_unconsumed_events_with_ids ids).
Proof.
  unfold _get_unconsumed_events_with_ids.
  apply advance_blind_bind; [apply advance_blind_cache_initial|]. intros _.
  apply advance_blind_get; [done|]. intros ctx. apply advance_blind_ret.
Qed.

Lemma advance_blind_get_trailing k : advance_blind (get_trailing_unconsumed_events k).
Proof.
  apply advance_blind_get; [done|]. intros ctx. cbv beta zeta.
  apply advance_blind_unconsumed_events_with_ids.
Qed.

Lemma advance_blind_latest_by_key ks :
  advance_blind (latest_materialization_records_by_key ks).
Proof.
  apply advance_blind_get; [done|]. intros ctx. cbv beta zeta. repeat advance_blind_step.
Qed.

Lemma advance_blind_records_for_key k limit :
  advance_blind (materialization_records_for_key k limit).
Proof.
  apply advance_blind_get; [done|]. intros ctx. cbv beta zeta.
  destruct (bool_decide _); repeat advance_blind_step.
Qed.

Lemma advance_blind_partitions_after_cursor k :
  advance_blind (_get_partitions_after_cursor k).
Proof.
  apply advance_blind_get; [done|]. intros ctx. cbv beta zeta.
  repeat case_match; first [apply advance_blind_ret|apply advance_blind_raise].
Qed.

Lemma advance_blind_latest_by_partition k after :
  advance_blind (latest_materialization_records_by_partition k after).
Proof.
  apply advance_blind_get; [done|]. intros ctx. cbv beta zeta.
  destruct (negb _); [apply advance_blind_raise|].
  destruct (partitions_def_by_asset_key ctx k); [|apply advance_blind_raise].
  apply advance_blind_bind.
  { destruct after; [apply advance_blind_partitions_after_cursor|apply advance_blind_ret]. }
  intros ps. apply advance_blind_bind; [apply advance_blind_unconsumed_events_with_ids|].
  intros es. repeat advance_blind_step.
Qed.

Lemma advance_blind_latest_by_partition_and_asset :
  advance_blind latest_materialization_records_by_partition_and_asset.
Proof.
  apply advance_blind_get; [done|]. intros ctx. cbv beta zeta.
  destruct (map _ _); [apply advance_blind_raise|].
  match goal with |- advance_blind (if ?b then _ else _) => destruct b end;
    [|apply advance_blind_raise].
  apply advance_blind_bind; [|intros ?; apply advance_blind_ret].
  apply advance_blind_mapM. intros k.
  apply advance_blind_bind; [apply advance_blind_latest_by_partition|].
  intros ?. apply advance_blind_ret.
Qed.

Lemma advance_blind_cursor_partition k : advance_blind (get_cursor_partition k).
Proof.
  apply advance_blind_get; [done|]. intros ctx. cbv beta zeta.
  repeat case_match; first [apply advance_blind_ret|apply advance_blind_raise].
Qed.

Lemma advance_blind_all_partitions k ps : advance_blind (all_partitions_materialized k ps).
Proof.
  apply advance_blind_get; [done|]. intros ctx. cbv beta zeta.
  destruct ps as [[|p ps]|]; repeat advance_blind_step.
Qed.

Lemma latest_materialization_records_by_key_same ks :
  preserves eq (latest_materialization_records_by_key ks).
Proof.
  unfold latest_materialization_records_by_key.
  apply (preserves_bind eq); [apply (preserves_get eq)|]. intros ctx.
  apply (preserves_foldM eq). intros recs a.
  apply (preserves_bind eq); [apply (preserves_read_instance eq)|]. intros store.
  apply (preserves_ret eq).
Qed.

Lemma advance_all_cursors_inv ctx ctx' :
  advance_all_cursors ctx = Ok (tt, ctx') ->
  exists records,
    latest_materialization_records_by_key None ctx = Ok (records, ctx)
    ∧ ctx' = set_advances
               (set_advance_all_cursors_called
                  (add_advanced_records (cursor_advance_state_mutation ctx) records))
               true ctx.
Proof.
  unfold advance_all_cursors. rewrite tick_bind_run.
  destruct (latest_materialization_records_by_key None ctx) as [[records ctx1]|] eqn:Hq;
    [|discriminate].
  apply latest_materialization_records_by_key_same in Hq as Hsame. subst ctx1.
  intros [= <-]. by exists records.
Qed.

Lemma advance_blind_returned {A} (m : Tick A) ctx adv updated :
  advance_blind m -> returned (m (set_advances adv updated ctx)) = returned (m ctx).
Proof. intros Hm. rewrite Hm. by destruct (m ctx) as [[? ?]|]. Qed.

Lemma advance_call_set_advances c ctx ctx' :
  is_advance_call c = true -> run_call c ctx = Ok (tt, ctx') ->
  exists adv, ctx' = set_advances adv true ctx.
Proof.
  intros Hc Hrun. destruct c; try discriminate; cbn [run_call] in Hrun.
  - injection Hrun as <-. by eexists.
  - apply advance_all_cursors_inv in Hrun as (records & _ & ->). by eexists.
Qed.

(** X5: an advance of the cursor changes no answer of the same tick: after
    [advance_cursor] or [advance_all_cursors] every query method of the
    context returns, or raises, what it would have without the call. *)
Theorem advance_keeps_query_results c ctx ctx' :
  is_advance_call c = true -> run_call c ctx = Ok (tt, ctx') ->
  (forall k, returned (get_trailing_unconsumed_events k ctx')
             = returned (get_trailing_unconsumed_events k ctx))
  ∧ (forall ks, returned (latest_materialization_records_by_key ks ctx')
                = returned (latest_materialization_records_by_key ks ctx))
  ∧ (forall k limit, returned (materialization_records_for_key k limit ctx')
                     = returned (materialization_records_for_key k limit ctx))
  ∧ (forall k after, returned (latest_materialization_records_by_partition k after ctx')
                     = returned (latest_materialization_records_by_partition k after ctx))
  ∧ returned (latest_materialization_records_by_partition_and_asset ctx')
    = returned (latest_materialization_records_by_partition_and_asset ctx)
  ∧ (forall k, returned (get_cursor_partition k ctx') = returned (get_cursor_partition k ctx))
  ∧ (forall k ps, returned (all_partitions_materialized k ps ctx')
                  = returned (all_partitions_materialized k ps ctx)).
Proof.
  intros Hc Hrun. destruct (advance_call_set_advances c ctx ctx' Hc Hrun) as [adv ->].
  split; [intros; apply advance_blind_returned, advance_blind_get_trailing|].
  split; [intros; apply advance_blind_returned, advance_blind_latest_by_key|].
  split; [intros; apply advance_blind_returned, advance_blind_records_for_key|].
  split; [intros; apply advance_blind_returned, advance_blind_latest_by_partition|].
  split; [apply advance_blind_returned, advance_blind_latest_by_partition_and_asset|].
  split; [intros; apply advance_blind_returned, advance_blind_cursor_partition|].
  intros; apply advance_blind_returned, advance_blind_all_partitions.
Qed.

Lemma advance_keeps_query_results_witness :
  exists ctx',
    is_advance_call call_advance_all_cursors = true
    ∧ run_call call_advance_all_cursors two_assets_context = Ok (tt, ctx')
    ∧ returned (latest_materialization_records_by_key None ctx')
      = Ok [("A", None); ("B", Some (materialization 20 "B" (Some "q1")))].
Proof.
  pose (ctx' := match run_call call_advance_all_cursors two_assets_context with
                 | Ok (_, c) => c
                 | Raise _ => two_assets_context
                 end).
  exists ctx'.
  assert (H1 : is_advance_call call_advance_all_cursors = true) by reflexivity.
  assert (H2 : run_call call_advance_all_cursors two_assets_context = Ok (tt, ctx'))
    by (vm_compute; reflexivity).
  split; [exact H1|]. split; [exact H2|].
  destruct (advance_keeps_query_results _ _ _ H1 H2) as (_ & Hlatest & _).
  rewrite Hlatest. vm_compute. reflexivity.
Defined.

Lemma advances_wf_all_cursors_called adv :
  advances_wf adv -> advances_wf (set_advance_all_cursors_called adv).
Proof. intros Hwf k ids id. apply Hwf. Qed.

Lemma run_call_advances_wf c ctx ctx' :
  advances_wf (cursor_advance_state_mutation ctx) ->
  run_call c ctx = Ok (tt, ctx') ->
  advances_wf (cursor_advance_state_mutation ctx').
Proof.
  intros Hwf Hrun. destruct (is_advance_call c) eqn:Hc.
  - destruct c; try discriminate; cbn [run_call] in Hrun.
    + injection Hrun as <-. by apply add_advanced_records_wf.
    + apply advance_all_cursors_inv in Hrun as (records & _ & ->).
      by apply advances_wf_all_cursors_called, add_advanced_records_wf.
  - destruct (preserves_query_call c Hc _ _ _ Hrun) as (_ & _ & ->). exact Hwf.
Qed.

Lemma run_calls_advances_wf cs :
  forall ctx ctx',
    advances_wf (cursor_advance_state_mutation ctx) ->
    run_calls cs ctx = Ok (tt, ctx') ->
    advances_wf (cursor_advance_state_mutation ctx').
Proof.
  induction cs as [|c cs IH]; intros ctx ctx' Hwf; cbn [run_calls].
  - by intros [= <-].
  - rewrite tick_bind_run.
    destruct (run_call c ctx) as [[[] ctx1]|] eqn:Hc; [|discriminate].
    intros Hrest. eapply IH; [|exact Hrest]. by eapply run_call_advances_wf.
Qed.

(** X6: the new cursor fails with [DagsterInvariantViolationError] only.
    When the advance requests of a tick were all made through the methods of
    the context, starting from requests that have the partition of every
    advanced id on record, the only exception [get_cursor_with_advances] can
    raise is [DagsterInvariantViolationError], that of the cap on the
    backlog or that of a context built without an instance: [max] is never
    taken of an empty set and the partition of the greatest advanced id is
    never missing. *)
Theorem get_cursor_with_advances_raises_only_the_cap `{codec : JsonCodec} cs ctx ctx1 e :
  advances_wf (cursor_advance_state_mutation ctx) ->
  run_calls cs ctx = Ok (tt, ctx1) ->
  get_cursor_with_advances (cursor_advance_state_mutation ctx1) ctx1 = Raise e ->
  e = DagsterInvariantViolationError.
Proof.
  intros Hwf Hcalls.
  pose proof (run_calls_advances_wf cs ctx ctx1 Hwf Hcalls) as Hwf1.
  unfold get_cursor_with_advances.
  destruct (Nat.eqb _ 0); [discriminate|].
  rewrite tick_bind_run. unfold asset_cursors_with_advances.
  rewrite tick_bind_run. cbn [tick_get]. rewrite tick_bind_run.
  destruct (tick_mapM _ _ ctx1) as [[items ctx2]|e1] eqn:Hmap; [discriminate|].
  intros [= <-]. by eapply tick_mapM_asset_cursors_error.
Qed.

Lemma get_cursor_with_advances_raises_only_the_cap_witness :
  exists ctx1,
    advances_wf (cursor_advance_state_mutation full_backlog_context)
    ∧ run_calls [call_advance_cursor [("A", Some (materialization 32 "A" (Some "z")))]]
        full_backlog_context
      = Ok (tt, ctx1)
    ∧ get_cursor_with_advances (cursor_advance_state_mutation ctx1) ctx1
      = Raise DagsterInvariantViolationError.
Proof.
  pose (ctx1 := match run_calls
                        [call_advance_cursor [("A", Some (materialization 32 "A" (Some "z")))]]
                        full_backlog_context with
                 | Ok (_, c) => c
                 | Raise _ => full_backlog_context
                 end).
  exists ctx1.
  assert (H1 : advances_wf (cursor_advance_state_mutation full_backlog_context))
    by apply advances_wf_new.
  assert (H2 : run_calls
                 [call_advance_cursor [("A", Some (materialization 32 "A" (Some "z")))]]
                 full_backlog_context
               = Ok (tt, ctx1))
    by (vm_compute; reflexivity).
  split; [exact H1|]. split; [exact H2|].
  destruct (get_cursor_with_advances (cursor_advance_state_mutation ctx1) ctx1)
    as [[s ctx2]|e] eqn:Hrun.
  - vm_compute in Hrun. discriminate.
  - f_equal.
    exact (get_cursor_with_advances_raises_only_the_cap (codec := python_json)
             _ _ _ _ H1 H2 Hrun).
Defined.

(** ** Finalizing twice *)

(** X7: [update_cursor_after_evaluation] can be called again: once it has
    returned, a second call returns too and changes nothing, because the
    first one either found no advance request or left a fresh, empty set of
    them behind. *)
Theorem update_cursor_after_evaluation_idempotent `{codec : JsonCodec} ctx ctx1 :
  update_cursor_after_evaluation ctx = Ok (tt, ctx1) ->
  update_cursor_after_evaluation ctx1 = Ok (tt, ctx1).
Proof.
  intros Hrun. pose proof Hrun as Hfirst. unfold update_cursor_after_evaluation in Hrun.
  rewrite tick_bind_run in Hrun. cbn [tick_get] in Hrun. rewrite tick_bind_run in Hrun.
  destruct (get_cursor_with_advances _ ctx) as [[[s|] ctx']|e] eqn:Hnew; [| |discriminate].
  - rewrite tick_bind_run in Hrun. unfold tick_lift in Hrun.
    destruct (new_context_cursor (Some s)) as [unpacked|]; [|discriminate].
    injection Hrun as <-. by apply update_cursor_without_advances.
  - unfold get_cursor_with_advances in Hnew.
    destruct (Nat.eqb _ 0) eqn:Hsize.
    + injection Hnew as <-. injection Hrun as <-. exact Hfirst.
    + rewrite tick_bind_run in Hnew. destruct (asset_cursors_with_advances _ ctx) as [[? ?]|];
        discriminate.
Qed.

Lemma update_cursor_after_evaluation_idempotent_witness :
  exists ctx ctx1,
    advance_cursor [("A", Some (materialization 15 "A" (Some "p1")))] scenario_context
    = Ok (tt, ctx)
    ∧ update_cursor_after_evaluation ctx = Ok (tt, ctx1)
    ∧ cursor ctx1 ≠ cursor ctx
    ∧ update_cursor_after_evaluation ctx1 = Ok (tt, ctx1).
Proof.
  pose (ctx := match advance_cursor [("A", Some (materialization 15 "A" (Some "p1")))]
                       scenario_context with
               | Ok (_, c) => c
               | Raise _ => scenario_context
               end).
  pose (ctx1 := match update_cursor_after_evaluation ctx with
                | Ok (_, c) => c
                | Raise _ => ctx
                end).
  exists ctx, ctx1.
  assert (H1 : update_cursor_after_evaluation ctx = Ok (tt, ctx1))
    by (vm_compute; reflexivity).
  split; [reflexivity|]. split; [exact H1|]. split; [vm_compute; discriminate|].
  exact (update_cursor_after_evaluation_idempotent _ _ H1).
Defined.

(** ** [advance_all_cursors] *)

Lemma latest_materialization_records_by_key_total ctx :
  has_instance ctx ->
  exists result, latest_materialization_records_by_key None ctx = Ok (result, ctx).
Proof. intros Hinst. eexists. by apply latest_materialization_records_by_key_run. Qed.

Lemma advanced_ids_add_record adv item k :
  advanced_ids adv k ⊆ advanced_ids (add_advanced_record adv item) k
  ∧ forall r, item = (k, Some r) ->
              storage_id r ∈ advanced_ids (add_advanced_record adv item) k.
Proof.
  unfold advanced_ids, add_advanced_record.
  destruct item as [k0 [r0|]]; cbn [fst snd advanced_record_ids_by_key].
  - destruct (decide (k0 = k)) as [->|Hne].
    + rewrite lookup_insert_eq. cbn [default from_option id].
      split; [set_solver|]. intros r [= ->]. set_solver.
    + rewrite lookup_insert_ne by done. split; [done|]. by intros r [= ? _].
  - split; [done|]. by intros r [= _].
Qed.

Lemma advanced_ids_add_records m :
  forall adv k,
    advanced_ids adv k ⊆ advanced_ids (add_advanced_records adv m) k
    ∧ forall r, (k, Some r) ∈ m ->
                storage_id r ∈ advanced_ids (add_advanced_records adv m) k.
Proof.
  induction m as [|item m IH]; intros adv k; cbn [add_advanced_records fold_left].
  - split; [done|]. intros r Hin. by apply elem_of_nil in Hin.
  - destruct (IH (add_advanced_record adv item) k) as [Hsub Hin].
    destruct (advanced_ids_add_record adv item k) as [Hsub1 Hin1].
    split; [by etransitivity|]. intros r Hr.
    apply elem_of_cons in Hr as [<-|Hr]; [|by apply Hin].
    apply Hsub. by apply Hin1.
Qed.

Lemma dict_get_Some_elem {K V} `{EqDecision K} (k : K) (v : V) (d : list (K * V)) :
  dict_get k d = Some v -> (k, v) ∈ d.
Proof.
  induction d as [|[k' v'] d IH]; cbn [dict_get]; [discriminate|].
  destruct (decide (k = k')) as [->|Hne].
  - intros [= ->]. by left.
  - intros Hget. right. by apply IH.
Qed.

Lemma dict_get_of_items_map {K V} `{EqDecision K} (g : K -> V) (keys : list K) :
  forall (d : list (K * V)) k,
    dict_get k (fold_left (fun acc kv => dict_set (fst kv) (snd kv) acc)
                  (map (fun a => (a, g a)) keys) d)
    = if decide (k ∈ keys) then Some (g k) else dict_get k d.
Proof.
  induction keys as [|a keys IH]; intros d k; cbn [fold_left map].
  - rewrite decide_False; [done|]. apply not_elem_of_nil.
  - rewrite IH. cbn [fst snd]. destruct (decide (k ∈ keys)) as [Hin|Hnin].
    + rewrite decide_True; [done|]. by right.
    + destruct (decide (k = a)) as [->|Hne].
      * rewrite decide_True by by left. apply dict_get_set_eq.
      * rewrite decide_False by (rewrite elem_of_cons; tauto).
        by apply dict_get_set_ne.
Qed.

Lemma tick_mapM_pure {A B} (f : A -> Tick B) (g : A -> B) l ctx :
  (forall a, a ∈ l -> f a ctx = Ok (g a, ctx)) ->
  tick_mapM f l ctx = Ok (map g l, ctx).
Proof.
  induction l as [|a l IH]; intros Hf; [done|].
  rewrite tick_mapM_cons, Hf by by left. rewrite IH; [done|].
  intros b Hb. apply Hf. by right.
Qed.

(** One asset of the finalization after [advance_all_cursors]: the context
    is not touched. *)
Lemma get_asset_cursor_all_called adv k ctx :
  advances_wf adv -> advance_all_cursors_called adv = true ->
  exists c,
    get_asset_cursor_with_advances adv k ctx = Ok (c, ctx)
    ∧ (advanced_ids adv k = ∅ -> c = _get_cursor ctx k)
    ∧ (advanced_ids adv k ≠ ∅ ->
       trailing_unconsumed_partitioned_event_ids c = []
       ∧ latest_consumed_event_id c = snd (consumed_pointer adv k (_get_cursor ctx k))).
Proof.
  intros Hwf Hall. destruct (decide (advanced_ids adv k = ∅)) as [Hnone|Hsome].
  - exists (_get_cursor ctx k). split; [by apply get_asset_cursor_without_advances|].
    split; [done|]. by intros [].
  - unfold get_asset_cursor_with_advances. fold (advanced_ids adv k).
    rewrite tick_bind_run. cbn [tick_get]. rewrite (size_eqb_0_false _ Hsome), Hall.
    unfold consumed_pointer, max_advanced_id.
    destruct (set_max_elem _ Hsome) as (g & Hmax & Hg). rewrite Hmax.
    cbn [default from_option id].
    assert (is_Some (partition_key_by_record_id adv !! g)) as [p ->].
    { unfold advanced_ids in Hg, Hsome.
      destruct (advanced_record_ids_by_key adv !! k) as [ids|] eqn:Hids; [|done].
      by apply (Hwf k ids g). }
    eexists. split; [reflexivity|]. split; [done|]. intros _. cbn.
    split; [done|]. by destruct (_ <? _).
Qed.

Lemma every_record_consumed_with_instance ctx :
  has_instance ctx ->
  store_wf (instance ctx) -> advances_wf (cursor_advance_state_mutation ctx) ->
  exists ctx1 m,
    advance_all_cursors ctx = Ok (tt, ctx1)
    ∧ asset_cursors_with_advances (cursor_advance_state_mutation ctx1) ctx1 = Ok (m, ctx1)
    ∧ forall k,
        k ∈ asset_keys ctx ->
        exists c,
          dict_get (str_asset_key k) m = Some c
          ∧ (forall r, r ∈ instance ctx ->
                       ~ unconsumed_after (latest_consumed_event_id c) k r)
          ∧ (advanced_ids (cursor_advance_state_mutation ctx1) k ≠ ∅ ->
             trailing_unconsumed_partitioned_event_ids c = []).
Proof.
  intros Hinst [Hsorted Hpos] Hwf.
  pose proof (latest_materialization_records_by_key_run ctx None Hinst) as Hresult.
  set (result := fold_left _ _ _) in Hresult.
  set (adv1 := set_advance_all_cursors_called
                 (add_advanced_records (cursor_advance_state_mutation ctx) result)).
  set (ctx1 := set_advances adv1 true ctx).
  assert (Hrun : advance_all_cursors ctx = Ok (tt, ctx1)).
  { unfold advance_all_cursors. by rewrite tick_bind_run, Hresult. }
  assert (Hwf1 : advances_wf adv1)
    by by apply advances_wf_all_cursors_called, add_advanced_records_wf.
  set (g := fun k => match get_asset_cursor_with_advances adv1 k ctx1 with
                     | Ok (c, _) => c
                     | Raise _ => _get_cursor ctx1 k
                     end).
  assert (Hg : forall k, get_asset_cursor_with_advances adv1 k ctx1 = Ok (g k, ctx1)).
  { intros k. unfold g.
    by destruct (get_asset_cursor_all_called adv1 k ctx1 Hwf1 eq_refl) as (c & -> & _). }
  exists ctx1, (dict_of_items (map (fun k => (str_asset_key k, g k)) (asset_keys ctx))).
  split; [exact Hrun|]. split.
  { unfold asset_cursors_with_advances. rewrite tick_bind_run. cbn [tick_get].
    rewrite tick_bind_run.
    rewrite (tick_mapM_pure _ (fun k => (str_asset_key k, g k))); [done|].
    intros k _. by rewrite tick_bind_run, Hg. }
  intros k Hk. exists (g k). split.
  { unfold dict_of_items, str_asset_key.
    rewrite (dict_get_of_items_map g). by rewrite decide_True. }
  destruct (get_asset_cursor_all_called adv1 k ctx1 Hwf1 eq_refl) as (c & Hc & Hnone & Hsome).
  rewrite Hg in Hc. injection Hc as <-.
  change (_get_cursor ctx1 k) with (_get_cursor ctx k) in Hnone, Hsome.
  split; [|intros Hne; by apply Hsome].
  remember (latest_consumed_event_id (_get_cursor ctx k)) as prior eqn:Hprior.
  assert (Hlatest := latest_asset_record (instance ctx) k prior Hsorted).
  assert (Hget : dict_get k result
                 = Some (head (get_event_records (instance ctx)
                                 (asset_filter k None prior None) false (Some 1%nat)))).
  { unfold result.
    rewrite (dict_get_fold_set
               (fun a => head (get_event_records (instance ctx)
                  (asset_filter a None (latest_consumed_event_id (_get_cursor ctx a)) None)
                  false (Some 1%nat)))).
    rewrite decide_True by done. by rewrite Hprior. }
  apply dict_get_Some_elem in Hget.
  destruct (advanced_ids_add_records result (cursor_advance_state_mutation ctx) k)
    as [_ Hadded].
  intros r Hr [Hasset Hafter].
  assert (Hcase : unconsumed_after prior k r
                  ∨ exists p, prior = Some p ∧ storage_id r <= p).
  { unfold unconsumed_after. destruct prior as [p|]; [|by left].
    destruct (decide (p < storage_id r)); [by left|].
    right. exists p. split; [done|lia]. }
  unfold consumed_pointer in Hsome. rewrite <- Hprior in Hsome.
  destruct (head _) as [r0|] eqn:Hhead.
  - destruct Hlatest as (Hr0 & [_ Hnew0] & Hmax0).
    assert (Hin : storage_id r0 ∈ advanced_ids adv1 k) by by apply Hadded.
    assert (Hne : advanced_ids adv1 k ≠ ∅).
    { intros Hempty. rewrite Hempty in Hin. by apply elem_of_empty in Hin. }
    pose proof (Hsome Hne) as [_ Hid]. rewrite Hid in Hafter.
    destruct (max_advanced_id_upper adv1 k Hne) as [_ Hupper].
    specialize (Hupper _ Hin).
    assert (Hpos0 : 0 < storage_id r0).
    { rewrite Forall_forall in Hpos. by apply Hpos. }
    assert (Hmoved : (or_zero prior <? max_advanced_id adv1 k) = true).
    { apply Z.ltb_lt. destruct prior; cbn in *; lia. }
    rewrite Hmoved in Hafter. cbn in Hafter. apply Z.ltb_lt in Hmoved.
    destruct Hcase as [Hnew|(p & -> & Hle)].
    + specialize (Hmax0 r Hr Hnew). lia.
    + cbn in Hmoved. lia.
  - assert (Hold : ~ unconsumed_after prior k r) by by apply Hlatest.
    destruct Hcase as [Hnew|(p & -> & Hle)]; [done|].
    destruct (decide (advanced_ids adv1 k = ∅)) as [Hempty|Hne].
    + rewrite (Hnone Hempty), <- Hprior in Hafter. cbn in Hafter. lia.
    + pose proof (Hsome Hne) as [_ Hid]. rewrite Hid in Hafter.
      destruct (or_zero (Some p) <? max_advanced_id adv1 k) eqn:Hmoved; cbn in Hafter.
      * apply Z.ltb_lt in Hmoved. cbn in Hmoved. lia.
      * lia.
Qed.

(** X8: [advance_all_cursors] consumes every record. Take a store with
    positive and growing ids and advance requests that have the partition of
    every advanced id on record. On a context with an instance the call
    returns; and whenever it returns (on a context built without an instance
    it does so only when no asset is monitored), the cursor map computed
    from the requests it leaves never fails and holds for every monitored
    asset a component after whose consumed id no record of the asset lies;
    the trailing map of every asset with a request is empty. *)
Theorem advance_all_cursors_consumes_every_record ctx :
  store_wf (instance ctx) -> advances_wf (cursor_advance_state_mutation ctx) ->
  let consumed ctx1 m :=
    asset_cursors_with_advances (cursor_advance_state_mutation ctx1) ctx1 = Ok (m, ctx1)
    ∧ forall k,
        k ∈ asset_keys ctx ->
        exists c,
          dict_get (str_asset_key k) m = Some c
          ∧ (forall r, r ∈ instance ctx ->
                       ~ unconsumed_after (latest_consumed_event_id c) k r)
          ∧ (advanced_ids (cursor_advance_state_mutation ctx1) k ≠ ∅ ->
             trailing_unconsumed_partitioned_event_ids c = []) in
  (has_instance ctx ->
   exists ctx1 m, advance_all_cursors ctx = Ok (tt, ctx1) ∧ consumed ctx1 m)
  ∧ (forall ctx1, advance_all_cursors ctx = Ok (tt, ctx1) -> exists m, consumed ctx1 m).
Proof.
  intros Hstore Hwf consumed. split.
  - intros Hinst.
    destruct (every_record_consumed_with_instance ctx Hinst Hstore Hwf) as (ctx1 & m & Hrun & Hm).
    by exists ctx1, m.
  - intros ctx1 Hrun. destruct (has_instance_dec ctx) as [Hinst|Hmissing].
    + destruct (every_record_consumed_with_instance ctx Hinst Hstore Hwf)
        as (ctx1' & m & Hrun' & Hm).
      rewrite Hrun' in Hrun. injection Hrun as <-. by exists m.
    + apply advance_all_cursors_inv in Hrun as (records & Hquery & ->).
      rewrite latest_materialization_records_by_key_without_instance in Hquery by done.
      cbn [default from_option id] in Hquery.
      destruct (decide (asset_keys ctx = [])) as [Hkeys|]; [|discriminate].
      exists []. split.
      * unfold asset_cursors_with_advances. rewrite tick_bind_run.
        cbn [tick_get asset_keys set_advances]. by rewrite Hkeys.
      * intros k Hk. rewrite Hkeys in Hk. by apply elem_of_nil in Hk.
Qed.

Lemma store_wf_two_assets : store_wf two_assets_store.
Proof.
  split.
  - repeat (constructor; [|repeat constructor; reflexivity]). constructor.
  - repeat constructor.
Qed.

Lemma advance_all_cursors_consumes_every_record_witness :
  has_instance two_assets_context
  ∧ store_wf (instance two_assets_context)
  ∧ advances_wf (cursor_advance_state_mutation two_assets_context)
  ∧ exists ctx1 m,
      advance_all_cursors two_assets_context = Ok (tt, ctx1)
      ∧ asset_cursors_with_advances (cursor_advance_state_mutation ctx1) ctx1 = Ok (m, ctx1)
      ∧ dict_get "B" m = Some (component (Some "q1") (Some 20) []).
Proof.
  assert (H1 : store_wf (instance two_assets_context)) by exact store_wf_two_assets.
  assert (H2 : advances_wf (cursor_advance_state_mutation two_assets_context))
    by exact advances_wf_new.
  assert (H0 : has_instance two_assets_context) by by eexists.
  split; [exact H0|]. split; [exact H1|]. split; [exact H2|].
  destruct (proj1 (advance_all_cursors_consumes_every_record two_assets_context H1 H2) H0)
    as (ctx1 & m & Hrun & Hmap & _).
  exists ctx1, m. split; [exact Hrun|]. split; [exact Hmap|].
  vm_compute in Hrun. injection Hrun as <-.
  vm_compute in Hmap. injection Hmap as <-. vm_compute. reflexivity.
Defined.

(** ** The invariant of a component *)

Section DictInvariants.
Context {K V : Type} `{EqDecision K}.

Lemma dict_pop_subseteq (k : K) (d : list (K * V)) : dict_pop k d ⊆ d.
Proof.
  induction d as [|[k' v'] d IH]; cbn [dict_pop]; [done|]. intros x Hx.
  destruct (decide (k = k')); [by right|].
  apply elem_of_cons in Hx as [->|Hx]; [by left|]. right. by apply IH.
Qed.

Lemma dict_pop_Forall (P : K * V -> Prop) k (d : list (K * V)) :
  Forall P d -> Forall P (dict_pop k d).
Proof.
  rewrite !Forall_forall. intros Hall x Hx. by apply Hall, (dict_pop_subseteq k).
Qed.

Lemma dict_pop_wf k (d : list (K * V)) : dict_wf d -> dict_wf (dict_pop k d).
Proof.
  unfold dict_wf. induction d as [|[k' v'] d IH]; cbn [dict_pop map fst]; [done|].
  rewrite NoDup_cons. intros [Hnin Hnd].
  destruct (decide (k = k')); [done|]. cbn [map fst]. apply NoDup_cons.
  split; [|by apply IH]. intros Hin. apply Hnin.
  apply (list_elem_of_fmap fst) in Hin as (x & -> & Hx).
  apply (list_elem_of_fmap_2 fst). by apply (dict_pop_subseteq k).
Qed.

Lemma dict_set_keys k (v : V) (d : list (K * V)) x :
  x ∈ map fst (dict_set k v d) <-> x = k ∨ x ∈ map fst d.
Proof.
  induction d as [|[k' v'] d IH]; cbn [dict_set map fst].
  - rewrite elem_of_cons, elem_of_nil. tauto.
  - destruct (decide (k = k')) as [->|Hne]; cbn [map fst].
    + rewrite !elem_of_cons. tauto.
    + rewrite !elem_of_cons, IH. tauto.
Qed.

Lemma dict_set_wf k (v : V) (d : list (K * V)) : dict_wf d -> dict_wf (dict_set k v d).
Proof.
  unfold dict_wf. induction d as [|[k' v'] d IH]; cbn [dict_set map fst].
  - intros _. apply NoDup_singleton.
  - rewrite NoDup_cons. intros [Hnin Hnd].
    destruct (decide (k = k')) as [->|Hne]; cbn [map fst].
    + by apply NoDup_cons.
    + apply NoDup_cons. split; [|by apply IH].
      rewrite dict_set_keys. intros [->|Hin]; done.
Qed.

Lemma dict_of_items_dict_wf (items : list (K * V)) : dict_wf (dict_of_items items).
Proof.
  unfold dict_of_items.
  assert (Hgen : forall d, dict_wf d ->
            dict_wf (fold_left (fun d kv => dict_set (fst kv) (snd kv) d) items d)).
  { induction items as [|kv items IH]; intros d Hd; cbn [fold_left]; [done|].
    by apply IH, dict_set_wf. }
  apply Hgen. apply NoDup_nil_2.
Qed.
End DictInvariants.

Lemma overlay_event_invariant (P : string * Z -> Prop) advanced d e :
  (forall p, _get_partition_key_from_event_log_record e = Some p -> P (p, storage_id e)) ->
  dict_wf d ∧ Forall P d ->
  dict_wf (overlay_event advanced d e) ∧ Forall P (overlay_event advanced d e).
Proof.
  intros He [Hwf Hall]. unfold overlay_event.
  unfold _get_partition_key_from_event_log_record in He.
  destruct (dagster_event e) as [ev|]; [|done].
  destruct (event_partition ev) as [p|]; [|done].
  destruct (decide _).
  - split; [by apply dict_pop_wf|by apply dict_pop_Forall].
  - split; [by apply dict_set_wf|]. apply dict_set_Forall; [by apply He|done].
Qed.

Lemma fold_overlay_invariant (P : string * Z -> Prop) advanced es :
  forall d,
    (forall e p, e ∈ es -> _get_partition_key_from_event_log_record e = Some p ->
                 P (p, storage_id e)) ->
    dict_wf d ∧ Forall P d ->
    dict_wf (fold_left (overlay_event advanced) es d)
    ∧ Forall P (fold_left (overlay_event advanced) es d).
Proof.
  induction es as [|e es IH]; intros d Hes Hd; cbn [fold_left]; [done|].
  apply IH; [intros e' p He'; apply Hes; by right|].
  apply overlay_event_invariant; [|done]. intros p. apply Hes. by left.
Qed.

Lemma fold_overlay_total_invariant (P : string * Z -> Prop) advanced es d :
  (forall e p, e ∈ es -> _get_partition_key_from_event_log_record e = Some p ->
               P (p, storage_id e)) ->
  Forall P d -> Forall P (fold_left (overlay_event advanced) es d).
Proof.
  revert d. induction es as [|e es IH]; intros d Hes Hd; cbn [fold_left]; [done|].
  apply IH; [intros e' p He'; apply Hes; by right|].
  unfold overlay_event.
  assert (He : forall p, _get_partition_key_from_event_log_record e = Some p ->
                         P (p, storage_id e)) by (intros p; apply Hes; by left).
  unfold _get_partition_key_from_event_log_record in He.
  destruct (dagster_event e) as [ev|]; [|done].
  destruct (event_partition ev) as [p|]; [|done].
  destruct (decide _); [by apply dict_pop_Forall|].
  apply dict_set_Forall; [by apply He|done].
Qed.

Lemma next_component_wf store adv k start c :
  component_wf start -> next_component store adv k start = Ok c -> component_wf c.
Proof.
  intros [Hwf Hall]. unfold next_component.
  destruct (_ <=? _)%nat; [discriminate|]. intros [= <-].
  unfold component_wf. cbn [trailing_unconsumed_partitioned_event_ids latest_consumed_event_id].
  destruct (advance_all_cursors_called adv); [split; [apply NoDup_nil_2|constructor]|].
  set (bound := or_zero (snd (consumed_pointer adv k start))).
  assert (Hbound : or_zero (latest_consumed_event_id start) <= bound
                   ∧ (or_zero (latest_consumed_event_id start) < max_advanced_id adv k ->
                      bound = max_advanced_id adv k)).
  { unfold bound, consumed_pointer.
    destruct (_ <? _) eqn:Hmoved; cbn [snd or_zero default from_option id].
    - apply Z.ltb_lt in Hmoved. split; [lia|done].
    - apply Z.ltb_ge in Hmoved. split; [done|lia]. }
  destruct Hbound as [Hle Hmoved].
  assert (Hfold : dict_wf (fold_left (overlay_event (advanced_ids adv k))
                    (trailing_events_at_tick_start store
                       (trailing_unconsumed_partitioned_event_ids start)
                     ++ events_strictly_between store k
                          (or_zero (latest_consumed_event_id start))
                          (max_advanced_id adv k))%list
                    (trailing_unconsumed_partitioned_event_ids start))
                  ∧ Forall (fun pid => snd pid < bound)
                      (fold_left (overlay_event (advanced_ids adv k))
                    (trailing_events_at_tick_start store
                       (trailing_unconsumed_partitioned_event_ids start)
                     ++ events_strictly_between store k
                          (or_zero (latest_consumed_event_id start))
                          (max_advanced_id adv k))%list
                    (trailing_unconsumed_partitioned_event_ids start))).
  { apply fold_overlay_invariant.
    - intros e p He _. cbn [snd]. apply elem_of_app in He as [He|He].
      + unfold trailing_events_at_tick_start in He.
        apply list_elem_of_omap in He as (id & Hid & He).
        apply stored_event_Some in He as [_ <-].
        rewrite merge_sort_Permutation in Hid.
        apply (list_elem_of_fmap snd) in Hid as (pid & -> & Hpid).
        rewrite Forall_forall in Hall. specialize (Hall _ Hpid). cbn in Hall. lia.
      + apply list_elem_of_filter in He as [[_ Hbetween] _].
        rewrite Hmoved by lia. lia.
    - split; [done|]. eapply Forall_impl; [exact Hall|]. intros pid Hpid. cbn in Hpid. lia. }
  unfold trailing_with_backlog, remove_partition.
  destruct (max_advanced_partition adv k); [|exact Hfold].
  destruct Hfold. split; [by apply dict_pop_wf|by apply dict_pop_Forall].
Qed.

Lemma asset_cursor_keeps_invariant ctx adv k c ctx' :
  has_instance ctx ->
  store_wf (instance ctx) -> k ∈ asset_keys ctx -> cache_ready ctx k -> advances_wf adv ->
  component_wf (_get_cursor ctx k) ->
  get_asset_cursor_with_advances adv k ctx = Ok (c, ctx') ->
  component_wf c.
Proof.
  intros Hinst Hstore Hk Hready Hadv Hwf Hrun.
  destruct (decide (advanced_ids adv k = ∅)) as [Hnone|Hsome].
  - rewrite get_asset_cursor_without_advances in Hrun by done. by injection Hrun as <- _.
  - pose proof (get_asset_cursor_with_advances_spec ctx adv k Hinst Hstore Hk Hready Hadv
                  Hsome) as Hspec.
    destruct (next_component _ adv k _) as [c'|e] eqn:Hnext.
    + destruct Hspec as (ctx'' & Hrun' & _). rewrite Hrun' in Hrun.
      injection Hrun as <- _. by eapply next_component_wf.
    + rewrite Hspec in Hrun. discriminate.
Qed.

(** X9: the finalization keeps the invariant of a component. If the
    component a monitored asset starts the tick with holds no partition twice
    and only trailing ids below its consumed id, so does the component
    [get_asset_cursor_with_advances] computes for the asset. *)
Theorem get_asset_cursor_with_advances_keeps_invariant ctx adv k c ctx' :
  store_wf (instance ctx) -> k ∈ asset_keys ctx -> cache_ready ctx k -> advances_wf adv ->
  component_wf (_get_cursor ctx k) ->
  get_asset_cursor_with_advances adv k ctx = Ok (c, ctx') ->
  component_wf c.
Proof.
  intros Hstore Hk Hready Hadv Hwf Hrun.
  destruct (has_instance_dec ctx) as [Hinst|Hnone]; [by eapply asset_cursor_keeps_invariant|].
  destruct (instance_blind_asset_cursor adv k _ _ _ Hnone Hrun) as [_ Hrun'].
  eapply (asset_cursor_keeps_invariant (with_empty_store ctx)); try done.
  - apply has_instance_with_empty_store.
  - by rewrite instance_with_empty_store.
  - by apply cache_ready_with_empty_store.
Qed.

Lemma get_asset_cursor_with_advances_keeps_invariant_witness :
  exists c ctx',
    store_wf (instance scenario_context)
    ∧ "A" ∈ asset_keys scenario_context
    ∧ cache_ready scenario_context "A"
    ∧ advances_wf scenario_advances
    ∧ component_wf (_get_cursor scenario_context "A")
    ∧ get_asset_cursor_with_advances scenario_advances "A" scenario_context = Ok (c, ctx')
    ∧ c = component (Some "p1") (Some 15) [("p2", 12)]
    ∧ component_wf c.
Proof.
  pose (r := get_asset_cursor_with_advances scenario_advances "A" scenario_context).
  pose (c := match r with Ok (c, _) => c | Raise _ => component None None [] end).
  pose (ctx' := match r with Ok (_, x) => x | Raise _ => scenario_context end).
  exists c, ctx'.
  assert (H1 : store_wf (instance scenario_context)) by exact store_wf_scenario.
  assert (H2 : "A" ∈ asset_keys scenario_context) by by_compute.
  assert (H3 : cache_ready scenario_context "A") by apply cache_ready_at_tick_start.
  assert (H4 : advances_wf scenario_advances)
    by apply add_advanced_records_wf, advances_wf_new.
  assert (H5 : component_wf (_get_cursor scenario_context "A")).
  { split; [apply NoDup_nil_2|constructor]. }
  assert (H6 : get_asset_cursor_with_advances scenario_advances "A" scenario_context
               = Ok (c, ctx'))
    by (vm_compute; reflexivity).
  repeat (split; [assumption|]). split; [vm_compute; reflexivity|].
  exact (get_asset_cursor_with_advances_keeps_invariant _ _ _ _ _ H1 H2 H3 H4 H5 H6).
Defined.

(** ** What the finalization installs *)

Lemma get_asset_cursor_with_advances_dict_wf adv k ctx c ctx' :
  dict_wf (trailing_unconsumed_partitioned_event_ids (_get_cursor ctx k)) ->
  get_asset_cursor_with_advances adv k ctx = Ok (c, ctx') ->
  dict_wf (trailing_unconsumed_partitioned_event_ids c).
Proof.
  intros Hwf Hrun. unfold get_asset_cursor_with_advances in Hrun.
  unfold mbind, Tick_bind, tick_bind, tick_get in Hrun.
  destruct (Nat.eqb _ 0); [by injection Hrun as <- _|].
  destruct (set_max _) as [g|]; [|discriminate].
  destruct (partition_key_by_record_id adv !! g) as [p|]; [|discriminate].
  destruct (advance_all_cursors_called adv).
  - injection Hrun as <- _. apply NoDup_nil_2.
  - destruct (get_trailing_unconsumed_events k ctx) as [[es ctx1]|]; [|discriminate].
    unfold tick_modify, tick_raise, mret, Tick_ret, tick_ret in Hrun.
    match type of Hrun with context [match ?m ctx1 with _ => _ end] =>
      destruct (m ctx1) as [[fresh ctx2]|] eqn:Hfresh; [|discriminate] end.
    apply read_instance_if_inv in Hfresh as [-> ->].
    destruct (_ <=? _)%nat; [discriminate|]. injection Hrun as <- _.
    cbn [trailing_unconsumed_partitioned_event_ids].
    rewrite pop_consumed_partition_remove, fold_record_unconsumed.
    match goal with
    | |- dict_wf (remove_partition _ (fold_left (overlay_event ?ids) ?events ?d)) =>
        destruct (fold_overlay_invariant (fun _ => True) ids events d) as [Hfold _];
          [done|split; [done|by apply Forall_true]|]
    end.
    unfold remove_partition. destruct p; [by apply dict_pop_wf|done].
Qed.

Lemma tick_mapM_dict_wf adv keys :
  forall ctx items ctx',
    (forall k, dict_wf (trailing_unconsumed_partitioned_event_ids (_get_cursor ctx k))) ->
    tick_mapM (fun asset_key =>
                 component ← get_asset_cursor_with_advances adv asset_key;
                 mret (str_asset_key asset_key, component)) keys ctx
    = Ok (items, ctx') ->
    Forall (fun kc => dict_wf (trailing_unconsumed_partitioned_event_ids (snd kc))) items.
Proof.
  induction keys as [|k keys IH]; intros ctx items ctx' Hwf Hrun.
  - injection Hrun as <- _. constructor.
  - rewrite tick_mapM_cons, tick_bind_run in Hrun.
    destruct (get_asset_cursor_with_advances adv k ctx) as [[c ctx1]|] eqn:Hk; [|discriminate].
    cbn [mret Tick_ret tick_ret] in Hrun.
    destruct (tick_mapM _ keys ctx1) as [[bs ctx2]|] eqn:Hrest; [|discriminate].
    injection Hrun as <- _.
    pose proof (get_asset_cursor_with_advances_dict_wf adv k ctx c ctx1 (Hwf k) Hk) as Hc.
    constructor; [exact Hc|]. eapply IH; [|exact Hrest].
    destruct (decide (advanced_ids adv k = ∅)) as [He|Hne].
    + rewrite get_asset_cursor_without_advances in Hk by done. by injection Hk as _ <-.
    + destruct (get_asset_cursor_with_advances_cap adv k ctx c ctx1 Hk Hne)
        as (_ & Hother & Hsame).
      intros k'. destruct (decide (k' = k)) as [->|Hk'].
      * destruct Hsame as [-> | ->]; [apply Hwf | exact Hc].
      * rewrite Hother by done. apply Hwf.
Qed.

(** X10: what a finalization with advance requests installs. When the
    [json] module reads back what it writes and no trailing map of the
    context holds a partition twice, a call of
    [update_cursor_after_evaluation] that finds advance requests and returns
    leaves the cursor string that encodes the computed cursor map, the
    unpacked cursor that holds this very map, so that encoding the unpacked
    cursor gives the cursor string again, and a fresh set of advance
    requests. *)
Theorem update_cursor_after_evaluation_installs `{laws : JsonCodecLaws} ctx ctx1 :
  (forall k, dict_wf (trailing_unconsumed_partitioned_event_ids (_get_cursor ctx k))) ->
  advanced_record_ids_by_key (cursor_advance_state_mutation ctx) ≠ ∅ ->
  update_cursor_after_evaluation ctx = Ok (tt, ctx1) ->
  exists m ctx',
    asset_cursors_with_advances (cursor_advance_state_mutation ctx) ctx = Ok (m, ctx')
    ∧ cursor ctx1 = Some (json_dumps (cursor_to_json m))
    ∧ unpacked_cursor ctx1 = context_cursor_of m
    ∧ cursor ctx1 = Some (get_stringified_cursor (unpacked_cursor ctx1))
    ∧ cursor_advance_state_mutation ctx1 = new_cursor_advances.
Proof.
  intros Hwf Hne Hrun. unfold update_cursor_after_evaluation in Hrun.
  rewrite tick_bind_run in Hrun. cbn [tick_get] in Hrun. rewrite tick_bind_run in Hrun.
  unfold get_cursor_with_advances in Hrun.
  assert (Hsize : Nat.eqb (size (advanced_record_ids_by_key
                                   (cursor_advance_state_mutation ctx))) 0 = false).
  { apply Nat.eqb_neq. intros Hsize. by apply map_size_empty_iff in Hsize. }
  rewrite Hsize, tick_bind_run in Hrun.
  destruct (asset_cursors_with_advances _ ctx) as [[m ctx']|] eqn:Hmap; [|discriminate].
  cbn [mret Tick_ret tick_ret] in Hrun. rewrite tick_bind_run in Hrun.
  assert (Hm : cursor_map_wf m).
  { unfold asset_cursors_with_advances in Hmap.
    rewrite tick_bind_run in Hmap. cbn [tick_get] in Hmap. rewrite tick_bind_run in Hmap.
    destruct (tick_mapM _ (asset_keys ctx) ctx) as [[items ctx2]|] eqn:Hitems; [|discriminate].
    injection Hmap as <- _. split; [apply dict_of_items_dict_wf|].
    apply dict_of_items_Forall. by eapply tick_mapM_dict_wf. }
  rewrite (new_context_cursor_encoded m Hm) in Hrun. cbn [tick_lift tick_modify] in Hrun.
  injection Hrun as <-. exists m, ctx'. by repeat split.
Qed.

Lemma update_cursor_after_evaluation_installs_witness :
  exists ctx ctx1,
    (forall k, dict_wf (trailing_unconsumed_partitioned_event_ids (_get_cursor ctx k)))
    ∧ advanced_record_ids_by_key (cursor_advance_state_mutation ctx) ≠ ∅
    ∧ update_cursor_after_evaluation (H := python_json) ctx = Ok (tt, ctx1)
    ∧ unpacked_cursor ctx1
      = context_cursor_of [("A", component (Some "p1") (Some 15) [("p2", 12)])]
    ∧ cursor ctx1 = Some (get_stringified_cursor (H := python_json) (unpacked_cursor ctx1)).
Proof.
  pose (ctx := match advance_cursor [("A", Some (materialization 15 "A" (Some "p1")))]
                       scenario_context with
               | Ok (_, c) => c
               | Raise _ => scenario_context
               end).
  pose (ctx1 := match update_cursor_after_evaluation (H := python_json) ctx with
                | Ok (_, c) => c
                | Raise _ => ctx
                end).
  exists ctx, ctx1.
  assert (H1 : forall k,
             dict_wf (trailing_unconsumed_partitioned_event_ids (_get_cursor ctx k))).
  { intros k. unfold _get_cursor, get_cursor_for_asset, str_asset_key.
    cbn [ctx unpacked_cursor scenario_context context_at_tick_start advance_cursor
         tick_modify set_advances context_cursor_of cursor_component_by_asset_key dict_get].
    destruct (decide _); cbn; apply NoDup_nil_2. }
  assert (H2 : advanced_record_ids_by_key (cursor_advance_state_mutation ctx) ≠ ∅)
    by by_compute.
  assert (H3 : update_cursor_after_evaluation (H := python_json) ctx = Ok (tt, ctx1))
    by (vm_compute; reflexivity).
  split; [exact H1|]. split; [exact H2|]. split; [exact H3|].
  destruct (update_cursor_after_evaluation_installs (laws := python_json_laws)
              ctx ctx1 H1 H2 H3) as (m & ctx' & _ & _ & _ & Hstr & _).
  split; [vm_compute; reflexivity|exact Hstr].
Defined.

(** ** The unpacked cursor *)

Lemma dict_set_map_values {K V W} `{EqDecision K} (f : V -> W) (k : K) v (d : list (K * V)) :
  map (fun kv => (fst kv, f (snd kv))) (dict_set k v d)
  = dict_set k (f v) (map (fun kv => (fst kv, f (snd kv))) d).
Proof.
  induction d as [|[k' v'] d IH]; cbn [dict_set map fst snd]; [done|].
  destruct (decide (k = k')); cbn [map fst snd]; [done|]. by rewrite IH.
Qed.

Lemma unpack_cursor_entries_consistent items :
  forall acc c,
    dict_wf (cursor_component_by_asset_key acc) ->
    acc = context_cursor_of (cursor_component_by_asset_key acc) ->
    unpack_cursor_entries items acc = Ok c ->
    dict_wf (cursor_component_by_asset_key c)
    ∧ c = context_cursor_of (cursor_component_by_asset_key c).
Proof.
  induction items as [|[str_key cursor_list] items IH]; intros acc c Hwf Hacc;
    cbn [unpack_cursor_entries].
  - by intros [= <-].
  - destruct (py_len cursor_list) as [n|]; cbn [mbind Result_bind]; [|discriminate].
    destruct (negb _); [by intros [= <-]|].
    destruct (py_unpack3 cursor_list) as [[[p e] t]|]; cbn [mbind Result_bind];
      [|discriminate].
    destruct (new_cursor_component p e t) as [comp|]; cbn [mbind Result_bind];
      [|discriminate].
    apply IH; cbn [cursor_component_by_asset_key].
    + by apply dict_set_wf.
    + unfold context_cursor_of. f_equal.
      rewrite (dict_set_map_values latest_consumed_event_id). f_equal.
      by rewrite Hacc at 1.
Qed.

(** X11: whatever string [MultiAssetSensorContextCursor.__init__] decodes,
    the cursor it builds files no asset key twice, and its table of the
    consumed ids at the start of the tick lists, key by key and in the same
    order, the consumed ids of its components. *)
Theorem new_context_cursor_consistent `{codec : JsonCodec} s c :
  new_context_cursor s = Ok c ->
  dict_wf (cursor_component_by_asset_key c)
  ∧ initial_latest_consumed_event_ids_by_asset_key c
    = map (fun kc => (fst kc, latest_consumed_event_id (snd kc)))
        (cursor_component_by_asset_key c).
Proof.
  intros Hnew.
  assert (Hc : dict_wf (cursor_component_by_asset_key c)
               ∧ c = context_cursor_of (cursor_component_by_asset_key c)).
  { unfold new_context_cursor in Hnew.
    destruct (match s with Some _ => _ | None => _ end) as [loaded|];
      cbn [mbind Result_bind] in Hnew; [|discriminate].
    unfold unpack_loaded_cursor in Hnew. destruct loaded; try discriminate.
    eapply unpack_cursor_entries_consistent; [| |exact Hnew]; [apply NoDup_nil_2|done]. }
  destruct Hc as [Hwf Hc]. split; [exact Hwf|]. by rewrite Hc at 1.
Qed.

Lemma new_context_cursor_consistent_witness :
  exists c,
    new_context_cursor (H := python_json) (Some cursor_of_mixed_entries) = Ok c
    ∧ cursor_component_by_asset_key c = [("a", component None (Some 1) [])]
    ∧ initial_latest_consumed_event_ids_by_asset_key c = [("a", Some 1)].
Proof.
  pose (r := new_context_cursor (H := python_json) (Some cursor_of_mixed_entries)).
  pose (c := match r with Ok c => c | Raise _ => empty_context_cursor end).
  exists c.
  assert (H1 : new_context_cursor (H := python_json) (Some cursor_of_mixed_entries) = Ok c)
    by (vm_compute; reflexivity).
  assert (H2 : cursor_component_by_asset_key c = [("a", component None (Some 1) [])])
    by (vm_compute; reflexivity).
  split; [exact H1|]. split; [exact H2|].
  destruct (new_context_cursor_consistent _ _ H1) as [_ ->]. by rewrite H2.
Defined.

(** ** Partitions *)

Lemma get_materialization_count_pos store k p :
  Nat.eqb (get_materialization_count store k p) 0 = false
  <-> exists r, r ∈ store ∧ record_asset_key r = Some k
                ∧ _get_partition_key_from_event_log_record r = Some p.
Proof.
  unfold get_materialization_count. rewrite Nat.eqb_neq. split.
  - intros Hlen. destruct (filter _ store) as [|r l] eqn:Hf; [done|].
    assert (Hr : r ∈ filter (fun r => record_asset_key r = Some k
                   ∧ _get_partition_key_from_event_log_record r = Some p) store)
      by (rewrite Hf; by left).
    apply list_elem_of_filter in Hr as [[? ?] ?]. by exists r.
  - intros (r & Hr & Hk & Hp) Hlen. apply length_zero_iff_nil in Hlen.
    assert (Hin : r ∈ filter (fun r => record_asset_key r = Some k
                    ∧ _get_partition_key_from_event_log_record r = Some p) store)
      by by apply list_elem_of_filter.
    rewrite Hlen in Hin. by apply elem_of_nil in Hin.
Qed.

Lemma all_materialized_spec store k ps :
  forallb (fun p => negb (Nat.eqb (get_materialization_count store k p) 0)) ps = true
  <-> forall p, p ∈ ps ->
        exists r, r ∈ store ∧ record_asset_key r = Some k
                  ∧ _get_partition_key_from_event_log_record r = Some p.
Proof.
  rewrite forallb_forall. split.
  - intros Hall p Hp. apply get_materialization_count_pos, negb_true_iff, Hall.
    by apply list_elem_of_In.
  - intros Hall p Hp. apply negb_true_iff, get_materialization_count_pos, Hall.
    by apply list_elem_of_In.
Qed.

(** X12: [all_partitions_materialized] looks at the store and at nothing of
    the cursor. An empty list of partitions is refused with
    [DagsterInvalidInvocationError] before anything else; the instance is
    read next, so that a context built without one raises
    [DagsterInvariantViolationError]. On a context with an instance a given
    list is checked for any asset key, monitored or not; without a list the
    partitions of the asset's definition are checked, and an asset that is
    not monitored or not partitioned is refused with
    [DagsterInvariantViolationError]. The check leaves the context as it is
    and answers [True] exactly when every partition has a materialization
    record of the asset in the store. *)
Theorem all_partitions_materialized_reads_store ctx k partitions :
  let run := all_partitions_materialized k partitions ctx in
  let checks store ps :=
    exists b,
      run = Ok (b, ctx)
      ∧ (b = true
         <-> forall p, p ∈ ps ->
               exists r, r ∈ store ∧ record_asset_key r = Some k
                         ∧ _get_partition_key_from_event_log_record r = Some p) in
  match partitions with
  | Some [] => run = Raise DagsterInvalidInvocationError
  | _ =>
      match _instance ctx with
      | None => run = Raise DagsterInvariantViolationError
      | Some store =>
          match partitions with
          | Some ps => checks store ps
          | None =>
              if decide (k ∈ asset_keys ctx) then
                match partitions_def_by_asset_key ctx k with
                | Some ps => checks store ps
                | None => run = Raise DagsterInvariantViolationError
                end
              else run = Raise DagsterInvariantViolationError
          end
      end
  end.
Proof.
  intros run checks. unfold checks, run, all_partitions_materialized, read_instance.
  tick_unfold.
  destruct partitions as [[|p ps]|].
  - done.
  - destruct (_instance ctx) as [store|]; [|done].
    eexists. split; [reflexivity|]. apply all_materialized_spec.
  - destruct (_instance ctx) as [store|]; [|done].
    destruct (decide (k ∈ asset_keys ctx)) as [Hk|Hk].
    + rewrite bool_decide_eq_true_2 by done. cbn [negb].
      destruct (partitions_def_by_asset_key ctx k) as [ps|]; [|done].
      eexists. split; [reflexivity|]. apply all_materialized_spec.
    + by rewrite bool_decide_eq_false_2.
Qed.

Lemma py_index_spec x l :
  match py_index x l with
  | Some i => exists before, l = (before ++ x :: drop (S i) l)%list ∧ x ∉ before
  | None => x ∉ l
  end.
Proof.
  induction l as [|y l IH]; cbn [py_index]; [apply not_elem_of_nil|].
  destruct (decide (x = y)) as [->|Hne].
  - exists []. split; [done|apply not_elem_of_nil].
  - destruct (py_index x l) as [i|]; cbn [fmap option_fmap option_map].
    + destruct IH as (before & Hl & Hnin). exists (y :: before). cbn [drop app].
      split; [by rewrite Hl at 1|]. rewrite not_elem_of_cons. done.
    + rewrite not_elem_of_cons. done.
Qed.

Lemma partitions_after_cursor_spec ctx k :
  match partitions_def_by_asset_key ctx k with
  | None => _get_partitions_after_cursor k ctx = Raise DagsterInvalidInvocationError
  | Some keys =>
      match latest_consumed_event_partition (_get_cursor ctx k) with
      | None => _get_partitions_after_cursor k ctx = Ok (keys, ctx)
      | Some p =>
          if decide (p ∈ keys) then
            exists before after,
              _get_partitions_after_cursor k ctx = Ok (after, ctx)
              ∧ keys = (before ++ p :: after)%list ∧ p ∉ before
          else _get_partitions_after_cursor k ctx = Raise ValueError
      end
  end.
Proof.
  unfold _get_partitions_after_cursor. tick_unfold.
  destruct (partitions_def_by_asset_key ctx k) as [keys|]; [|done].
  destruct (latest_consumed_event_partition _) as [p|]; [|done].
  pose proof (py_index_spec p keys) as Hindex.
  destruct (py_index p keys) as [i|].
  - destruct Hindex as (before & Hkeys & Hnin).
    rewrite decide_True.
    + by exists before, (drop (S i) keys).
    + rewrite Hkeys. apply elem_of_app. right. by left.
  - by rewrite decide_False.
Qed.

(** X13: [_get_partitions_after_cursor] raises
    [DagsterInvalidInvocationError] for an asset without a partitions
    definition. Otherwise, without a consumed partition it returns every
    partition key; with one it returns the keys that follow the first
    occurrence of the consumed partition, that partition left out, and
    raises [ValueError] when the consumed partition is not among the keys.
    The context is left as it is. *)
Theorem partitions_after_cursor_follow_consumed ctx k :
  match partitions_def_by_asset_key ctx k with
  | None => _get_partitions_after_cursor k ctx = Raise DagsterInvalidInvocationError
  | Some keys =>
      match latest_consumed_event_partition (_get_cursor ctx k) with
      | None => _get_partitions_after_cursor k ctx = Ok (keys, ctx)
      | Some p =>
          if decide (p ∈ keys) then
            exists before after,
              _get_partitions_after_cursor k ctx = Ok (after, ctx)
              ∧ keys = (before ++ p :: after)%list ∧ p ∉ before
          else _get_partitions_after_cursor k ctx = Raise ValueError
      end
  end.
Proof. apply partitions_after_cursor_spec. Qed.

(** ** The latest record of every partition *)

Lemma dict_get_pop_ne {K V} `{EqDecision K} (k k' : K) (d : list (K * V)) :
  k ≠ k' -> dict_get k' (dict_pop k d) = dict_get k' d.
Proof.
  intros Hne. induction d as [|[k0 v0] d IH]; cbn [dict_pop dict_get]; [done|].
  destruct (decide (k = k0)) as [->|Hk].
  - by rewrite decide_False by done.
  - cbn [dict_get]. by rewrite IH.
Qed.

Lemma dict_get_None_notin {K V} `{EqDecision K} (k : K) (d : list (K * V)) :
  dict_get k d = None -> k ∉ map fst d.
Proof.
  induction d as [|[k' v'] d IH]; cbn [dict_get map fst]; [intros _; apply not_elem_of_nil|].
  destruct (decide (k = k')); [discriminate|].
  intros Hget. rewrite not_elem_of_cons. split; [done|by apply IH].
Qed.

Lemma dict_pop_notin {K V} `{EqDecision K} (k : K) (d : list (K * V)) :
  dict_wf d -> k ∉ map fst (dict_pop k d).
Proof.
  unfold dict_wf. induction d as [|[k' v'] d IH]; cbn [dict_pop map fst].
  - intros _. apply not_elem_of_nil.
  - rewrite NoDup_cons. intros [Hnin Hnd]. destruct (decide (k = k')) as [->|Hne]; [done|].
    cbn [map fst]. rewrite not_elem_of_cons. split; [done|by apply IH].
Qed.

Lemma ordered_put_app p r d : dict_wf d -> ordered_put p r d = (dict_pop p d ++ [(p, r)])%list.
Proof.
  intros Hwf. unfold ordered_put. destruct (dict_mem p d) eqn:Hmem.
  - apply dict_set_fresh. by apply dict_pop_notin.
  - rewrite (dict_mem_false_pop _ _ Hmem). apply dict_set_fresh.
    unfold dict_mem in Hmem. apply dict_get_None_notin. by destruct (dict_get p d).
Qed.

Lemma ordered_put_wf p r d : dict_wf d -> dict_wf (ordered_put p r d).
Proof.
  intros Hwf. unfold ordered_put. apply dict_set_wf.
  destruct (dict_mem p d); [by apply dict_pop_wf|done].
Qed.

Lemma dict_get_ordered_put p r d q :
  dict_get q (ordered_put p r d) = if decide (q = p) then Some r else dict_get q d.
Proof.
  unfold ordered_put. destruct (decide (q = p)) as [->|Hne].
  - apply dict_get_set_eq.
  - rewrite dict_get_set_ne by done.
    destruct (dict_mem p d) eqn:Hmem; [by apply dict_get_pop_ne|done].
Qed.

Lemma dict_pop_sorted {V} (f : string * V -> Z) p (d : list (string * V)) :
  StronglySorted Z.le (map f d) -> StronglySorted Z.le (map f (dict_pop p d)).
Proof.
  induction d as [|[k' v'] d IH]; cbn [dict_pop map]; [done|].
  inversion_clear 1 as [|? ? Hs Hall]. destruct (decide (p = k')); [done|].
  cbn [map]. constructor; [by apply IH|].
  rewrite Forall_forall in Hall |- *. intros y Hy. apply Hall.
  apply (list_elem_of_fmap f) in Hy as (x & -> & Hx). apply (list_elem_of_fmap_2 f).
  by apply (dict_pop_subseteq p).
Qed.

#[global] Instance by_storage_id_transitive : Transitive by_storage_id.
Proof. unfold by_storage_id. intros a b c. lia. Qed.

#[global] Instance by_storage_id_total : Total by_storage_id.
Proof. unfold by_storage_id. intros a b. lia. Qed.

Lemma keep_latest_fold ptf es :
  StronglySorted Z.le (map storage_id es) ->
  dict_wf (fold_left (keep_latest ptf) es [])
  ∧ StronglySorted Z.le (map (fun pr => storage_id (snd pr)) (fold_left (keep_latest ptf) es []))
  ∧ (forall p r, (p, r) ∈ fold_left (keep_latest ptf) es [] ->
                 _get_partition_key_from_event_log_record r = Some p ∧ p ∈ ptf ∧ r ∈ es)
  ∧ (forall e p, e ∈ es -> _get_partition_key_from_event_log_record e = Some p -> p ∈ ptf ->
                 exists r, dict_get p (fold_left (keep_latest ptf) es []) = Some r
                           ∧ storage_id e <= storage_id r).
Proof.
  induction es as [|e es IH] using rev_ind; intros Hsorted.
  - cbn [fold_left]. split; [apply NoDup_nil_2|]. split; [constructor|].
    split; intros ? ? Hin; by apply elem_of_nil in Hin.
  - rewrite map_app in Hsorted. apply StronglySorted_app in Hsorted as (Hle & Hes & _).
    destruct (IH Hes) as (Hwf & Hsort & Hmem & Hlatest). clear IH.
    rewrite fold_left_app. cbn [fold_left].
    set (d := fold_left (keep_latest ptf) es []) in *.
    assert (Hbefore : forall x, x ∈ es -> storage_id x <= storage_id e).
    { intros x Hx. apply Hle; [by apply (list_elem_of_fmap_2 storage_id)|by left]. }
    unfold keep_latest at 1 2 3 4.
    destruct (_get_partition_key_from_event_log_record e) as [p|] eqn:Hp.
    2: { split; [done|]. split; [done|]. split.
         - intros q r Hin. destruct (Hmem q r Hin) as (? & ? & ?).
           repeat (split; [done|]). apply elem_of_app. by left.
         - intros e' q He' Hq Hfetch. apply elem_of_app in He' as [He'|He'].
           + by apply Hlatest.
           + apply list_elem_of_singleton in He' as ->. congruence. }
    destruct (bool_decide (p ∈ ptf)) eqn:Hfetched.
    2: { apply bool_decide_eq_false in Hfetched.
         split; [done|]. split; [done|]. split.
         - intros q r Hin. destruct (Hmem q r Hin) as (? & ? & ?).
           repeat (split; [done|]). apply elem_of_app. by left.
         - intros e' q He' Hq Hfetch. apply elem_of_app in He' as [He'|He'].
           + by apply Hlatest.
           + apply list_elem_of_singleton in He' as ->. congruence. }
    apply bool_decide_eq_true in Hfetched.
    split; [by apply ordered_put_wf|]. split; [|split].
    + rewrite ordered_put_app, map_app by done. apply StronglySorted_app_2.
      * intros x1 x2 Hx1 Hx2. cbn in Hx2. apply list_elem_of_singleton in Hx2 as ->.
        apply (list_elem_of_fmap (fun pr => storage_id (snd pr))) in Hx1
          as ([q r] & -> & Hqr).
        apply (dict_pop_subseteq p) in Hqr. destruct (Hmem q r Hqr) as (_ & _ & Hr).
        by apply Hbefore.
      * by apply dict_pop_sorted.
      * cbn. repeat constructor.
    + intros q r Hin. rewrite ordered_put_app in Hin by done.
      apply elem_of_app in Hin as [Hin|Hin].
      * apply (dict_pop_subseteq p) in Hin. destruct (Hmem q r Hin) as (? & ? & ?).
        repeat (split; [done|]). apply elem_of_app. by left.
      * apply list_elem_of_singleton in Hin as [= -> ->].
        repeat (split; [done|]). apply elem_of_app. right. by left.
    + intros e' q He' Hq Hfetch. rewrite dict_get_ordered_put.
      destruct (decide (q = p)) as [->|Hne].
      * exists e. split; [done|]. apply elem_of_app in He' as [He'|He'].
        -- by apply Hbefore.
        -- apply list_elem_of_singleton in He' as ->. lia.
      * apply elem_of_app in He' as [He'|He'].
        -- by apply Hlatest.
        -- apply list_elem_of_singleton in He' as ->. congruence.
Qed.

Lemma elem_of_trailing_events store trailing e :
  NoDup (map storage_id store) ->
  e ∈ trailing_events_at_tick_start store trailing
  <-> e ∈ store ∧ storage_id e ∈ dict_values trailing.
Proof.
  intros Hnd. unfold trailing_events_at_tick_start. rewrite list_elem_of_omap. split.
  - intros (id & Hid & He). rewrite merge_sort_Permutation in Hid.
    apply stored_event_Some in He as [? <-]. done.
  - intros [He Hid]. exists (storage_id e).
    rewrite merge_sort_Permutation. split; [done|]. by apply stored_event_unique.
Qed.

Lemma record_matches_partitions k ptf after r :
  record_matches (asset_filter k (Some ptf) after None) r = true
  <-> unconsumed_after after k r
      ∧ exists p, _get_partition_key_from_event_log_record r = Some p ∧ p ∈ ptf.
Proof.
  unfold record_matches, asset_filter, unconsumed_after, opt_test; simpl.
  rewrite !andb_true_r, !andb_true_iff, bool_decide_eq_true.
  destruct (_get_partition_key_from_event_log_record r) as [p|].
  - rewrite bool_decide_eq_true.
    destruct after as [c|]; [rewrite Z.ltb_lt|]; split.
    + intros [[? ?] ?]. split; [done|]. by exists p.
    + intros [[? ?] (p' & [= <-] & ?)]. done.
    + intros [[? ?] ?]. split; [done|]. by exists p.
    + intros [[? ?] (p' & [= <-] & ?)]. done.
  - split; [intros [[_ [=]] _]|intros [_ (p & [=] & _)]].
Qed.

Lemma StronglySorted_lt_le (l : list Z) : StronglySorted Z.lt l -> StronglySorted Z.le l.
Proof.
  induction 1 as [|x l Hs IH Hall]; constructor; [done|].
  eapply Forall_impl; [exact Hall|]. intros y. cbn. lia.
Qed.

Lemma fold_put_all_keep ptf es :
  forall d,
    Forall (fun r => forall p, _get_partition_key_from_event_log_record r = Some p -> p ∈ ptf)
      es ->
    fold_left
      (fun d materialization =>
         match _get_partition_key_from_event_log_record materialization with
         | Some partition => ordered_put partition materialization d
         | None => d
         end) es d
    = fold_left (keep_latest ptf) es d.
Proof.
  induction es as [|e es IH]; intros d; [done|]. inversion_clear 1 as [|? ? He Hes].
  cbn [fold_left]. rewrite IH by done. f_equal. unfold keep_latest.
  destruct (_get_partition_key_from_event_log_record e) as [p|]; [|done].
  by rewrite bool_decide_eq_true_2 by by apply He.
Qed.

(** X14: take a context with an instance whose store has positive and
    growing ids, and a monitored, partitioned asset whose component
    satisfies its invariant and whose trailing map the cache of fetched
    records is in step with (as it is from the start of a tick up to a
    finalization). Let the fetched partitions be all the partition keys or,
    with [after_cursor_partition], the keys [_get_partitions_after_cursor]
    returns (it raises when the consumed partition is no key, and the query
    with it). Then [latest_materialization_records_by_partition] returns a
    dict that holds no partition twice and lists its records by ascending
    storage id. Every entry files under a fetched partition an unconsumed
    record of that partition, and every unconsumed record of a fetched
    partition is answered by the entry of its partition, whose record is at
    least as late. *)
Theorem latest_materialization_records_by_partition_latest ctx k (after : bool) keys ptf :
  has_instance ctx ->
  store_wf (instance ctx) -> k ∈ asset_keys ctx -> cache_ready ctx k ->
  component_wf (_get_cursor ctx k) ->
  partitions_def_by_asset_key ctx k = Some keys ->
  (if after then _get_partitions_after_cursor k ctx else Ok (keys, ctx)) = Ok (ptf, ctx) ->
  exists result ctx',
    latest_materialization_records_by_partition k after ctx = Ok (result, ctx')
    ∧ dict_wf result
    ∧ StronglySorted Z.le (map (fun pr => storage_id (snd pr)) result)
    ∧ (forall p r, (p, r) ∈ result ->
                   _get_partition_key_from_event_log_record r = Some p
                   ∧ p ∈ ptf ∧ unconsumed_record ctx k r)
    ∧ (forall e p, unconsumed_record ctx k e ->
                   _get_partition_key_from_event_log_record e = Some p -> p ∈ ptf ->
                   exists r, dict_get p result = Some r ∧ storage_id e <= storage_id r).
Proof.
  intros Hinst Hstore Hk Hready [_ Hbelow] Hdef Hptf.
  pose proof (store_wf_NoDup _ Hstore) as Hnd. destruct Hstore as [Hsorted Hpos].
  destruct (get_trailing_unconsumed_events_spec ctx k Hinst Hnd Hk Hready)
    as (cache' & Htrail & _).
  unfold get_trailing_unconsumed_events in Htrail.
  rewrite tick_bind_run in Htrail. cbn [tick_get] in Htrail.
  unfold latest_materialization_records_by_partition.
  rewrite tick_bind_run. cbn [tick_get]. rewrite bool_decide_eq_true_2 by done. cbn [negb].
  rewrite Hdef, tick_bind_run.
  assert (Hfetch : (if after then _get_partitions_after_cursor k else mret keys) ctx
                   = Ok (ptf, ctx)) by by destruct after.
  rewrite Hfetch, tick_bind_run, Htrail, tick_bind_run, read_instance_run by done.
  rewrite instance_set_cache. eexists _, _. split; [reflexivity|].
  set (trailing := trailing_unconsumed_partitioned_event_ids (_get_cursor ctx k)) in *.
  set (consumed := latest_consumed_event_id (_get_cursor ctx k)) in *.
  set (fresh := get_event_records (instance ctx) (asset_filter k (Some ptf) consumed None)
                  true None).
  set (backlog := merge_sort by_storage_id
                    (trailing_events_at_tick_start (instance ctx) trailing)).
  assert (Hfresh : forall r, r ∈ fresh <->
            r ∈ instance ctx
            ∧ unconsumed_after consumed k r
            ∧ exists p, _get_partition_key_from_event_log_record r = Some p ∧ p ∈ ptf).
  { intros r. unfold fresh, get_event_records, opt_take.
    rewrite list_elem_of_filter, record_matches_partitions. tauto. }
  assert (Hbacklog : forall r, r ∈ backlog <->
            r ∈ instance ctx ∧ storage_id r ∈ dict_values trailing).
  { intros r. unfold backlog. rewrite merge_sort_Permutation.
    by apply elem_of_trailing_events. }
  rewrite (fold_put_all_keep ptf).
  2: { apply Forall_forall. intros r Hr p Hp.
       apply Hfresh in Hr as (_ & _ & p' & Hp' & Hin). congruence. }
  rewrite <- fold_left_app.
  destruct (keep_latest_fold ptf (backlog ++ fresh)) as (Hwf & Hsort & Hmem & Hlatest).
  { rewrite map_app. apply StronglySorted_app_2.
    - intros x1 x2 Hx1 Hx2.
      apply (list_elem_of_fmap storage_id) in Hx1 as (a & -> & Ha).
      apply (list_elem_of_fmap storage_id) in Hx2 as (b & -> & Hb).
      apply Hbacklog in Ha as [_ Ha]. apply Hfresh in Hb as (Hb & [_ Hafter] & _).
      apply (list_elem_of_fmap snd) in Ha as (pid & Hid & Hpid).
      rewrite Forall_forall in Hbelow. rewrite Forall_forall in Hpos.
      specialize (Hbelow _ Hpid).
      specialize (Hpos _ Hb). fold consumed in Hbelow. rewrite <- Hid in Hbelow.
      destruct consumed as [c|]; cbn in Hbelow; lia.
    - apply (StronglySorted_fmap storage_id by_storage_id); [done|].
      apply StronglySorted_merge_sort; apply _.
    - unfold fresh, get_event_records, opt_take.
      by apply StronglySorted_filter_map, StronglySorted_lt_le. }
  split; [exact Hwf|]. split; [exact Hsort|]. split.
  - intros p r Hin. destruct (Hmem p r Hin) as (Hp & Hfetched & Hr).
    split; [done|]. split; [done|]. unfold unconsumed_record.
    apply elem_of_app in Hr as [Hr|Hr].
    + apply Hbacklog in Hr as [? ?]. split; [done|]. by left.
    + apply Hfresh in Hr as (? & ? & _). split; [done|]. by right.
  - intros e p [He Hcase] Hp Hfetched. apply (Hlatest e p); [|done..].
    apply elem_of_app. destruct Hcase as [Hid|Hnew].
    + left. by apply Hbacklog.
    + right. apply Hfresh. split; [done|]. split; [done|]. by exists p.
Qed.

Lemma store_wf_partitioned : store_wf partitioned_store.
Proof.
  split.
  - repeat (constructor; [|repeat constructor; reflexivity]). constructor.
  - repeat constructor.
Qed.

Lemma cache_ready_partitioned k : cache_ready partitioned_context k.
Proof.
  split.
  - intros id r Hl. cbn in Hl. by rewrite lookup_empty in Hl.
  - intros Hf. discriminate.
Qed.

Lemma latest_materialization_records_by_partition_latest_witness :
  has_instance partitioned_context
  ∧ store_wf (instance partitioned_context)
  ∧ "A" ∈ asset_keys partitioned_context
  ∧ cache_ready partitioned_context "A"
  ∧ component_wf (_get_cursor partitioned_context "A")
  ∧ partitions_def_by_asset_key partitioned_context "A" = Some ["p1"; "p2"; "p3"; "p4"]
  ∧ _get_partitions_after_cursor "A" partitioned_context
    = Ok (["p2"; "p3"; "p4"], partitioned_context)
  ∧ exists ctx',
      latest_materialization_records_by_partition "A" true partitioned_context
      = Ok ([ ("p4", materialization 7 "A" (Some "p4"));
              ("p3", materialization 11 "A" (Some "p3"));
              ("p2", materialization 12 "A" (Some "p2")) ], ctx').
Proof.
  assert (H0 : has_instance partitioned_context) by by eexists.
  assert (H1 : store_wf (instance partitioned_context)) by exact store_wf_partitioned.
  assert (H2 : "A" ∈ asset_keys partitioned_context) by by_compute.
  assert (H3 : cache_ready partitioned_context "A") by apply cache_ready_partitioned.
  assert (H4 : component_wf (_get_cursor partitioned_context "A")).
  { split; [by_compute|]. repeat constructor. }
  assert (H5 : partitions_def_by_asset_key partitioned_context "A"
               = Some ["p1"; "p2"; "p3"; "p4"]) by reflexivity.
  assert (H6 : _get_partitions_after_cursor "A" partitioned_context
               = Ok (["p2"; "p3"; "p4"], partitioned_context))
    by (vm_compute; reflexivity).
  repeat (split; [assumption|]).
  destruct (latest_materialization_records_by_partition_latest partitioned_context "A" true
              _ _ H0 H1 H2 H3 H4 H5 H6) as (result & ctx' & Hrun & _).
  exists ctx'. rewrite Hrun. vm_compute in Hrun. by injection Hrun as <- _.
Defined.

(** ** A cursor from the latest materializations *)

Lemma dict_get_fold_set_opt {K V} `{EqDecision K} (f : K -> option V) (keys : list K) :
  forall (d : list (K * V)) k,
    dict_get k (fold_left (fun acc a => match f a with
                                        | Some v => dict_set a v acc
                                        | None => acc
                                        end) keys d)
    = if decide (k ∈ keys) then
        match f k with Some v => Some v | None => dict_get k d end
      else dict_get k d.
Proof.
  induction keys as [|a keys IH]; intros d k; cbn [fold_left].
  - rewrite decide_False; [done|]. apply not_elem_of_nil.
  - rewrite IH. destruct (decide (k = a)) as [->|Hne].
    + rewrite (decide_True (P := a ∈ a :: keys)) by by left.
      destruct (f a) as [v|]; [rewrite dict_get_set_eq|]; by destruct (decide (a ∈ keys)).
    + assert (Hiff : k ∈ a :: keys <-> k ∈ keys) by (rewrite elem_of_cons; tauto).
      assert (Hget : dict_get k (match f a with Some v => dict_set a v d | None => d end)
                     = dict_get k d).
      { destruct (f a); [by apply dict_get_set_ne|done]. }
      rewrite Hget.
      destruct (decide (k ∈ keys)) as [Hin|Hnin].
      * rewrite decide_True by by apply Hiff. done.
      * rewrite decide_False by by rewrite Hiff. done.
Qed.

Lemma fold_set_opt_wf {K V} `{EqDecision K} (f : K -> option V) (P : K * V -> Prop)
    (keys : list K) :
  (forall a v, f a = Some v -> P (a, v)) ->
  forall d : list (K * V),
    dict_wf d -> Forall P d ->
    dict_wf (fold_left (fun acc a => match f a with
                                     | Some v => dict_set a v acc
                                     | None => acc
                                     end) keys d)
    ∧ Forall P (fold_left (fun acc a => match f a with
                                        | Some v => dict_set a v acc
                                        | None => acc
                                        end) keys d).
Proof.
  intros Hf. induction keys as [|a keys IH]; intros d Hwf Hall; cbn [fold_left]; [done|].
  destruct (f a) as [v|] eqn:Ha; [|by apply IH].
  apply IH; [by apply dict_set_wf|]. apply dict_set_Forall; [by apply Hf|done].
Qed.

Lemma fold_left_pointwise {A B} (f g : A -> B -> A) (l : list B) (d : A) :
  (forall a b, f a b = g a b) -> fold_left f l d = fold_left g l d.
Proof.
  intros Hfg. revert d. induction l as [|b l IH]; intros d; cbn [fold_left]; [done|].
  by rewrite IH, Hfg.
Qed.

(** X15: a context built on the cursor of
    [get_cursor_from_latest_materializations] takes nothing of the store as
    new. When the [json] module reads back what it writes and the ids grow
    along the store, the cursor string is decoded without an error, into
    components without trailing entries, and
    [latest_materialization_records_by_key] files [None] under every asset
    key the cursor was computed for. *)
Theorem cursor_from_latest_materializations_consumes_all `{laws : JsonCodecLaws}
    keys partitions_defs store :
  StronglySorted Z.lt (map storage_id store) ->
  exists ctx result,
    new_context keys partitions_defs (Some store)
      (Some (get_cursor_from_latest_materializations keys store)) = Ok ctx
    ∧ (forall k, trailing_unconsumed_partitioned_event_ids (_get_cursor ctx k) = [])
    ∧ latest_materialization_records_by_key None ctx = Ok (result, ctx)
    ∧ forall k, k ∈ keys -> dict_get k result = Some None.
Proof.
  intros Hsorted.
  set (latest := fun a =>
         match last (get_event_records store (asset_filter a None None None)
                       false (Some 1%nat)) with
         | Some r =>
             Some {| latest_consumed_event_partition :=
                       _get_partition_key_from_event_log_record r;
                     latest_consumed_event_id := Some (storage_id r);
                     trailing_unconsumed_partitioned_event_ids := [] |}
         | None => None
         end).
  set (m := cursor_dict_from_latest_materializations keys store).
  assert (Hm : m = fold_left (fun acc a => match latest a with
                                           | Some v => dict_set a v acc
                                           | None => acc
                                           end) keys []).
  { unfold m, cursor_dict_from_latest_materializations.
    apply fold_left_pointwise. intros d a. unfold latest, str_asset_key.
    by destruct (last _). }
  assert (Hwf : cursor_map_wf m).
  { rewrite Hm. apply fold_set_opt_wf; [|apply NoDup_nil_2|constructor].
    intros a v Ha. unfold latest in Ha. destruct (last _); [|discriminate].
    injection Ha as <-. apply NoDup_nil_2. }
  unfold new_context, get_cursor_from_latest_materializations. fold m.
  rewrite (new_context_cursor_encoded m Hwf). cbn [mbind Result_bind].
  eexists _, _. split; [reflexivity|].
  assert (Hcursor : forall k,
            get_cursor_for_asset (context_cursor_of m) k
            = default (component None None [])
                (if decide (k ∈ keys) then latest k else None)).
  { intros k. unfold get_cursor_for_asset, str_asset_key.
    cbn [context_cursor_of cursor_component_by_asset_key].
    rewrite Hm, dict_get_fold_set_opt. cbn [dict_get].
    repeat case_decide; try done. by destruct (latest k). }
  split.
  { intros k. unfold _get_cursor. cbn [unpacked_cursor]. rewrite Hcursor.
    destruct (decide (k ∈ keys)); [|done]. unfold latest. by destruct (last _). }
  split; [by apply latest_materialization_records_by_key_run; eexists|]. intros k Hk.
  unfold instance, _get_cursor.
  cbn [_instance unpacked_cursor asset_keys default from_option id].
  rewrite (dict_get_fold_set
             (fun a => head (get_event_records store
                (asset_filter a None
                   (latest_consumed_event_id (get_cursor_for_asset (context_cursor_of m) a))
                   None)
                false (Some 1%nat)))).
  rewrite decide_True by done. f_equal.
  rewrite Hcursor, decide_True by done.
  pose proof (latest_asset_record store k None Hsorted) as Hall.
  assert (Hlast : last (get_event_records store (asset_filter k None None None)
                          false (Some 1%nat))
                  = head (get_event_records store (asset_filter k None None None)
                            false (Some 1%nat))).
  { unfold get_event_records, opt_take. by destruct (reverse _) as [|a [|b l]]. }
  unfold latest. rewrite Hlast.
  destruct (head (get_event_records store (asset_filter k None None None)
                    false (Some 1%nat))) as [r|].
  - destruct Hall as (Hr & [Hasset _] & Hmax).
    cbn [default from_option id latest_consumed_event_id].
    pose proof (latest_asset_record store k (Some (storage_id r)) Hsorted) as Hnew.
    destruct (head _) as [r'|]; [|done].
    destruct Hnew as (Hr' & [Hasset' Hlt] & _).
    assert (storage_id r' <= storage_id r) by (apply Hmax; [done|by split]). lia.
  - cbn [default from_option id component latest_consumed_event_id].
    pose proof (latest_asset_record store k None Hsorted) as Hnew.
    destruct (head _) as [r'|]; [|done].
    destruct Hnew as (Hr' & Hnew & _). by destruct (Hall r' Hr').
Qed.

Lemma cursor_from_latest_materializations_consumes_all_witness :
  StronglySorted Z.lt (map storage_id two_assets_store)
  ∧ exists ctx result,
      new_context (H := python_json) ["A"; "B"; "C"] unpartitioned (Some two_assets_store)
        (Some (get_cursor_from_latest_materializations (H := python_json)
                 ["A"; "B"; "C"] two_assets_store)) = Ok ctx
      ∧ cursor_component_by_asset_key (unpacked_cursor ctx)
        = [ ("A", component (Some "p1") (Some 9) []);
            ("B", component (Some "q1") (Some 20) []) ]
      ∧ latest_materialization_records_by_key None ctx = Ok (result, ctx)
      ∧ result = [("A", None); ("B", None); ("C", None)].
Proof.
  assert (H1 : StronglySorted Z.lt (map storage_id two_assets_store))
    by exact (proj1 store_wf_two_assets).
  split; [exact H1|].
  destruct (cursor_from_latest_materializations_consumes_all (laws := python_json_laws)
              ["A"; "B"; "C"] unpartitioned two_assets_store H1)
    as (ctx & result & Hnew & _ & Hrun & _).
  exists ctx, result. split; [exact Hnew|].
  vm_compute in Hnew. injection Hnew as <-. split; [vm_compute; reflexivity|].
  split; [exact Hrun|]. vm_compute in Hrun. by injection Hrun as <-.
Defined.

(** ** The tick driver *)

Section Driver.
Import SensorDefinition.

Lemma truthy_Some_false name : truthy (Some name) = false <-> name = EmptyString.
Proof.
  unfold truthy. rewrite negb_false_iff. split.
  - intros Heq. by apply String.eqb_eq.
  - intros ->. reflexivity.
Qed.

Lemma check_job_names_spec targets rs :
  check_job_names (1 <? length targets)%nat targets rs = Returns tt
  <-> Forall (valid_run_request targets) rs.
Proof.
  induction rs as [|r rs IH]; [by split; [constructor|]|].
  rewrite Forall_cons, <- IH. unfold valid_run_request at 1. cbn [check_job_names].
  destruct (job_name r) as [name|].
  - destruct (truthy (Some name)) eqn:Htruthy; cbn [andb].
    + destruct (bool_decide (name ∈ targets)) eqn:Hin; cbn [negb].
      * apply bool_decide_eq_true in Hin. tauto.
      * apply bool_decide_eq_false in Hin. split; [discriminate|].
        intros [[->|?] _]; [discriminate|done].
    + apply truthy_Some_false in Htruthy. tauto.
  - destruct (1 <? length targets)%nat eqn:Hmany.
    + apply Nat.ltb_lt in Hmany. split; [discriminate|]. intros [? _]. lia.
    + apply Nat.ltb_ge in Hmany. tauto.
Qed.

Lemma check_valid_run_requests_spec targets rs :
  check_valid_run_requests targets rs = Returns tt
  <-> (rs ≠ [] -> targets ≠ []) ∧ Forall (valid_run_request targets) rs.
Proof.
  unfold check_valid_run_requests. cbv zeta.
  destruct rs as [|r rs]; cbn [length Nat.eqb negb andb].
  - rewrite check_job_names_spec. tauto.
  - destruct (Nat.eqb (length targets) 0) eqn:Hnone.
    + apply Nat.eqb_eq, length_zero_iff_nil in Hnone. split; [discriminate|].
      intros [Hne _]. by destruct Hne.
    + apply Nat.eqb_neq in Hnone. rewrite check_job_names_spec.
      split; [|tauto]. intros Hall. split; [|done]. intros _ ->. by apply Hnone.
Qed.

Lemma read_result_spec result rs m reactions :
  read_result result = Returns (rs, m, reactions) ->
  rs = omap as_run_request result
  ∧ reactions = filter (fun item => is_pipeline_run_reaction item = true) result
  ∧ (m = None ∨ (rs = [] ∧ reactions = [])).
Proof.
  unfold read_result. destruct result as [|item [|item' result]].
  - intros [= <- <- <-]. repeat split. by right.
  - destruct item; cbn; intros [= <- <- <-]; repeat split; by (left + right).
  - cbv beta iota zeta. destruct (negb _); [discriminate|].
    destruct (existsb _ _); [discriminate|].
    intros [= <- <- <-]. repeat split. by left.
Qed.

Lemma evaluate_tick_inversion targets result context_cursor data :
  evaluate_tick targets (Returns result) context_cursor = Returns data ->
  run_requests data = omap as_run_request result
  ∧ pipeline_run_reactions data
    = filter (fun item => is_pipeline_run_reaction item = true) result
  ∧ cursor data = context_cursor
  ∧ (skip_message data = None
     ∨ (run_requests data = [] ∧ pipeline_run_reactions data = []))
  ∧ (run_requests data ≠ [] -> targets ≠ [])
  ∧ Forall (valid_run_request targets) (run_requests data).
Proof.
  unfold evaluate_tick. cbn [mbind Outcome_bind].
  destruct (read_result result) as [[[rs m] reactions]| |] eqn:Hread;
    cbn [mbind Outcome_bind]; [|done..].
  apply read_result_spec in Hread as (Hrs & Hre & Hskip).
  destruct (check_valid_run_requests targets rs) as [[]| |] eqn:Hvalid;
    cbn [mbind Outcome_bind]; [|done..].
  apply check_valid_run_requests_spec in Hvalid as [Htargets Hall].
  unfold new_sensor_execution_data. destruct (_ && _); [done|].
  intros [= <-]. cbn [run_requests pipeline_run_reactions cursor skip_message].
  by repeat split.
Qed.

(** X16: what a tick packages. When [evaluate_tick] returns, its run
    requests are the [RunRequest]s of the drained result, in their order,
    its run reactions are the [PipelineRunReaction]s, and its cursor is the
    cursor of the context; a skip message comes with no run request and no
    run reaction, so that the invariant of [SensorExecutionData] holds; and
    every run request is one the sensor can launch: a sensor without targets
    requests no run, a run request without a job name comes from a sensor
    with a single target, and a job name that is not empty names a
    target. *)
Theorem evaluate_tick_packages targets result context_cursor data :
  evaluate_tick targets (Returns result) context_cursor = Returns data ->
  run_requests data = omap as_run_request result
  ∧ pipeline_run_reactions data
    = filter (fun item => is_pipeline_run_reaction item = true) result
  ∧ cursor data = context_cursor
  ∧ (skip_message data = None
     ∨ (run_requests data = [] ∧ pipeline_run_reactions data = []))
  ∧ (run_requests data ≠ [] -> targets ≠ [])
  ∧ Forall (valid_run_request targets) (run_requests data).
Proof. apply evaluate_tick_inversion. Qed.

Lemma evaluate_tick_packages_witness :
  exists data,
    evaluate_tick ["job_a"; "job_b"]
      (Returns [ yielded_run_request {| run_key := None; job_name := Some "job_b" |};
                 yielded_pipeline_run_reaction ]) (Some "7")
    = Returns data
    ∧ run_requests data = [{| run_key := None; job_name := Some "job_b" |}]
    ∧ skip_message data = None
    ∧ cursor data = Some "7".
Proof.
  eexists. split; [reflexivity|].
  match goal with
  | |- context [run_requests ?d] =>
      destruct (evaluate_tick_packages ["job_a"; "job_b"]
                  [ yielded_run_request {| run_key := None; job_name := Some "job_b" |};
                    yielded_pipeline_run_reaction ] (Some "7") d eq_refl)
        as (H1 & _ & H3 & _)
  end.
  split; [exact H1|]. split; [reflexivity|exact H3].
Defined.

(** X17: the results a tick accepts. [evaluate_tick] returns exactly when
    the drained result is empty, a single [None], a single [SkipReason], or
    made of [RunRequest]s and [PipelineRunReaction]s only, and its run
    requests are ones the sensor can launch; a [SkipReason] next to anything
    else, and an object of another type, make it raise. *)
Theorem evaluate_tick_accepts targets result context_cursor :
  (exists data, evaluate_tick targets (Returns result) context_cursor = Returns data)
  <-> accepted targets result.
Proof.
  unfold accepted. split.
  - intros [data Hrun]. pose proof Hrun as Hpack.
    apply evaluate_tick_inversion in Hpack as (Hrs & _ & _ & _ & Htargets & Hall).
    rewrite Hrs in Htargets, Hall. split; [|done].
    unfold evaluate_tick in Hrun. cbn [mbind Outcome_bind] in Hrun.
    destruct (read_result result) as [[[rs m] reactions]| |] eqn:Hread; [|done..].
    clear Hrun. unfold read_result in Hread.
    destruct result as [|item [|item' result]]; [by left| |].
    + destruct item; try discriminate.
      * right. right. right. by repeat constructor.
      * right. right. left. by eexists.
      * right. right. right. by repeat constructor.
      * right. by left.
    + right. right. right.
      destruct (forallb _ _) eqn:Hitems; [|discriminate]. cbn [negb] in Hread.
      destruct (existsb _ _) eqn:Hskip; [discriminate|].
      rewrite forallb_forall in Hitems.
      apply Forall_forall. intros x Hx. apply list_elem_of_In in Hx. split; [by apply Hitems|].
      destruct (is_skip_reason x) eqn:Hx'; [|done].
      assert (existsb is_skip_reason (item :: item' :: result) = true)
        by (apply existsb_exists; by exists x).
      congruence.
  - intros (Hshape & Htargets & Hall).
    assert (Hvalid : check_valid_run_requests targets (omap as_run_request result)
                     = Returns tt) by by apply check_valid_run_requests_spec.
    assert (Hread : exists m reactions,
              read_result result = Returns (omap as_run_request result, m, reactions)
              ∧ (m = None ∨ omap as_run_request result = [])).
    { destruct Hshape as [->| [->| [[m ->]|Hitems]]].
      - eexists _, _. split; [reflexivity|by right].
      - eexists _, _. split; [reflexivity|by right].
      - eexists _, _. split; [reflexivity|by right].
      - unfold read_result. destruct result as [|item [|item' result]].
        + eexists _, _. split; [reflexivity|by right].
        + apply Forall_cons in Hitems as [[Hitem Hskip] _].
          destruct item; try discriminate; eexists _, _; (split; [reflexivity|by left]).
        + assert (Hall' : forallb is_result_item (item :: item' :: result) = true).
          { apply forallb_forall. intros x Hx. apply list_elem_of_In in Hx.
            rewrite Forall_forall in Hitems. by apply Hitems. }
          assert (Hnone : existsb is_skip_reason (item :: item' :: result) = false).
          { apply not_true_is_false. intros Hex.
            apply existsb_exists in Hex as (x & Hx & Hx'). apply list_elem_of_In in Hx.
            rewrite Forall_forall in Hitems. destruct (Hitems x Hx). congruence. }
          cbv beta iota zeta. rewrite Hall', Hnone. cbn [negb].
          eexists _, _. split; [reflexivity|by left]. }
    destruct Hread as (m & reactions & Hread & Hm).
    unfold evaluate_tick. cbn [mbind Outcome_bind]. rewrite Hread.
    cbn [mbind Outcome_bind]. rewrite Hvalid. cbn [mbind Outcome_bind].
    unfold new_sensor_execution_data.
    destruct Hm as [-> | ->]; [cbn [truthy]; rewrite andb_false_r|cbn]; by eexists.
Qed.
(** X18: what the wrapper makes of the value the function returns. An
    object returned as it is counts as the list that holds it when it is a
    [RunRequest], a [SkipReason] or [None]; a [PipelineRunReaction], which a
    tick accepts in a list, and any other object make the wrapper raise an
    [Exception] when returned as they are. Whatever the targets of the
    sensor, [None], an empty list and the list that holds [None] alone end
    the tick with the skip message of the empty result. *)
Theorem wrapped_object_counts_as_list targets item context_cursor :
  let returned_bare :=
    evaluate_tick targets (_wrapped_fn (returns_object item)) context_cursor in
  let returned_listed :=
    evaluate_tick targets (_wrapped_fn (returns_items [item])) context_cursor in
  let skipped :=
    Returns {| run_requests := [];
               skip_message := Some "Sensor function returned an empty result";
               cursor := context_cursor;
               pipeline_run_reactions := [] |} in
  evaluate_tick targets (_wrapped_fn (returns_items [])) context_cursor = skipped
  ∧ match item with
    | yielded_none => returned_bare = skipped ∧ returned_listed = skipped
    | yielded_pipeline_run_reaction =>
        returned_bare = RaisesException
        ∧ returned_listed
          = Returns {| run_requests := [];
                       skip_message := None;
                       cursor := context_cursor;
                       pipeline_run_reactions := [item] |}
    | yielded_object =>
        returned_bare = RaisesException ∧ returned_listed = Raises CheckError
    | _ => returned_bare = returned_listed
    end.
Proof. split; [reflexivity|]. by destruct item. Qed.
Lemma pipeline_name_direct jobs : map pipeline_name (map DirectTarget jobs) = jobs.
Proof. induction jobs as [|j jobs IH]; cbn [map pipeline_name]; [done|by rewrite IH]. Qed.

(** X23: the targets of a sensor definition. [SensorDefinition.__init__]
    raises [DagsterInvalidDefinitionError] when no evaluation function is
    given and, with one, when more than one of [job_name], [job] and [jobs]
    is given, an empty name and an empty list counting as not given. With
    an evaluation function and at most one of the three it raises what
    [check_valid_name] raises on a name that is given and not empty, and
    [AttributeError] when no name is given and the evaluation function has
    no [__name__]; it raises in no other case. A sensor it builds is named
    as [check_valid_name] returns or after its function, and targets what
    was given, in its order, and nothing when nothing was; the [job]
    property then gives back the job of a sensor that was given a single
    job, be it as [job] or as the only one of [jobs], and raises
    [DagsterInvalidDefinitionError] for every other sensor. *)
Theorem new_sensor_definition_targets (check_valid_name : string -> Result string)
    name evaluation_fn job_name minimum_interval_seconds description job jobs default_status :
  let given :=
    ((if truthy job_name then 1 else 0) + (if job is Some _ then 1 else 0)
     + (if truthy_list jobs then 1 else 0))%nat in
  let checked_name :=
    if truthy name then check_valid_name (default EmptyString name)
    else match evaluation_fn with
         | Some {| __name__ := Some function_name |} => Ok function_name
         | _ => Raise AttributeError
         end in
  match new_sensor_definition check_valid_name name evaluation_fn job_name
          minimum_interval_seconds description job jobs default_status with
  | Ok sensor =>
      is_Some evaluation_fn ∧ (given <= 1)%nat
      ∧ checked_name = Ok (_name sensor)
      ∧ map pipeline_name (_targets sensor)
        = (if truthy job_name then [default EmptyString job_name]
           else match job with
                | Some j => [j]
                | None => if truthy_list jobs then default [] jobs else []
                end)
      ∧ forall j,
          job_of (_targets sensor) = Ok j
          <-> truthy job_name = false ∧ (job = Some j ∨ (job = None ∧ jobs = Some [j]))
  | Raise e =>
      (evaluation_fn = None ∧ e = DagsterInvalidDefinitionError)
      ∨ (is_Some evaluation_fn ∧ (2 <= given)%nat ∧ e = DagsterInvalidDefinitionError)
      ∨ (is_Some evaluation_fn ∧ (given <= 1)%nat ∧ checked_name = Raise e)
  end.
Proof.
  unfold new_sensor_definition.
  destruct evaluation_fn as [[function_name]|]; [|by left].
  destruct job as [j0|], jobs as [[|j1 [|j2 js]]|], (truthy job_name) eqn:Hname;
    cbn [bool_decide decide_rel is_Some_dec truthy_list andb default from_option id
         Nat.add];
    try (right; left; split; [by eexists|]; split; [lia|done]);
    (match goal with
     | |- context [mbind _ ?m] => destruct m as [sensor_name|e] eqn:Hchecked
     end;
     cbn [mbind Result_bind _name _targets map pipeline_name job_of __name__];
     [ split; [by eexists|]; split; [lia|];
       split; [by destruct (truthy name), function_name|];
       split; [by rewrite ?pipeline_name_direct|]; intros j;
       (split;
        [ intros Hj;
          first [ discriminate Hj
                | injection Hj as ->; split; [done|]; first [by left|by right] ]
        | intros [Hn [Hc|[Hc1 Hc2]]];
          try discriminate Hn; try discriminate Hc; try discriminate Hc1;
          try discriminate Hc2;
          first [by injection Hc as ->|by injection Hc2 as ->] ])
     | right; right; split; [by eexists|]; split; [lia|];
       by destruct (truthy name), function_name ]).
Qed.
End Driver.

(** ** The asset sensor *)

Module PyIntFacts.
Import PyJson PyInt.
#[local] Open Scope list_scope.

Lemma digit_no_space c :
  digit_of c ≠ None -> is_space c = false ∧ Ascii.eqb c "+" = false.
Proof. destruct c as [[] [] [] [] [] [] [] []]; intros Hd; try done. Qed.

Lemma strip_right_print_uint u : strip_right (print_uint u) = print_uint u.
Proof.
  induction u; cbn [print_uint strip_right]; [done|..];
    rewrite IHu; by destruct (print_uint u).
Qed.

Lemma print_uint_cons p :
  exists c r, print_uint (Pos.to_uint p) = c :: r ∧ Ascii.eqb c "-" = false
              ∧ digit_of c ≠ None.
Proof.
  destruct (PyJsonFacts.print_uint_head (Pos.to_uint p) [] (Unsigned.to_uint_nonnil p))
    as (c & r & Heq & Hc & _ & Hd).
  rewrite app_nil_r in Heq. by exists c, r.
Qed.

Lemma strip_print_int z : strip_right (strip_left (print_int z)) = print_int z.
Proof.
  destruct z as [|p|p]; [reflexivity|..]; cbn [print_int].
  - destruct (print_uint_cons p) as (c & r & Heq & _ & Hd).
    rewrite Heq. cbn [strip_left]. rewrite (proj1 (digit_no_space c Hd)).
    rewrite <- Heq. apply strip_right_print_uint.
  - cbn [strip_left]. change (is_space "-") with false. cbn [strip_right].
    rewrite strip_right_print_uint.
    by destruct (print_uint_cons p) as (c & r & -> & _).
Qed.

Lemma scan_digits_after_digit u : scan_digits true (print_uint u) = Some u.
Proof.
  induction u; cbn [print_uint scan_digits digit_of]; [done|..]; by rewrite IHu.
Qed.

Lemma scan_digits_print_uint p :
  scan_digits false (print_uint (Pos.to_uint p)) = Some (Pos.to_uint p).
Proof.
  pose proof (Unsigned.to_uint_nonnil p) as Hnil.
  destruct (Pos.to_uint p); [done|..]; cbn [print_uint scan_digits digit_of];
    by rewrite scan_digits_after_digit.
Qed.

Lemma int_str z : int (str z) = Some z.
Proof.
  unfold int, str. rewrite list_ascii_of_string_of_list_ascii, strip_print_int.
  destruct z as [|p|p]; [reflexivity|..]; cbn [print_int].
  - destruct (print_uint_cons p) as (c & r & Heq & Hc & Hd).
    rewrite Heq, Hc, (proj2 (digit_no_space c Hd)), <- Heq.
    rewrite scan_digits_print_uint. unfold N.of_uint.
    by rewrite DecimalPos.Unsigned.of_to.
  - cbn [Ascii.eqb Bool.eqb]. rewrite scan_digits_print_uint. unfold N.of_uint.
    by rewrite DecimalPos.Unsigned.of_to.
Qed.

Lemma str_nonempty z : str z ≠ EmptyString.
Proof.
  unfold str. destruct (PyJsonFacts.print_int_head z []) as (c & r & Hprint & _).
  rewrite app_nil_r in Hprint. by rewrite Hprint.
Qed.
End PyIntFacts.

#[global] Instance decimal_text_laws : IntTextLaws.
Proof.
  split.
  - apply PyIntFacts.int_str.
  - apply PyIntFacts.str_nonempty.
Qed.

Section AssetSensor.
Import AssetSensorDefinition.
Context `{laws : IntTextLaws}.

Lemma after_cursor_of_updated z context :
  after_cursor_of (update_cursor (Some (py_str z)) context) = Some z.
Proof.
  unfold after_cursor_of, update_cursor. cbn [cursor].
  destruct (String.eqb (py_str z) EmptyString) eqn:Hempty.
  - apply String.eqb_eq in Hempty. by destruct (py_str_nonempty z).
  - apply py_int_str.
Qed.

(** X19: an asset sensor hands every record to the user's function at most
    once. On a store whose ids grow, and with an [int] that reads back what
    [str] writes: when no record of the asset lies after the cursor, [_fn]
    yields nothing and leaves the context as it is; when it returns after a
    record was found, the cursor it leaves is [str] of the greatest storage
    id among the records of the asset after the cursor it started with, and
    a further run on the context it leaves, whatever the user's function,
    yields nothing and changes nothing. A cursor that [int] cannot read
    counts as no cursor. *)
Theorem asset_sensor_hands_over_once materialization_fn k store context :
  StronglySorted Z.lt (map storage_id store) ->
  instance context = Some store ->
  ((forall r, r ∈ store -> ~ unconsumed_after (after_cursor_of context) k r) ->
   _fn materialization_fn k context = Ok ([], context))
  ∧ forall items context',
      _fn materialization_fn k context = Ok (items, context') ->
      (exists r, r ∈ store ∧ unconsumed_after (after_cursor_of context) k r) ->
      (exists r,
         r ∈ store ∧ unconsumed_after (after_cursor_of context) k r
         ∧ (forall r', r' ∈ store -> unconsumed_after (after_cursor_of context) k r' ->
                       storage_id r' <= storage_id r)
         ∧ cursor context' = Some (py_str (storage_id r)))
      ∧ forall other_fn, _fn other_fn k context' = Ok ([], context').
Proof.
  intros Hsorted Hstore.
  pose proof (latest_asset_record store k (after_cursor_of context) Hsorted) as Hlatest.
  unfold _fn, get_instance. rewrite Hstore. cbn [mbind Result_bind].
  destruct (get_event_records store _ false (Some 1%nat)) as [|r rest] eqn:Hquery;
    cbn [head] in Hlatest.
  - split; [done|]. intros items context' _ (r & Hr & Hnew). by destruct (Hlatest r Hr).
  - destruct Hlatest as (Hr & Hnew & Hmax). split.
    { intros Hnone. by destruct (Hnone r Hr). }
    intros items context'.
    destruct (materialization_fn _ _) as [[result new_cursor]|]; cbn [mbind Result_bind];
      [|discriminate].
    intros [= <- <-] _. split.
    + exists r. by repeat (split; [done|]).
    + intros other_fn. cbn [instance update_cursor]. rewrite after_cursor_of_updated.
      rewrite Hstore. cbn [mbind Result_bind].
      pose proof (latest_asset_record store k (Some (storage_id r)) Hsorted) as Hnext.
      revert Hnext.
      destruct (get_event_records store
                  (asset_filter k None (Some (storage_id r)) None) false (Some 1%nat))
        as [|r' rest']; cbn [head]; intros Hnext; [done|].
      destruct Hnext as (Hr' & [Hasset Hlt] & _).
      assert (storage_id r' <= storage_id r).
      { apply Hmax; [done|]. split; [done|]. destruct Hnew as [_ Hafter].
        destruct (after_cursor_of context); [lia|done]. }
      lia.
Qed.
End AssetSensor.

Lemma asset_sensor_hands_over_once_witness :
  StronglySorted Z.lt (map storage_id scenario_store)
  ∧ AssetSensorDefinition.instance asset_sensor_context = Some scenario_store
  ∧ exists context',
      AssetSensorDefinition._fn requests_a_run "A" asset_sensor_context
      = Ok ([RunRequest None None], context')
      ∧ AssetSensorDefinition.cursor context' = Some "15"
      ∧ AssetSensorDefinition._fn requests_a_run "A" context' = Ok ([], context').
Proof.
  assert (H1 : StronglySorted Z.lt (map storage_id scenario_store))
    by exact (proj1 store_wf_scenario).
  assert (H2 : AssetSensorDefinition.instance asset_sensor_context = Some scenario_store)
    by reflexivity.
  split; [exact H1|]. split; [exact H2|].
  pose (context' := AssetSensorDefinition.update_cursor (Some "15") asset_sensor_context).
  exists context'.
  assert (H3 : AssetSensorDefinition._fn requests_a_run "A" asset_sensor_context
               = Ok ([RunRequest None None], context'))
    by (vm_compute; reflexivity).
  split; [exact H3|]. split; [reflexivity|].
  destruct (asset_sensor_hands_over_once (laws := decimal_text_laws) requests_a_run "A"
              scenario_store asset_sensor_context H1 H2) as [_ Hrun].
  assert (H4 : exists r, r ∈ scenario_store
                 ∧ unconsumed_after
                     (AssetSensorDefinition.after_cursor_of asset_sensor_context) "A" r).
  { exists (materialization 10 "A" (Some "p1")). split; [by left|].
    split; [reflexivity|]. vm_compute. reflexivity. }
  destruct (Hrun _ _ H3 H4) as [_ Honce]. exact (Honce requests_a_run).
Defined.

(** ** A function that returns nothing *)



(** ** The order of the advances *)

Lemma add_advanced_record_twice adv item :
  add_advanced_record (add_advanced_record adv item) item = add_advanced_record adv item.
Proof.
  unfold add_advanced_record. destruct item as [k [r|]]; cbn [fst snd]; [|done].
  cbn [advanced_record_ids_by_key partition_key_by_record_id advance_all_cursors_called].
  f_equal.
  - rewrite lookup_insert_eq, insert_insert_eq. cbn [default from_option id]. f_equal.
    apply set_eq. intros x. rewrite !elem_of_union. tauto.
  - by rewrite insert_insert_eq.
Qed.

Lemma add_advanced_record_comm adv item1 item2 :
  (forall r1 r2, snd item1 = Some r1 -> snd item2 = Some r2 ->
                 storage_id r1 = storage_id r2 ->
                 _get_partition_key_from_event_log_record r1
                 = _get_partition_key_from_event_log_record r2) ->
  add_advanced_record (add_advanced_record adv item1) item2
  = add_advanced_record (add_advanced_record adv item2) item1.
Proof.
  intros Hsame. unfold add_advanced_record.
  destruct item1 as [k1 [r1|]], item2 as [k2 [r2|]]; cbn [fst snd]; [|done..].
  cbn [advanced_record_ids_by_key partition_key_by_record_id advance_all_cursors_called].
  f_equal.
  - apply map_eq. intros k.
    destruct (decide (k1 = k2)) as [->|Hk].
    + rewrite !lookup_insert_eq, !insert_insert_eq. cbn [default from_option id].
      destruct (decide (k = k2)) as [->|Hne].
      * rewrite !lookup_insert_eq. f_equal. apply set_eq. intros x.
        rewrite !elem_of_union. tauto.
      * by rewrite !lookup_insert_ne.
    + rewrite (lookup_insert_ne _ k1 k2), (lookup_insert_ne _ k2 k1) by done.
      by rewrite insert_insert_ne.
  - destruct (decide (storage_id r1 = storage_id r2)) as [Hid|Hid].
    + rewrite Hid, !insert_insert_eq. by rewrite (Hsame r1 r2 eq_refl eq_refl Hid).
    + by rewrite insert_insert_ne.
Qed.

Section AdvanceOrder.
Context (store : list EventLogRecord) (Hnd : NoDup (map storage_id store)).

Lemma same_id_same_partition r1 r2 :
  r1 ∈ store -> r2 ∈ store -> storage_id r1 = storage_id r2 ->
  _get_partition_key_from_event_log_record r1 = _get_partition_key_from_event_log_record r2.
Proof.
  intros H1 H2 Hid. pose proof (stored_event_unique store r1 Hnd H1) as E1.
  pose proof (stored_event_unique store r2 Hnd H2) as E2. rewrite Hid in E1. congruence.
Qed.

Lemma add_advanced_record_records_comm m :
  forall adv item,
    records_of_store store m -> records_of_store store [item] ->
    add_advanced_record (add_advanced_records adv m) item
    = add_advanced_records (add_advanced_record adv item) m.
Proof.
  induction m as [|i m IH]; intros adv item Hm Hitem; [done|].
  cbn [add_advanced_records fold_left]. fold (add_advanced_records (add_advanced_record adv i) m).
  rewrite IH; [|intros k r Hin; apply (Hm k r); by right|done].
  fold (add_advanced_records (add_advanced_record (add_advanced_record adv item) i) m).
  f_equal. apply add_advanced_record_comm. intros r1 r2 H1 H2.
  apply same_id_same_partition.
  - apply (Hm (fst i) r1). destruct i as [k o]. cbn in H1. subst o. by left.
  - apply (Hitem (fst item) r2). destruct item as [k o]. cbn in H2. subst o. by left.
Qed.

Lemma add_advanced_records_comm m1 :
  forall adv m2,
    records_of_store store m1 -> records_of_store store m2 ->
    add_advanced_records (add_advanced_records adv m1) m2
    = add_advanced_records (add_advanced_records adv m2) m1.
Proof.
  induction m1 as [|i m1 IH]; intros adv m2 H1 H2; [done|].
  cbn [add_advanced_records fold_left].
  fold (add_advanced_records (add_advanced_record adv i) m1).
  fold (add_advanced_records (add_advanced_record (add_advanced_records adv m2) i) m1).
  rewrite IH; [|intros k r Hin; apply (H1 k r); by right|done].
  f_equal. symmetry. apply add_advanced_record_records_comm; [done|].
  intros k r Hin. apply list_elem_of_singleton in Hin as <-. apply (H1 k r). by left.
Qed.

Lemma add_advanced_records_twice m :
  forall adv,
    records_of_store store m ->
    add_advanced_records (add_advanced_records adv m) m = add_advanced_records adv m.
Proof.
  induction m as [|i m IH]; intros adv Hm; [done|].
  cbn [add_advanced_records fold_left].
  fold (add_advanced_records (add_advanced_record adv i) m).
  assert (Hm' : records_of_store store m) by (intros k r Hin; apply (Hm k r); by right).
  assert (Hi : records_of_store store [i]).
  { intros k r Hin. apply list_elem_of_singleton in Hin as <-. apply (Hm k r). by left. }
  fold (add_advanced_records
          (add_advanced_record (add_advanced_records (add_advanced_record adv i) m) i) m).
  rewrite (add_advanced_record_records_comm m _ i Hm' Hi), add_advanced_record_twice.
  by apply IH.
Qed.

(** X21: the advances of a tick are a set. When the records handed to
    [advance_cursor] are records of a store without a repeated id, two
    calls leave the same context in either order, and a call repeated
    leaves what the call left. *)
Theorem advance_cursor_calls_commute m1 m2 ctx :
  records_of_store store m1 -> records_of_store store m2 ->
  (advance_cursor m1;; advance_cursor m2) ctx = (advance_cursor m2;; advance_cursor m1) ctx
  ∧ (advance_cursor m1;; advance_cursor m1) ctx = advance_cursor m1 ctx.
Proof.
  intros H1 H2.
  assert (Hrun : forall m c,
            advance_cursor m c
            = Ok (tt, set_advances (add_advanced_records (cursor_advance_state_mutation c) m)
                        true c)) by done.
  rewrite !tick_bind_run, !Hrun. unfold set_advances.
  cbn [asset_keys partitions_def_by_asset_key instance cursor unpacked_cursor
       cursor_advance_state_mutation initial_unconsumed_events_by_id
       fetched_initial_unconsumed_events].
  rewrite (add_advanced_records_comm m1 _ m2 H1 H2).
  by rewrite (add_advanced_records_twice m1 _ H1).
Qed.
End AdvanceOrder.

Lemma advance_cursor_calls_commute_witness :
  let m1 := [("A", Some (materialization 10 "A" (Some "p1")))] in
  let m2 := [("A", Some (materialization 15 "A" (Some "p1"))); ("B", None)] in
  NoDup (map storage_id scenario_store)
  ∧ records_of_store scenario_store m1
  ∧ records_of_store scenario_store m2
  ∧ (advance_cursor m1;; advance_cursor m2) scenario_context
    = (advance_cursor m2;; advance_cursor m1) scenario_context
  ∧ (advance_cursor m1;; advance_cursor m1) scenario_context
    = advance_cursor m1 scenario_context.
Proof.
  intros m1 m2.
  assert (H1 : NoDup (map storage_id scenario_store))
    by exact (store_wf_NoDup _ store_wf_scenario).
  assert (H2 : records_of_store scenario_store m1).
  { intros k r Hin. apply list_elem_of_singleton in Hin as [= _ ->]. by left. }
  assert (H3 : records_of_store scenario_store m2).
  { intros k r Hin. apply elem_of_cons in Hin as [[= _ ->]|Hin].
    - right. right. by left.
    - by apply list_elem_of_singleton in Hin. }
  split; [exact H1|]. split; [exact H2|]. split; [exact H3|].
  exact (advance_cursor_calls_commute scenario_store H1 m1 m2 scenario_context H2 H3).
Defined.

(** ** Partition keys downstream *)

Lemma py_index_Some_elem x l i : py_index x l = Some i -> x ∈ l ∧ l !! i = Some x.
Proof.
  revert i. induction l as [|y l IH]; intros i; cbn [py_index]; [discriminate|].
  destruct (decide (x = y)) as [->|Hne].
  - intros [= <-]. split; [by left|done].
  - destruct (py_index x l) as [j|]; cbn; [|discriminate]. intros [= <-].
    destruct (IH j eq_refl) as [Hin Hj]. split; [by right|done].
Qed.

Lemma py_index_elem x l : x ∈ l -> exists i, py_index x l = Some i.
Proof.
  intros Hin. pose proof (py_index_spec x l) as Hspec.
  destruct (py_index x l) as [i|]; [by exists i|done].
Qed.

Lemma py_slice_inclusive {A} (l : list A) i j x y :
  l !! i = Some x -> l !! j = Some y -> (i <= j)%nat ->
  exists before after,
    l = (before ++ py_slice l i (j + 1) ++ after)%list
    ∧ length before = i
    ∧ head (py_slice l i (j + 1)) = Some x
    ∧ last (py_slice l i (j + 1)) = Some y.
Proof.
  intros Hi Hj Hle. unfold py_slice. exists (take i l), (drop (j + 1 - i) (drop i l)).
  assert (Hlen : (j < length l)%nat) by by eapply lookup_lt_Some.
  split; [by rewrite take_drop, take_drop|].
  split; [rewrite length_take; lia|]. split.
  - rewrite head_lookup, lookup_take_lt, lookup_drop by lia.
    by rewrite Nat.add_0_r.
  - rewrite last_lookup, length_take, length_drop.
    replace (Init.Nat.pred (Nat.min (j + 1 - i) (length l - i))) with (j - i)%nat by lia.
    rewrite lookup_take_lt, lookup_drop by lia.
    by replace (i + (j - i))%nat with j by lia.
Qed.

(** X22: [get_downstream_partition_keys] between two partitioned assets.
    When the downstream partitions definition is a time window, it never
    raises: a range that leaves the partition keys gives a warning only, and
    the keys of the range are returned as the definition computes them.
    When it is not, a range whose start or end is no partition key is
    refused with [DagsterInvalidInvocationError]; otherwise no warning is
    given and the partition keys from the first occurrence of the start of
    the range to the first occurrence of its end are returned, both
    included, and none when the end comes first. *)
Theorem get_downstream_partition_keys_range view partition_key from_asset_key to_asset_key
    to_partitions_def from_partitions_def :
  _get_asset view to_asset_key = Ok (Some to_partitions_def) ->
  _get_asset view from_asset_key = Ok (Some from_partitions_def) ->
  let range :=
    get_downstream_partitions_for_partition_range view to_asset_key from_asset_key
      partition_key in
  let keys := get_partition_keys to_partitions_def in
  let returned :=
    get_downstream_partition_keys view partition_key from_asset_key to_asset_key in
  if is_time_window to_partitions_def then
    exists warned,
      returned = Ok (warned, get_partition_keys_in_range view to_partitions_def range)
      ∧ (warned = false <-> fst range ∈ keys ∧ snd range ∈ keys)
  else if decide (fst range ∈ keys ∧ snd range ∈ keys) then
    exists i j,
      py_index (fst range) keys = Some i ∧ py_index (snd range) keys = Some j
      ∧ returned = Ok (false, py_slice keys i (j + 1))
      ∧ ((j < i)%nat -> py_slice keys i (j + 1) = [])
      ∧ ((i <= j)%nat ->
         exists before after,
           keys = (before ++ py_slice keys i (j + 1) ++ after)%list
           ∧ length before = i
           ∧ head (py_slice keys i (j + 1)) = Some (fst range)
           ∧ last (py_slice keys i (j + 1)) = Some (snd range))
  else returned = Raise DagsterInvalidInvocationError.
Proof.
  intros Hto Hfrom range keys returned. unfold returned, get_downstream_partition_keys.
  rewrite Hto, Hfrom. cbn [mbind Result_bind]. fold range. fold keys.
  destruct (is_time_window to_partitions_def).
  - rewrite andb_false_r. eexists. split; [reflexivity|].
    rewrite orb_false_iff, !negb_false_iff, !bool_decide_eq_true. done.
  - rewrite andb_true_r. destruct (decide (fst range ∈ keys ∧ snd range ∈ keys)) as [[Hs He]|Hout].
    + rewrite !bool_decide_eq_true_2 by done. cbn [negb orb].
      destruct (py_index_elem _ _ Hs) as [i Hi]. destruct (py_index_elem _ _ He) as [j Hj].
      rewrite Hi, Hj. exists i, j. repeat (split; [done|]).
      apply py_index_Some_elem in Hi as [_ Hi]. apply py_index_Some_elem in Hj as [_ Hj].
      split.
      * intros Hlt. unfold py_slice. replace (j + 1 - i)%nat with 0%nat by lia. done.
      * intros Hle. by apply py_slice_inclusive.
    + destruct (bool_decide (fst range ∈ keys)) eqn:Hs; cbn [negb orb]; [|done].
      destruct (bool_decide (snd range ∈ keys)) eqn:He; cbn [negb]; [|done].
      apply bool_decide_eq_true in Hs, He. by destruct Hout.
Qed.

Lemma get_downstream_partition_keys_range_witness :
  _get_asset identity_view "B" = Ok (Some letters)
  ∧ _get_asset identity_view "A" = Ok (Some letters)
  ∧ get_downstream_partition_keys identity_view "c" "A" "B" = Ok (false, ["c"])
  ∧ get_downstream_partition_keys identity_view "z" "A" "B"
    = Raise DagsterInvalidInvocationError.
Proof.
  assert (H1 : _get_asset identity_view "B" = Ok (Some letters)) by reflexivity.
  assert (H2 : _get_asset identity_view "A" = Ok (Some letters)) by reflexivity.
  split; [exact H1|]. split; [exact H2|]. split; [reflexivity|].
  pose proof (get_downstream_partition_keys_range identity_view "z" "A" "B" _ _ H1 H2) as H.
  cbv zeta in H. cbn [is_time_window letters] in H.
  rewrite decide_False in H; [exact H|]. intros [Hin _]. revert Hin. by_compute.
Defined.

(** ** The errors of the queries by partition *)

(** X24: [latest_materialization_records_by_partition] raises in four
    cases and returns in every other: for an asset key that is not monitored
    it raises [DagsterInvalidInvocationError]; for a monitored asset without
    a partitions definition [DagsterInvariantViolationError]; with
    [after_cursor_partition], when the consumed partition of the cursor is
    not one of the partition keys, the [ValueError] of [list.index]; and
    past these checks, on a context built without an instance, the
    [DagsterInvariantViolationError] of the [instance] property. *)
Theorem latest_materialization_records_by_partition_errors ctx k (after : bool) :
  match latest_materialization_records_by_partition k after ctx with
  | Ok _ =>
      k ∈ asset_keys ctx ∧ has_instance ctx
      ∧ exists keys,
          partitions_def_by_asset_key ctx k = Some keys
          ∧ forall p, after = true ->
                      latest_consumed_event_partition (_get_cursor ctx k) = Some p ->
                      p ∈ keys
  | Raise e =>
      ((k ∉ asset_keys ctx) ∧ e = DagsterInvalidInvocationError)
      ∨ (k ∈ asset_keys ctx ∧ partitions_def_by_asset_key ctx k = None
         ∧ e = DagsterInvariantViolationError)
      ∨ (k ∈ asset_keys ctx
         ∧ exists keys p,
             partitions_def_by_asset_key ctx k = Some keys ∧ after = true
             ∧ latest_consumed_event_partition (_get_cursor ctx k) = Some p
             ∧ (p ∉ keys) ∧ e = ValueError)
      ∨ (k ∈ asset_keys ctx ∧ is_Some (partitions_def_by_asset_key ctx k)
         ∧ _instance ctx = None ∧ e = DagsterInvariantViolationError)
  end.
Proof.
  unfold latest_materialization_records_by_partition. rewrite tick_bind_run. cbn [tick_get].
  destruct (decide (k ∈ asset_keys ctx)) as [Hk|Hk].
  2: { rewrite bool_decide_eq_false_2 by done. left. done. }
  rewrite bool_decide_eq_true_2 by done. cbn [negb].
  destruct (partitions_def_by_asset_key ctx k) as [keys|] eqn:Hdef.
  2: { right. left. done. }
  rewrite tick_bind_run.
  pose proof (partitions_after_cursor_spec ctx k) as Hafter. rewrite Hdef in Hafter.
  assert (Hrest : forall ptf,
            match
              (unconsumed ← _get_unconsumed_events_with_ids
                 (dict_values (trailing_unconsumed_partitioned_event_ids (_get_cursor ctx k)));
               store ← read_instance;
               mret (fold_left
                       (fun d materialization =>
                          match _get_partition_key_from_event_log_record materialization with
                          | Some partition => ordered_put partition materialization d
                          | None => d
                          end)
                       (get_event_records store
                          (asset_filter k (Some ptf)
                             (latest_consumed_event_id (_get_cursor ctx k)) None)
                          true None)
                       (fold_left
                          (fun d unconsumed_event =>
                             match _get_partition_key_from_event_log_record unconsumed_event
                             with
                             | Some partition =>
                                 if bool_decide (partition ∈ ptf)
                                 then ordered_put partition unconsumed_event d else d
                             | None => d
                             end)
                          (merge_sort by_storage_id unconsumed) []))) ctx
            with
            | Ok _ => has_instance ctx
            | Raise e => _instance ctx = None ∧ e = DagsterInvariantViolationError
            end).
  { intros ptf. rewrite tick_bind_run.
    destruct (_get_unconsumed_events_with_ids _ ctx) as [[events ctx']|e] eqn:Hget.
    - apply preserves_unconsumed_events_with_ids in Hget as ((_ & Hi & _) & _).
      rewrite tick_bind_run. unfold read_instance, has_instance. rewrite Hi.
      destruct (_instance ctx); cbn; [by eexists|done].
    - by apply _get_unconsumed_events_with_ids_error in Hget as [-> ->]. }
  destruct after.
  - destruct (latest_consumed_event_partition (_get_cursor ctx k)) as [p|] eqn:Hp.
    + destruct (decide (p ∈ keys)) as [Hin|Hout].
      * destruct Hafter as (before & following & -> & _ & _).
        specialize (Hrest following). cbv zeta in Hrest |- *.
        match type of Hrest with match ?r with _ => _ end =>
          destruct r as [[result ctx']|e] end.
        -- split; [done|]. split; [done|]. exists keys. split; [done|].
           by intros p' _ [= <-].
        -- destruct Hrest as [? ->]. do 3 right. done.
      * rewrite Hafter. right. right. left. split; [done|]. by exists keys, p.
    + rewrite Hafter. specialize (Hrest keys). cbv zeta in Hrest |- *.
      match type of Hrest with match ?r with _ => _ end =>
          destruct r as [[result ctx']|e] end.
      * split; [done|]. split; [done|]. exists keys. split; [done|]. by intros p' _ [=].
      * destruct Hrest as [? ->]. do 3 right. done.
  - cbn [mret Tick_ret tick_ret]. specialize (Hrest keys). cbv zeta in Hrest |- *.
    match type of Hrest with match ?r with _ => _ end =>
          destruct r as [[result ctx']|e] end.
    + split; [done|]. split; [done|]. exists keys. split; [done|]. by intros p' [=].
    + destruct Hrest as [? ->]. do 3 right. done.
Qed.

(** ** The errors of the decoding *)

Lemma length_chars_of s : length (chars_of s) = String.length s.
Proof.
  unfold chars_of. rewrite length_map.
  induction s as [|c s IH]; cbn [list_ascii_of_string length String.length]; [done|].
  by rewrite IH.
Qed.

Lemma py_unpack3_of_len_3 v : py_len v = Ok 3%nat -> exists abc, py_unpack3 v = Ok abc.
Proof.
  destruct v as [| | | |s|l|items]; cbn [py_len py_unpack3]; try discriminate.
  - intros [= Hlen]. rewrite <- length_chars_of in Hlen.
    destruct (chars_of s) as [|a [|b [|c [|d l]]]]; try discriminate. by eexists.
  - intros [= Hlen]. destruct l as [|a [|b [|c [|d l]]]]; try discriminate. by eexists.
  - intros [= Hlen]. destruct items as [|a [|b [|c [|d l]]]]; try discriminate. by eexists.
Qed.

Lemma new_cursor_component_error p e t err :
  new_cursor_component p e t = Raise err -> err = CheckError.
Proof.
  unfold new_cursor_component.
  destruct (opt_str_param p) as [?|e1] eqn:Hp; cbn [mbind Result_bind].
  2: { intros [= <-]. destruct p; cbn in Hp; congruence. }
  destruct (opt_int_param e) as [?|e2] eqn:He; cbn [mbind Result_bind].
  2: { intros [= <-]. destruct e; cbn in He; congruence. }
  destruct (dict_param_str_int t) as [?|e3] eqn:Ht; cbn [mbind Result_bind]; [discriminate|].
  intros [= <-]. destruct t as [| | | | | |items]; cbn [dict_param_str_int] in Ht;
    try congruence.
  clear Hp He. revert e3 Ht.
  induction items as [|[k v] items IH]; intros e3; cbn [check_int_values]; [discriminate|].
  destruct v; try congruence;
    (destruct (check_int_values items) as [?|e4]; cbn [mbind Result_bind];
     [discriminate|intros [= <-]; by apply IH]).
Qed.

Lemma unpack_cursor_entries_error items :
  forall acc e,
    unpack_cursor_entries items acc = Raise e -> e = TypeError ∨ e = CheckError.
Proof.
  induction items as [|[key v] items IH]; intros acc e; cbn [unpack_cursor_entries];
    [discriminate|].
  destruct (py_len v) as [n|e1] eqn:Hlen; cbn [mbind Result_bind].
  2: { intros [= <-]. left. destruct v; cbn in Hlen; congruence. }
  destruct (Nat.eqb n 3) eqn:Hn; cbn [negb]; [|discriminate].
  apply Nat.eqb_eq in Hn as ->.
  destruct (py_unpack3_of_len_3 v Hlen) as ([[a b] c] & ->). cbn [mbind Result_bind].
  destruct (new_cursor_component a b c) as [comp|e2] eqn:Hcomp; cbn [mbind Result_bind].
  - apply IH.
  - intros [= <-]. right. by eapply new_cursor_component_error.
Qed.

(** X25: the errors of decoding a cursor string. An error of [json.loads]
    on the string is the error of the decoding, whichever it is
    ([JSONDecodeError] for a text that is no JSON, [RecursionError] for one
    nested too deep). A string that holds something other than an object
    raises [AttributeError]; an object raises [TypeError], for an entry
    without a length (a number, a float included), or [CheckError], for an
    entry of length 3 whose parts are not of the types of a component (a
    float where an int is expected included), and nothing else: an entry of
    length 3 is always unpacked. No cursor and the empty string are decoded
    without an error. *)
Theorem new_context_cursor_errors `{codec : JsonCodec} cursor_str e :
  new_context_cursor cursor_str = Raise e ->
  exists s,
    cursor_str = Some s ∧ s ≠ EmptyString
    ∧ match json_loads s with
      | Raise loads_error => e = loads_error
      | Ok (JObj _) => e = TypeError ∨ e = CheckError
      | Ok _ => e = AttributeError
      end.
Proof.
  unfold new_context_cursor. destruct cursor_str as [s|]; [|discriminate].
  destruct (decide (s = EmptyString)) as [->|Hs]; [discriminate|].
  intros Hrun. exists s. split; [done|]. split; [done|].
  destruct (json_loads s) as [v|e']; cbn [mbind Result_bind] in Hrun; [|by injection Hrun].
  destruct v; cbn [unpack_loaded_cursor] in Hrun; try by injection Hrun.
  by eapply unpack_cursor_entries_error.
Qed.

Lemma new_context_cursor_errors_witness :
  (new_context_cursor (H := python_json) (Some cursor_of_ints) = Raise TypeError
   ∧ exists s,
       Some cursor_of_ints = Some s ∧ s ≠ EmptyString
       ∧ match json_loads s with
         | Raise loads_error => TypeError = loads_error
         | Ok (JObj _) => TypeError = TypeError ∨ TypeError = CheckError
         | Ok _ => TypeError = AttributeError
         end)
  ∧ (new_context_cursor (H := python_json) (Some cursor_of_float_component)
     = Raise CheckError
     ∧ exists s,
         Some cursor_of_float_component = Some s ∧ s ≠ EmptyString
         ∧ match json_loads s with
           | Raise loads_error => CheckError = loads_error
           | Ok (JObj _) => CheckError = TypeError ∨ CheckError = CheckError
           | Ok _ => CheckError = AttributeError
           end)
  ∧ (new_context_cursor (H := python_json) (Some cursor_of_deep_nesting)
     = Raise RecursionError
     ∧ exists s,
         Some cursor_of_deep_nesting = Some s ∧ s ≠ EmptyString
         ∧ match json_loads s with
           | Raise loads_error => RecursionError = loads_error
           | Ok (JObj _) => RecursionError = TypeError ∨ RecursionError = CheckError
           | Ok _ => RecursionError = AttributeError
           end).
Proof.
  assert (H1 : new_context_cursor (H := python_json) (Some cursor_of_ints) = Raise TypeError)
    by (vm_compute; reflexivity).
  assert (H2 : new_context_cursor (H := python_json) (Some cursor_of_float_component)
               = Raise CheckError)
    by (vm_compute; reflexivity).
  assert (H3 : new_context_cursor (H := python_json) (Some cursor_of_deep_nesting)
               = Raise RecursionError)
    by (vm_compute; reflexivity).
  split; [split; [exact H1|]; exact (new_context_cursor_errors _ _ H1)|].
  split; [split; [exact H2|]; exact (new_context_cursor_errors _ _ H2)|].
  split; [exact H3|]. exact (new_context_cursor_errors _ _ H3).
Defined.

(** ** The keys of the next cursor *)

Lemma tick_mapM_keys {B} (f : AssetKey -> Tick B) keys :
  forall ctx items ctx',
    tick_mapM (fun asset_key => component ← f asset_key;
                                mret (str_asset_key asset_key, component)) keys ctx
    = Ok (items, ctx') ->
    map fst items = keys.
Proof.
  induction keys as [|k keys IH]; intros ctx items ctx'.
  - by intros [= <- _].
  - rewrite tick_mapM_cons, tick_bind_run.
    destruct (f k ctx) as [[c ctx1]|]; [|discriminate]. cbn [mret Tick_ret tick_ret].
    destruct (tick_mapM _ keys ctx1) as [[bs ctx2]|] eqn:Hrest; [|discriminate].
    intros [= <- _]. cbn [map fst]. f_equal. by eapply IH.
Qed.

Lemma dict_of_items_keys {K V} `{EqDecision K} (items : list (K * V)) k :
  k ∈ map fst (dict_of_items items) <-> k ∈ map fst items.
Proof.
  unfold dict_of_items.
  assert (Hgen : forall d,
            k ∈ map fst (fold_left (fun d kv => dict_set (fst kv) (snd kv) d) items d)
            <-> k ∈ map fst d ∨ k ∈ map fst items).
  { induction items as [|[k' v'] items IH]; intros d; cbn [fold_left map fst snd].
    - rewrite elem_of_nil. tauto.
    - rewrite IH, dict_set_keys, elem_of_cons. tauto. }
  rewrite Hgen. cbn [map]. rewrite elem_of_nil. tauto.
Qed.

(** X26: the next cursor files the monitored assets and no other key. The
    cursor map that [get_cursor_with_advances] encodes holds no key twice
    and holds exactly the asset keys of the context, in their order when
    none is repeated; an entry the cursor had for another key is not carried
    over. *)
Theorem next_cursor_files_monitored_assets adv ctx m ctx' :
  asset_cursors_with_advances adv ctx = Ok (m, ctx') ->
  dict_wf m
  ∧ (forall k, k ∈ map fst m <-> k ∈ asset_keys ctx)
  ∧ (NoDup (asset_keys ctx) -> map fst m = asset_keys ctx).
Proof.
  unfold asset_cursors_with_advances. rewrite tick_bind_run. cbn [tick_get].
  rewrite tick_bind_run.
  destruct (tick_mapM _ (asset_keys ctx) ctx) as [[items ctx1]|] eqn:Hitems; [|discriminate].
  intros [= <- _]. apply tick_mapM_keys in Hitems.
  split; [apply dict_of_items_dict_wf|]. split.
  - intros k. by rewrite dict_of_items_keys, Hitems.
  - intros Hnd. rewrite dict_of_items_wf; [done|]. unfold dict_wf. by rewrite Hitems.
Qed.

Lemma next_cursor_files_monitored_assets_witness :
  let ctx := context_at_tick_start ["B"] two_assets_store
               [("A", component (Some "p1") (Some 9) [("p2", 5)])] in
  let adv := add_advanced_records new_cursor_advances
               [("B", Some (materialization 20 "B" (Some "q1")))] in
  exists m ctx',
    asset_cursors_with_advances adv ctx = Ok (m, ctx')
    ∧ m = [("B", component (Some "q1") (Some 20) [])]
    ∧ map fst m = asset_keys ctx.
Proof.
  intros ctx adv.
  pose (r := asset_cursors_with_advances adv ctx).
  pose (m := match r with Ok (m, _) => m | Raise _ => [] end).
  pose (ctx' := match r with Ok (_, c) => c | Raise _ => ctx end).
  exists m, ctx'.
  assert (H1 : asset_cursors_with_advances adv ctx = Ok (m, ctx'))
    by (vm_compute; reflexivity).
  split; [exact H1|]. split; [vm_compute; reflexivity|].
  destruct (next_cursor_files_monitored_assets adv ctx m ctx' H1) as (_ & _ & Hkeys).
  apply Hkeys. by_compute.
Defined.

(** ** Advanced records are consumed *)

Lemma dict_pop_not_elem {K V} `{EqDecision K} (k : K) (v : V) (d : list (K * V)) :
  dict_wf d -> (k, v) ∉ dict_pop k d.
Proof.
  intros Hwf Hin. apply (dict_pop_notin k d Hwf). by apply (list_elem_of_fmap_2 fst) in Hin.
Qed.

Lemma dict_set_elem {K V} `{EqDecision K} (k : K) (v : V) (d : list (K * V)) kv :
  kv ∈ dict_set k v d -> kv = (k, v) ∨ kv ∈ d.
Proof.
  induction d as [|[k' v'] d IH]; cbn [dict_set].
  - intros Hin. apply list_elem_of_singleton in Hin. by left.
  - destruct (decide (k = k')) as [->|Hne]; rewrite !elem_of_cons; [tauto|].
    intros [->|Hin]; [by right; left|]. destruct (IH Hin); [by left|by right; right].
Qed.

Lemma overlay_event_wf advanced d e :
  dict_wf d -> dict_wf (overlay_event advanced d e).
Proof.
  intros Hwf. by destruct (overlay_event_invariant (fun _ => True) advanced d e)
    as [? _]; [done|split; [done|apply Forall_true]|].
Qed.

Section AdvancedConsumed.
Context (store : list EventLogRecord) (Hnd : NoDup (map storage_id store)).
Context (advanced : gset Z) (t0 : list (string * Z)) (Ht0 : trailing_of_store store t0).

Lemma fold_overlay_advanced es :
  forall d,
    (forall e, e ∈ es -> e ∈ store) ->
    dict_wf d ->
    (forall p id, (p, id) ∈ d ->
                  (id ∉ advanced)
                  ∨ ((p, id) ∈ t0 ∧ exists e, e ∈ es ∧ storage_id e = id)) ->
    forall p id, (p, id) ∈ fold_left (overlay_event advanced) es d -> id ∉ advanced.
Proof.
  induction es as [|e es IH]; intros d Hes Hwf Hinv; cbn [fold_left].
  - intros p id Hin. destruct (Hinv p id Hin) as [?|[_ (e & He & _)]]; [done|].
    by apply elem_of_nil in He.
  - apply IH; [intros e' He'; apply Hes; by right|by apply overlay_event_wf|].
    intros p id Hin.
    assert (Hpending : forall p' id', (p', id') ∈ d ->
              (id' ∉ advanced)
              ∨ ((p', id') ∈ t0 ∧ storage_id e = id')
              ∨ ((p', id') ∈ t0 ∧ exists e', e' ∈ es ∧ storage_id e' = id')).
    { intros p' id' Hin'. destruct (Hinv p' id' Hin') as [?|[Hin0 (e' & He' & Hid)]];
        [by left|]. right.
      apply elem_of_cons in He' as [->|He']; [by left|]. right. split; [done|by exists e']. }
    assert (Hsame : forall p', (p', storage_id e) ∈ t0 ->
              _get_partition_key_from_event_log_record e = Some p').
    { intros p' Hin'. destruct (Ht0 _ _ Hin') as (e0 & Hstored & Hp).
      assert (stored_event store (storage_id e) = Some e) as Hself
        by (apply stored_event_unique; [done|apply Hes; by left]).
      congruence. }
    unfold overlay_event in Hin. unfold _get_partition_key_from_event_log_record in Hsame.
    destruct (dagster_event e) as [ev|] eqn:Hev.
    2: { destruct (Hpending p id Hin) as [?|[[Hin0 <-]|?]]; [by left| |by right].
         by specialize (Hsame p Hin0). }
    destruct (event_partition ev) as [q|] eqn:Hq.
    2: { destruct (Hpending p id Hin) as [?|[[Hin0 <-]|?]]; [by left| |by right].
         by specialize (Hsame p Hin0). }
    destruct (decide (storage_id e ∈ advanced)) as [Hadv|Hnot].
    + pose proof Hin as Hpop. apply (dict_pop_subseteq q) in Hin.
      destruct (Hpending p id Hin) as [?|[[Hin0 <-]|?]]; [by left| |by right].
      specialize (Hsame p Hin0). injection Hsame as <-.
      by destruct (dict_pop_not_elem q (storage_id e) d Hwf).
    + apply dict_set_elem in Hin as [[= -> ->]|Hin]; [by left|].
      destruct (Hpending p id Hin) as [?|[[Hin0 <-]|?]]; [by left|by left|by right].
Qed.
End AdvancedConsumed.

Lemma asset_cursor_consumes_advanced ctx adv k c ctx' :
  has_instance ctx ->
  store_wf (instance ctx) -> k ∈ asset_keys ctx -> cache_ready ctx k -> advances_wf adv ->
  dict_wf (trailing_unconsumed_partitioned_event_ids (_get_cursor ctx k)) ->
  trailing_of_store (instance ctx)
    (trailing_unconsumed_partitioned_event_ids (_get_cursor ctx k)) ->
  get_asset_cursor_with_advances adv k ctx = Ok (c, ctx') ->
  forall id,
    id ∈ advanced_ids adv k ->
    (id ∉ dict_values (trailing_unconsumed_partitioned_event_ids c))
    ∧ forall r, r ∈ instance ctx -> storage_id r = id ->
                ~ unconsumed_after (latest_consumed_event_id c) k r.
Proof.
  intros Hinst Hstore Hk Hready Hadv Hwf Hagree Hrun id Hid.
  assert (Hsome : advanced_ids adv k ≠ ∅).
  { intros Hempty. rewrite Hempty in Hid. by apply elem_of_empty in Hid. }
  pose proof (get_asset_cursor_with_advances_spec ctx adv k Hinst Hstore Hk Hready Hadv
                Hsome) as Hspec.
  destruct (next_component _ adv k _) as [c'|e] eqn:Hnext; [|by rewrite Hspec in Hrun].
  destruct Hspec as (ctx'' & Hrun' & _). rewrite Hrun' in Hrun. injection Hrun as <- _.
  clear Hrun'. unfold next_component in Hnext.
  destruct (_ <=? _)%nat; [discriminate|]. injection Hnext as <-.
  cbn [trailing_unconsumed_partitioned_event_ids latest_consumed_event_id].
  pose proof (store_wf_NoDup _ Hstore) as Hnd. destruct Hstore as [_ Hpos].
  destruct (max_advanced_id_upper adv k Hsome) as [_ Hupper]. specialize (Hupper id Hid).
  split.
  - destruct (advance_all_cursors_called adv); [apply not_elem_of_nil|].
    intros Hin. apply (list_elem_of_fmap snd) in Hin as ([p id'] & -> & Hin).
    unfold trailing_with_backlog in Hin.
    assert (Hfold : (p, id') ∈ fold_left (overlay_event (advanced_ids adv k))
              (trailing_events_at_tick_start (instance ctx)
                 (trailing_unconsumed_partitioned_event_ids (_get_cursor ctx k))
               ++ events_strictly_between (instance ctx) k
                    (or_zero (latest_consumed_event_id (_get_cursor ctx k)))
                    (max_advanced_id adv k))%list
              (trailing_unconsumed_partitioned_event_ids (_get_cursor ctx k))).
    { unfold remove_partition in Hin. destruct (max_advanced_partition adv k); [|done].
      by apply (dict_pop_subseteq s). }
    revert Hfold. cbn [snd] in Hid.
    intros Hfold. eapply (fold_overlay_advanced (instance ctx) Hnd (advanced_ids adv k) _ Hagree);
      [| |  |exact Hfold|exact Hid]; [|done|].
    + intros e He. apply elem_of_app in He as [He|He].
      * by apply (elem_of_trailing_events _ _ _ Hnd) in He as [? _].
      * by apply list_elem_of_filter in He as [_ ?].
    + intros p0 id0 Hin0. right. split; [done|].
      destruct (Hagree p0 id0 Hin0) as (e0 & Hstored & _).
      exists e0. apply stored_event_Some in Hstored as [He0 Hid0]. split; [|done].
      apply elem_of_app. left. apply (elem_of_trailing_events _ _ _ Hnd). split; [done|].
      rewrite Hid0. by apply (list_elem_of_fmap_2 snd _ (p0, id0)).
  - intros r Hr <- [_ Hafter]. unfold consumed_pointer in Hafter.
    rewrite Forall_forall in Hpos. specialize (Hpos r Hr).
    destruct (_ <? _) eqn:Hmoved; cbn [snd] in Hafter.
    + lia.
    + apply Z.ltb_ge in Hmoved.
      destruct (latest_consumed_event_id (_get_cursor ctx k)); cbn in Hmoved; lia.
Qed.

(** X27: a record advanced in a tick is consumed by the next cursor. On a
    store whose ids are positive and growing, for a monitored asset whose
    trailing map holds no partition twice and agrees with the store: when
    [get_asset_cursor_with_advances] returns a component, no advanced id is
    a value of its trailing map, and no advanced record of the asset lies
    after its consumed id; so the record is neither a trailing event nor a
    new materialization of the next tick. *)
Theorem advanced_records_are_consumed ctx adv k c ctx' :
  store_wf (instance ctx) -> k ∈ asset_keys ctx -> cache_ready ctx k -> advances_wf adv ->
  dict_wf (trailing_unconsumed_partitioned_event_ids (_get_cursor ctx k)) ->
  trailing_of_store (instance ctx)
    (trailing_unconsumed_partitioned_event_ids (_get_cursor ctx k)) ->
  get_asset_cursor_with_advances adv k ctx = Ok (c, ctx') ->
  forall id,
    id ∈ advanced_ids adv k ->
    (id ∉ dict_values (trailing_unconsumed_partitioned_event_ids c))
    ∧ forall r, r ∈ instance ctx -> storage_id r = id ->
                ~ unconsumed_after (latest_consumed_event_id c) k r.
Proof.
  intros Hstore Hk Hready Hadv Hwf Hagree Hrun.
  destruct (has_instance_dec ctx) as [Hinst|Hnone];
    [by eapply asset_cursor_consumes_advanced|].
  destruct (instance_blind_asset_cursor adv k _ _ _ Hnone Hrun) as [_ Hrun'].
  rewrite <- (instance_with_empty_store ctx Hnone) in Hstore, Hagree |- *.
  eapply (asset_cursor_consumes_advanced (with_empty_store ctx)); try done.
  - apply has_instance_with_empty_store.
  - by apply cache_ready_with_empty_store.
Qed.

Lemma advanced_records_are_consumed_witness :
  let k := "A" in
  exists c ctx',
    store_wf (instance backlog_context)
    ∧ k ∈ asset_keys backlog_context
    ∧ cache_ready backlog_context k
    ∧ advances_wf backlog_advances
    ∧ dict_wf (trailing_unconsumed_partitioned_event_ids (_get_cursor backlog_context k))
    ∧ trailing_of_store (instance backlog_context)
        (trailing_unconsumed_partitioned_event_ids (_get_cursor backlog_context k))
    ∧ get_asset_cursor_with_advances backlog_advances k backlog_context = Ok (c, ctx')
    ∧ 5 ∈ advanced_ids backlog_advances k
    ∧ c = component (Some "p1") (Some 9) []
    ∧ 5 ∉ dict_values (trailing_unconsumed_partitioned_event_ids c).
Proof.
  intros k.
  pose (r := get_asset_cursor_with_advances backlog_advances k backlog_context).
  pose (c := match r with Ok (c, _) => c | Raise _ => component None None [] end).
  pose (ctx' := match r with Ok (_, x) => x | Raise _ => backlog_context end).
  exists c, ctx'.
  assert (H1 : store_wf (instance backlog_context)) by exact store_wf_backlog.
  assert (H2 : k ∈ asset_keys backlog_context) by by_compute.
  assert (H3 : cache_ready backlog_context k) by apply cache_ready_at_tick_start.
  assert (H4 : advances_wf backlog_advances)
    by (unfold backlog_advances; apply add_advanced_records_wf, add_advanced_records_wf,
          advances_wf_new).
  assert (H5 : dict_wf (trailing_unconsumed_partitioned_event_ids
                          (_get_cursor backlog_context k))) by by_compute.
  assert (H6 : trailing_of_store (instance backlog_context)
                 (trailing_unconsumed_partitioned_event_ids (_get_cursor backlog_context k))).
  { intros p id Hin. vm_compute in Hin.
    apply elem_of_cons in Hin as [[= -> ->]|Hin]; [by eexists|].
    apply list_elem_of_singleton in Hin as [= -> ->]. by eexists. }
  assert (H7 : get_asset_cursor_with_advances backlog_advances k backlog_context
               = Ok (c, ctx')) by (vm_compute; reflexivity).
  assert (H8 : 5 ∈ advanced_ids backlog_advances k) by by_compute.
  repeat (split; [assumption|]). split; [vm_compute; reflexivity|].
  exact (proj1 (advanced_records_are_consumed _ _ _ _ _ H1 H2 H3 H4 H5 H6 H7 5 H8)).
Defined.

Lemma asset_cursor_keeps_agreement ctx adv k c ctx' :
  has_instance ctx ->
  store_wf (instance ctx) -> k ∈ asset_keys ctx -> cache_ready ctx k -> advances_wf adv ->
  trailing_of_store (instance ctx)
    (trailing_unconsumed_partitioned_event_ids (_get_cursor ctx k)) ->
  get_asset_cursor_with_advances adv k ctx = Ok (c, ctx') ->
  trailing_of_store (instance ctx) (trailing_unconsumed_partitioned_event_ids c).
Proof.
  intros Hinst Hstore Hk Hready Hadv Hagree Hrun.
  destruct (decide (advanced_ids adv k = ∅)) as [Hnone|Hsome].
  { rewrite get_asset_cursor_without_advances in Hrun by done. by injection Hrun as <- _. }
  pose proof (get_asset_cursor_with_advances_spec ctx adv k Hinst Hstore Hk Hready Hadv
                Hsome) as Hspec.
  destruct (next_component _ adv k _) as [c'|e] eqn:Hnext; [|by rewrite Hspec in Hrun].
  destruct Hspec as (ctx'' & Hrun' & _). rewrite Hrun' in Hrun. injection Hrun as <- _.
  clear Hrun'. unfold next_component in Hnext.
  destruct (_ <=? _)%nat; [discriminate|]. injection Hnext as <-.
  cbn [trailing_unconsumed_partitioned_event_ids].
  destruct (advance_all_cursors_called adv).
  { intros p id Hin. by apply elem_of_nil in Hin. }
  pose proof (store_wf_NoDup _ Hstore) as Hnd.
  set (agrees := fun pid : string * Z =>
         exists e, stored_event (instance ctx) (snd pid) = Some e
                   ∧ _get_partition_key_from_event_log_record e = Some (fst pid)).
  assert (Hall : Forall agrees (trailing_with_backlog (instance ctx) adv k (_get_cursor ctx k))).
  { unfold trailing_with_backlog.
    assert (Hfold : Forall agrees (fold_left (overlay_event (advanced_ids adv k))
              (trailing_events_at_tick_start (instance ctx)
                 (trailing_unconsumed_partitioned_event_ids (_get_cursor ctx k))
               ++ events_strictly_between (instance ctx) k
                    (or_zero (latest_consumed_event_id (_get_cursor ctx k)))
                    (max_advanced_id adv k))%list
              (trailing_unconsumed_partitioned_event_ids (_get_cursor ctx k)))).
    { apply fold_overlay_total_invariant.
      - intros e p He Hp. exists e. split; [|done]. apply stored_event_unique; [done|].
        apply elem_of_app in He as [He|He].
        + by apply (elem_of_trailing_events _ _ _ Hnd) in He as [? _].
        + by apply list_elem_of_filter in He as [_ ?].
      - apply Forall_forall. intros [p id] Hin. by apply Hagree. }
    unfold remove_partition. destruct (max_advanced_partition adv k); [|done].
    by apply dict_pop_Forall. }
  intros p id Hin. rewrite Forall_forall in Hall. by apply (Hall (p, id)).
Qed.

(** X28: the finalization keeps the trailing map in agreement with the
    store. On a store whose ids are positive and growing, when every entry
    of the trailing map a monitored asset starts the tick with files the id
    of a stored record under the partition of that record, so does every
    entry of the trailing map [get_asset_cursor_with_advances] computes. *)
Theorem get_asset_cursor_with_advances_keeps_agreement ctx adv k c ctx' :
  store_wf (instance ctx) -> k ∈ asset_keys ctx -> cache_ready ctx k -> advances_wf adv ->
  trailing_of_store (instance ctx)
    (trailing_unconsumed_partitioned_event_ids (_get_cursor ctx k)) ->
  get_asset_cursor_with_advances adv k ctx = Ok (c, ctx') ->
  trailing_of_store (instance ctx) (trailing_unconsumed_partitioned_event_ids c).
Proof.
  intros Hstore Hk Hready Hadv Hagree Hrun.
  destruct (has_instance_dec ctx) as [Hinst|Hnone];
    [by eapply asset_cursor_keeps_agreement|].
  destruct (instance_blind_asset_cursor adv k _ _ _ Hnone Hrun) as [_ Hrun'].
  rewrite <- (instance_with_empty_store ctx Hnone) in Hstore, Hagree |- *.
  eapply (asset_cursor_keeps_agreement (with_empty_store ctx)); try done.
  - apply has_instance_with_empty_store.
  - by apply cache_ready_with_empty_store.
Qed.

Lemma get_asset_cursor_with_advances_keeps_agreement_witness :
  let k := "A" in
  exists c ctx',
    store_wf (instance scenario_context)
    ∧ k ∈ asset_keys scenario_context
    ∧ cache_ready scenario_context k
    ∧ advances_wf scenario_advances
    ∧ trailing_of_store (instance scenario_context)
        (trailing_unconsumed_partitioned_event_ids (_get_cursor scenario_context k))
    ∧ get_asset_cursor_with_advances scenario_advances k scenario_context = Ok (c, ctx')
    ∧ trailing_unconsumed_partitioned_event_ids c = [("p2", 12)]
    ∧ trailing_of_store (instance scenario_context)
        (trailing_unconsumed_partitioned_event_ids c).
Proof.
  intros k.
  pose (r := get_asset_cursor_with_advances scenario_advances k scenario_context).
  pose (c := match r with Ok (c, _) => c | Raise _ => component None None [] end).
  pose (ctx' := match r with Ok (_, x) => x | Raise _ => scenario_context end).
  exists c, ctx'.
  assert (H1 : store_wf (instance scenario_context)) by exact store_wf_scenario.
  assert (H2 : k ∈ asset_keys scenario_context) by by_compute.
  assert (H3 : cache_ready scenario_context k) by apply cache_ready_at_tick_start.
  assert (H4 : advances_wf scenario_advances)
    by apply add_advanced_records_wf, advances_wf_new.
  assert (H5 : trailing_of_store (instance scenario_context)
                 (trailing_unconsumed_partitioned_event_ids (_get_cursor scenario_context k))).
  { intros p id Hin. vm_compute in Hin. by apply elem_of_nil in Hin. }
  assert (H6 : get_asset_cursor_with_advances scenario_advances k scenario_context
               = Ok (c, ctx')) by (vm_compute; reflexivity).
  repeat (split; [assumption|]). split; [vm_compute; reflexivity|].
  exact (get_asset_cursor_with_advances_keeps_agreement _ _ _ _ _ H1 H2 H3 H4 H5 H6).
Defined.

(** ** Records by partition and asset *)

Lemma keep_latest_fold_wf ptf es :
  forall d, dict_wf d -> dict_wf (fold_left (keep_latest ptf) es d).
Proof.
  induction es as [|e es IH]; intros d Hd; cbn [fold_left]; [done|].
  apply IH. unfold keep_latest.
  destruct (_get_partition_key_from_event_log_record e); [|done].
  destruct (bool_decide _); [by apply ordered_put_wf|done].
Qed.

Lemma latest_by_partition_all_run ctx k keys :
  has_instance ctx ->
  NoDup (map storage_id (instance ctx)) -> k ∈ asset_keys ctx -> cache_ready ctx k ->
  partitions_def_by_asset_key ctx k = Some keys ->
  exists cache',
    latest_materialization_records_by_partition k false ctx
    = Ok (records_by_partition (instance ctx) (_get_cursor ctx k) k keys,
          set_cache cache' true ctx)
    ∧ (forall k', k' ∈ asset_keys ctx -> cache_ready ctx k' ->
                  cache_ready (set_cache cache' true ctx) k').
Proof.
  intros Hinst Hnd Hk Hready Hdef.
  destruct (get_trailing_unconsumed_events_spec ctx k Hinst Hnd Hk Hready)
    as (cache' & Htrail & Hkeep).
  unfold get_trailing_unconsumed_events in Htrail.
  rewrite tick_bind_run in Htrail. cbn [tick_get] in Htrail.
  exists cache'. split; [|exact Hkeep].
  unfold latest_materialization_records_by_partition.
  rewrite tick_bind_run. cbn [tick_get]. rewrite bool_decide_eq_true_2 by done. cbn [negb].
  rewrite Hdef, tick_bind_run. cbn [mret Tick_ret tick_ret].
  rewrite tick_bind_run, Htrail, tick_bind_run, read_instance_run by done.
  rewrite instance_set_cache. unfold records_by_partition.
  rewrite fold_left_app, (fold_put_all_keep keys); [done|].
  apply Forall_forall. intros r Hr p Hp.
  unfold get_event_records, opt_take in Hr.
  apply list_elem_of_filter in Hr as [Hr _].
  apply record_matches_partitions in Hr as (_ & p' & Hp' & Hin). congruence.
Qed.

Lemma tick_mapM_by_partition keys0 keys :
  forall ctx,
    has_instance ctx ->
    NoDup (map storage_id (instance ctx)) ->
    (forall k, k ∈ keys ->
               k ∈ asset_keys ctx ∧ partitions_def_by_asset_key ctx k = Some keys0) ->
    (forall k, k ∈ asset_keys ctx -> cache_ready ctx k) ->
    exists cache' fetched,
      tick_mapM (fun asset_key =>
                   m ← latest_materialization_records_by_partition asset_key false;
                   mret (asset_key, m)) keys ctx
      = Ok (map (fun k => (k, records_by_partition (instance ctx) (_get_cursor ctx k) k keys0))
              keys,
            set_cache cache' fetched ctx).
Proof.
  induction keys as [|k keys IH]; intros ctx Hinst Hnd Hkeys Hready.
  - exists (initial_unconsumed_events_by_id ctx), (fetched_initial_unconsumed_events ctx).
    by destruct ctx.
  - destruct (Hkeys k) as [Hk Hdef]; [by left|].
    destruct (latest_by_partition_all_run ctx k keys0 Hinst Hnd Hk (Hready k Hk) Hdef)
      as (cache1 & Hrun & Hkeep).
    destruct (IH (set_cache cache1 true ctx)) as (cache2 & fetched2 & Hrest).
    + done.
    + done.
    + intros k' Hk'. apply Hkeys. by right.
    + intros k' Hk'. apply Hkeep; [done|]. by apply Hready.
    + exists cache2, fetched2. rewrite tick_mapM_cons, tick_bind_run, Hrun.
      cbn [mret Tick_ret tick_ret]. by rewrite Hrest.
Qed.

Lemma lookup_record_inner a0 m :
  forall acc p a,
    dict_wf m ->
    lookup_record
      (fold_left
         (fun acc' (pm : string * EventLogRecord) =>
            dict_set (fst pm) (dict_set a0 (snd pm) (default [] (dict_get (fst pm) acc')))
              acc')
         m acc) p a
    = if decide (a = a0) then
        match dict_get p m with
        | Some r => Some r
        | None => lookup_record acc p a
        end
      else lookup_record acc p a.
Proof.
  induction m as [|[p1 r1] m IH]; intros acc p a Hwf; cbn [fold_left fst snd].
  - cbn [dict_get]. by destruct (decide (a = a0)).
  - unfold dict_wf in Hwf. cbn [map fst] in Hwf. apply NoDup_cons in Hwf as [Hnin Hwf].
    rewrite IH by done. cbn [dict_get].
    assert (Hstep : lookup_record
                      (dict_set p1 (dict_set a0 r1 (default [] (dict_get p1 acc))) acc) p a
                    = if decide (p = p1) then
                        if decide (a = a0) then Some r1 else lookup_record acc p a
                      else lookup_record acc p a).
    { unfold lookup_record. destruct (decide (p = p1)) as [->|Hp].
      - rewrite dict_get_set_eq. destruct (decide (a = a0)) as [->|Ha].
        + apply dict_get_set_eq.
        + rewrite dict_get_set_ne by done. by destruct (dict_get p1 acc).
      - by rewrite dict_get_set_ne. }
    rewrite Hstep. destruct (decide (a = a0)) as [->|Ha]; [|by destruct (decide (p = p1))].
    destruct (decide (p = p1)) as [->|Hp]; [|done].
    destruct (dict_get p1 m) as [r|] eqn:Hget; [|done].
    apply dict_get_Some_elem in Hget. destruct Hnin.
    by apply (list_elem_of_fmap_2 fst) in Hget.
Qed.

Lemma lookup_record_outer (V : AssetKey -> list (string * EventLogRecord)) keys :
  forall acc p a,
    NoDup keys -> (forall k, dict_wf (V k)) ->
    lookup_record
      (fold_left
         (fun acc (am : AssetKey * list (string * EventLogRecord)) =>
            fold_left
              (fun acc' (pm : string * EventLogRecord) =>
                 dict_set (fst pm)
                   (dict_set (fst am) (snd pm) (default [] (dict_get (fst pm) acc'))) acc')
              (snd am) acc)
         (map (fun k => (k, V k)) keys) acc) p a
    = if decide (a ∈ keys) then
        match dict_get p (V a) with
        | Some r => Some r
        | None => lookup_record acc p a
        end
      else lookup_record acc p a.
Proof.
  induction keys as [|k keys IH]; intros acc p a Hnd Hwf; cbn [fold_left map fst snd].
  - rewrite decide_False; [done|]. apply not_elem_of_nil.
  - apply NoDup_cons in Hnd as [Hnin Hnd]. rewrite IH by done.
    rewrite (lookup_record_inner k (V k)) by done.
    destruct (decide (a = k)) as [->|Hne].
    + rewrite (decide_False (P := k ∈ keys)) by done.
      by rewrite (decide_True (P := k ∈ k :: keys)) by by left.
    + destruct (decide (a ∈ keys)) as [Hin|Hout].
      * by rewrite decide_True by by right.
      * rewrite decide_False; [done|]. rewrite elem_of_cons. tauto.
Qed.

(** X29: [latest_materialization_records_by_partition_and_asset] regroups
    the answers of [latest_materialization_records_by_partition]. Take a
    context with an instance whose store holds no id twice and whose cache
    of fetched records is in step with its cursor (as it is from the start
    of a tick up to a finalization). When the monitored assets, of which
    there is one at least and none is listed twice, share one partitions
    definition, the call returns, and what it files under a partition for a
    monitored asset is the record the query by partition of that asset files
    under the partition; for another asset it files nothing. *)
Theorem records_by_partition_and_asset_regroup ctx keys0 :
  has_instance ctx ->
  NoDup (map storage_id (instance ctx)) -> NoDup (asset_keys ctx) ->
  asset_keys ctx ≠ [] ->
  (forall k, k ∈ asset_keys ctx ->
             cache_ready ctx k ∧ partitions_def_by_asset_key ctx k = Some keys0) ->
  exists result ctx',
    latest_materialization_records_by_partition_and_asset ctx = Ok (result, ctx')
    ∧ forall p a,
        lookup_record result p a
        = if decide (a ∈ asset_keys ctx) then
            match returned (latest_materialization_records_by_partition a false ctx) with
            | Ok m => dict_get p m
            | Raise _ => None
            end
          else None.
Proof.
  intros Hinst Hnd Hkeys Hsome Hall.
  destruct (tick_mapM_by_partition keys0 (asset_keys ctx) ctx Hinst Hnd)
    as (cache' & fetched & Hmap).
  { intros k Hk. split; [done|]. by apply Hall. }
  { intros k Hk. by apply Hall. }
  unfold latest_materialization_records_by_partition_and_asset.
  rewrite tick_bind_run. cbn [tick_get]. cbv zeta.
  assert (Hdefs : map (partitions_def_by_asset_key ctx) (asset_keys ctx)
                  = map (fun _ => Some keys0) (asset_keys ctx)).
  { apply map_ext_in. intros k Hk. apply list_elem_of_In in Hk. by apply Hall. }
  rewrite Hdefs. destruct (asset_keys ctx) as [|k0 keys] eqn:Heq; [done|].
  cbn [map]. rewrite <- Heq in *.
  assert (Hsame : forallb (fun x : option (list string) => bool_decide (x = Some keys0))
                    (Some keys0 :: map (fun _ => Some keys0) keys) = true).
  { apply forallb_forall. intros x Hx. apply bool_decide_eq_true.
    destruct Hx as [<-|Hx]; [done|]. by apply in_map_iff in Hx as (? & <- & _). }
  rewrite Hsame, tick_bind_run, Hmap. eexists _, _. split; [reflexivity|].
  intros p a.
  rewrite (lookup_record_outer
             (fun k => records_by_partition (instance ctx) (_get_cursor ctx k) k keys0)).
  - destruct (decide (a ∈ asset_keys ctx)) as [Ha|Ha]; [|done].
    destruct (Hall a Ha) as [Hready Hdef].
    destruct (latest_by_partition_all_run ctx a keys0 Hinst Hnd Ha Hready Hdef)
      as (c & -> & _).
    cbn [returned]. by destruct (dict_get p _).
  - done.
  - intros k. apply keep_latest_fold_wf, NoDup_nil_2.
Qed.

Lemma records_by_partition_and_asset_regroup_witness :
  has_instance shared_partitions_context
  ∧ NoDup (map storage_id (instance shared_partitions_context))
  ∧ NoDup (asset_keys shared_partitions_context)
  ∧ asset_keys shared_partitions_context ≠ []
  ∧ (forall k, k ∈ asset_keys shared_partitions_context ->
               cache_ready shared_partitions_context k
               ∧ partitions_def_by_asset_key shared_partitions_context k
                 = Some ["p1"; "p2"; "p3"; "p4"])
  ∧ exists result ctx',
      latest_materialization_records_by_partition_and_asset shared_partitions_context
      = Ok (result, ctx')
      ∧ lookup_record result "p2" "A" = Some (materialization 12 "A" (Some "p2"))
      ∧ lookup_record result "p2" "B" = Some (materialization 10 "B" (Some "p2"))
      ∧ lookup_record result "p4" "A" = Some (materialization 7 "A" (Some "p4"))
      ∧ lookup_record result "p4" "B" = None
      ∧ lookup_record result "p2" "C" = None.
Proof.
  assert (H0 : has_instance shared_partitions_context) by by eexists.
  assert (H1 : NoDup (map storage_id (instance shared_partitions_context))) by by_compute.
  assert (H2 : NoDup (asset_keys shared_partitions_context)) by by_compute.
  assert (H3 : asset_keys shared_partitions_context ≠ []) by discriminate.
  assert (H4 : forall k, k ∈ asset_keys shared_partitions_context ->
                         cache_ready shared_partitions_context k
                         ∧ partitions_def_by_asset_key shared_partitions_context k
                           = Some ["p1"; "p2"; "p3"; "p4"]).
  { intros k _. split; [|reflexivity]. split.
    - intros id r Hl. cbn in Hl. by rewrite lookup_empty in Hl.
    - intros Hf. discriminate. }
  repeat (split; [assumption|]).
  destruct (records_by_partition_and_asset_regroup shared_partitions_context _ H0 H1 H2 H3 H4)
    as (result & ctx' & Hrun & Hlook).
  exists result, ctx'. split; [exact Hrun|].
  rewrite !Hlook. vm_compute. by repeat split.
Defined.
